(** * A bump arena and a B+ tree with three point lookups

    Shallow embedding of [bplustree.hpp]: the [Arena] class and the
    [BPlusTree<int, int, M>] template, the instance the benchmarks build.

    - C++ [int] keys and values are [Z]; the tree only copies and compares
      them, so no arithmetic on them can wrap.  [size_t] and the
      [uint16_t num_keys] wrap, and that is written out.
    - Array indices and [num_keys] are [nat], except in the binary search,
      whose [int] variables [hi] and [i] start at [num_keys - 1] and can be
      [-1]; those are [Z].
    - A C++ array is the list of its initialised slots.  [keys] and [values]
      keep every slot ever written, also the stale ones past [num_keys]
      (the AVX2 loads read them); a load past that list sees arbitrary
      memory, given by a function [junk].  The invariants below constrain
      the live slots only, so a list can carry any contents behind them.
    - A node is a value, a child pointer the subtree it points to: every
      node has one parent, and a function that updates a node in place
      returns the updated node.
    - The result of a function is an [option]: [None] is undefined
      behaviour (an access outside an array or to a slot never written, a
      null or wild child pointer).
    - In [insert_recursive] and the functions around it [new Node] is
      taken to succeed; [Arena::allocate], which it calls, is modelled on
      its own.  The functions of the part "Insertion with the arena" are
      the same functions with the global arena passed along and a failed
      allocation as one of their results. *)

From stdpp Require Import base option list numbers.
From Stdlib Require Import ZArith Lia Bool.

Local Open Scope Z_scope.
Local Open Scope nat_scope.

(** ** Arrays *)

Module Arr.

(** [a[i]] for an [int] index. *)
Definition rdZ {A} (a : list A) (i : Z) : option A :=
  if (i <? 0)%Z then None else a !! Z.to_nat i.

(** [a[i] = x] in an array of [cap] slots of which [length a] are
    initialised.  The code only ever writes an initialised slot or the
    first fresh one. *)
Definition wr {A} (cap : nat) (a : list A) (i : nat) (x : A) : option (list A) :=
  if cap <=? i then None
  else if i <? length a then Some (<[i := x]> a)
  else if i =? length a then Some (a ++ [x])
  else None.

(** [for (k = hi; k > lo; k--) a[k] = a[k-1];] with [cnt = hi - lo]
    iterations to go and [k] the slot written next. *)
Fixpoint shift_right {A} (cap : nat) (a : list A) (cnt k : nat) : option (list A) :=
  match cnt with
  | 0 => Some a
  | S cnt' =>
      x ← a !! (k - 1);
      a' ← wr cap a k x;
      shift_right cap a' cnt' (k - 1)
  end.

(** [for (j = k; j < n - 1; j++) a[j] = a[j+1];] with [cnt] iterations
    to go. *)
Fixpoint shift_left {A} (cap : nat) (a : list A) (cnt j : nat) : option (list A) :=
  match cnt with
  | 0 => Some a
  | S cnt' =>
      x ← a !! (j + 1);
      a' ← wr cap a j x;
      shift_left cap a' cnt' (j + 1)
  end.

(** [for (i = 0; i < cnt; i++) dst[i] = src[from + i];] into a fresh
    array [dst]. *)
Fixpoint copy_from {A} (cap : nat) (src dst : list A) (from cnt i : nat)
  : option (list A) :=
  match cnt with
  | 0 => Some dst
  | S cnt' =>
      x ← src !! (from + i);
      dst' ← wr cap dst i x;
      copy_from cap src dst' from cnt' (i + 1)
  end.

(** Run [f] on the [i]-th element.  The element is reached by structural
    descent so that a recursive [f] stays guarded. *)
Definition at_index {A R} (f : A → option R) : list A → nat → option R :=
  fix go (l : list A) (i : nat) : option R :=
    match l with
    | [] => None
    | c :: l' => match i with 0 => f c | S i' => go l' i' end
    end.

Definition at_indexZ {A R} (f : A → option R) (l : list A) (i : Z) : option R :=
  if (i <? 0)%Z then None else at_index f l (Z.to_nat i).

End Arr.

(** ** The arena *)

Module Arena.

(** [size_t] on the x86-64 targets of the AVX2 code. *)
Definition size_max : Z := 2 ^ 64.
Definition wrap (x : Z) : Z := x mod size_max.

(** [memory] is the base address returned by malloc. *)
Record t : Type := mk { memory : Z; offset : Z; capacity : Z }.

Inductive result : Type :=
| Ptr (address : Z)
| OutOfArena.

(** [Arena(size)], malloc having succeeded and returned [base]. *)
Definition new (base size : Z) : t := mk base 0 size.

(** [(bytes + 63) & ~63] in [size_t] arithmetic. *)
Definition aligned_bytes (bytes : Z) : Z :=
  Z.land (wrap (bytes + 63)) (wrap (Z.lnot 63)).

Definition allocate (a : t) (bytes : Z) : result * t :=
  let aligned := aligned_bytes bytes in
  if (capacity a <? wrap (offset a + aligned))%Z
  then (OutOfArena, a)
  else (Ptr (memory a + offset a),
        mk (memory a) (wrap (offset a + aligned)) (capacity a)).

Definition get_used_memory (a : t) : Z := offset a.
Definition get_capacity (a : t) : Z := capacity a.
Definition reset (a : t) : t := mk (memory a) 0 (capacity a).

(** A run of requests; stops at the first one that throws. *)
Fixpoint allocate_all (a : t) (reqs : list Z) : option t :=
  match reqs with
  | [] => Some a
  | b :: reqs' =>
      match allocate a b with
      | (Ptr _, a') => allocate_all a' reqs'
      | (OutOfArena, _) => None
      end
  end.

Definition well_formed (a : t) : Prop :=
  (0 ≤ offset a ≤ capacity a ∧ capacity a < size_max)%Z.

End Arena.

(** ** Nodes *)

(** [struct Node]: the [is_leaf] tag selects the member of the union.
    [children] holds the subtrees behind [children[0..num_keys]]; the
    pointers a split leaves behind past [num_keys] are never read and are
    not kept. *)
#[local] Unset Elimination Schemes.
Inductive Node : Type :=
| Leaf (num_keys : nat) (keys : list Z) (values : list Z)
| Internal (num_keys : nat) (keys : list Z) (children : list Node).
#[local] Set Elimination Schemes.

Definition is_leaf (t : Node) : bool :=
  match t with Leaf _ _ _ => true | Internal _ _ _ => false end.

Definition num_keys (t : Node) : nat :=
  match t with Leaf n _ _ => n | Internal n _ _ => n end.

(** Storing an [int] into [uint16_t num_keys]. *)
Definition u16 (x : Z) : nat := Z.to_nat (x mod 65536).

(** [int i = 0; while (i < num_keys && cmp(key, keys[i])) i++;] with [todo]
    the slots left before [num_keys]. *)
Fixpoint scan (cmp : Z → Z → bool) (key : Z) (keys : list Z) (todo i : nat)
  : option nat :=
  match todo with
  | 0 => Some i
  | S todo' =>
      k ← keys !! i;
      if cmp key k then scan cmp key keys todo' (S i) else Some i
  end.

(** ** Lookup *)

Section Lookup.

(** [for (i = 0; i < num_keys; i++) if (keys[i] == key) { val_out =
    values[i]; return true; } return false;] *)
Fixpoint leaf_linear (key : Z) (keys values : list Z) (todo i : nat) (val_out : Z)
  : option (bool * Z) :=
  match todo with
  | 0 => Some (false, val_out)
  | S todo' =>
      k ← keys !! i;
      if (k =? key)%Z then v ← values !! i; Some (true, v)
      else leaf_linear key keys values todo' (S i) val_out
  end.

Fixpoint findLinear (curr : Node) (key val_out : Z) : option (bool * Z) :=
  match curr with
  | Internal n ks cs =>
      i ← scan Z.geb key ks n 0;
      Arr.at_index (λ c, findLinear c key val_out) cs i
  | Leaf n ks vs => leaf_linear key ks vs n 0 val_out
  end.

(** The [while (lo <= hi)] loop of [findBinary]; [below k key] is
    [k <= key] in an internal node and [k < key] in a leaf.  Returns the
    final [(i, hi)].  The interval shrinks every round, so [num_keys]
    rounds of [fuel] are enough. *)
Fixpoint bsearch (below : Z → Z → bool) (keys : list Z) (key : Z)
    (fuel : nat) (lo hi i : Z) : option (Z * Z) :=
  if (hi <? lo)%Z then Some (i, hi)
  else match fuel with
       | 0 => None
       | S fuel' =>
           let mid := (lo + Z.quot (hi - lo) 2)%Z in
           k ← Arr.rdZ keys mid;
           if below k key
           then bsearch below keys key fuel' (mid + 1)%Z hi i
           else bsearch below keys key fuel' lo (mid - 1)%Z mid
       end.

Fixpoint findBinary (curr : Node) (key val_out : Z) : option (bool * Z) :=
  match curr with
  | Internal n ks cs =>
      let hi0 := (Z.of_nat n - 1)%Z in
      '(i, hi) ← bsearch Z.leb ks key n 0%Z hi0 hi0;
      let descend := Arr.at_indexZ (λ c, findBinary c key val_out) cs in
      if (i =? hi)%Z then
        k ← Arr.rdZ ks i;
        if (k >? key)%Z then descend i else descend (i + 1)%Z
      else descend i
  | Leaf n ks vs =>
      let hi0 := (Z.of_nat n - 1)%Z in
      '(i, _) ← bsearch Z.ltb ks key n 0%Z hi0 hi0;
      if (0 <=? i)%Z && (i <? Z.of_nat n)%Z then
        k ← Arr.rdZ ks i;
        if (k =? key)%Z then v ← Arr.rdZ vs i; Some (true, v)
        else Some (false, val_out)
      else Some (false, val_out)
  end.

(** *** The AVX2 lookup, for [int] keys *)

(** A [__m256i] is its eight 32-bit lanes, lane 0 first, each a signed
    value. *)
Definition mm256_set1_epi32 (a : Z) : list Z := replicate 8 a.

(** [_mm256_loadu_si256((__m256i * )&keys[i])]: slots never written hold
    whatever [junk] says. *)
Definition mm256_loadu_si256 (junk : nat → Z) (keys : list Z) (i : nat) : list Z :=
  (λ j, default (junk (i + j)) (keys !! (i + j))) <$> seq 0 8.

(** A lane of the result is all ones or all zeros. *)
Definition mm256_cmpgt_epi32 (a b : list Z) : list Z :=
  zip_with (λ x y, if (x >? y)%Z then (-1)%Z else 0%Z) a b.

Definition mm256_cmpeq_epi32 (a b : list Z) : list Z :=
  zip_with (λ x y, if (x =? y)%Z then (-1)%Z else 0%Z) a b.

(** [_mm256_movemask_ps]: bit [j] of the result is the top bit of lane
    [j]. *)
Definition mm256_movemask_ps (v : list Z) : Z :=
  foldr (λ lane acc, (Z.b2z (Z.testbit lane 31) + 2 * acc)%Z) 0%Z v.

(** [__builtin_ctz] on a non-zero 32-bit mask. *)
Fixpoint ctz_from (bits : nat) (x : Z) (j : nat) : nat :=
  match bits with
  | 0 => j
  | S bits' => if Z.testbit x (Z.of_nat j) then j else ctz_from bits' x (S j)
  end.
Definition builtin_ctz (x : Z) : nat := ctz_from 32 x 0.

(** [for (; i < num_keys; i += 8)] over chunks of eight keys: [Some idx]
    when the loop is left with a lane [idx < num_keys], [None] when it
    runs to its end.  A round advances [i] by 8, so [num_keys] rounds of
    [fuel] are enough.  The prefetches have no effect on the result. *)
Fixpoint simd_scan (cmp : list Z → list Z → list Z) (junk : nat → Z)
    (keys : list Z) (target : list Z) (n fuel i : nat) : option nat :=
  match fuel with
  | 0 => None
  | S fuel' =>
      if i <? n then
        let chunk := mm256_loadu_si256 junk keys i in
        let mask := mm256_movemask_ps (cmp chunk target) in
        if negb (mask =? 0)%Z then
          let idx := i + builtin_ctz mask in
          if idx <? n then Some idx
          else simd_scan cmp junk keys target n fuel' (i + 8)
        else simd_scan cmp junk keys target n fuel' (i + 8)
      else None
  end.

(** The overload enabled for [KeyType = int]. *)
Fixpoint findSIMD (junk : nat → Z) (curr : Node) (key val_out : Z)
  : option (bool * Z) :=
  match curr with
  | Internal n ks cs =>
      let target_key_vec := mm256_set1_epi32 key in
      let result_index :=
        default n (simd_scan mm256_cmpgt_epi32 junk ks target_key_vec n n 0) in
      Arr.at_index (λ c, findSIMD junk c key val_out) cs result_index
  | Leaf n ks vs =>
      let target_vec := mm256_set1_epi32 key in
      match simd_scan mm256_cmpeq_epi32 junk ks target_vec n n 0 with
      | Some idx => v ← vs !! idx; Some (true, v)
      | None => Some (false, val_out)
      end
  end.

(** The overload for every other key type. *)
Definition findSIMD_fallback (curr : Node) (key val_out : Z) : option (bool * Z) :=
  findBinary curr key val_out.

End Lookup.

(** ** Insertion and removal *)

Section Tree.

(** The fan-out, a template argument. *)
Variable M : nat.

(** [BPlusTree()]: the root is a fresh leaf. *)
Definition empty : Node := Leaf 0 [] [].

(** The old node keeps its arrays and only lowers [num_keys].  Returns
    the old node, the new leaf and the median copied up. *)
Definition split_leaf (n : nat) (ks vs : list Z) : option (Node * (Node * Z)) :=
  let mid := M / 2 in
  let num_moving := (Z.of_nat n - Z.of_nat mid)%Z in
  nks ← Arr.copy_from M ks [] mid (Z.to_nat num_moving) 0;
  nvs ← Arr.copy_from M vs [] mid (Z.to_nat num_moving) 0;
  median ← nks !! 0;
  Some (Leaf (u16 (Z.of_nat mid)) ks vs, (Leaf (u16 num_moving) nks nvs, median)).

Definition split_internal (n : nat) (ks : list Z) (cs : list Node)
  : option (Node * (Node * Z)) :=
  let mid := M / 2 in
  median ← ks !! mid;
  let num_keys_moving := (Z.of_nat n - (Z.of_nat mid + 1))%Z in
  nks ← Arr.copy_from M ks [] (mid + 1) (Z.to_nat num_keys_moving) 0;
  let num_children_moving := (num_keys_moving + 1)%Z in
  ncs ← Arr.copy_from (M + 1) cs [] (mid + 1) (Z.to_nat num_children_moving) 0;
  Some (Internal (u16 (Z.of_nat mid)) ks (take (mid + 1) cs),
        (Internal (u16 num_keys_moving) nks ncs, median)).

(** Returns the node after the call and, when it split, the new sibling
    with its median ([new_sibling] stays null otherwise).  The two arrays
    of a node are disjoint, so a loop over both is run on each in turn. *)
Fixpoint insert_recursive (node : Node) (key value : Z)
  : option (Node * option (Node * Z)) :=
  match node with
  | Leaf n ks vs =>
      i ← scan Z.gtb key ks n 0;
      hit ← (if 0 <? i then k ← ks !! (i - 1); Some (k =? key)%Z else Some false);
      if hit : bool then
        vs' ← Arr.wr M vs (i - 1) value;
        Some (Leaf n ks vs', None)
      else
        ks1 ← Arr.shift_right M ks (n - i) n;
        vs1 ← Arr.shift_right M vs (n - i) n;
        ks2 ← Arr.wr M ks1 i key;
        vs2 ← Arr.wr M vs1 i value;
        let n' := u16 (Z.of_nat n + 1) in
        if M <=? n' then
          '(old, sp) ← split_leaf n' ks2 vs2; Some (old, Some sp)
        else Some (Leaf n' ks2 vs2, None)
  | Internal n ks cs =>
      i ← scan Z.gtb key ks n 0;
      '(child, sp) ← Arr.at_index (λ c, insert_recursive c key value) cs i;
      let cs0 := <[i := child]> cs in
      match sp with
      | None => Some (Internal n ks cs0, None)
      | Some (child_sibling, child_median) =>
          ks1 ← Arr.shift_right M ks (n - i) n;
          cs1 ← Arr.shift_right (M + 1) cs0 (n + 1 - (i + 1)) (n + 1);
          ks2 ← Arr.wr M ks1 i child_median;
          cs2 ← Arr.wr (M + 1) cs1 (i + 1) child_sibling;
          let n' := u16 (Z.of_nat n + 1) in
          if M <=? n' then
            '(old, sp') ← split_internal n' ks2 cs2; Some (old, Some sp')
          else Some (Internal n' ks2 cs2, None)
      end
  end.

(** Returns the new root. *)
Definition insert (root : Node) (key value : Z) : option Node :=
  '(root', sp) ← insert_recursive root key value;
  match sp with
  | None => Some root'
  | Some (new_child, median) =>
      ks ← Arr.wr M [] 0 median;
      cs0 ← Arr.wr (M + 1) [] 0 root';
      cs1 ← Arr.wr (M + 1) cs0 1 new_child;
      Some (Internal (u16 1) ks cs1)
  end.

(** The [for (k = 0; k < num_keys; k++)] loop of [remove_recursive]. *)
Fixpoint remove_leaf (key : Z) (n : nat) (ks vs : list Z) (todo k : nat)
  : option Node :=
  match todo with
  | 0 => Some (Leaf n ks vs)
  | S todo' =>
      x ← ks !! k;
      if (x =? key)%Z then
        ks' ← Arr.shift_left M ks (n - 1 - k) k;
        vs' ← Arr.shift_left M vs (n - 1 - k) k;
        Some (Leaf (u16 (Z.of_nat n - 1)) ks' vs')
      else remove_leaf key n ks vs todo' (S k)
  end.

Fixpoint remove_recursive (node : Node) (key : Z) : option Node :=
  match node with
  | Leaf n ks vs =>
      _ ← scan Z.geb key ks n 0;
      remove_leaf key n ks vs n 0
  | Internal n ks cs =>
      i ← scan Z.geb key ks n 0;
      child ← Arr.at_index (λ c, remove_recursive c key) cs i;
      Some (Internal n ks (<[i := child]> cs))
  end.

Definition remove (root : Node) (key : Z) : option Node :=
  remove_recursive root key.

(** A run of [insert]s, first pair first. *)
Fixpoint insert_all (root : Node) (kvs : list (Z * Z)) : option Node :=
  match kvs with
  | [] => Some root
  | (k, v) :: kvs' => root' ← insert root k v; insert_all root' kvs'
  end.

End Tree.

(** ** Induction over nodes *)

Fixpoint Node_ind (P : Node → Prop)
    (HLeaf : ∀ n ks vs, P (Leaf n ks vs))
    (HInternal : ∀ n ks cs, Forall P cs → P (Internal n ks cs))
    (t : Node) : P t :=
  match t with
  | Leaf n ks vs => HLeaf n ks vs
  | Internal n ks cs =>
      HInternal n ks cs
        ((fix all (l : list Node) : Forall P l :=
            match l with
            | [] => Forall_nil P
            | c :: l' => Forall_cons P c l' (Node_ind P HLeaf HInternal c) (all l')
            end) cs)
  end.

(** ** Invariants of the specification *)

(** The live keys of a node are [keys[0..num_keys)]. *)
Definition live {A} (n : nat) (a : list A) : list A := take n a.

(** Node shape: [num_keys] fits its [uint16_t], the live slots have been
    written, an internal node has [num_keys + 1] children. *)
Fixpoint shapeb (t : Node) : bool :=
  match t with
  | Leaf n ks vs =>
      (Z.of_nat n <? 65536)%Z && (n <=? length ks) && (n <=? length vs)
  | Internal n ks cs =>
      (Z.of_nat n <? 65536)%Z && (n <=? length ks) && (length cs =? n + 1)
      && forallb shapeb cs
  end.

(** Capacity: [0 <= num_keys <= M] in every node. *)
Fixpoint capacityb (M : nat) (t : Node) : bool :=
  match t with
  | Leaf n _ _ => n <=? M
  | Internal n _ cs => (n <=? M) && forallb (capacityb M) cs
  end.

(** [keys[i] < keys[i+1]] along a list. *)
Fixpoint ascendingb (l : list Z) : bool :=
  match l with
  | a :: (b :: _) as l' => (a <? b)%Z && ascendingb l'
  | _ => true
  end.

(** Ordering: in every node the live keys are strictly ascending. *)
Fixpoint orderedb (t : Node) : bool :=
  match t with
  | Leaf n ks _ => ascendingb (live n ks)
  | Internal n ks cs => ascendingb (live n ks) && forallb orderedb cs
  end.

(** Every live key of a subtree, separators included. *)
Fixpoint keys_of (t : Node) : list Z :=
  match t with
  | Leaf n ks _ => live n ks
  | Internal n ks cs => live n ks ++ concat (map keys_of cs)
  end.

(** Separators: every key under [children[i]] is below [keys[i]], which is
    at most every key under [children[i+1]]. *)
Fixpoint separatedb (t : Node) : bool :=
  match t with
  | Leaf _ _ _ => true
  | Internal n ks cs =>
      forallb separatedb cs
      && forallb
           (λ i, match ks !! i, cs !! i, cs !! (S i) with
                 | Some k, Some l, Some r =>
                     forallb (λ x, (x <? k)%Z) (keys_of l)
                     && forallb (λ x, (k <=? x)%Z) (keys_of r)
                 | _, _, _ => false
                 end)
           (seq 0 n)
  end.

(** The length of every root-to-leaf path. *)
Fixpoint leaf_depths (t : Node) : list nat :=
  match t with
  | Leaf _ _ _ => [0]
  | Internal _ _ cs => S <$> concat (map leaf_depths cs)
  end.

(** Balance: any two leaves are at the same depth. *)
Definition balanced (t : Node) : Prop :=
  ∀ d1 d2, d1 ∈ leaf_depths t → d2 ∈ leaf_depths t → d1 = d2.

Definition balancedb (t : Node) : bool :=
  match leaf_depths t with
  | [] => true
  | d :: ds => forallb (Nat.eqb d) ds
  end.

(** A valid tree of fan-out [M]. *)
Definition valid (M : nat) (t : Node) : Prop :=
  shapeb t = true ∧ capacityb M t = true ∧ orderedb t = true
  ∧ separatedb t = true ∧ balancedb t = true.

(** No internal node is empty. *)
Fixpoint separator_in_each (t : Node) : bool :=
  match t with
  | Leaf _ _ _ => true
  | Internal n _ cs => (0 <? n) && forallb separator_in_each cs
  end.

(** What [insert] maintains: below capacity after every call, arrays
    within their [M] (and [M + 1]) slots. *)
Fixpoint roomb (M : nat) (t : Node) : bool :=
  match t with
  | Leaf n ks vs =>
      (n <? M) && (n <=? length ks) && (length ks <=? M)
      && (n <=? length vs) && (length vs <=? M)
  | Internal n ks cs =>
      (n <? M) && (n <=? length ks) && (length ks <=? M)
      && (length cs =? n + 1) && forallb (roomb M) cs
  end.

(** All leaves of [t] are at depth [h]. *)
Fixpoint depthb (h : nat) (t : Node) : bool :=
  match t, h with
  | Leaf _ _ _, 0 => true
  | Internal _ _ cs, S h' => forallb (depthb h') cs
  | _, _ => false
  end.

(** What [insert_recursive] on [t] maintains in a node [x] it returns:
    [x] is below capacity with its arrays within bounds, at the depth [h]
    and of the kind of [t], and, for [M >= 3], without empty internal
    nodes if [t] had none. *)
Definition kept (M h : nat) (t x : Node) : Prop :=
  roomb M x = true ∧ depthb h x = true ∧ is_leaf x = is_leaf t
  ∧ (3 ≤ M → separator_in_each t = true → separator_in_each x = true).

(** What a call of [insert_recursive] on [t] leaves behind: a split
    happened with exactly [M] keys in the node (the median of an internal
    node goes up and is in neither half). *)
Definition insert_post (M h : nat) (t t' : Node) (sp : option (Node * Z)) : Prop :=
  kept M h t t'
  ∧ match sp with
    | None => True
    | Some (sibling, _) =>
        kept M h t sibling
        ∧ num_keys t' + num_keys sibling + (if is_leaf t then 0 else 1) = M
    end.

Fixpoint node_count (t : Node) : nat :=
  match t with
  | Leaf _ _ _ => 1
  | Internal _ _ cs => 1 + list_sum (map node_count cs)
  end.

(** The number of live leaf slots that carry [key]. *)
Fixpoint slots_with (key : Z) (t : Node) : nat :=
  match t with
  | Leaf n ks _ => length (filter (λ k, k = key) (live n ks))
  | Internal _ _ cs => list_sum (map (slots_with key) cs)
  end.

(** The first of the [todo] slots from [i] on whose key satisfies [p]: what
    a slot-by-slot scan finds. *)
Fixpoint first_hit (p : Z → bool) (ks : list Z) (todo i : nat) : option nat :=
  match todo with
  | 0 => None
  | S todo' =>
      match ks !! i with
      | Some k => if p k then Some i else first_hit p ks todo' (S i)
      | None => None
      end
  end.

(** A lane of a comparison result: all ones where [p] holds. *)
Definition lane_mask (p : Z → bool) (x : Z) : Z := if p x then (-1)%Z else 0%Z.

(** *** The descent rule and the effect of a removal, in the words of the
    specification *)

(** The smallest [i] with [key < k[i]], or the number of keys. *)
Fixpoint descent_index (key : Z) (ks : list Z) : nat :=
  match ks with
  | [] => 0
  | k :: ks' => if (key <? k)%Z then 0 else S (descent_index key ks')
  end.

(** The leaf the descent rule ends in. *)
Fixpoint reached_leaf (t : Node) (key : Z) : option Node :=
  match t with
  | Leaf n ks vs => Some (Leaf n ks vs)
  | Internal n ks cs =>
      Arr.at_index (λ c, reached_leaf c key) cs (descent_index key (live n ks))
  end.

(** [removed key t t']: [t'] is [t] with the pair of [key] taken out of
    the leaf the descent rule reaches, the pairs after it moved one slot
    left; [t' = t] when that leaf does not hold [key].  Every node off the
    path is the same, and so are the counts and separators on the path. *)
Inductive removed (key : Z) : Node → Node → Prop :=
| removed_absent n ks vs :
    key ∉ live n ks →
    removed key (Leaf n ks vs) (Leaf n ks vs)
| removed_present n ks vs k ks' vs' :
    k < n →
    ks !! k = Some key →
    live (n - 1) ks' = delete k (live n ks) →
    live (n - 1) vs' = delete k (live n vs) →
    removed key (Leaf n ks vs) (Leaf (n - 1) ks' vs')
| removed_below n ks cs c c' :
    cs !! descent_index key (live n ks) = Some c →
    removed key c c' →
    removed key (Internal n ks cs)
      (Internal n ks (<[descent_index key (live n ks) := c']> cs)).

(** *** The arena, in the words of the specification *)

(** [bytes] rounded up to a multiple of 64. *)
Definition round_up_64 (bytes : Z) : Z := (64 * ((bytes + 63) / 64))%Z.

(** The total of the rounded sizes of a run of requests. *)
Definition rounded_total (reqs : list Z) : Z :=
  foldr (λ b acc, (round_up_64 b + acc)%Z) 0%Z reqs.

Definition allocate_spec (a : Arena.t) (bytes : Z) : Arena.result * Arena.t :=
  if (Arena.capacity a <? Arena.offset a + round_up_64 bytes)%Z
  then (Arena.OutOfArena, a)
  else (Arena.Ptr (Arena.memory a + Arena.offset a),
        Arena.mk (Arena.memory a) (Arena.offset a + round_up_64 bytes)
          (Arena.capacity a)).

(** *** The contents of a tree, and an insert of a new key *)

(** The pairs that the leaves store in their live slots. *)
Fixpoint leaf_pairs (t : Node) : list (Z * Z) :=
  match t with
  | Leaf n ks vs => zip (live n ks) (live n vs)
  | Internal _ _ cs => concat (map leaf_pairs cs)
  end.

(** [a'] is [a] with [x] put in at slot [i] and the slots [i..n) moved one
    up: what the shift loops of [insert_recursive] and the store after
    them leave. *)
Definition opened {A} (i n : nat) (x : A) (a a' : list A) : Prop :=
  ∀ j, a' !! j = if decide (j = i) then Some x
                 else if decide (i < j ≤ n) then a !! (j - 1)
                 else a !! j.

(** What [insert_recursive] of a key that [t] does not hold leaves behind:
    ordered and separated nodes whose keys are those of [t] and [key] and
    whose leaves store the old pairs and the new one; after a split the
    median lies between the two halves. *)
Definition fresh_post (key value : Z) (t t' : Node) (sp : option (Node * Z)) : Prop :=
  orderedb t' = true ∧ separatedb t' = true
  ∧ (∀ x, x ∈ keys_of t' → x = key ∨ x ∈ keys_of t)
  ∧ match sp with
    | None => ∀ p, p ∈ leaf_pairs t' ↔ p = (key, value) ∨ p ∈ leaf_pairs t
    | Some (sibling, median) =>
        orderedb sibling = true ∧ separatedb sibling = true
        ∧ (∀ x, x ∈ keys_of sibling → x = key ∨ x ∈ keys_of t)
        ∧ (median = key ∨ median ∈ keys_of t)
        ∧ (∃ x, x ∈ keys_of t')
        ∧ (∀ x, x ∈ keys_of t' → (x < median)%Z)
        ∧ (∀ x, x ∈ keys_of sibling → (median ≤ x)%Z)
        ∧ ∀ p, p ∈ leaf_pairs t' ∨ p ∈ leaf_pairs sibling
               ↔ p = (key, value) ∨ p ∈ leaf_pairs t
    end.

(** [old] and [sibling] are the two halves of the full node [b], split
    around [median]. *)
Definition halves (b old sibling : Node) (median : Z) : Prop :=
  orderedb old = true ∧ separatedb old = true
  ∧ orderedb sibling = true ∧ separatedb sibling = true
  ∧ (∀ x, x ∈ keys_of old → x ∈ keys_of b)
  ∧ (∀ x, x ∈ keys_of sibling → x ∈ keys_of b)
  ∧ median ∈ keys_of b
  ∧ (∃ x, x ∈ keys_of old)
  ∧ (∀ x, x ∈ keys_of old → (x < median)%Z)
  ∧ (∀ x, x ∈ keys_of sibling → (median ≤ x)%Z)
  ∧ ∀ p, p ∈ leaf_pairs old ∨ p ∈ leaf_pairs sibling ↔ p ∈ leaf_pairs b.

(** *** The blocks of a run of requests *)

(** A run of requests with the blocks it hands out, each the address
    returned and the bytes asked for; stops at the first request that
    throws. *)
Fixpoint allocate_blocks (a : Arena.t) (reqs : list Z)
  : option (list (Z * Z) * Arena.t) :=
  match reqs with
  | [] => Some ([], a)
  | b :: reqs' =>
      match Arena.allocate a b with
      | (Arena.Ptr p, a') =>
          '(blocks, a'') ← allocate_blocks a' reqs'; Some ((p, b) :: blocks, a'')
      | (Arena.OutOfArena, _) => None
      end
  end.

(** ** Insertion with the arena

    [new Node] calls [Node::operator new], which takes the bytes of the
    node from [global_arena] and throws when that pointer is null or the
    arena is full.  Below are the constructor, [split_leaf],
    [split_internal], [insert_recursive] and [insert] once more, with the
    global arena passed along ([None] is the null pointer) and the
    exception as a result.  Nothing catches it, so it leaves every call
    on the way up.  A node is updated in place: a call that throws still
    gives back the node as it left it. *)

(** The two [std::runtime_error]s of a node allocation, "Arena not
    initialized" and "Arena out of memory". *)
Inductive Error : Type :=
| ArenaNotInitialized
| ArenaOutOfMemory.

Inductive outcome (A : Type) : Type :=
| Returned (x : A)
| Threw (e : Error).
Arguments Returned {A} x.
Arguments Threw {A} e.

Section Allocating.

(** [sizeof(Node)] and the fan-out. *)
Variable node_size : Z.
Variable M : nat.

(** [Node::operator new(size)]: the address and the arena after the
    call. *)
Definition operator_new (global_arena : option Arena.t)
  : outcome Z * option Arena.t :=
  match global_arena with
  | None => (Threw ArenaNotInitialized, None)
  | Some a =>
      match Arena.allocate a node_size with
      | (Arena.Ptr p, a') => (Returned p, Some a')
      | (Arena.OutOfArena, a') => (Threw ArenaOutOfMemory, Some a')
      end
  end.

(** [new_leaf = new Node(true)] is the first thing [split_leaf] does. *)
Definition split_leaf_in (g : option Arena.t) (n : nat) (ks vs : list Z)
  : option (outcome (Node * (Node * Z)) * option Arena.t) :=
  match operator_new g with
  | (Threw e, g') => Some (Threw e, g')
  | (Returned _, g') => r ← split_leaf M n ks vs; Some (Returned r, g')
  end.

Definition split_internal_in (g : option Arena.t) (n : nat) (ks : list Z)
    (cs : list Node)
  : option (outcome (Node * (Node * Z)) * option Arena.t) :=
  match operator_new g with
  | (Threw e, g') => Some (Threw e, g')
  | (Returned _, g') => r ← split_internal M n ks cs; Some (Returned r, g')
  end.

(** Returns the node after the call, what the call returned or threw,
    and the arena after it.  A split that throws leaves the node with the
    [num_keys] it had when [split_leaf] or [split_internal] was called. *)
Fixpoint insert_recursive_in (g : option Arena.t) (node : Node) (key value : Z)
  : option (Node * outcome (option (Node * Z)) * option Arena.t) :=
  match node with
  | Leaf n ks vs =>
      i ← scan Z.gtb key ks n 0;
      hit ← (if 0 <? i then k ← ks !! (i - 1); Some (k =? key)%Z else Some false);
      if hit : bool then
        vs' ← Arr.wr M vs (i - 1) value;
        Some (Leaf n ks vs', Returned None, g)
      else
        ks1 ← Arr.shift_right M ks (n - i) n;
        vs1 ← Arr.shift_right M vs (n - i) n;
        ks2 ← Arr.wr M ks1 i key;
        vs2 ← Arr.wr M vs1 i value;
        let n' := u16 (Z.of_nat n + 1) in
        if M <=? n' then
          '(out, g') ← split_leaf_in g n' ks2 vs2;
          match out with
          | Threw e => Some (Leaf n' ks2 vs2, Threw e, g')
          | Returned (old, sp) => Some (old, Returned (Some sp), g')
          end
        else Some (Leaf n' ks2 vs2, Returned None, g)
  | Internal n ks cs =>
      i ← scan Z.gtb key ks n 0;
      '(child, out, g1) ←
        Arr.at_index (λ c, insert_recursive_in g c key value) cs i;
      let cs0 := <[i := child]> cs in
      match out with
      | Threw e => Some (Internal n ks cs0, Threw e, g1)
      | Returned None => Some (Internal n ks cs0, Returned None, g1)
      | Returned (Some (child_sibling, child_median)) =>
          ks1 ← Arr.shift_right M ks (n - i) n;
          cs1 ← Arr.shift_right (M + 1) cs0 (n + 1 - (i + 1)) (n + 1);
          ks2 ← Arr.wr M ks1 i child_median;
          cs2 ← Arr.wr (M + 1) cs1 (i + 1) child_sibling;
          let n' := u16 (Z.of_nat n + 1) in
          if M <=? n' then
            '(out', g2) ← split_internal_in g1 n' ks2 cs2;
            match out' with
            | Threw e => Some (Internal n' ks2 cs2, Threw e, g2)
            | Returned (old, sp') => Some (old, Returned (Some sp'), g2)
            end
          else Some (Internal n' ks2 cs2, Returned None, g1)
      end
  end.

(** Returns the node [root] points to after the call.  When
    [new Node(false)] throws, [root] still points to the old root, which
    has split, and nothing points to [new_child]. *)
Definition insert_in (g : option Arena.t) (root : Node) (key value : Z)
  : option (Node * outcome unit * option Arena.t) :=
  '(root', out, g1) ← insert_recursive_in g root key value;
  match out with
  | Threw e => Some (root', Threw e, g1)
  | Returned None => Some (root', Returned (), g1)
  | Returned (Some (new_child, median)) =>
      match operator_new g1 with
      | (Threw e, g2) => Some (root', Threw e, g2)
      | (Returned _, g2) =>
          ks ← Arr.wr M [] 0 median;
          cs0 ← Arr.wr (M + 1) [] 0 root';
          cs1 ← Arr.wr (M + 1) cs0 1 new_child;
          Some (Internal (u16 1) ks cs1, Returned (), g2)
      end
  end.

(** [BPlusTree()]. *)
Definition BPlusTree_in (g : option Arena.t) : outcome Node * option Arena.t :=
  match operator_new g with
  | (Threw e, g') => (Threw e, g')
  | (Returned _, g') => (Returned empty, g')
  end.

(** A run of [insert]s up to the first one that throws. *)
Fixpoint insert_all_in (g : option Arena.t) (root : Node) (kvs : list (Z * Z))
  : option (Node * outcome unit * option Arena.t) :=
  match kvs with
  | [] => Some (root, Returned (), g)
  | (k, v) :: kvs' =>
      '(root', out, g') ← insert_in g root k v;
      match out with
      | Threw e => Some (root', Threw e, g')
      | Returned _ => insert_all_in g' root' kvs'
      end
  end.

End Allocating.

(** ** What every run of inserts keeps

    [insert_recursive] never overwrites, so a tree built by inserts can
    hold a key more than once and the strict invariants above fail on it.
    The four below are what the code keeps on every run. *)

(** The keys of a list in non-decreasing order. *)
Fixpoint nondecreasingb (l : list Z) : bool :=
  match l with
  | a :: (b :: _) as l' => (a <=? b)%Z && nondecreasingb l'
  | _ => true
  end.

(** The live keys of every node are in non-decreasing order. *)
Fixpoint sortedb (t : Node) : bool :=
  match t with
  | Leaf n ks _ => nondecreasingb (live n ks)
  | Internal n ks cs => nondecreasingb (live n ks) && forallb sortedb cs
  end.

(** No key under the child left of a separator is above it, and no key
    under the child right of it is below it. *)
Fixpoint boundedb (t : Node) : bool :=
  match t with
  | Leaf _ _ _ => true
  | Internal n ks cs =>
      forallb boundedb cs
      && forallb
           (λ i, match ks !! i, cs !! i, cs !! (S i) with
                 | Some k, Some l, Some r =>
                     forallb (λ x, (x <=? k)%Z) (keys_of l)
                     && forallb (λ x, (k <=? x)%Z) (keys_of r)
                 | _, _, _ => false
                 end)
           (seq 0 n)
  end.

(** Every separator is the key of a pair stored under the child to its
    right. *)
Fixpoint anchoredb (t : Node) : bool :=
  match t with
  | Leaf _ _ _ => true
  | Internal n ks cs =>
      forallb anchoredb cs
      && forallb
           (λ i, match ks !! i, cs !! (S i) with
                 | Some k, Some r => existsb (λ p, (p.1 =? k)%Z) (leaf_pairs r)
                 | _, _ => false
                 end)
           (seq 0 n)
  end.

(** No leaf is empty. *)
Fixpoint fullb (t : Node) : bool :=
  match t with
  | Leaf n _ _ => 0 <? n
  | Internal _ _ cs => forallb fullb cs
  end.

(** No leaf below the root is empty; the root leaf of a new tree is. *)
Definition children_full (t : Node) : bool :=
  match t with
  | Leaf _ _ _ => true
  | Internal _ _ cs => forallb fullb cs
  end.

Definition grown (t : Node) : Prop :=
  sortedb t = true ∧ boundedb t = true ∧ anchoredb t = true ∧ fullb t = true.

(** What [insert_recursive] establishes for any key, present or not: the
    node it leaves and the sibling it may return are [grown], their keys
    are the key or keys of the node before, and the median lies between
    the two and is stored in the sibling. *)
Definition any_post (key : Z) (t t' : Node) (sp : option (Node * Z)) : Prop :=
  grown t'
  ∧ (∀ x, x ∈ keys_of t' → x = key ∨ x ∈ keys_of t)
  ∧ match sp with
    | None => True
    | Some (sibling, median) =>
        grown sibling
        ∧ (∀ x, x ∈ keys_of sibling → x = key ∨ x ∈ keys_of t)
        ∧ (median = key ∨ median ∈ keys_of t)
        ∧ (∀ x, x ∈ keys_of t' → (x ≤ median)%Z)
        ∧ (∀ x, x ∈ keys_of sibling → (median ≤ x)%Z)
        ∧ median ∈ (leaf_pairs sibling).*1
    end.

(** What a split of the node [b] establishes when keys may repeat. *)
Definition whalves (b old sibling : Node) (median : Z) : Prop :=
  grown old ∧ grown sibling
  ∧ (∀ x, x ∈ keys_of old → x ∈ keys_of b)
  ∧ (∀ x, x ∈ keys_of sibling → x ∈ keys_of b)
  ∧ median ∈ keys_of b
  ∧ (∀ x, x ∈ keys_of old → (x ≤ median)%Z)
  ∧ (∀ x, x ∈ keys_of sibling → (median ≤ x)%Z)
  ∧ median ∈ (leaf_pairs sibling).*1.

(** Every leaf holds at least [m] pairs. *)
Fixpoint filledb (m : nat) (t : Node) : bool :=
  match t with
  | Leaf n _ _ => m <=? n
  | Internal _ _ cs => forallb (filledb m) cs
  end.

(** Every internal node holds at least [m] keys. *)
Fixpoint widthb (m : nat) (t : Node) : bool :=
  match t with
  | Leaf _ _ _ => true
  | Internal n _ cs => (m <=? n) && forallb (widthb m) cs
  end.

(** The same for the nodes below the root. *)
Definition children_wide (m : nat) (t : Node) : bool :=
  match t with
  | Leaf _ _ _ => true
  | Internal _ _ cs => forallb (widthb m) cs
  end.

(** * Proofs *)

(** ** Arrays *)

Lemma at_index_lookup {A R} (f : A → option R) (l : list A) (i : nat) :
  Arr.at_index f l i = l !! i ≫= f.
Proof.
  revert i. induction l as [|c l IH]; intros [|i]; simpl; auto.
Qed.

Lemma wr_spec {A} (cap : nat) (a : list A) (i : nat) (x : A) :
  i < cap → i ≤ length a →
  ∃ a', Arr.wr cap a i x = Some a'
        ∧ length a' = length a `max` (i + 1)
        ∧ ∀ j, a' !! j = if decide (j = i) then Some x else a !! j.
Proof.
  intros Hcap Hlen. unfold Arr.wr.
  destruct (cap <=? i) eqn:E1; [apply Nat.leb_le in E1; lia|].
  destruct (i <? length a) eqn:E2.
  - apply Nat.ltb_lt in E2. eexists; split; [reflexivity|]. split.
    + rewrite length_insert. lia.
    + intros j. destruct (decide (j = i)) as [->|Hne].
      * by apply list_lookup_insert_eq.
      * by apply list_lookup_insert_ne.
  - apply Nat.ltb_ge in E2. assert (i = length a) as -> by lia.
    rewrite Nat.eqb_refl. eexists; split; [reflexivity|]. split.
    + rewrite length_app. simpl. lia.
    + intros j. destruct (decide (j = length a)) as [->|Hne].
      * by rewrite lookup_app_r, Nat.sub_diag.
      * destruct (decide (j < length a)).
        -- by rewrite lookup_app_l.
        -- rewrite !lookup_ge_None_2; [done| lia |rewrite length_app; simpl; lia].
Qed.

Lemma wr_None_cap {A} (cap : nat) (a : list A) (i : nat) (x : A) :
  cap ≤ i → Arr.wr cap a i x = None.
Proof.
  intros H. unfold Arr.wr. by apply Nat.leb_le in H as ->.
Qed.

Lemma shift_right_spec {A} (cap : nat) (cnt : nat) :
  ∀ (a : list A) (k : nat),
    cnt ≤ k → k ≤ length a → k < cap →
    ∃ a', Arr.shift_right cap a cnt k = Some a'
          ∧ length a' = (if cnt =? 0 then length a else length a `max` (k + 1))
          ∧ ∀ j, a' !! j = if decide (k - cnt < j ≤ k) then a !! (j - 1) else a !! j.
Proof.
  induction cnt as [|cnt IH]; intros a k Hk Hlen Hcap; simpl.
  - exists a. split; [done|]. split; [done|]. intros j.
    destruct (decide (k - 0 < j ≤ k)); [lia|done].
  - destruct (lookup_lt_is_Some_2 a (k - 1)) as [x Hx]; [lia|].
    rewrite Hx. simpl.
    destruct (wr_spec cap a k x) as (a1 & -> & Hl1 & Hg1); [lia..|]. simpl.
    destruct (IH a1 (k - 1)) as (a' & -> & Hl' & Hg'); [lia..|].
    exists a'. split; [done|]. split.
    + destruct (cnt =? 0) eqn:E; lia.
    + intros j. rewrite Hg'.
      destruct (decide (k - 1 - cnt < j ≤ k - 1)).
      * rewrite Hg1. destruct (decide (j - 1 = k)); [lia|].
        destruct (decide (k - S cnt < j ≤ k)); [done|lia].
      * rewrite Hg1. destruct (decide (j = k)) as [->|].
        -- destruct (decide (k - S cnt < k ≤ k)); [by rewrite Hx|lia].
        -- destruct (decide (k - S cnt < j ≤ k)); [lia|done].
Qed.

Lemma shift_left_spec {A} (cap : nat) (cnt : nat) :
  ∀ (a : list A) (j0 : nat),
    j0 + cnt < length a → j0 + cnt ≤ cap →
    ∃ a', Arr.shift_left cap a cnt j0 = Some a'
          ∧ length a' = length a
          ∧ ∀ j, a' !! j = if decide (j0 ≤ j < j0 + cnt) then a !! (j + 1) else a !! j.
Proof.
  induction cnt as [|cnt IH]; intros a j0 Hlen Hcap; simpl.
  - exists a. split; [done|]. split; [done|]. intros j.
    destruct (decide (j0 ≤ j < j0 + 0)); [lia|done].
  - destruct (lookup_lt_is_Some_2 a (j0 + 1)) as [x Hx]; [lia|].
    rewrite Hx. simpl.
    destruct (wr_spec cap a j0 x) as (a1 & -> & Hl1 & Hg1); [lia..|]. simpl.
    destruct (IH a1 (j0 + 1)) as (a' & -> & Hl' & Hg'); [lia..|].
    exists a'. split; [done|]. split; [lia|].
    intros j. rewrite Hg'.
    destruct (decide (j0 + 1 ≤ j < j0 + 1 + cnt)).
    + rewrite Hg1. destruct (decide (j + 1 = j0)); [lia|].
      destruct (decide (j0 ≤ j < j0 + S cnt)); [done|lia].
    + rewrite Hg1. destruct (decide (j = j0)) as [->|].
      * destruct (decide (j0 ≤ j0 < j0 + S cnt)); [by rewrite Hx|lia].
      * destruct (decide (j0 ≤ j < j0 + S cnt)); [lia|done].
Qed.

Lemma copy_from_spec {A} (cap : nat) (src : list A) (from : nat) (cnt : nat) :
  ∀ (dst : list A) (i : nat),
    i = length dst → from + i + cnt ≤ length src → i + cnt ≤ cap →
    Arr.copy_from cap src dst from cnt i
    = Some (dst ++ take cnt (drop (from + i) src)).
Proof.
  induction cnt as [|cnt IH]; intros dst i Hi Hsrc Hcap; simpl.
  - by rewrite take_0, app_nil_r.
  - destruct (lookup_lt_is_Some_2 src (from + i)) as [x Hx]; [lia|].
    rewrite Hx. simpl. unfold Arr.wr.
    destruct (cap <=? i) eqn:E1; [apply Nat.leb_le in E1; lia|].
    destruct (i <? length dst) eqn:E2; [apply Nat.ltb_lt in E2; lia|].
    subst i. rewrite Nat.eqb_refl. simpl.
    rewrite IH; [|rewrite ?length_app; simpl; lia..].
    f_equal. rewrite <- app_assoc. f_equal. simpl.
    rewrite (drop_S _ x _ Hx). simpl. do 2 f_equal. f_equal. lia.
Qed.

(** ** The arena *)

Lemma land_not_63 (x : Z) :
  (0 ≤ x < Arena.size_max)%Z →
  Z.land x (Arena.wrap (Z.lnot 63)) = (64 * (x / 64))%Z.
Proof.
  intros Hx.
  replace (Arena.wrap (Z.lnot 63)) with (Z.land (Z.lnot 63) (Z.ones 64))
    by (vm_compute; reflexivity).
  rewrite (Z.land_comm (Z.lnot 63)), Z.land_assoc.
  rewrite (Z.land_ones x 64) by lia.
  rewrite Z.mod_small by (unfold Arena.size_max in Hx; lia).
  rewrite <- Z.ldiff_land.
  change 63%Z with (Z.ones 6).
  rewrite Z.ldiff_ones_r by lia.
  rewrite Z.shiftl_mul_pow2, Z.shiftr_div_pow2 by lia.
  change (2 ^ 6)%Z with 64%Z. lia.
Qed.

Lemma aligned_bytes_round (bytes : Z) :
  (0 ≤ bytes)%Z → (bytes + 63 < Arena.size_max)%Z →
  Arena.aligned_bytes bytes = round_up_64 bytes.
Proof.
  intros H0 H1. unfold Arena.aligned_bytes, round_up_64, Arena.wrap.
  rewrite Z.mod_small by lia.
  apply land_not_63. lia.
Qed.

Lemma round_up_64_bounds (bytes : Z) :
  (round_up_64 bytes mod 64 = 0 ∧ bytes ≤ round_up_64 bytes < bytes + 64)%Z.
Proof.
  unfold round_up_64. split.
  - rewrite Z.mul_comm. apply Z.mod_mul. lia.
  - pose proof (Z.div_mod (bytes + 63) 64 ltac:(lia)).
    pose proof (Z.mod_pos_bound (bytes + 63) 64 ltac:(lia)). lia.
Qed.

Lemma allocate_no_wrap (a : Arena.t) (bytes : Z) :
  Arena.well_formed a →
  (0 ≤ bytes)%Z → (bytes + 63 < Arena.size_max)%Z →
  (Arena.offset a + round_up_64 bytes < Arena.size_max)%Z →
  Arena.allocate a bytes = allocate_spec a bytes.
Proof.
  intros (Hoff & Hcap) H0 H1 H2. unfold Arena.allocate, allocate_spec.
  rewrite aligned_bytes_round by done.
  pose proof (round_up_64_bounds bytes) as [_ Hb].
  unfold Arena.wrap. rewrite Z.mod_small by lia. done.
Qed.

Lemma allocate_all_used (reqs : list Z) :
  ∀ a a',
    Arena.well_formed a →
    Forall (λ b, 0 ≤ b ∧ b + 63 < Arena.size_max)%Z reqs →
    (Arena.offset a + rounded_total reqs < Arena.size_max)%Z →
    Arena.allocate_all a reqs = Some a' →
    Arena.get_used_memory a' = (Arena.get_used_memory a + rounded_total reqs)%Z
    ∧ Arena.well_formed a'.
Proof.
  induction reqs as [|b reqs IH]; intros a a' Hwf Hreqs Hsum Hrun; simpl in *.
  - injection Hrun as <-. unfold Arena.get_used_memory. split; [lia|done].
  - apply Forall_cons_1 in Hreqs as [[Hb0 Hb1] Hreqs].
    assert (0 ≤ rounded_total reqs)%Z as Hpos.
    { clear -Hreqs. induction Hreqs as [|x l [Hx _] _ IHl]; simpl; [lia|].
      pose proof (round_up_64_bounds x). lia. }
    pose proof (round_up_64_bounds b) as [_ Hb].
    rewrite allocate_no_wrap in Hrun by (done || lia).
    unfold allocate_spec in Hrun.
    destruct (Arena.capacity a <? Arena.offset a + round_up_64 b)%Z eqn:E;
      [done|].
    apply Z.ltb_ge in E.
    apply IH in Hrun as [Hused Hwf']; try done.
    + unfold Arena.get_used_memory in *. simpl in Hused. split; [lia|done].
    + destruct Hwf as [? ?]. split; simpl; lia.
    + simpl. lia.
Qed.

(** C8, as stated, fails where [size_t] wraps: a request of [2^64 - 1]
    bytes rounds up to [2^64], which no arena holds, so [allocate] should
    throw; the code computes a rounded size of 0 and returns a pointer. *)
Lemma allocate_wraps_on_huge_request :
  Arena.allocate (Arena.new 0 1024) (2 ^ 64 - 1)
  = (Arena.Ptr 0, Arena.new 0 1024)
  ∧ allocate_spec (Arena.new 0 1024) (2 ^ 64 - 1)
    = (Arena.OutOfArena, Arena.new 0 1024).
Proof. split; vm_compute; reflexivity. Qed.

(** C8 (amended): for an arena with [0 <= offset <= capacity < 2^64] and a
    request for which neither [bytes + 63] nor [offset + rounded] leaves
    the range of [size_t], [allocate] rounds [bytes] up to the next
    multiple of 64, throws exactly when [offset + rounded > capacity], and
    otherwise returns the address at the current offset and advances the
    offset by the rounded size; after a run of successful allocations
    [get_used_memory] has grown by the sum of the rounded sizes and is
    within the capacity. *)
Theorem allocate_rounds_and_bumps (a : Arena.t) (bytes : Z) :
  Arena.well_formed a →
  (0 ≤ bytes)%Z → (bytes + 63 < Arena.size_max)%Z →
  (Arena.offset a + round_up_64 bytes < Arena.size_max)%Z →
  (Arena.aligned_bytes bytes = round_up_64 bytes
   ∧ round_up_64 bytes mod 64 = 0
   ∧ bytes ≤ round_up_64 bytes < bytes + 64)%Z
  ∧ ((Arena.allocate a bytes).1 = Arena.OutOfArena
     ↔ (Arena.offset a + round_up_64 bytes > Arena.capacity a)%Z)
  ∧ Arena.allocate a bytes = allocate_spec a bytes
  ∧ ∀ reqs a',
      Forall (λ b, 0 ≤ b ∧ b + 63 < Arena.size_max)%Z reqs →
      (Arena.offset a + rounded_total reqs < Arena.size_max)%Z →
      Arena.allocate_all a reqs = Some a' →
      Arena.get_used_memory a'
      = (Arena.get_used_memory a + rounded_total reqs)%Z
      ∧ (Arena.get_used_memory a' ≤ Arena.get_capacity a')%Z.
Proof.
  intros Hwf H0 H1 H2.
  pose proof (round_up_64_bounds bytes) as [Hm Hb].
  split; [by rewrite aligned_bytes_round|].
  split; [|split; [by apply allocate_no_wrap|]].
  - rewrite allocate_no_wrap by done. unfold allocate_spec.
    destruct (Arena.capacity a <? Arena.offset a + round_up_64 bytes)%Z eqn:E;
      simpl.
    + apply Z.ltb_lt in E. split; [lia|done].
    + apply Z.ltb_ge in E. split; [done|lia].
  - intros reqs a' Hreqs Hsum Hrun.
    destruct (allocate_all_used reqs a a' Hwf Hreqs Hsum Hrun) as [Hused Hwf'].
    split; [done|]. apply Hwf'.
Qed.

Lemma allocate_rounds_and_bumps_witness :
  Arena.allocate (Arena.new 4096 1024) 100 = allocate_spec (Arena.new 4096 1024) 100
  ∧ (Arena.allocate (Arena.new 4096 1024) 100).1 = Arena.Ptr 4096
  ∧ ∀ a', Arena.allocate_all (Arena.new 4096 1024) [100; 1; 64]%Z = Some a' →
          Arena.get_used_memory a' = 256%Z.
Proof.
  assert (Arena.well_formed (Arena.new 4096 1024)) as Hwf
    by (unfold Arena.well_formed, Arena.size_max; simpl; lia).
  destruct (allocate_rounds_and_bumps (Arena.new 4096 1024) 100 Hwf)
    as (_ & _ & Hspec & Hrun);
    [lia | unfold Arena.size_max; lia | vm_compute; reflexivity |].
  split; [exact Hspec|]. split; [vm_compute; reflexivity|].
  intros a' Ha'.
  refine (proj1 (Hrun [100; 1; 64]%Z a' _ _ Ha')); [|vm_compute; reflexivity].
  unfold Arena.size_max. repeat constructor; lia.
Defined.

(** C10: a failing [allocate] leaves the arena as it was, so its offset
    and [get_used_memory] are unchanged, and a later request that fits
    ([offset + rounded <= capacity]) still succeeds, at the old offset. *)
Theorem allocate_failure_keeps_arena (a : Arena.t) (bytes : Z) :
  (Arena.allocate a bytes).1 = Arena.OutOfArena →
  (Arena.allocate a bytes).2 = a
  ∧ Arena.get_used_memory (Arena.allocate a bytes).2 = Arena.get_used_memory a
  ∧ ∀ bytes',
      Arena.well_formed a → (0 ≤ bytes')%Z →
      (Arena.offset a + round_up_64 bytes' ≤ Arena.capacity a)%Z →
      (Arena.allocate (Arena.allocate a bytes).2 bytes').1
      = Arena.Ptr (Arena.memory a + Arena.offset a).
Proof.
  intros Hfail.
  assert ((Arena.allocate a bytes).2 = a) as Hsame.
  { revert Hfail. unfold Arena.allocate.
    by destruct (Arena.capacity a <? _)%Z. }
  rewrite Hsame. split; [done|]. split; [done|].
  intros bytes' Hwf H0 Hfit.
  pose proof Hwf as (Hoff & Hcap).
  pose proof (round_up_64_bounds bytes') as [Hm Hb].
  assert (round_up_64 bytes' ≤ Arena.size_max - 64)%Z as Hr.
  { unfold round_up_64 in *. unfold Arena.size_max in *.
    assert ((bytes' + 63) / 64 < 2 ^ 58)%Z; [|lia].
    apply Z.div_lt_upper_bound; lia. }
  rewrite allocate_no_wrap; [|done|lia|lia|lia].
  unfold allocate_spec.
  destruct (Arena.capacity a <? Arena.offset a + round_up_64 bytes')%Z eqn:E;
    [apply Z.ltb_lt in E; lia|done].
Qed.

Lemma allocate_failure_keeps_arena_witness :
  (Arena.allocate (Arena.new 0 128) 200).1 = Arena.OutOfArena
  ∧ (Arena.allocate (Arena.new 0 128) 200).2 = Arena.new 0 128
  ∧ (Arena.allocate (Arena.allocate (Arena.new 0 128) 200).2 100).1
    = Arena.Ptr 0.
Proof.
  assert ((Arena.allocate (Arena.new 0 128) 200).1 = Arena.OutOfArena) as Hfail
    by (vm_compute; reflexivity).
  destruct (allocate_failure_keeps_arena (Arena.new 0 128) 200 Hfail)
    as (Hsame & _ & Hnext).
  split; [exact Hfail|]. split; [exact Hsame|].
  apply (Hnext 100%Z); [|lia|vm_compute; discriminate].
  unfold Arena.well_formed, Arena.size_max; simpl; lia.
Defined.

(** ** Slot-by-slot scans *)

Section FirstHit.

Variables (p : Z → bool) (ks : list Z).

Lemma first_hit_Some_intro (todo : nat) :
  ∀ i d k,
    d < todo →
    (∀ j, j < d → ∃ y, ks !! (i + j) = Some y ∧ p y = false) →
    ks !! (i + d) = Some k → p k = true →
    first_hit p ks todo i = Some (i + d).
Proof.
  induction todo as [|todo IH]; intros i d k Hd Hbefore Hk Hp; [lia|].
  simpl. destruct d as [|d].
  - rewrite Nat.add_0_r in *. by rewrite Hk, Hp.
  - destruct (Hbefore 0) as (y & Hy & Hpy); [lia|].
    rewrite Nat.add_0_r in Hy. rewrite Hy, Hpy.
    rewrite (IH (S i) d k); [f_equal; lia|lia| |by rewrite <- Hk; f_equal; lia|done].
    intros j Hj. destruct (Hbefore (S j)) as (z & Hz & Hpz); [lia|].
    exists z. split; [|done]. rewrite <- Hz. f_equal. lia.
Qed.

Lemma first_hit_skip (a b : nat) :
  ∀ i,
    (∀ j, j < a → ∃ y, ks !! (i + j) = Some y ∧ p y = false) →
    first_hit p ks (a + b) i = first_hit p ks b (i + a).
Proof.
  induction a as [|a IH]; intros i Hbefore; simpl.
  - by rewrite Nat.add_0_r.
  - destruct (Hbefore 0) as (y & Hy & Hpy); [lia|].
    rewrite Nat.add_0_r in Hy. rewrite Hy, Hpy.
    rewrite IH; [f_equal; lia|].
    intros j Hj. destruct (Hbefore (S j)) as (z & Hz & Hpz); [lia|].
    exists z. split; [|done]. rewrite <- Hz. f_equal. lia.
Qed.

Lemma first_hit_None_intro (todo i : nat) :
  (∀ j, j < todo → ∃ y, ks !! (i + j) = Some y ∧ p y = false) →
  first_hit p ks todo i = None.
Proof.
  intros H. rewrite <- (Nat.add_0_r todo). by rewrite first_hit_skip.
Qed.

Lemma first_hit_Some_elim (todo : nat) :
  ∀ i r,
    first_hit p ks todo i = Some r →
    i ≤ r < i + todo
    ∧ (∃ k, ks !! r = Some k ∧ p k = true)
    ∧ ∀ j y, i ≤ j < r → ks !! j = Some y → p y = false.
Proof.
  induction todo as [|todo IH]; intros i r H; simpl in H; [done|].
  destruct (ks !! i) as [k|] eqn:Hk; [|done].
  destruct (p k) eqn:Hp.
  - injection H as <-. split; [lia|]. split; [eauto|]. intros; lia.
  - apply IH in H as (Hr & Hhit & Hbefore). split; [lia|]. split; [done|].
    intros j y Hj Hy. destruct (decide (j = i)) as [->|].
    + congruence.
    + apply (Hbefore j); [lia|done].
Qed.

Lemma first_hit_None_elim (todo : nat) :
  ∀ i,
    i + todo ≤ length ks →
    first_hit p ks todo i = None →
    ∀ j y, i ≤ j < i + todo → ks !! j = Some y → p y = false.
Proof.
  induction todo as [|todo IH]; intros i Hlen H j y Hj Hy; [lia|].
  simpl in H.
  destruct (lookup_lt_is_Some_2 ks i) as [k Hk]; [lia|]. rewrite Hk in H.
  destruct (p k) eqn:Hp; [done|].
  destruct (decide (j = i)) as [->|]; [congruence|].
  apply (IH (S i) ltac:(lia) H j y); [lia|done].
Qed.

(** A boundary [b] with [p] false before it and true at it is what the
    scan finds. *)
Lemma first_hit_boundary (n b : nat) :
  n ≤ length ks → b ≤ n →
  (∀ j y, j < b → ks !! j = Some y → p y = false) →
  (∀ y, b < n → ks !! b = Some y → p y = true) →
  default n (first_hit p ks n 0) = b.
Proof.
  intros Hlen Hb Hbefore Hat.
  assert (∀ j, j < b → ∃ y, ks !! (0 + j) = Some y ∧ p y = false) as Hb'.
  { intros j Hj. destruct (lookup_lt_is_Some_2 ks j) as [y Hy]; [lia|]. eauto. }
  destruct (decide (b < n)) as [Hlt|Hge].
  - destruct (lookup_lt_is_Some_2 ks b) as [y Hy]; [lia|].
    rewrite (first_hit_Some_intro n 0 b y); [done|done|done|done|by apply Hat].
  - assert (b = n) as -> by lia. by rewrite first_hit_None_intro.
Qed.

End FirstHit.

Lemma first_hit_ext (p p' : Z → bool) (ks : list Z) (todo : nat) :
  (∀ k, p k = p' k) →
  ∀ i, first_hit p ks todo i = first_hit p' ks todo i.
Proof.
  intros Hpp'. induction todo as [|todo IH]; intros i; simpl; [done|].
  destruct (ks !! i); [|done]. by rewrite Hpp', IH.
Qed.

Lemma scan_first_hit (cmp : Z → Z → bool) (key : Z) (ks : list Z) (todo : nat) :
  ∀ i,
    i + todo ≤ length ks →
    scan cmp key ks todo i
    = Some (default (i + todo) (first_hit (λ k, negb (cmp key k)) ks todo i)).
Proof.
  induction todo as [|todo IH]; intros i Hlen; simpl.
  - by rewrite Nat.add_0_r.
  - destruct (lookup_lt_is_Some_2 ks i) as [k Hk]; [lia|].
    rewrite Hk. simpl. destruct (cmp key k); simpl; [|done].
    rewrite IH by lia. do 2 f_equal. lia.
Qed.

Lemma leaf_linear_first_hit (key : Z) (ks vs : list Z) (val_out : Z) (todo : nat) :
  ∀ i,
    i + todo ≤ length ks →
    leaf_linear key ks vs todo i val_out
    = match first_hit (λ k, (k =? key)%Z) ks todo i with
      | Some idx => v ← vs !! idx; Some (true, v)
      | None => Some (false, val_out)
      end.
Proof.
  induction todo as [|todo IH]; intros i Hlen; simpl; [done|].
  destruct (lookup_lt_is_Some_2 ks i) as [k Hk]; [lia|].
  rewrite Hk. simpl. destruct (k =? key)%Z; [done|].
  apply IH. lia.
Qed.

Lemma descent_index_spec (key : Z) (l : list Z) :
  descent_index key l ≤ length l
  ∧ (∀ j y, j < descent_index key l → l !! j = Some y → (y ≤ key)%Z)
  ∧ (∀ y, l !! descent_index key l = Some y → (key < y)%Z).
Proof.
  induction l as [|k l (IH1 & IH2 & IH3)]; simpl.
  - split; [lia|]. split; [intros; lia|]. intros y Hy. done.
  - destruct (key <? k)%Z eqn:E.
    + apply Z.ltb_lt in E. split; [lia|]. split; [intros; lia|].
      intros y [= <-]. done.
    + apply Z.ltb_ge in E. split; [lia|]. split.
      * intros [|j] y Hj Hy; simpl in Hy; [by injection Hy as <-|].
        apply (IH2 j); [lia|done].
      * intros y Hy. simpl in Hy. by apply IH3.
Qed.

Lemma lookup_live {A} (n : nat) (a : list A) (j : nat) :
  j < n → live n a !! j = a !! j.
Proof. intros. unfold live. by apply lookup_take_lt. Qed.

Lemma length_live {A} (n : nat) (a : list A) :
  n ≤ length a → length (live n a) = n.
Proof. intros. unfold live. rewrite length_take. lia. Qed.

(** The slot-by-slot scan for the first key above [key] follows the
    descent rule. *)
Lemma first_hit_descent_index (key : Z) (ks : list Z) (n : nat) :
  n ≤ length ks →
  default n (first_hit (λ k, (k >? key)%Z) ks n 0)
  = descent_index key (live n ks).
Proof.
  intros Hlen.
  destruct (descent_index_spec key (live n ks)) as (Hb & Hbefore & Hat).
  rewrite length_live in Hb by done.
  apply first_hit_boundary; [done|done| |].
  - intros j y Hj Hy. rewrite <- lookup_live with (n := n) in Hy by lia.
    apply Hbefore in Hy; [|done]. rewrite Z.gtb_ltb. apply Z.ltb_ge. lia.
  - intros y Hlt Hy. rewrite <- lookup_live with (n := n) in Hy by lia.
    apply Hat in Hy. rewrite Z.gtb_ltb. apply Z.ltb_lt. lia.
Qed.

Lemma scan_geb_descent_index (key : Z) (ks : list Z) (n : nat) :
  n ≤ length ks →
  scan Z.geb key ks n 0 = Some (descent_index key (live n ks)).
Proof.
  intros Hlen. rewrite scan_first_hit by lia. f_equal. simpl.
  rewrite <- first_hit_descent_index by done. f_equal.
  apply first_hit_ext. intros k.
  rewrite Z.geb_leb, Z.gtb_ltb, Z.leb_antisym. apply negb_involutive.
Qed.

(** ** The AVX2 intrinsics *)

Lemma zip_with_replicate_lanes (f : Z → Z → Z) (chunk : list Z) (y : Z) :
  zip_with f chunk (replicate (length chunk) y) = (λ x, f x y) <$> chunk.
Proof. induction chunk as [|x chunk IH]; simpl; [done|]. by rewrite IH. Qed.

Lemma cmpgt_lanes (chunk : list Z) (key : Z) :
  length chunk = 8 →
  mm256_cmpgt_epi32 chunk (mm256_set1_epi32 key)
  = lane_mask (λ k, (k >? key)%Z) <$> chunk.
Proof.
  intros H. unfold mm256_cmpgt_epi32, mm256_set1_epi32. rewrite <- H.
  apply zip_with_replicate_lanes.
Qed.

Lemma cmpeq_lanes (chunk : list Z) (key : Z) :
  length chunk = 8 →
  mm256_cmpeq_epi32 chunk (mm256_set1_epi32 key)
  = lane_mask (λ k, (k =? key)%Z) <$> chunk.
Proof.
  intros H. unfold mm256_cmpeq_epi32, mm256_set1_epi32. rewrite <- H.
  apply zip_with_replicate_lanes.
Qed.

Lemma length_loadu (junk : nat → Z) (ks : list Z) (i : nat) :
  length (mm256_loadu_si256 junk ks i) = 8.
Proof. reflexivity. Qed.

Lemma lookup_loadu (junk : nat → Z) (ks : list Z) (i j : nat) :
  j < 8 →
  mm256_loadu_si256 junk ks i !! j = Some (default (junk (i + j)) (ks !! (i + j))).
Proof.
  intros Hj. unfold mm256_loadu_si256.
  rewrite list_lookup_fmap, lookup_seq_lt by done. done.
Qed.

Section Movemask.

Variable p : Z → bool.

Lemma movemask_cons (x : Z) (l : list Z) :
  mm256_movemask_ps (lane_mask p x :: (lane_mask p <$> l))
  = (2 * mm256_movemask_ps (lane_mask p <$> l) + Z.b2z (p x))%Z.
Proof.
  change (mm256_movemask_ps (lane_mask p x :: (lane_mask p <$> l)))
    with (Z.b2z (Z.testbit (lane_mask p x) 31)
          + 2 * mm256_movemask_ps (lane_mask p <$> l))%Z.
  replace (Z.testbit (lane_mask p x) 31) with (p x)
    by (unfold lane_mask; by destruct (p x)).
  apply Z.add_comm.
Qed.

(** Bit [j] of the mask tells whether lane [j] satisfies [p]. *)
Lemma movemask_testbit (l : list Z) :
  ∀ j, Z.testbit (mm256_movemask_ps (lane_mask p <$> l)) (Z.of_nat j)
       = default false (p <$> l !! j).
Proof.
  induction l as [|x l IH]; intros j.
  - simpl. apply Z.testbit_0_l.
  - rewrite fmap_cons, movemask_cons. destruct j as [|j].
    + simpl. apply Z.testbit_0_r.
    + rewrite Nat2Z.inj_succ, Z.testbit_succ_r by lia. simpl. apply IH.
Qed.

Lemma movemask_zero (l : list Z) :
  (∀ j x, l !! j = Some x → p x = false) →
  mm256_movemask_ps (lane_mask p <$> l) = 0%Z.
Proof.
  induction l as [|x l IH]; intros H; [done|].
  rewrite fmap_cons, movemask_cons.
  rewrite IH by (intros j y Hy; apply (H (S j)); done).
  by rewrite (H 0 x).
Qed.

Lemma movemask_nonzero (l : list Z) (j : nat) (x : Z) :
  l !! j = Some x → p x = true →
  mm256_movemask_ps (lane_mask p <$> l) ≠ 0%Z.
Proof.
  intros Hx Hp Hzero.
  pose proof (movemask_testbit l j) as Hbit.
  rewrite Hzero, Z.testbit_0_l, Hx in Hbit. simpl in Hbit. congruence.
Qed.

(** Either no lane satisfies [p] or there is a first one that does. *)
Lemma first_lane (l : list Z) :
  (∀ j x, l !! j = Some x → p x = false)
  ∨ ∃ d x, l !! d = Some x ∧ p x = true
           ∧ ∀ j y, j < d → l !! j = Some y → p y = false.
Proof.
  induction l as [|a l [IH|(d & x & Hx & Hp & Hbefore)]].
  - left. intros j x Hx. done.
  - destruct (p a) eqn:Ea.
    + right. exists 0, a. split; [done|]. split; [done|]. intros; lia.
    + left. intros [|j] x Hx; simpl in Hx; [by injection Hx as <-|eauto].
  - right. destruct (p a) eqn:Ea.
    + exists 0, a. split; [done|]. split; [done|]. intros; lia.
    + exists (S d), x. split; [done|]. split; [done|].
      intros [|j] y Hj Hy; simpl in Hy; [by injection Hy as <-|].
      apply (Hbefore j); [lia|done].
Qed.

End Movemask.

Lemma ctz_from_spec (x : Z) (d : nat) (bits : nat) :
  ∀ j,
    j ≤ d → d - j < bits →
    Z.testbit x (Z.of_nat d) = true →
    (∀ j', j ≤ j' < d → Z.testbit x (Z.of_nat j') = false) →
    ctz_from bits x j = d.
Proof.
  induction bits as [|bits IH]; intros j Hj Hbits Hd Hbefore; [lia|].
  simpl. destruct (decide (j = d)) as [->|Hne].
  - by rewrite Hd.
  - rewrite Hbefore by lia. apply IH; [lia|lia|done|].
    intros j' Hj'. apply Hbefore. lia.
Qed.

(** [__builtin_ctz] of a lane mask is the index of the first lane that
    satisfies [p]. *)
Lemma ctz_movemask (p : Z → bool) (l : list Z) (d : nat) (x : Z) :
  length l ≤ 32 →
  l !! d = Some x → p x = true →
  (∀ j y, j < d → l !! j = Some y → p y = false) →
  builtin_ctz (mm256_movemask_ps (lane_mask p <$> l)) = d.
Proof.
  intros Hlen Hx Hp Hbefore. unfold builtin_ctz.
  pose proof (lookup_lt_Some _ _ _ Hx) as Hd.
  apply ctz_from_spec; [lia|lia| |].
  - by rewrite movemask_testbit, Hx; simpl.
  - intros j Hj. rewrite movemask_testbit.
    destruct (lookup_lt_is_Some_2 l j) as [y Hy]; [lia|].
    rewrite Hy. simpl. apply (Hbefore j); [lia|done].
Qed.

Lemma lookup_loadu_written (junk : nat → Z) (ks : list Z) (i j : nat) :
  j < 8 → i + j < length ks →
  ∃ y, ks !! (i + j) = Some y ∧ mm256_loadu_si256 junk ks i !! j = Some y.
Proof.
  intros Hj Hlen. destruct (lookup_lt_is_Some_2 ks (i + j)) as [y Hy]; [done|].
  exists y. split; [done|]. by rewrite lookup_loadu, Hy.
Qed.

(** The chunked scan finds what the slot-by-slot scan over
    [keys[i..num_keys)] finds, whatever lies past [num_keys]. *)
Lemma simd_scan_first_hit (cmp : list Z → list Z → list Z) (p : Z → bool)
    (junk : nat → Z) (ks : list Z) (key : Z) (n : nat) :
  (∀ chunk, length chunk = 8 →
            cmp chunk (mm256_set1_epi32 key) = lane_mask p <$> chunk) →
  n ≤ length ks →
  ∀ fuel i,
    n ≤ i + fuel →
    simd_scan cmp junk ks (mm256_set1_epi32 key) n fuel i
    = first_hit p ks (n - i) i.
Proof.
  intros Hcmp Hlen. induction fuel as [|fuel IH]; intros i Hfuel.
  - replace (n - i) with 0 by lia. done.
  - simpl. destruct (i <? n) eqn:Ein.
    2:{ apply Nat.ltb_ge in Ein. by replace (n - i) with 0 by lia. }
    apply Nat.ltb_lt in Ein.
    rewrite Hcmp by apply length_loadu.
    assert (∀ j, j < 8 → i + j < n →
                 ∃ y, ks !! (i + j) = Some y
                      ∧ mm256_loadu_si256 junk ks i !! j = Some y) as Hreal.
    { intros j Hj Hjn. apply lookup_loadu_written; lia. }
    destruct (first_lane p (mm256_loadu_si256 junk ks i))
      as [Hnone|(d & x & Hx & Hp & Hbefore)].
    + rewrite movemask_zero by done. simpl.
      rewrite IH by lia.
      assert (∀ j, j < 8 → i + j < n →
                   ∃ y, ks !! (i + j) = Some y ∧ p y = false) as Hfalse.
      { intros j Hj Hjn. destruct (Hreal j) as (y & Hy & Hl); [done..|].
        exists y. split; [done|]. by apply (Hnone j). }
      destruct (decide (n - i ≤ 8)) as [Hshort|Hlong].
      * replace (n - (i + 8)) with 0 by lia. simpl. symmetry.
        apply first_hit_None_intro. intros j Hj. apply Hfalse; lia.
      * replace (n - i) with (8 + (n - (i + 8))) by lia. symmetry.
        apply first_hit_skip. intros j Hj. apply Hfalse; lia.
    + pose proof (lookup_lt_Some _ _ _ Hx) as Hd. rewrite length_loadu in Hd.
      pose proof (movemask_nonzero p _ d x Hx Hp) as Hmask.
      apply Z.eqb_neq in Hmask. rewrite Hmask. cbn [negb].
      rewrite (ctz_movemask p _ d x) by (done || rewrite length_loadu; lia).
      destruct (i + d <? n) eqn:Eidx.
      * apply Nat.ltb_lt in Eidx.
        destruct (Hreal d) as (y & Hy & Hl); [done..|].
        assert (y = x) as -> by congruence.
        symmetry.
        apply (first_hit_Some_intro p ks (n - i) i d x); [lia| |done|done].
        intros j Hj. destruct (Hreal j) as (z & Hz & Hlz); [lia..|].
        exists z. split; [done|]. by apply (Hbefore j).
      * apply Nat.ltb_ge in Eidx. rewrite IH by lia.
        replace (n - (i + 8)) with 0 by lia. simpl. symmetry.
        apply first_hit_None_intro. intros j Hj.
        destruct (Hreal j) as (z & Hz & Hlz); [lia..|].
        exists z. split; [done|]. apply (Hbefore j); [lia|done].
Qed.

(** The fuel of the chunked scan is enough: more of it changes nothing. *)
Lemma simd_scan_fuel (cmp : list Z → list Z → list Z) (junk : nat → Z)
    (ks target : list Z) (n : nat) :
  ∀ fuel fuel' i,
    n ≤ i + fuel → n ≤ i + fuel' →
    simd_scan cmp junk ks target n fuel i
    = simd_scan cmp junk ks target n fuel' i.
Proof.
  induction fuel as [|fuel IH]; intros [|fuel'] i H H'; simpl; try done.
  - destruct (i <? n) eqn:E; [apply Nat.ltb_lt in E; lia|done].
  - destruct (i <? n) eqn:E; [apply Nat.ltb_lt in E; lia|done].
  - destruct (i <? n) eqn:E; [|done]. apply Nat.ltb_lt in E.
    rewrite (IH fuel' (i + 8)) by lia. done.
Qed.

(** A hit of the chunked scan is always below [num_keys], whatever the
    arrays and the memory behind them hold. *)
Lemma simd_scan_below (cmp : list Z → list Z → list Z) (junk : nat → Z)
    (ks target : list Z) (n : nat) :
  ∀ fuel i idx,
    simd_scan cmp junk ks target n fuel i = Some idx → idx < n.
Proof.
  induction fuel as [|fuel IH]; intros i idx H; simpl in H; [done|].
  destruct (i <? n); [|done].
  destruct (negb _); [|by eapply IH].
  destruct (_ <? n) eqn:E; [|by eapply IH].
  injection H as <-. by apply Nat.ltb_lt.
Qed.

(** ** Binary search *)

Lemma ascendingb_lt (l : list Z) :
  ascendingb l = true →
  ∀ j1 j2 k1 k2,
    j1 < j2 → l !! j1 = Some k1 → l !! j2 = Some k2 → (k1 < k2)%Z.
Proof.
  induction l as [|a l IH]; intros H j1 j2 k1 k2 Hlt H1 H2; [done|].
  assert (ascendingb l = true ∧ ∀ b, l !! 0 = Some b → (a < b)%Z) as [Hl Hab].
  { destruct l as [|b r]; [done|]. simpl in H.
    apply andb_prop in H as [Hab Hr]. split; [done|].
    intros ? [= <-]. by apply Z.ltb_lt. }
  destruct j2 as [|j2]; [lia|]. simpl in H2.
  destruct j1 as [|j1]; simpl in H1.
  - injection H1 as <-. destruct j2 as [|j2]; [by apply Hab|].
    destruct (lookup_lt_is_Some_2 l 0) as [b Hb];
      [apply lookup_lt_Some in H2; lia|].
    specialize (Hab b Hb). specialize (IH Hl 0 (S j2) b k2).
    assert (b < k2)%Z by (apply IH; [lia|done|done]). lia.
  - apply (IH Hl j1 j2); [lia|done|done].
Qed.

(** The fuel of the binary search is enough: more of it changes nothing,
    so a [None] is always a read outside the written slots. *)
Lemma bsearch_fuel (below : Z → Z → bool) (ks : list Z) (key : Z) :
  ∀ fuel fuel' lo hi i,
    (hi - lo + 1 ≤ Z.of_nat fuel)%Z → (hi - lo + 1 ≤ Z.of_nat fuel')%Z →
    bsearch below ks key fuel lo hi i = bsearch below ks key fuel' lo hi i.
Proof.
  induction fuel as [|fuel IH]; intros [|fuel'] lo hi i H H'; simpl; try done.
  - destruct (hi <? lo)%Z eqn:E; [done|apply Z.ltb_ge in E; lia].
  - destruct (hi <? lo)%Z eqn:E; [done|apply Z.ltb_ge in E; lia].
  - destruct (hi <? lo)%Z eqn:E; [done|]. apply Z.ltb_ge in E.
    assert (lo ≤ lo + (hi - lo) ÷ 2 ≤ hi)%Z as Hmid.
    { rewrite Z.quot_div_nonneg by lia.
      pose proof (Z.div_mod (hi - lo) 2 ltac:(lia)).
      pose proof (Z.mod_pos_bound (hi - lo) 2 ltac:(lia)). lia. }
    destruct (Arr.rdZ ks (lo + (hi - lo) ÷ 2)) as [k|]; [|done].
    cbn [mbind option_bind].
    destruct (below k key); apply IH; lia.
Qed.

Section Bsearch.

Variables (below : Z → Z → bool) (ks : list Z) (key : Z) (n : nat).

Hypothesis Hlen : n ≤ length ks.

(** Along the live keys [below _ key] holds on a prefix only, as it does
    in a sorted array. *)
Hypothesis Hmono :
  ∀ j1 j2 k1 k2,
    j1 ≤ j2 → j2 < n → ks !! j1 = Some k1 → ks !! j2 = Some k2 →
    below k2 key = true → below k1 key = true.

Lemma bsearch_spec (fuel : nat) :
  ∀ lo hi i,
    (0 ≤ lo)%Z → (hi < Z.of_nat n)%Z → (lo ≤ hi + 1)%Z →
    (hi - lo + 1 ≤ Z.of_nat fuel)%Z →
    (∀ j k, (Z.of_nat j < lo)%Z → ks !! j = Some k → below k key = true) →
    (∀ j k, (hi < Z.of_nat j)%Z → j < n → ks !! j = Some k →
            below k key = false) →
    ∃ hi',
      bsearch below ks key fuel lo hi i
      = Some ((if (hi' =? hi)%Z then i else hi' + 1)%Z, hi')
      ∧ (lo - 1 ≤ hi' ≤ hi)%Z
      ∧ (∀ j k, (Z.of_nat j ≤ hi')%Z → ks !! j = Some k → below k key = true)
      ∧ (∀ j k, (hi' < Z.of_nat j)%Z → j < n → ks !! j = Some k →
                below k key = false).
Proof.
  induction fuel as [|fuel IH]; intros lo hi i Hlo Hhi Hlohi Hfuel Hleft Hright.
  - exists hi. simpl. destruct (hi <? lo)%Z eqn:E; [|apply Z.ltb_ge in E; lia].
    rewrite Z.eqb_refl. split; [done|]. split; [lia|]. split; [|done].
    intros j k Hj. apply Hleft. apply Z.ltb_lt in E. lia.
  - simpl. destruct (hi <? lo)%Z eqn:E.
    { exists hi. rewrite Z.eqb_refl. split; [done|]. split; [lia|].
      split; [|done]. intros j k Hj. apply Hleft. apply Z.ltb_lt in E. lia. }
    apply Z.ltb_ge in E.
    set (mid := (lo + (hi - lo) ÷ 2)%Z).
    assert (lo ≤ mid ≤ hi)%Z as Hmid.
    { unfold mid. rewrite Z.quot_div_nonneg by lia.
      pose proof (Z.div_mod (hi - lo) 2 ltac:(lia)).
      pose proof (Z.mod_pos_bound (hi - lo) 2 ltac:(lia)). lia. }
    unfold Arr.rdZ.
    destruct (mid <? 0)%Z eqn:Eneg; [apply Z.ltb_lt in Eneg; lia|].
    destruct (lookup_lt_is_Some_2 ks (Z.to_nat mid)) as [k Hk]; [lia|].
    rewrite Hk. simpl. destruct (below k key) eqn:Hbelow.
    + destruct (IH (mid + 1)%Z hi i) as (hi' & -> & Hb & Hl' & Hr');
        [lia|lia|lia|lia| |done|].
      * intros j kj Hj Hkj.
        apply (Hmono j (Z.to_nat mid) kj k); (done || lia).
      * exists hi'. split; [done|]. split; [lia|]. done.
    + destruct (IH lo (mid - 1)%Z mid) as (hi' & -> & Hb & Hl' & Hr');
        [lia|lia|lia|lia|done| |].
      * intros j kj Hj Hjn Hkj.
        destruct (below kj key) eqn:Hbj; [|done].
        rewrite (Hmono (Z.to_nat mid) j k kj) in Hbelow; (done || lia).
      * exists hi'. split; [|split; [lia|done]].
        destruct (hi' =? hi)%Z eqn:E1; [apply Z.eqb_eq in E1; lia|].
        destruct (hi' =? mid - 1)%Z eqn:E2; [|done].
        apply Z.eqb_eq in E2. do 2 f_equal. lia.
Qed.

(** The loop as [findBinary] starts it: it ends with [hi + 1] the number
    [b] of live keys that are [below], and [i] the slot [b], or the last
    slot when there is no slot [b]. *)
Lemma bsearch_boundary :
  let b := default n (first_hit (λ k, negb (below k key)) ks n 0) in
  b ≤ n
  ∧ bsearch below ks key n 0%Z (Z.of_nat n - 1)%Z (Z.of_nat n - 1)%Z
    = Some (if b =? n then (Z.of_nat n - 1)%Z else Z.of_nat b,
            (Z.of_nat b - 1)%Z)
  ∧ (∀ j k, j < b → ks !! j = Some k → below k key = true)
  ∧ (∀ k, b < n → ks !! b = Some k → below k key = false).
Proof.
  destruct (bsearch_spec n 0%Z (Z.of_nat n - 1)%Z (Z.of_nat n - 1)%Z)
    as (hi' & Hrun & Hb & Hleft & Hright); [lia|lia|lia|lia| | |].
  { intros j k Hj. lia. }
  { intros j k Hj Hjn. lia. }
  assert (default n (first_hit (λ k, negb (below k key)) ks n 0)
          = Z.to_nat (hi' + 1)) as ->.
  { apply first_hit_boundary; [done|lia| |].
    - intros j y Hj Hy. rewrite (Hleft j y); [done|lia|done].
    - intros y Hlt Hy. rewrite (Hright (Z.to_nat (hi' + 1)) y); [done|lia|lia|done]. }
  simpl. split; [lia|]. split; [|split].
  - rewrite Hrun. f_equal.
    destruct (Z.to_nat (hi' + 1) =? n) eqn:E1.
    + apply Nat.eqb_eq in E1.
      assert (hi' = Z.of_nat n - 1)%Z as -> by lia.
      rewrite Z.eqb_refl. f_equal. lia.
    + apply Nat.eqb_neq in E1.
      destruct (hi' =? Z.of_nat n - 1)%Z eqn:E2; [apply Z.eqb_eq in E2; lia|].
      f_equal; lia.
  - intros j k Hj. apply Hleft. lia.
  - intros k Hlt. apply Hright; lia.
Qed.

End Bsearch.

(** ** Reading the boolean invariants *)

Ltac bools :=
  repeat match goal with
    | H : andb _ _ = true |- _ => apply andb_prop in H as [? ?]
    | H : Nat.leb _ _ = true |- _ => apply Nat.leb_le in H
    | H : Nat.ltb _ _ = true |- _ => apply Nat.ltb_lt in H
    | H : Nat.eqb _ _ = true |- _ => apply Nat.eqb_eq in H
    | H : Z.ltb _ _ = true |- _ => apply Z.ltb_lt in H
    | H : Z.leb _ _ = true |- _ => apply Z.leb_le in H
    end.

Lemma forallb_lookup {A} (f : A → bool) (l : list A) (i : nat) (x : A) :
  forallb f l = true → l !! i = Some x → f x = true.
Proof.
  intros H Hx. rewrite forallb_forall in H. apply H.
  apply list_elem_of_In, list_elem_of_lookup. eauto.
Qed.

Lemma forallb_intro {A} (f : A → bool) (l : list A) :
  (∀ i x, l !! i = Some x → f x = true) → forallb f l = true.
Proof.
  intros H. apply forallb_forall. intros x Hx.
  apply list_elem_of_In, list_elem_of_lookup in Hx as [i Hi]. eauto.
Qed.

Lemma Forall_lookup_child {P : Node → Prop} (cs : list Node) (i : nat) (c : Node) :
  Forall P cs → cs !! i = Some c → P c.
Proof. intros H Hc. by eapply Forall_lookup_1. Qed.

Lemma forallb_insert {A} (f : A → bool) (l : list A) (i : nat) (x : A) :
  forallb f l = true → f x = true → forallb f (<[i := x]> l) = true.
Proof.
  intros Hl Hx. apply forallb_intro. intros j y Hy.
  destruct (decide (j = i)) as [->|Hne].
  - pose proof (lookup_lt_Some _ _ _ Hy) as Hlt. rewrite length_insert in Hlt.
    rewrite list_lookup_insert_eq in Hy by done. by injection Hy as <-.
  - rewrite list_lookup_insert_ne in Hy by done. by eapply forallb_lookup.
Qed.

Lemma forallb_take {A} (f : A → bool) (l : list A) (k : nat) :
  forallb f l = true → forallb f (take k l) = true.
Proof.
  intros Hl. apply forallb_intro. intros j y Hy.
  apply lookup_take_Some in Hy as [Hy _]. by eapply forallb_lookup.
Qed.

Lemma forallb_drop {A} (f : A → bool) (l : list A) (k : nat) :
  forallb f l = true → forallb f (drop k l) = true.
Proof.
  intros Hl. apply forallb_intro. intros j y Hy.
  rewrite lookup_drop in Hy. by eapply forallb_lookup.
Qed.

Lemma roomb_leaf_iff (M n : nat) (ks vs : list Z) :
  roomb M (Leaf n ks vs) = true
  ↔ n < M ∧ n ≤ length ks ∧ length ks ≤ M ∧ n ≤ length vs ∧ length vs ≤ M.
Proof.
  simpl. rewrite !andb_true_iff, Nat.ltb_lt, !Nat.leb_le. tauto.
Qed.

Lemma roomb_internal_iff (M n : nat) (ks : list Z) (cs : list Node) :
  roomb M (Internal n ks cs) = true
  ↔ n < M ∧ n ≤ length ks ∧ length ks ≤ M ∧ length cs = n + 1
    ∧ forallb (roomb M) cs = true.
Proof.
  simpl. rewrite !andb_true_iff, Nat.ltb_lt, !Nat.leb_le, Nat.eqb_eq. tauto.
Qed.

Lemma depthb_leaf_iff (h n : nat) (ks vs : list Z) :
  depthb h (Leaf n ks vs) = true ↔ h = 0.
Proof. destruct h; simpl; split; (done || lia). Qed.

Lemma depthb_internal_iff (h n : nat) (ks : list Z) (cs : list Node) :
  depthb h (Internal n ks cs) = true
  ↔ ∃ h', h = S h' ∧ forallb (depthb h') cs = true.
Proof.
  destruct h as [|h]; simpl; split.
  - done.
  - intros (h' & ? & _). lia.
  - intros H. by exists h.
  - by intros (h' & [= <-] & H).
Qed.

(** ** The three lookups *)

(** The AVX2 lookup agrees with the linear one on every tree of the right
    shape, sorted or not, whatever the stale and unwritten slots hold. *)
Lemma findSIMD_findLinear (junk : nat → Z) (key val_out : Z) (t : Node) :
  shapeb t = true →
  findSIMD junk t key val_out = findLinear t key val_out.
Proof.
  induction t as [n ks vs|n ks cs IH] using Node_ind; intros Hshape;
    simpl in Hshape; bools; simpl.
  - rewrite leaf_linear_first_hit by lia.
    rewrite (simd_scan_first_hit mm256_cmpeq_epi32 (λ k, (k =? key)%Z) junk ks key n)
      by (done || lia || (intros; by apply cmpeq_lanes)).
    by rewrite Nat.sub_0_r.
  - rewrite (simd_scan_first_hit mm256_cmpgt_epi32 (λ k, (k >? key)%Z) junk ks key n)
      by (done || lia || (intros; by apply cmpgt_lanes)).
    rewrite Nat.sub_0_r, first_hit_descent_index by done.
    rewrite scan_geb_descent_index by done. simpl.
    rewrite !at_index_lookup.
    destruct (cs !! descent_index key (live n ks)) as [c|] eqn:Hc; [|done].
    simpl. apply (Forall_lookup_child _ _ _ IH Hc).
    by eapply forallb_lookup.
Qed.

Lemma findLinear_defined (key val_out : Z) (t : Node) :
  shapeb t = true → is_Some (findLinear t key val_out).
Proof.
  induction t as [n ks vs|n ks cs IH] using Node_ind; intros Hshape;
    simpl in Hshape; bools; simpl.
  - rewrite leaf_linear_first_hit by lia.
    destruct (first_hit _ ks n 0) as [idx|] eqn:Hidx; [|done].
    apply first_hit_Some_elim in Hidx as (Hr & _).
    destruct (lookup_lt_is_Some_2 vs idx) as [v ->]; [lia|]. done.
  - rewrite scan_geb_descent_index by done. simpl.
    rewrite at_index_lookup.
    pose proof (descent_index_spec key (live n ks)) as [Hd _].
    rewrite length_live in Hd by done.
    destruct (lookup_lt_is_Some_2 cs (descent_index key (live n ks)))
      as [c Hc]; [lia|].
    rewrite Hc. simpl. apply (Forall_lookup_child _ _ _ IH Hc).
    by eapply forallb_lookup.
Qed.

Lemma live_sorted (n : nat) (ks : list Z) :
  ascendingb (live n ks) = true →
  ∀ j1 j2 k1 k2,
    j1 ≤ j2 → j2 < n → ks !! j1 = Some k1 → ks !! j2 = Some k2 → (k1 ≤ k2)%Z.
Proof.
  intros Hasc j1 j2 k1 k2 Hj Hn H1 H2.
  destruct (decide (j1 = j2)) as [->|Hne]; [assert (k1 = k2) by congruence; lia|].
  rewrite <- (lookup_live n) in H1, H2 by lia.
  pose proof (ascendingb_lt _ Hasc j1 j2 k1 k2 ltac:(lia) H1 H2). lia.
Qed.

Lemma binary_leaf (key val_out : Z) (n : nat) (ks vs : list Z) :
  n ≤ length ks → n ≤ length vs → ascendingb (live n ks) = true →
  findBinary (Leaf n ks vs) key val_out = findLinear (Leaf n ks vs) key val_out.
Proof.
  intros Hks Hvs Hasc.
  pose proof (live_sorted n ks Hasc) as Hsorted.
  destruct (bsearch_boundary Z.ltb ks key n Hks) as (Hb & Hrun & Hleft & Hright).
  { intros j1 j2 k1 k2 Hj Hn H1 H2 Hlt. apply Z.ltb_lt in Hlt. apply Z.ltb_lt.
    pose proof (Hsorted j1 j2 k1 k2 Hj Hn H1 H2). lia. }
  set (b := default n (first_hit (λ k, negb (k <? key)%Z) ks n 0)) in *.
  cbn [findBinary findLinear]. rewrite Hrun. cbn [mbind option_bind].
  rewrite leaf_linear_first_hit by lia.
  destruct (b =? n) eqn:Eb.
  - apply Nat.eqb_eq in Eb.
    assert (first_hit (λ k, (k =? key)%Z) ks n 0 = None) as ->.
    { apply first_hit_None_intro. intros j Hj.
      destruct (lookup_lt_is_Some_2 ks j) as [y Hy]; [lia|].
      exists y. split; [done|]. specialize (Hleft j y ltac:(lia) Hy).
      apply Z.ltb_lt in Hleft. apply Z.eqb_neq. lia. }
    destruct (decide (n = 0)) as [->|Hn]; [done|].
    replace ((0 <=? Z.of_nat n - 1)%Z && (Z.of_nat n - 1 <? Z.of_nat n)%Z)
      with true by (symmetry; apply andb_true_intro; split;
                    [apply Z.leb_le|apply Z.ltb_lt]; lia).
    unfold Arr.rdZ.
    destruct (Z.of_nat n - 1 <? 0)%Z eqn:E; [apply Z.ltb_lt in E; lia|].
    destruct (lookup_lt_is_Some_2 ks (Z.to_nat (Z.of_nat n - 1))) as [k Hk]; [lia|].
    rewrite Hk. cbn [mbind option_bind].
    specialize (Hleft (Z.to_nat (Z.of_nat n - 1)) k ltac:(lia) Hk).
    apply Z.ltb_lt in Hleft.
    destruct (k =? key)%Z eqn:E2; [apply Z.eqb_eq in E2; lia|done].
  - apply Nat.eqb_neq in Eb.
    replace ((0 <=? Z.of_nat b)%Z && (Z.of_nat b <? Z.of_nat n)%Z)
      with true by (symmetry; apply andb_true_intro; split;
                    [apply Z.leb_le|apply Z.ltb_lt]; lia).
    unfold Arr.rdZ.
    destruct (Z.of_nat b <? 0)%Z eqn:E; [apply Z.ltb_lt in E; lia|].
    rewrite Nat2Z.id.
    destruct (lookup_lt_is_Some_2 ks b) as [k Hk]; [lia|].
    rewrite Hk. cbn [mbind option_bind].
    specialize (Hright k ltac:(lia) Hk). apply Z.ltb_ge in Hright.
    assert (∀ j, j < b → ∃ y, ks !! (0 + j) = Some y ∧ (y =? key)%Z = false)
      as Hbefore.
    { intros j Hj. destruct (lookup_lt_is_Some_2 ks j) as [y Hy]; [lia|].
      exists y. split; [done|]. specialize (Hleft j y Hj Hy).
      apply Z.ltb_lt in Hleft. apply Z.eqb_neq. lia. }
    destruct (k =? key)%Z eqn:E2.
    + rewrite (first_hit_Some_intro _ ks n 0 b k); [done|lia|done|done|done].
    + apply Z.eqb_neq in E2.
      rewrite first_hit_None_intro; [done|].
      intros j Hj. destruct (decide (j < b)) as [Hlt|Hge]; [by apply Hbefore|].
      destruct (lookup_lt_is_Some_2 ks j) as [y Hy]; [lia|].
      exists y. split; [done|].
      pose proof (Hsorted b j k y ltac:(lia) Hj Hk Hy). apply Z.eqb_neq. lia.
Qed.

Lemma binary_internal (key val_out : Z) (n : nat) (ks : list Z) (cs : list Node) :
  n ≤ length ks → 0 < n → ascendingb (live n ks) = true →
  findBinary (Internal n ks cs) key val_out
  = cs !! descent_index key (live n ks) ≫= λ c, findBinary c key val_out.
Proof.
  intros Hks Hn Hasc.
  pose proof (live_sorted n ks Hasc) as Hsorted.
  destruct (bsearch_boundary Z.leb ks key n Hks) as (Hb & Hrun & Hleft & Hright).
  { intros j1 j2 k1 k2 Hj Hjn H1 H2 Hle. apply Z.leb_le in Hle. apply Z.leb_le.
    pose proof (Hsorted j1 j2 k1 k2 Hj Hjn H1 H2). lia. }
  assert (default n (first_hit (λ k, negb (k <=? key)%Z) ks n 0)
          = descent_index key (live n ks)) as Hd.
  { rewrite <- first_hit_descent_index by done. f_equal.
    apply first_hit_ext. intros k. by rewrite Z.gtb_ltb, Z.ltb_antisym. }
  rewrite Hd in *. set (b := descent_index key (live n ks)) in *.
  cbn [findBinary]. rewrite Hrun. cbn [mbind option_bind].
  unfold Arr.at_indexZ, Arr.rdZ.
  destruct (b =? n) eqn:Eb.
  - apply Nat.eqb_eq in Eb.
    replace (Z.of_nat b - 1)%Z with (Z.of_nat n - 1)%Z by lia.
    rewrite Z.eqb_refl.
    destruct (Z.of_nat n - 1 <? 0)%Z eqn:E; [apply Z.ltb_lt in E; lia|].
    destruct (lookup_lt_is_Some_2 ks (Z.to_nat (Z.of_nat n - 1))) as [k Hk]; [lia|].
    rewrite Hk. cbn [mbind option_bind].
    specialize (Hleft (Z.to_nat (Z.of_nat n - 1)) k ltac:(lia) Hk).
    apply Z.leb_le in Hleft.
    destruct (k >? key)%Z eqn:E2; [rewrite Z.gtb_ltb in E2; apply Z.ltb_lt in E2; lia|].
    destruct (Z.of_nat n - 1 + 1 <? 0)%Z eqn:E3; [apply Z.ltb_lt in E3; lia|].
    replace (Z.to_nat (Z.of_nat n - 1 + 1)) with b by lia.
    apply at_index_lookup.
  - apply Nat.eqb_neq in Eb.
    destruct (Z.of_nat b =? Z.of_nat b - 1)%Z eqn:E; [apply Z.eqb_eq in E; lia|].
    destruct (Z.of_nat b <? 0)%Z eqn:E1; [apply Z.ltb_lt in E1; lia|].
    rewrite Nat2Z.id. apply at_index_lookup.
Qed.

(** On a tree of the right shape whose nodes are sorted and whose
    internal nodes are not empty, the binary lookup agrees with the linear
    one. *)
Lemma findBinary_findLinear (key val_out : Z) (t : Node) :
  shapeb t = true → orderedb t = true → separator_in_each t = true →
  findBinary t key val_out = findLinear t key val_out.
Proof.
  induction t as [n ks vs|n ks cs IH] using Node_ind;
    intros Hshape Hord Hsep; simpl in Hshape, Hord, Hsep; bools.
  - by apply binary_leaf.
  - rewrite binary_internal by done.
    cbn [findLinear]. rewrite scan_geb_descent_index by done.
    cbn [mbind option_bind]. rewrite at_index_lookup.
    destruct (cs !! descent_index key (live n ks)) as [c|] eqn:Hc; [|done].
    cbn [mbind option_bind].
    apply (Forall_lookup_child _ _ _ IH Hc); by eapply forallb_lookup.
Qed.

Lemma findLinear_reached_leaf (key val_out : Z) (t : Node) :
  shapeb t = true →
  ∃ n ks vs,
    reached_leaf t key = Some (Leaf n ks vs)
    ∧ n ≤ length ks ∧ n ≤ length vs
    ∧ findLinear t key val_out = leaf_linear key ks vs n 0 val_out.
Proof.
  induction t as [n ks vs|n ks cs IH] using Node_ind; intros Hshape;
    simpl in Hshape; bools.
  - exists n, ks, vs. done.
  - cbn [findLinear reached_leaf]. rewrite scan_geb_descent_index by done.
    cbn [mbind option_bind]. rewrite !at_index_lookup.
    pose proof (descent_index_spec key (live n ks)) as [Hd _].
    rewrite length_live in Hd by done.
    destruct (lookup_lt_is_Some_2 cs (descent_index key (live n ks)))
      as [c Hc]; [lia|].
    rewrite Hc. cbn [mbind option_bind].
    apply (Forall_lookup_child _ _ _ IH Hc). by eapply forallb_lookup.
Qed.

(** C3, as stated, fails on a tree with an empty internal node: there
    [findBinary] starts with [hi = i = -1], skips its loop and reads
    [keys[-1]].  Such a tree meets the ordering, separator and balance
    invariants; the first is written out by hand for fan-out 4, the second
    is what three inserts build for fan-out 2. *)
Lemma findBinary_reads_before_keys :
  let t4 := Internal 0 [] [Leaf 1 [5] [50]]%Z in
  (valid 4 t4
   ∧ findLinear t4 5 0 = Some (true, 50%Z)
   ∧ findSIMD (λ _, 0%Z) t4 5 0 = Some (true, 50%Z)
   ∧ bsearch Z.leb [] 5 0 0 (-1) (-1) = Some ((-1)%Z, (-1)%Z)
   ∧ Arr.rdZ ([] : list Z) (-1) = None
   ∧ findBinary t4 5 0 = None)
  ∧ ∃ t2, insert_all 2 empty [(1, 10); (2, 20); (3, 30)]%Z = Some t2
          ∧ valid 2 t2
          ∧ findLinear t2 3 0 = Some (true, 30%Z)
          ∧ findBinary t2 3 0 = None.
Proof.
  split.
  - repeat split; vm_compute; reflexivity.
  - eexists. split; [vm_compute; reflexivity|].
    repeat split; vm_compute; reflexivity.
Qed.

(** C3 (amended): on every valid tree in which each internal node holds at
    least one key, [findLinear], [findBinary] and [findSIMD] (the [int]
    overload, whatever the slots past [num_keys] hold) return the same
    [(found, value)], and the overload of [findSIMD] for other key types
    is [findBinary]. *)
Theorem lookups_agree (M : nat) (junk : nat → Z) (t : Node) (key val_out : Z) :
  valid M t → separator_in_each t = true →
  ∃ r, findLinear t key val_out = Some r
       ∧ findBinary t key val_out = Some r
       ∧ findSIMD junk t key val_out = Some r
       ∧ findSIMD_fallback t key val_out = findBinary t key val_out.
Proof.
  intros (Hshape & _ & Hord & _ & _) Hsep.
  destruct (findLinear_defined key val_out t Hshape) as [r Hr].
  exists r. split; [done|]. split; [|split; [|done]].
  - by rewrite findBinary_findLinear.
  - by rewrite findSIMD_findLinear.
Qed.

Lemma lookups_agree_witness :
  ∃ t, insert_all 4 empty [(10, 1); (20, 2); (5, 3); (6, 4)]%Z = Some t
       ∧ findLinear t 6 0 = Some (true, 4%Z)
       ∧ findBinary t 6 0 = Some (true, 4%Z)
       ∧ findSIMD (λ _, 6%Z) t 6 0 = Some (true, 4%Z).
Proof.
  eexists. split; [vm_compute; reflexivity|].
  match goal with |- findLinear ?t _ _ = _ ∧ _ =>
    destruct (lookups_agree 4 (λ _, 6%Z) t 6 0) as (r & H1 & H2 & H3 & _)
  end.
  - repeat split; vm_compute; reflexivity.
  - vm_compute; reflexivity.
  - assert (r = (true, 4%Z)) as ->.
    { vm_compute in H1. by injection H1 as <-. }
    done.
Defined.

(** C7: in the leaf the descent reaches, the chunked AVX2 scan reports
    only indices below [num_keys], and at such an index the key is stored;
    so [findSIMD] returns true only for a key among [keys[0..num_keys)] of
    that leaf, with the value of its slot.  This holds whatever the stale
    slots of the arrays and the memory behind them ([junk]) hold. *)
Theorem findSIMD_hit_is_live (M : nat) (junk : nat → Z) (t : Node) (key val_out : Z) :
  valid M t →
  ∃ n ks vs,
    reached_leaf t key = Some (Leaf n ks vs)
    ∧ (∀ idx,
         simd_scan mm256_cmpeq_epi32 junk ks (mm256_set1_epi32 key) n n 0
         = Some idx →
         idx < n ∧ ks !! idx = Some key)
    ∧ (∀ v,
         findSIMD junk t key val_out = Some (true, v) →
         ∃ idx, idx < n ∧ ks !! idx = Some key ∧ vs !! idx = Some v).
Proof.
  intros (Hshape & _).
  destruct (findLinear_reached_leaf key val_out t Hshape)
    as (n & ks & vs & Hleaf & Hks & Hvs & Hlin).
  exists n, ks, vs. split; [done|].
  assert (∀ idx, first_hit (λ k, (k =? key)%Z) ks n 0 = Some idx →
                 idx < n ∧ ks !! idx = Some key) as Hhit.
  { intros idx Hidx.
    apply first_hit_Some_elim in Hidx as (Hr & (k & Hk & Hp) & _).
    apply Z.eqb_eq in Hp as ->. split; [lia|done]. }
  split.
  - intros idx Hidx. apply Hhit. rewrite <- Hidx.
    rewrite (simd_scan_first_hit mm256_cmpeq_epi32 (λ k, (k =? key)%Z) junk ks key n)
      by (done || lia || (intros; by apply cmpeq_lanes)).
    by rewrite Nat.sub_0_r.
  - intros v Hv. rewrite findSIMD_findLinear, Hlin in Hv by done.
    rewrite leaf_linear_first_hit in Hv by lia.
    destruct (first_hit _ ks n 0) as [idx|] eqn:Hidx; [|done].
    exists idx. destruct (Hhit idx eq_refl) as [? ?].
    destruct (vs !! idx) as [v'|]; [|done].
    simpl in Hv. by injection Hv as <-.
Qed.

(** A leaf whose stale slots and whose neighbouring memory all hold the
    searched key: no hit is reported. *)
Lemma findSIMD_hit_is_live_witness :
  ∃ n ks vs,
    reached_leaf (Leaf 2 [5; 6; 7; 7] [3; 4; 9; 9])%Z 7 = Some (Leaf n ks vs)
    ∧ simd_scan mm256_cmpeq_epi32 (λ _, 7%Z) ks (mm256_set1_epi32 7) n n 0 = None
    ∧ findSIMD (λ _, 7%Z) (Leaf 2 [5; 6; 7; 7] [3; 4; 9; 9])%Z 7 0
      = Some (false, 0%Z)
    ∧ ∀ v,
        findSIMD (λ _, 7%Z) (Leaf 2 [5; 6; 7; 7] [3; 4; 9; 9])%Z 7 0
        = Some (true, v) →
        ∃ idx, idx < n ∧ ks !! idx = Some 7%Z ∧ vs !! idx = Some v.
Proof.
  destruct (findSIMD_hit_is_live 4 (λ _, 7%Z)
              (Leaf 2 [5; 6; 7; 7] [3; 4; 9; 9])%Z 7 0)
    as (n & ks & vs & Hleaf & _ & Hfind).
  { repeat split; vm_compute; reflexivity. }
  exists n, ks, vs. split; [exact Hleaf|].
  simpl in Hleaf. injection Hleaf as <- <- <-.
  split; [vm_compute; reflexivity|]. split; [vm_compute; reflexivity|].
  exact Hfind.
Defined.

(** ** Insertion *)

Lemma u16_small (x : Z) : (0 ≤ x < 65536)%Z → u16 x = Z.to_nat x.
Proof. intros H. unfold u16. by rewrite Z.mod_small. Qed.

Lemma half_bounds (M : nat) :
  2 ≤ M → 1 ≤ M / 2 ∧ M / 2 < M ∧ 2 * (M / 2) ≤ M.
Proof.
  intros HM. pose proof (Nat.div_mod_eq M 2).
  pose proof (Nat.mod_upper_bound M 2 ltac:(lia)). lia.
Qed.

(** The scan of [insert_recursive] stops behind keys that are below
    [key], so the slot before it never holds [key]. *)
Lemma scan_gtb_spec (key : Z) (ks : list Z) (n : nat) :
  n ≤ length ks →
  ∃ i, scan Z.gtb key ks n 0 = Some i ∧ i ≤ n
       ∧ ∀ j k, j < i → ks !! j = Some k → (k < key)%Z.
Proof.
  intros Hlen. rewrite scan_first_hit by lia. eexists. split; [done|].
  destruct (first_hit _ ks n 0) as [i|] eqn:Hi; simpl.
  - apply first_hit_Some_elim in Hi as (Hr & _ & Hbefore). split; [lia|].
    intros j k Hj Hk. specialize (Hbefore j k ltac:(lia) Hk).
    apply negb_false_iff in Hbefore. rewrite Z.gtb_ltb in Hbefore.
    by apply Z.ltb_lt.
  - split; [done|]. intros j k Hj Hk.
    pose proof (first_hit_None_elim _ ks n 0 ltac:(lia) Hi j k ltac:(lia) Hk)
      as Hp.
    apply negb_false_iff in Hp. rewrite Z.gtb_ltb in Hp. by apply Z.ltb_lt.
Qed.

(** Opening slot [i] among [n] live slots and writing [x] there. *)
Lemma open_slot {A} (cap n i : nat) (a : list A) (x : A) :
  i ≤ n → n ≤ length a → n < cap →
  ∃ a1 a2,
    Arr.shift_right cap a (n - i) n = Some a1
    ∧ Arr.wr cap a1 i x = Some a2
    ∧ length a2 = length a `max` (n + 1)
    ∧ ∀ j, a2 !! j = if decide (j = i) then Some x
                     else if decide (i < j ≤ n) then a !! (j - 1)
                     else a !! j.
Proof.
  intros Hi Hn Hcap.
  destruct (shift_right_spec cap (n - i) a n) as (a1 & H1 & Hl1 & Hg1); [lia..|].
  destruct (wr_spec cap a1 i x) as (a2 & H2 & Hl2 & Hg2).
  { lia. }
  { destruct (n - i =? 0); lia. }
  exists a1, a2. split; [done|]. split; [done|]. split.
  - destruct (n - i =? 0) eqn:E; [apply Nat.eqb_eq in E|]; lia.
  - intros j. rewrite Hg2. destruct (decide (j = i)); [done|].
    rewrite Hg1. destruct (decide (n - (n - i) < j ≤ n)), (decide (i < j ≤ n));
      (done || lia).
Qed.

(** What the leaf case of [insert_recursive] computes, for any fan-out:
    the overwrite is never taken and the pair goes into a new slot. *)
Lemma insert_leaf_eq (M n : nat) (ks vs : list Z) (key value : Z) :
  n < M → n ≤ length ks → length ks ≤ M → n ≤ length vs → length vs ≤ M →
  ∃ ks' vs',
    length ks' = length ks `max` (n + 1)
    ∧ length vs' = length vs `max` (n + 1)
    ∧ insert_recursive M (Leaf n ks vs) key value
      = if M <=? u16 (Z.of_nat n + 1)
        then '(old, sp) ← split_leaf M (u16 (Z.of_nat n + 1)) ks' vs';
             Some (old, Some sp)
        else Some (Leaf (u16 (Z.of_nat n + 1)) ks' vs', None).
Proof.
  intros Hn Hks HksM Hvs HvsM.
  destruct (scan_gtb_spec key ks n Hks) as (i & Hscan & Hi & Hbefore).
  destruct (open_slot M n i ks key) as (ks1 & ks2 & Hk1 & Hk2 & Hkl & _); [lia..|].
  destruct (open_slot M n i vs value) as (vs1 & vs2 & Hv1 & Hv2 & Hvl & _); [lia..|].
  exists ks2, vs2. split; [done|]. split; [done|].
  cbn [insert_recursive]. rewrite Hscan. cbn [mbind option_bind].
  assert ((if 0 <? i then k ← ks !! (i - 1); Some (k =? key)%Z else Some false)
          = Some false) as ->.
  { destruct (0 <? i) eqn:E; [|done]. apply Nat.ltb_lt in E.
    destruct (lookup_lt_is_Some_2 ks (i - 1)) as [k Hk]; [lia|].
    rewrite Hk. cbn [mbind option_bind]. f_equal.
    specialize (Hbefore (i - 1) k ltac:(lia) Hk). apply Z.eqb_neq. lia. }
  cbn [mbind option_bind]. rewrite Hk1. cbn [mbind option_bind].
  rewrite Hv1. cbn [mbind option_bind]. rewrite Hk2. cbn [mbind option_bind].
  by rewrite Hv2.
Qed.

Lemma u16_bound (x : Z) : (Z.of_nat (u16 x) < 65536)%Z.
Proof.
  unfold u16. pose proof (Z.mod_pos_bound x 65536 ltac:(lia)). lia.
Qed.

(** With a fan-out that [uint16_t num_keys] cannot count to, [num_keys]
    wraps to 0 before it reaches [M]: the root leaf never splits. *)
Lemma insert_all_wide (M : nat) (kvs : list (Z * Z)) :
  (65536 ≤ Z.of_nat M)%Z →
  ∀ n ks vs,
    (Z.of_nat n < 65536)%Z → n ≤ length ks → length ks ≤ M →
    n ≤ length vs → length vs ≤ M →
    ∃ n' ks' vs', insert_all M (Leaf n ks vs) kvs = Some (Leaf n' ks' vs').
Proof.
  intros HM. induction kvs as [|[k v] kvs IH]; intros n ks vs Hn Hks HksM Hvs HvsM.
  - by exists n, ks, vs.
  - destruct (insert_leaf_eq M n ks vs k v)
      as (ks' & vs' & Hkl & Hvl & Hins); [lia|done..|].
    pose proof (u16_bound (Z.of_nat n + 1)) as Hb.
    destruct (M <=? u16 (Z.of_nat n + 1)) eqn:E; [apply Nat.leb_le in E; lia|].
    cbn [insert_all]. unfold insert. rewrite Hins. cbn [mbind option_bind].
    assert (u16 (Z.of_nat n + 1) ≤ n + 1) as Hle.
    { unfold u16. pose proof (Z.mod_le (Z.of_nat n + 1) 65536). lia. }
    apply IH; lia.
Qed.

Lemma insert_all_app (M : nat) (kvs1 kvs2 : list (Z * Z)) :
  ∀ t, insert_all M t (kvs1 ++ kvs2)
       = insert_all M t kvs1 ≫= λ t', insert_all M t' kvs2.
Proof.
  induction kvs1 as [|[k v] kvs1 IH]; intros t; [done|].
  cbn [app insert_all]. destruct (insert M t k v); [|done].
  cbn [mbind option_bind]. apply IH.
Qed.

(** Below both the fan-out and the range of [num_keys], every insert adds
    one pair to the root leaf. *)
Lemma insert_all_fills_leaf (M : nat) (kvs : list (Z * Z)) :
  ∀ n ks vs,
    n + length kvs < M → (Z.of_nat (n + length kvs) < 65536)%Z →
    n ≤ length ks → length ks ≤ M → n ≤ length vs → length vs ≤ M →
    ∃ ks' vs',
      insert_all M (Leaf n ks vs) kvs = Some (Leaf (n + length kvs) ks' vs')
      ∧ n + length kvs ≤ length ks' ∧ length ks' ≤ M
      ∧ n + length kvs ≤ length vs' ∧ length vs' ≤ M.
Proof.
  induction kvs as [|[k v] kvs IH]; intros n ks vs HnM Hn16 Hks HksM Hvs HvsM.
  - exists ks, vs. rewrite Nat.add_0_r. done.
  - cbn [length] in HnM, Hn16.
    destruct (insert_leaf_eq M n ks vs k v)
      as (ks1 & vs1 & Hkl & Hvl & Hins); [lia|done..|].
    rewrite u16_small in Hins by lia.
    replace (Z.to_nat (Z.of_nat n + 1)) with (n + 1) in Hins by lia.
    destruct (M <=? n + 1) eqn:E; [apply Nat.leb_le in E; lia|].
    destruct (IH (n + 1) ks1 vs1) as (ks' & vs' & Hrun & Hb); [lia..|].
    exists ks', vs'. cbn [insert_all length]. unfold insert.
    rewrite Hins. cbn [mbind option_bind].
    replace (n + S (length kvs)) with (n + 1 + length kvs) by lia. done.
Qed.

(** With the fan-out 65536 the insert into the root leaf with 65535 pairs
    wraps [num_keys] to 0 and splits nothing. *)
Lemma insert_wraps_num_keys (kvs : list (Z * Z)) (key value : Z) :
  length kvs = Z.to_nat 65535 →
  ∃ ks vs ks' vs',
    insert_all (Z.to_nat 65536) empty kvs = Some (Leaf (Z.to_nat 65535) ks vs)
    ∧ insert_all (Z.to_nat 65536) empty (kvs ++ [(key, value)])
      = Some (Leaf 0 ks' vs').
Proof.
  intros Hlen.
  destruct (insert_all_fills_leaf (Z.to_nat 65536) kvs 0 [] [])
    as (ks & vs & Hrun & Hks & HksM & Hvs & HvsM); [cbn [length]; lia..|].
  replace (0 + length kvs) with (Z.to_nat 65535) in * by lia.
  destruct (insert_leaf_eq (Z.to_nat 65536) (Z.to_nat 65535) ks vs key value)
    as (ks' & vs' & _ & _ & Hins); [lia..|].
  replace (u16 (Z.of_nat (Z.to_nat 65535) + 1)) with 0 in Hins
    by (vm_compute; reflexivity).
  destruct (Z.to_nat 65536 <=? 0) eqn:E; [apply Nat.leb_le in E; lia|].
  exists ks, vs, ks', vs'. split; [done|].
  rewrite insert_all_app. unfold empty in *. rewrite Hrun.
  cbn [mbind option_bind insert_all]. unfold insert. by rewrite Hins.
Qed.

Section InsertFacts.

Variable M : nat.
Hypothesis HM2 : 2 ≤ M.
Hypothesis HM16 : (Z.of_nat M < 65536)%Z.

Lemma split_leaf_spec (ks vs : list Z) :
  length ks = M → length vs = M →
  ∃ median,
    ks !! (M / 2) = Some median
    ∧ split_leaf M M ks vs
      = Some (Leaf (M / 2) ks vs,
              (Leaf (M - M / 2) (drop (M / 2) ks) (drop (M / 2) vs), median)).
Proof.
  intros Hks Hvs. pose proof (half_bounds M HM2) as (Hh1 & Hh2 & Hh3).
  destruct (lookup_lt_is_Some_2 ks (M / 2)) as [median Hmed]; [lia|].
  exists median. split; [done|]. unfold split_leaf.
  replace (Z.to_nat (Z.of_nat M - Z.of_nat (M / 2))) with (M - M / 2) by lia.
  rewrite !copy_from_spec by (cbn [length]; lia). cbn [mbind option_bind app].
  rewrite Nat.add_0_r, !take_ge by (rewrite length_drop; lia).
  rewrite lookup_drop, Nat.add_0_r, Hmed. cbn [mbind option_bind].
  rewrite !u16_small by lia. do 4 f_equal; lia.
Qed.

(** A leaf below capacity takes the pair in; it splits exactly when that
    fills it. *)
Lemma insert_leaf_spec (n : nat) (ks vs : list Z) (key value : Z) :
  n < M → n ≤ length ks → length ks ≤ M → n ≤ length vs → length vs ≤ M →
  ∃ ks' vs',
    length ks' = length ks `max` (n + 1)
    ∧ length vs' = length vs `max` (n + 1)
    ∧ insert_recursive M (Leaf n ks vs) key value
      = if decide (n + 1 = M)
        then '(old, sp) ← split_leaf M M ks' vs'; Some (old, Some sp)
        else Some (Leaf (n + 1) ks' vs', None).
Proof.
  intros Hn Hks HksM Hvs HvsM.
  destruct (insert_leaf_eq M n ks vs key value)
    as (ks' & vs' & Hkl & Hvl & ->); [done..|].
  exists ks', vs'. split; [done|]. split; [done|].
  rewrite u16_small by lia.
  replace (Z.to_nat (Z.of_nat n + 1)) with (n + 1) by lia.
  destruct (decide (n + 1 = M)) as [->|Hne].
  - by rewrite Nat.leb_refl.
  - destruct (M <=? n + 1) eqn:E; [apply Nat.leb_le in E; lia|done].
Qed.

Lemma split_internal_spec (ks : list Z) (cs : list Node) :
  length ks = M → length cs = M + 1 →
  ∃ median,
    ks !! (M / 2) = Some median
    ∧ split_internal M M ks cs
      = Some (Internal (M / 2) ks (take (M / 2 + 1) cs),
              (Internal (M - M / 2 - 1) (drop (M / 2 + 1) ks)
                 (drop (M / 2 + 1) cs), median)).
Proof.
  intros Hks Hcs. pose proof (half_bounds M HM2) as (Hh1 & Hh2 & Hh3).
  destruct (lookup_lt_is_Some_2 ks (M / 2)) as [median Hmed]; [lia|].
  exists median. split; [done|]. unfold split_internal.
  rewrite Hmed. cbn [mbind option_bind].
  replace (Z.to_nat (Z.of_nat M - (Z.of_nat (M / 2) + 1))) with (M - M / 2 - 1)
    by lia.
  replace (Z.to_nat (Z.of_nat M - (Z.of_nat (M / 2) + 1) + 1)) with (M - M / 2)
    by lia.
  rewrite !copy_from_spec by (cbn [length]; lia). cbn [mbind option_bind app].
  rewrite Nat.add_0_r.
  rewrite (take_ge (drop _ ks)), (take_ge (drop _ cs))
    by (rewrite length_drop; lia).
  rewrite !u16_small by lia. do 4 f_equal; lia.
Qed.

(** An internal node below capacity takes in the median and the sibling
    of a child that split. *)
Lemma absorb_child_split (n i : nat) (ks : list Z) (cs0 : list Node)
    (median : Z) (sibling : Node) :
  i ≤ n → n < M → n ≤ length ks → length ks ≤ M → length cs0 = n + 1 →
  ∃ ks1 ks2 cs1 cs2,
    Arr.shift_right M ks (n - i) n = Some ks1
    ∧ Arr.shift_right (M + 1) cs0 (n + 1 - (i + 1)) (n + 1) = Some cs1
    ∧ Arr.wr M ks1 i median = Some ks2
    ∧ Arr.wr (M + 1) cs1 (i + 1) sibling = Some cs2
    ∧ length ks2 = length ks `max` (n + 1)
    ∧ length cs2 = n + 2
    ∧ ∀ f : Node → bool,
        f sibling = true → forallb f cs0 = true → forallb f cs2 = true.
Proof.
  intros Hi Hn Hks HksM Hcs.
  destruct (open_slot M n i ks median) as (ks1 & ks2 & Hk1 & Hk2 & Hkl & _);
    [lia..|].
  destruct (open_slot (M + 1) (n + 1) (i + 1) cs0 sibling)
    as (cs1 & cs2 & Hc1 & Hc2 & Hcl & Hcg); [lia..|].
  exists ks1, ks2, cs1, cs2. repeat (split; [done || lia|]).
  intros f Hsib Hall. apply forallb_intro. intros j c Hc.
  rewrite Hcg in Hc. destruct (decide (j = i + 1)); [by injection Hc as <-|].
  destruct (decide (i + 1 < j ≤ n + 1)); by eapply forallb_lookup.
Qed.

Lemma insert_recursive_spec (key value : Z) (t : Node) :
  ∀ h,
    roomb M t = true → depthb h t = true →
    ∃ t' sp,
      insert_recursive M t key value = Some (t', sp) ∧ insert_post M h t t' sp.
Proof.
  pose proof (half_bounds M HM2) as (Hh1 & Hh2 & Hh3).
  induction t as [n ks vs|n ks cs IH] using Node_ind; intros h Hroom Hdepth.
  - apply roomb_leaf_iff in Hroom as (Hn & Hks & HksM & Hvs & HvsM).
    apply depthb_leaf_iff in Hdepth as ->.
    destruct (insert_leaf_spec n ks vs key value)
      as (ks' & vs' & Hkl & Hvl & ->); [done..|].
    destruct (decide (n + 1 = M)) as [HnM|HnM].
    + destruct (split_leaf_spec ks' vs') as (median & _ & ->); [lia..|].
      cbn [mbind option_bind]. eexists _, _. split; [done|].
      unfold insert_post, kept. rewrite !roomb_leaf_iff, !depthb_leaf_iff.
      rewrite !length_drop. cbn [is_leaf num_keys separator_in_each].
      repeat split; lia.
    + eexists _, _. split; [done|].
      unfold insert_post, kept. rewrite !roomb_leaf_iff, !depthb_leaf_iff.
      cbn [is_leaf separator_in_each]. repeat split; lia.
  - apply roomb_internal_iff in Hroom as (Hn & Hks & HksM & Hcs & Hall).
    apply depthb_internal_iff in Hdepth as (h' & -> & Hdeep).
    destruct (scan_gtb_spec key ks n Hks) as (i & Hscan & Hi & _).
    destruct (lookup_lt_is_Some_2 cs i) as [c Hc]; [lia|].
    destruct (Forall_lookup_child _ _ _ IH Hc h') as (c' & sp & Hrec & Hpost);
      [by eapply forallb_lookup..|].
    destruct Hpost as ((Hroom' & Hdeep' & _ & Hsep') & Hsp).
    assert (3 ≤ M → separator_in_each (Internal n ks cs) = true →
            0 < n ∧ forallb separator_in_each (<[i := c']> cs) = true) as Hsep.
    { intros H3 (Hpos & Hseps)%andb_prop. apply Nat.ltb_lt in Hpos.
      split; [done|]. apply forallb_insert; [done|].
      apply Hsep'; [done|].
      exact (forallb_lookup separator_in_each cs i c Hseps Hc). }
    cbn [insert_recursive]. rewrite Hscan. cbn [mbind option_bind].
    rewrite at_index_lookup, Hc. cbn [mbind option_bind].
    rewrite Hrec. cbn [mbind option_bind].
    destruct sp as [[sibling median]|].
    + destruct Hsp as ((Hsroom & Hsdeep & _ & Hssep) & _).
      destruct (absorb_child_split n i ks (<[i := c']> cs) median sibling)
        as (ks1 & ks2 & cs1 & cs2 & -> & -> & Hk2 & Hc2 & Hkl & Hcl & Hf);
        [lia|lia|lia|lia|by rewrite length_insert|].
      cbn [mbind option_bind]. rewrite Hk2. cbn [mbind option_bind].
      rewrite Hc2. cbn [mbind option_bind].
      rewrite u16_small by lia.
      replace (Z.to_nat (Z.of_nat n + 1)) with (n + 1) by lia.
      pose proof (Hf (roomb M) Hsroom (forallb_insert _ _ _ _ Hall Hroom'))
        as Hall2.
      pose proof (Hf (depthb h') Hsdeep (forallb_insert _ _ _ _ Hdeep Hdeep'))
        as Hdeep2.
      assert (3 ≤ M → separator_in_each (Internal n ks cs) = true →
              forallb separator_in_each cs2 = true) as Hsep2.
      { intros H3 Hs. destruct (Hsep H3 Hs) as [_ Hs0]. apply Hf; [|done].
        apply Hssep; [done|]. apply andb_prop in Hs as [_ Hs].
        exact (forallb_lookup separator_in_each cs i c Hs Hc). }
      destruct (decide (n + 1 = M)) as [HnM|HnM].
      * replace (M <=? n + 1) with true by (symmetry; apply Nat.leb_le; lia).
        rewrite HnM.
        destruct (split_internal_spec ks2 cs2) as (med' & _ & ->); [lia..|].
        cbn [mbind option_bind]. eexists _, _. split; [done|].
        unfold insert_post, kept.
        rewrite !roomb_internal_iff, !depthb_internal_iff.
        rewrite !length_drop, length_take.
        cbn [is_leaf num_keys separator_in_each].
        repeat split; try lia.
        -- by apply forallb_take.
        -- exists h'. split; [done|]. by apply forallb_take.
        -- intros H3 Hs. apply andb_true_intro. split; [apply Nat.ltb_lt; lia|].
           apply forallb_take. by apply Hsep2.
        -- by apply forallb_drop.
        -- exists h'. split; [done|]. by apply forallb_drop.
        -- intros H3 Hs. apply andb_true_intro. split; [apply Nat.ltb_lt; lia|].
           apply forallb_drop. by apply Hsep2.
      * destruct (M <=? n + 1) eqn:E; [apply Nat.leb_le in E; lia|].
        eexists _, _. split; [done|].
        unfold insert_post, kept.
        rewrite !roomb_internal_iff, !depthb_internal_iff.
        cbn [is_leaf separator_in_each]. repeat split; try lia; [done| |].
        -- by exists h'.
        -- intros H3 Hs. apply andb_true_intro. split; [apply Nat.ltb_lt; lia|].
           by apply Hsep2.
    + eexists _, _. split; [done|].
      unfold insert_post, kept.
      rewrite !roomb_internal_iff, !depthb_internal_iff.
      rewrite length_insert. cbn [is_leaf separator_in_each].
      repeat split; try lia.
      * by apply forallb_insert.
      * exists h'. split; [done|]. by apply forallb_insert.
      * intros H3 Hs. destruct (Hsep H3 Hs) as [Hpos Hs0].
        apply andb_true_intro. split; [by apply Nat.ltb_lt|done].
Qed.

Lemma insert_spec (key value : Z) (t : Node) (h : nat) :
  roomb M t = true → depthb h t = true →
  ∃ t' h',
    insert M t key value = Some t' ∧ roomb M t' = true ∧ depthb h' t' = true
    ∧ (3 ≤ M → separator_in_each t = true → separator_in_each t' = true).
Proof.
  intros Hroom Hdepth.
  destruct (insert_recursive_spec key value t h Hroom Hdepth)
    as (t' & sp & Hrec & (Hroom' & Hdepth' & _ & Hsep') & Hsp).
  unfold insert. rewrite Hrec. cbn [mbind option_bind].
  destruct sp as [[new_child median]|].
  - destruct Hsp as ((Hsroom & Hsdepth & _ & Hssep) & _).
    unfold Arr.wr. cbn [length].
    destruct (M <=? 0) eqn:E0; [apply Nat.leb_le in E0; lia|].
    destruct (M + 1 <=? 0) eqn:E1; [apply Nat.leb_le in E1; lia|].
    destruct (M + 1 <=? 1) eqn:E2; [apply Nat.leb_le in E2; lia|].
    cbn. eexists _, (S h). split; [done|].
    rewrite roomb_internal_iff, depthb_internal_iff. cbn [length forallb].
    change (u16 1) with 1. rewrite Hroom', Hsroom.
    repeat split; try lia.
    + exists h. by rewrite Hdepth', Hsdepth.
    + intros H3 Hs. cbn [separator_in_each forallb].
      by rewrite Hsep', Hssep.
  - by eexists _, h.
Qed.

Lemma insert_all_spec (kvs : list (Z * Z)) :
  ∀ t h,
    roomb M t = true → depthb h t = true →
    ∃ t' h',
      insert_all M t kvs = Some t' ∧ roomb M t' = true ∧ depthb h' t' = true
      ∧ (3 ≤ M → separator_in_each t = true → separator_in_each t' = true).
Proof.
  induction kvs as [|[k v] kvs IH]; intros t h Hroom Hdepth.
  - by exists t, h.
  - destruct (insert_spec k v t h Hroom Hdepth)
      as (t1 & h1 & Hins & Hr1 & Hd1 & Hs1).
    cbn [insert_all]. rewrite Hins. cbn [mbind option_bind].
    destruct (IH t1 h1 Hr1 Hd1) as (t' & h' & Hrun & Hr' & Hd' & Hs').
    exists t', h'. repeat split; try done. intros H3 Hs. auto.
Qed.

Lemma empty_room : roomb M empty = true ∧ depthb 0 empty = true.
Proof. split; [|done]. apply roomb_leaf_iff. cbn [length]. lia. Qed.

(** While the root leaf has room, every insert adds one pair to it. *)
Lemma insert_all_leaf (kvs : list (Z * Z)) :
  ∀ n ks vs,
    roomb M (Leaf n ks vs) = true → n + length kvs < M →
    ∃ ks' vs',
      insert_all M (Leaf n ks vs) kvs = Some (Leaf (n + length kvs) ks' vs')
      ∧ roomb M (Leaf (n + length kvs) ks' vs') = true.
Proof.
  induction kvs as [|[k v] kvs IH]; intros n ks vs Hroom Hlen.
  - exists ks, vs. by rewrite Nat.add_0_r.
  - cbn [length] in Hlen.
    pose proof Hroom as (Hn & Hks & HksM & Hvs & HvsM)%roomb_leaf_iff.
    destruct (insert_leaf_spec n ks vs k v) as (ks1 & vs1 & Hkl & Hvl & Hins);
      [done..|].
    destruct (decide (n + 1 = M)) as [?|_]; [lia|].
    destruct (IH (n + 1) ks1 vs1) as (ks' & vs' & Hrun & Hroom'); [|lia|].
    { apply roomb_leaf_iff. lia. }
    exists ks', vs'. cbn [insert_all length]. unfold insert.
    rewrite Hins. cbn [mbind option_bind].
    replace (n + S (length kvs)) with (n + 1 + length kvs) by lia. done.
Qed.

(** The insert into a root leaf that holds [M - 1] pairs. *)
Lemma insert_full_leaf (ks vs : list Z) (key value : Z) :
  roomb M (Leaf (M - 1) ks vs) = true →
  ∃ median lks lvs rks rvs,
    insert M (Leaf (M - 1) ks vs) key value
    = Some (Internal 1 [median]
              [Leaf (M / 2) lks lvs; Leaf (M - M / 2) rks rvs]).
Proof.
  intros (Hn & Hks & HksM & Hvs & HvsM)%roomb_leaf_iff.
  destruct (insert_leaf_spec (M - 1) ks vs key value)
    as (ks1 & vs1 & Hkl & Hvl & Hins); [done..|].
  destruct (decide (M - 1 + 1 = M)) as [_|?]; [|lia].
  destruct (split_leaf_spec ks1 vs1) as (median & _ & Hsplit); [lia..|].
  rewrite Hsplit in Hins. cbn [mbind option_bind] in Hins.
  exists median. eexists _, _, _, _. unfold insert. rewrite Hins.
  cbn [mbind option_bind]. unfold Arr.wr. cbn [length].
  destruct (M <=? 0) eqn:E0; [apply Nat.leb_le in E0; lia|].
  destruct (M + 1 <=? 0) eqn:E1; [apply Nat.leb_le in E1; lia|].
  destruct (M + 1 <=? 1) eqn:E2; [apply Nat.leb_le in E2; lia|].
  cbn. done.
Qed.

End InsertFacts.

Lemma depthb_leaf_depths (t : Node) :
  ∀ h d, depthb h t = true → d ∈ leaf_depths t → d = h.
Proof.
  induction t as [n ks vs|n ks cs IH] using Node_ind; intros h d Hdepth Hd.
  - apply depthb_leaf_iff in Hdepth as ->. simpl in Hd.
    by apply list_elem_of_singleton in Hd.
  - apply depthb_internal_iff in Hdepth as (h' & -> & Hall).
    simpl in Hd. apply list_elem_of_fmap in Hd as (d' & -> & Hd').
    apply list_elem_of_In, in_concat in Hd' as (l & Hl & Hd').
    apply in_map_iff in Hl as (c & <- & Hc).
    apply list_elem_of_In, list_elem_of_lookup in Hc as [i Hc].
    f_equal. apply (Forall_lookup_child _ _ _ IH Hc).
    + by eapply forallb_lookup.
    + by apply list_elem_of_In.
Qed.

Lemma depthb_balanced (h : nat) (t : Node) : depthb h t = true → balanced t.
Proof.
  intros Hdepth d1 d2 H1 H2.
  rewrite (depthb_leaf_depths t h d1), (depthb_leaf_depths t h d2); done.
Qed.

(** C5: for a fan-out of at least 2 (the specification asks for 4) every
    run of inserts from the empty tree completes and leaves a balanced
    tree: any two leaves are at the same depth. *)
Theorem inserts_keep_balance (M : nat) (kvs : list (Z * Z)) :
  2 ≤ M →
  ∃ t, insert_all M empty kvs = Some t ∧ balanced t.
Proof.
  intros HM2. destruct (decide (Z.of_nat M < 65536)%Z) as [HM16|HM16].
  - destruct (empty_room M HM2) as [Hroom Hdepth].
    destruct (insert_all_spec M HM2 HM16 kvs empty 0 Hroom Hdepth)
      as (t & h & Hrun & _ & Hh & _).
    exists t. split; [done|]. by eapply depthb_balanced.
  - destruct (insert_all_wide M kvs ltac:(lia) 0 [] [])
      as (n' & ks' & vs' & Hrun); [cbn [length]; lia..|].
    eexists. split; [exact Hrun|]. by apply (depthb_balanced 0).
Qed.

Lemma inserts_keep_balance_witness :
  ∃ t, insert_all 4 empty ((λ k, (Z.of_nat k, Z.of_nat (10 * k))) <$> seq 1 10)
       = Some t
       ∧ balanced t.
Proof.
  apply (inserts_keep_balance 4). lia.
Defined.

(** For a fan-out of at least 3 no insert leaves an internal node empty:
    the trees built by inserts have a separator in each internal node, as
    the agreement of the lookups asks. *)
Lemma inserts_keep_separators (M : nat) (kvs : list (Z * Z)) (t : Node) :
  3 ≤ M → (Z.of_nat M < 65536)%Z →
  insert_all M empty kvs = Some t → separator_in_each t = true.
Proof.
  intros HM3 HM16 Hrun.
  destruct (empty_room M ltac:(lia)) as [Hroom Hdepth].
  destruct (insert_all_spec M ltac:(lia) HM16 kvs empty 0 Hroom Hdepth)
    as (t' & h & Hrun' & _ & _ & Hsep).
  assert (t' = t) as -> by congruence. by apply Hsep.
Qed.

(** C6, as stated, fails twice.  It miscounts the nodes: the split of the
    root leaf also allocates the new root, so the tree has three nodes,
    not two.  And [num_keys] is a [uint16_t]: with the fan-out 65536 the
    insert of the 65536th distinct key into the leaf that holds the keys
    [0..65534] wraps [num_keys] to 0 and splits nothing. *)
Lemma first_split_makes_three_nodes :
  (∃ t, insert_all 4 empty [(10, 1); (20, 2); (5, 3); (6, 4)]%Z = Some t
        ∧ t = (Internal 1 [10]
                 [Leaf 2 [5; 6; 10; 20] [3; 4; 1; 2];
                  Leaf 2 [10; 20] [1; 2]])%Z
        ∧ node_count t = 3
        ∧ node_count t ≠ 2)
  ∧ let kvs := (λ k, (Z.of_nat k, 0%Z)) <$> seq 0 (Z.to_nat 65535) in
    NoDup (kvs.*1) ∧ (65535%Z ∉ kvs.*1)
    ∧ ∃ ks vs ks' vs',
        insert_all (Z.to_nat 65536) empty kvs
        = Some (Leaf (Z.to_nat 65535) ks vs)
        ∧ insert_all (Z.to_nat 65536) empty (kvs ++ [(65535, 0)]%Z)
          = Some (Leaf 0 ks' vs').
Proof.
  split.
  - eexists. split; [vm_compute; reflexivity|]. split; [reflexivity|].
    split; [reflexivity|]. vm_compute. discriminate.
  - intros kvs.
    assert (kvs.*1 = Z.of_nat <$> seq 0 (Z.to_nat 65535)) as ->.
    { unfold kvs. rewrite <- list_fmap_compose. reflexivity. }
    split; [|split].
    + apply (NoDup_fmap_2 Z.of_nat), NoDup_seq.
    + intros (y & Hy & Hin)%list_elem_of_fmap.
      apply elem_of_seq in Hin. lia.
    + apply insert_wraps_num_keys.
      unfold kvs. rewrite length_fmap. apply length_seq.
Qed.

(** C6 (amended): for a fan-out [2 <= M <= 65535], inserting [M - 1]
    distinct keys into the empty tree leaves a single leaf with [M - 1]
    pairs (no split); the insert of an [M]-th distinct key splits that
    leaf once and yields a tree of three nodes, a new internal root with
    one separator over two leaves holding [M / 2] and [M - M / 2] pairs.
    Every node of a tree built by inserts is below capacity with its
    arrays within their [M] slots, and a call of [insert_recursive] on
    such a node completes and splits it exactly when it holds [M] keys,
    leaving both halves below capacity again.  (The proof makes no use of
    the keys being distinct.) *)
Theorem first_split (M : nat) (kvs : list (Z * Z)) :
  2 ≤ M → (Z.of_nat M < 65536)%Z →
  NoDup (kvs.*1) → length kvs = M - 1 →
  (∃ ks vs, insert_all M empty kvs = Some (Leaf (M - 1) ks vs))
  ∧ (∀ k v,
       k ∉ kvs.*1 →
       ∃ t median lks lvs rks rvs,
         insert_all M empty (kvs ++ [(k, v)]) = Some t
         ∧ t = Internal 1 [median]
                 [Leaf (M / 2) lks lvs; Leaf (M - M / 2) rks rvs]
         ∧ node_count t = 3)
  ∧ (∀ kvs0 t, insert_all M empty kvs0 = Some t → roomb M t = true)
  ∧ (∀ t h key value,
       roomb M t = true → depthb h t = true →
       ∃ t' sp,
         insert_recursive M t key value = Some (t', sp)
         ∧ insert_post M h t t' sp).
Proof.
  intros HM2 HM16 _ Hlen. destruct (empty_room M HM2) as [Hroom Hdepth].
  destruct (insert_all_leaf M HM2 HM16 kvs 0 [] [] Hroom ltac:(lia))
    as (ks & vs & Hrun & Hroom').
  replace (0 + length kvs) with (M - 1) in * by lia.
  split; [by exists ks, vs|]. split; [|split].
  - intros k v _.
    destruct (insert_full_leaf M HM2 HM16 ks vs k v Hroom')
      as (median & lks & lvs & rks & rvs & Hins).
    eexists _, median, lks, lvs, rks, rvs.
    rewrite insert_all_app. unfold empty in Hrun |- *. rewrite Hrun.
    cbn [mbind option_bind insert_all]. rewrite Hins.
    cbn [mbind option_bind]. done.
  - intros kvs0 t Ht.
    destruct (insert_all_spec M HM2 HM16 kvs0 empty 0 Hroom Hdepth)
      as (t' & h & Hrun' & Hr & _ & _).
    congruence.
  - intros t h key value. by apply insert_recursive_spec.
Qed.

Lemma first_split_witness :
  (∃ ks vs, insert_all 4 empty [(10, 1); (20, 2); (5, 3)]%Z = Some (Leaf 3 ks vs))
  ∧ ∃ t, insert_all 4 empty ([(10, 1); (20, 2); (5, 3)] ++ [(6, 4)])%Z = Some t
         ∧ node_count t = 3.
Proof.
  destruct (first_split 4 [(10, 1); (20, 2); (5, 3)]%Z) as (Ha & Hb & _).
  - lia.
  - lia.
  - apply (bool_decide_unpack _). vm_compute. exact I.
  - reflexivity.
  - split; [exact Ha|].
    destruct (Hb 6%Z 4%Z) as (t & ? & ? & ? & ? & ? & Hrun & _ & Hcount).
    + apply (bool_decide_unpack _). vm_compute. exact I.
    + by exists t.
Defined.

(** ** Removal *)

Section RemoveFacts.

Variables (M : nat) (key : Z).

Lemma remove_leaf_spec (n : nat) (ks vs : list Z) :
  n ≤ length ks → n ≤ length vs → n ≤ M → (Z.of_nat n < 65536)%Z →
  ∀ todo k,
    k + todo = n →
    (∀ j, j < k → ks !! j ≠ Some key) →
    ∃ t', remove_leaf M key n ks vs todo k = Some t'
          ∧ removed key (Leaf n ks vs) t'.
Proof.
  intros Hks Hvs HnM Hn16.
  induction todo as [|todo IH]; intros k Hk Hbefore.
  - exists (Leaf n ks vs). split; [done|]. apply removed_absent.
    intros (j & Hj)%list_elem_of_lookup.
    apply lookup_take_Some in Hj as [Hj Hjn]. apply (Hbefore j); [lia|done].
  - cbn [remove_leaf].
    destruct (lookup_lt_is_Some_2 ks k) as [x Hx]; [lia|].
    rewrite Hx. cbn [mbind option_bind].
    destruct (x =? key)%Z eqn:E.
    + apply Z.eqb_eq in E as ->.
      destruct (shift_left_spec M (n - 1 - k) ks k) as (ks' & -> & Hkl & Hkg);
        [lia..|].
      destruct (shift_left_spec M (n - 1 - k) vs k) as (vs' & -> & Hvl & Hvg);
        [lia..|].
      cbn [mbind option_bind]. rewrite u16_small by lia.
      replace (Z.to_nat (Z.of_nat n - 1)) with (n - 1) by lia.
      eexists. split; [done|].
      assert (∀ {A} (a a' : list A),
                 n ≤ length a →
                 (∀ j, a' !! j = if decide (k ≤ j < k + (n - 1 - k))
                                 then a !! (j + 1) else a !! j) →
                 live (n - 1) a' = delete k (live n a)) as Hdel.
      { intros A a a' Ha Hg. apply list_eq. intros j. unfold live.
        destruct (decide (j < n - 1)) as [Hj|Hj].
        - rewrite lookup_take_lt, Hg by done.
          destruct (decide (k ≤ j < k + (n - 1 - k))).
          + rewrite list_lookup_delete_ge, lookup_take_lt by lia. f_equal. lia.
          + rewrite list_lookup_delete_lt, lookup_take_lt by lia. done.
        - rewrite lookup_take_ge by lia.
          rewrite list_lookup_delete_ge, lookup_take_ge by lia. done. }
      apply (removed_present key n ks vs k); [lia|done|by apply Hdel..].
    + apply Z.eqb_neq in E. apply (IH (S k)); [lia|].
      intros j Hj. destruct (decide (j = k)) as [->|]; [congruence|].
      apply Hbefore. lia.
Qed.

Lemma remove_recursive_spec (t : Node) :
  shapeb t = true → capacityb M t = true →
  ∃ t', remove_recursive M t key = Some t' ∧ removed key t t'.
Proof.
  induction t as [n ks vs|n ks cs IH] using Node_ind; intros Hshape Hcap;
    simpl in Hshape, Hcap; bools.
  - cbn [remove_recursive]. rewrite scan_geb_descent_index by done.
    cbn [mbind option_bind].
    apply remove_leaf_spec; (done || lia || intros; lia).
  - cbn [remove_recursive]. rewrite scan_geb_descent_index by done.
    cbn [mbind option_bind]. rewrite at_index_lookup.
    pose proof (descent_index_spec key (live n ks)) as [Hd _].
    rewrite length_live in Hd by done.
    destruct (lookup_lt_is_Some_2 cs (descent_index key (live n ks)))
      as [c Hc]; [lia|].
    rewrite Hc. cbn [mbind option_bind].
    destruct (Forall_lookup_child _ _ _ IH Hc) as (c' & -> & Hrem);
      [by eapply forallb_lookup..|].
    cbn [mbind option_bind]. eexists. split; [done|].
    by apply removed_below with (c := c).
Qed.

End RemoveFacts.

(** C9: on a valid tree [remove] completes; it follows the descent rule
    (the child behind the last separator that is at most [key]) to a leaf,
    takes the pair of [key] out of that leaf by moving the later pairs one
    slot left and lowering its [num_keys] by one, or changes nothing when
    the leaf does not hold [key]; all other nodes, and the counts and
    separators on the path, stay as they are. *)
Theorem remove_erases_in_reached_leaf (M : nat) (t : Node) (key : Z) :
  valid M t →
  ∃ t', remove M t key = Some t' ∧ removed key t t'.
Proof.
  intros (Hshape & Hcap & _). by apply remove_recursive_spec.
Qed.

Lemma remove_erases_in_reached_leaf_witness :
  ∃ t t',
    insert_all 4 empty ((λ k, (Z.of_nat k, Z.of_nat (10 * k))) <$> seq 1 10)
    = Some t
    ∧ remove 4 t 4 = Some t'
    ∧ removed 4 t t'
    ∧ findLinear t 4 0 = Some (true, 40%Z)
    ∧ findLinear t' 4 0 = Some (false, 0%Z).
Proof.
  eexists _, _. split; [vm_compute; reflexivity|].
  match goal with |- remove 4 ?t 4 = _ ∧ _ =>
    destruct (remove_erases_in_reached_leaf 4 t 4) as (t' & Hrm & Hrel)
  end.
  - repeat split; vm_compute; reflexivity.
  - vm_compute in Hrm. injection Hrm as <-.
    split; [vm_compute; reflexivity|]. split; [exact Hrel|].
    split; vm_compute; reflexivity.
Defined.

(** ** Where [insert_recursive] departs from its specification

    [insert_recursive] scans with [key > keys[i]], so it stops at the first
    slot whose key is at least [key].  Its test for an existing key looks
    at the slot before, which the scan has just found to be smaller, so
    the overwrite is never taken; and in an internal node it descends to
    the left of a separator equal to [key], where the lookups and
    [remove_recursive], which scan with [key >= keys[i]], go right. *)

(** The overwrite branch is dead: a leaf with room takes any key in as a
    new pair, also a key it already holds. *)
Lemma insert_always_adds_a_slot (M n : nat) (ks vs : list Z) (key value : Z) :
  2 ≤ M → (Z.of_nat M < 65536)%Z →
  roomb M (Leaf n ks vs) = true → n + 1 < M →
  ∃ ks' vs', insert M (Leaf n ks vs) key value = Some (Leaf (n + 1) ks' vs').
Proof.
  intros HM2 HM16 (Hn & Hks & HksM & Hvs & HvsM)%roomb_leaf_iff Hroom.
  destruct (insert_leaf_spec M HM2 HM16 n ks vs key value)
    as (ks' & vs' & _ & _ & Hins); [done..|].
  destruct (decide (n + 1 = M)); [lia|].
  exists ks', vs'. unfold insert. by rewrite Hins.
Qed.

(** C1 (the code at failing inputs): with fan-out 4, after [10, 20, 5, 6]
    the root separator is 10; [insert(10, 99)] puts the pair into the left
    leaf, and all three lookups of 10 go right and still return the old
    value 1.  With the default fan-out 256, after the keys [1..256] (each
    with ten times itself as value) the root separator is 129, and after
    [insert(129, 99)] the lookups of 129 return the old value 1290. *)
Theorem insert_then_find_returns_old_value :
  (∃ t t',
     insert_all 4 empty [(10, 1); (20, 2); (5, 3); (6, 4)]%Z = Some t
     ∧ insert 4 t 10 99 = Some t'
     ∧ t' = (Internal 1 [10]
               [Leaf 3 [5; 6; 10; 20] [3; 4; 99; 2];
                Leaf 2 [10; 20] [1; 2]])%Z
     ∧ findLinear t' 10 0 = Some (true, 1%Z)
     ∧ findBinary t' 10 0 = Some (true, 1%Z)
     ∧ findSIMD (λ _, 0%Z) t' 10 0 = Some (true, 1%Z))
  ∧ ∃ t t',
      insert_all 256 empty
        ((λ k, (Z.of_nat k, Z.of_nat (10 * k))) <$> seq 1 256) = Some t
      ∧ insert 256 t 129 99 = Some t'
      ∧ findLinear t' 129 0 = Some (true, 1290%Z)
      ∧ findBinary t' 129 0 = Some (true, 1290%Z)
      ∧ findSIMD (λ _, 0%Z) t' 129 0 = Some (true, 1290%Z).
Proof.
  split.
  - eexists _, _. split; [vm_compute; reflexivity|].
    split; [vm_compute; reflexivity|]. split; [reflexivity|].
    repeat split; vm_compute; reflexivity.
  - eexists _, _. split; [vm_compute; reflexivity|].
    split; [vm_compute; reflexivity|].
    repeat split; vm_compute; reflexivity.
Qed.

(** C2 (the code at a failing input, fan-outs 4 and 256): a second insert
    of key 42 adds a second pair instead of overwriting the first, so two
    leaf slots carry 42. *)
Theorem second_insert_duplicates_key :
  insert_all 4 empty [(42, 100); (42, 200)]%Z
  = Some (Leaf 2 [42; 42] [200; 100])%Z
  ∧ insert_all 256 empty [(42, 100); (42, 200)]%Z
    = Some (Leaf 2 [42; 42] [200; 100])%Z
  ∧ slots_with 42 (Leaf 2 [42; 42] [200; 100])%Z = 2.
Proof. repeat split; vm_compute; reflexivity. Qed.

(** C4 (the code at a failing input, fan-outs 4 and 256): after two
    inserts of key 42 the root leaf holds [42, 42], which is not strictly
    ascending; with fan-out 4, six inserts of it put the same key twice
    into an internal node as well. *)
Theorem repeated_key_breaks_ordering :
  (∃ t, insert_all 4 empty [(42, 100); (42, 200)]%Z = Some t
        ∧ insert_all 256 empty [(42, 100); (42, 200)]%Z = Some t
        ∧ t = (Leaf 2 [42; 42] [200; 100])%Z
        ∧ orderedb t = false)
  ∧ ∃ t n ks cs,
      insert_all 4 empty (replicate 6 (42, 0))%Z = Some t
      ∧ t = Internal n ks cs
      ∧ live n ks = [42; 42]%Z
      ∧ orderedb t = false.
Proof.
  split.
  - eexists. split; [vm_compute; reflexivity|].
    split; [vm_compute; reflexivity|]. split; reflexivity.
  - eexists _, _, _, _. split; [vm_compute; reflexivity|].
    split; [reflexivity|]. split; reflexivity.
Qed.

(** ** The contents of a tree *)

Lemma elem_of_live {A} (n : nat) (a : list A) (x : A) :
  x ∈ live n a ↔ ∃ j, j < n ∧ a !! j = Some x.
Proof.
  unfold live. rewrite list_elem_of_lookup. split.
  - intros [j Hj]. apply lookup_take_Some in Hj as [Hj Hlt]. eauto.
  - intros (j & Hlt & Hj). exists j. by rewrite lookup_take_lt.
Qed.

Lemma elem_of_concat_map {A B} (f : A → list B) (l : list A) (x : B) :
  x ∈ concat (map f l) ↔ ∃ j c, l !! j = Some c ∧ x ∈ f c.
Proof.
  rewrite list_elem_of_In, in_concat. split.
  - intros (l' & Hl' & Hx). apply in_map_iff in Hl' as (c & <- & Hc).
    apply list_elem_of_In, list_elem_of_lookup in Hc as [j Hc].
    exists j, c. by rewrite list_elem_of_In.
  - intros (j & c & Hc & Hx). exists (f c). split; [|by apply list_elem_of_In].
    apply in_map, list_elem_of_In. by eapply list_elem_of_lookup_2.
Qed.

Lemma elem_of_keys_internal (n : nat) (ks : list Z) (cs : list Node) (x : Z) :
  x ∈ keys_of (Internal n ks cs)
  ↔ (∃ j, j < n ∧ ks !! j = Some x) ∨ ∃ j c, cs !! j = Some c ∧ x ∈ keys_of c.
Proof.
  cbn [keys_of]. by rewrite elem_of_app, elem_of_live, elem_of_concat_map.
Qed.

Lemma elem_of_pairs_leaf (n : nat) (ks vs : list Z) (p : Z * Z) :
  p ∈ leaf_pairs (Leaf n ks vs)
  ↔ ∃ j, j < n ∧ ks !! j = Some p.1 ∧ vs !! j = Some p.2.
Proof.
  cbn [leaf_pairs]. rewrite list_elem_of_lookup. unfold live. split.
  - intros [j Hj]. apply lookup_zip_with_Some in Hj as (k & v & -> & Hk & Hv).
    apply lookup_take_Some in Hk as [Hk Hlt].
    apply lookup_take_Some in Hv as [Hv _]. by exists j.
  - intros (j & Hlt & Hk & Hv). exists j. apply lookup_zip_with_Some.
    exists p.1, p.2. rewrite !lookup_take_lt by done. by destruct p.
Qed.

Lemma elem_of_pairs_internal (n : nat) (ks : list Z) (cs : list Node) (p : Z * Z) :
  p ∈ leaf_pairs (Internal n ks cs)
  ↔ ∃ j c, cs !! j = Some c ∧ p ∈ leaf_pairs c.
Proof. cbn [leaf_pairs]. apply elem_of_concat_map. Qed.

(** A stored key is a live key. *)
Lemma pairs_keys (t : Node) (p : Z * Z) :
  p ∈ leaf_pairs t → p.1 ∈ keys_of t.
Proof.
  induction t as [n ks vs|n ks cs IH] using Node_ind; intros Hp.
  - apply elem_of_pairs_leaf in Hp as (j & Hlt & Hk & _).
    apply elem_of_live. eauto.
  - apply elem_of_pairs_internal in Hp as (j & c & Hc & Hp).
    apply elem_of_keys_internal. right. exists j, c. split; [done|].
    by apply (Forall_lookup_child _ _ _ IH Hc).
Qed.

(** ** Ordering and separators, slot by slot *)

Lemma ascendingb_intro (l : list Z) :
  (∀ j1 j2 k1 k2,
     j1 < j2 → l !! j1 = Some k1 → l !! j2 = Some k2 → (k1 < k2)%Z) →
  ascendingb l = true.
Proof.
  induction l as [|a [|b l] IH]; intros H; [done..|].
  cbn [ascendingb]. apply andb_true_intro. split.
  - apply Z.ltb_lt. by apply (H 0 1); [lia|..].
  - apply IH. intros j1 j2 k1 k2 Hlt H1 H2. by apply (H (S j1) (S j2)); [lia|..].
Qed.

Lemma ascending_live_intro (n : nat) (ks : list Z) :
  (∀ j1 j2 k1 k2,
     j1 < j2 → j2 < n → ks !! j1 = Some k1 → ks !! j2 = Some k2 → (k1 < k2)%Z) →
  ascendingb (live n ks) = true.
Proof.
  intros H. apply ascendingb_intro. intros j1 j2 k1 k2 Hlt H1 H2.
  apply lookup_take_Some in H1 as [H1 ?]. apply lookup_take_Some in H2 as [H2 ?].
  by apply (H j1 j2).
Qed.

Lemma ascending_live_elim (n : nat) (ks : list Z) :
  ascendingb (live n ks) = true →
  ∀ j1 j2 k1 k2,
    j1 < j2 → j2 < n → ks !! j1 = Some k1 → ks !! j2 = Some k2 → (k1 < k2)%Z.
Proof.
  intros H j1 j2 k1 k2 Hlt Hn H1 H2.
  apply (ascendingb_lt _ H j1 j2); [done|..]; by rewrite lookup_live by lia.
Qed.

Lemma separatedb_elim (n : nat) (ks : list Z) (cs : list Node) :
  separatedb (Internal n ks cs) = true →
  forallb separatedb cs = true
  ∧ ∀ i k,
      i < n → ks !! i = Some k →
      (∀ l x, cs !! i = Some l → x ∈ keys_of l → (x < k)%Z)
      ∧ (∀ r x, cs !! S i = Some r → x ∈ keys_of r → (k ≤ x)%Z).
Proof.
  cbn [separatedb]. intros [Hall Hsep]%andb_prop. split; [done|].
  intros i k Hi Hk. rewrite forallb_forall in Hsep.
  specialize (Hsep i). rewrite in_seq in Hsep. specialize (Hsep ltac:(lia)).
  rewrite Hk in Hsep.
  destruct (cs !! i) as [l|], (cs !! S i) as [r|]; try done.
  apply andb_prop in Hsep as [Hl Hr]. rewrite forallb_forall in Hl, Hr.
  split.
  - intros ? x [= <-] Hx. apply Z.ltb_lt, Hl. by apply list_elem_of_In.
  - intros ? x [= <-] Hx. apply Z.leb_le, Hr. by apply list_elem_of_In.
Qed.

Lemma separatedb_intro (n : nat) (ks : list Z) (cs : list Node) :
  n ≤ length ks → length cs = n + 1 →
  forallb separatedb cs = true →
  (∀ i k l x,
     i < n → ks !! i = Some k → cs !! i = Some l → x ∈ keys_of l → (x < k)%Z) →
  (∀ i k r x,
     i < n → ks !! i = Some k → cs !! S i = Some r → x ∈ keys_of r → (k ≤ x)%Z) →
  separatedb (Internal n ks cs) = true.
Proof.
  intros Hks Hcs Hall Hleft Hright. cbn [separatedb].
  apply andb_true_intro. split; [done|]. apply forallb_forall.
  intros i [_ Hi]%in_seq.
  destruct (lookup_lt_is_Some_2 ks i) as [k Hk]; [lia|].
  destruct (lookup_lt_is_Some_2 cs i) as [l Hl]; [lia|].
  destruct (lookup_lt_is_Some_2 cs (S i)) as [r Hr]; [lia|].
  rewrite Hk, Hl, Hr. apply andb_true_intro. split; apply forallb_forall.
  - intros x Hx%list_elem_of_In. apply Z.ltb_lt. by eapply Hleft.
  - intros x Hx%list_elem_of_In. apply Z.leb_le. by eapply Hright.
Qed.

(** A key that lives under [children[j]] descends into [children[j]]. *)
Lemma descent_unique (key : Z) (n : nat) (ks : list Z) (cs : list Node)
    (j : nat) (c : Node) :
  n ≤ length ks → length cs = n + 1 →
  ascendingb (live n ks) = true → separatedb (Internal n ks cs) = true →
  cs !! j = Some c → key ∈ keys_of c →
  descent_index key (live n ks) = j.
Proof.
  intros Hks Hcs Hasc [_ Hsep]%separatedb_elim Hc Hkey.
  pose proof (descent_index_spec key (live n ks)) as (Hb & Hbelow & Habove).
  rewrite length_live in Hb by done.
  set (b := descent_index key (live n ks)) in *.
  apply lookup_lt_Some in Hc as Hj.
  destruct (lt_eq_lt_dec b j) as [[Hlt| ->]|Hgt]; [|done|].
  - destruct (lookup_lt_is_Some_2 ks b) as [kb Hkb]; [lia|].
    destruct (lookup_lt_is_Some_2 ks (j - 1)) as [kj Hkj]; [lia|].
    specialize (Habove kb). rewrite lookup_live in Habove by lia.
    specialize (Habove Hkb).
    destruct (Hsep (j - 1) kj ltac:(lia) Hkj) as [_ Hr].
    replace (S (j - 1)) with j in Hr by lia. specialize (Hr c key Hc Hkey).
    pose proof (live_sorted n ks Hasc b (j - 1) kb kj
                  ltac:(lia) ltac:(lia) Hkb Hkj). lia.
  - destruct (lookup_lt_is_Some_2 ks j) as [kj Hkj]; [lia|].
    specialize (Hbelow j kj Hgt). rewrite lookup_live in Hbelow by lia.
    specialize (Hbelow Hkj).
    destruct (Hsep j kj ltac:(lia) Hkj) as [Hl _].
    specialize (Hl c key Hc Hkey). lia.
Qed.

(** ** What a lookup returns *)

(** A lookup ends in a hit, or in a miss that leaves [val_out] alone. *)
Lemma findLinear_result (key val_out : Z) (t : Node) :
  shapeb t = true →
  ∃ b v, findLinear t key val_out = Some (b, v) ∧ (b = false → v = val_out).
Proof.
  intros Hshape.
  destruct (findLinear_reached_leaf key val_out t Hshape)
    as (n & ks & vs & _ & Hks & Hvs & ->).
  rewrite leaf_linear_first_hit by lia.
  destruct (first_hit _ ks n 0) as [idx|] eqn:Hf.
  - apply first_hit_Some_elim in Hf as (Hr & _ & _).
    destruct (lookup_lt_is_Some_2 vs idx) as [v Hv]; [lia|].
    exists true, v. rewrite Hv. done.
  - by exists false, val_out.
Qed.

(** On ordered, separated nodes a lookup hits exactly the stored pairs. *)
Lemma findLinear_pairs (key val_out : Z) (t : Node) :
  shapeb t = true → orderedb t = true → separatedb t = true →
  ∀ v, findLinear t key val_out = Some (true, v) ↔ (key, v) ∈ leaf_pairs t.
Proof.
  induction t as [n ks vs|n ks cs IH] using Node_ind;
    intros Hshape Hord Hsep v.
  - cbn [shapeb] in Hshape. bools. cbn [orderedb] in Hord.
    cbn [findLinear]. rewrite leaf_linear_first_hit by lia.
    rewrite elem_of_pairs_leaf. cbn [fst snd]. split.
    + destruct (first_hit _ ks n 0) as [idx|] eqn:Hf; [|done].
      apply first_hit_Some_elim in Hf as (Hr & (k & Hk & Hp) & _).
      apply Z.eqb_eq in Hp as ->.
      destruct (vs !! idx) as [v'|] eqn:Hv; [|done].
      cbn [mbind option_bind]. intros [= <-]. exists idx. split; [lia|done].
    + intros (j & Hlt & Hk & Hv).
      destruct (first_hit _ ks n 0) as [idx|] eqn:Hf.
      * apply first_hit_Some_elim in Hf as (Hr & (k & Hk' & Hp) & _).
        apply Z.eqb_eq in Hp as ->.
        assert (idx = j) as ->; [|by rewrite Hv].
        destruct (lt_eq_lt_dec idx j) as [[Hc|?]|Hc]; [|done|].
        -- pose proof (ascending_live_elim n ks Hord idx j key key Hc Hlt Hk' Hk).
           lia.
        -- pose proof (ascending_live_elim n ks Hord j idx key key Hc
                         ltac:(lia) Hk Hk'). lia.
      * pose proof (first_hit_None_elim _ ks n 0 ltac:(lia) Hf j key
                      ltac:(lia) Hk) as Hp.
        apply Z.eqb_neq in Hp. done.
  - pose proof Hsep as Hsep0.
    cbn [shapeb] in Hshape. bools.
    cbn [orderedb] in Hord. apply andb_prop in Hord as [Hasc Hord].
    apply separatedb_elim in Hsep as [Hseps _].
    cbn [findLinear]. rewrite scan_geb_descent_index by lia.
    cbn [mbind option_bind]. rewrite at_index_lookup.
    rewrite elem_of_pairs_internal.
    pose proof (descent_index_spec key (live n ks)) as (Hb & _).
    rewrite length_live in Hb by lia.
    destruct (lookup_lt_is_Some_2 cs (descent_index key (live n ks)))
      as [c Hc]; [lia|].
    rewrite Hc. cbn [mbind option_bind].
    assert (∀ j c', cs !! j = Some c' →
              ∀ v, findLinear c' key val_out = Some (true, v)
                   ↔ (key, v) ∈ leaf_pairs c') as IH'.
    { intros j c' Hc'. apply (Forall_lookup_child _ _ _ IH Hc');
        by eapply forallb_lookup. }
    split.
    + intros Hfound. exists (descent_index key (live n ks)), c. split; [done|].
      by apply (IH' _ _ Hc).
    + intros (j & c' & Hc' & Hp).
      assert (descent_index key (live n ks) = j) as Hj.
      { apply (descent_unique key n ks cs j c'); try done; try lia.
        by apply (pairs_keys c' (key, v)). }
      rewrite Hj in Hc. rewrite Hc in Hc'. injection Hc' as <-.
      by apply (IH' _ _ Hc).
Qed.

(** A miss is a key that no leaf stores. *)
Lemma findLinear_miss (key val_out : Z) (t : Node) :
  shapeb t = true → orderedb t = true → separatedb t = true →
  findLinear t key val_out = Some (false, val_out)
  ↔ ∀ v, (key, v) ∉ leaf_pairs t.
Proof.
  intros Hshape Hord Hsep.
  pose proof (findLinear_pairs key val_out t Hshape Hord Hsep) as Hhit.
  destruct (findLinear_result key val_out t Hshape) as (b & v & Hr & Hb).
  split.
  - intros Hmiss v' Hin. apply Hhit in Hin. congruence.
  - intros Hnone. destruct b.
    + exfalso. apply (Hnone v). by apply Hhit.
    + by rewrite Hr, Hb.
Qed.

(** Two trees that store the same values for [key] answer alike. *)
Lemma findLinear_ext (key val_out : Z) (t t' : Node) :
  shapeb t = true → orderedb t = true → separatedb t = true →
  shapeb t' = true → orderedb t' = true → separatedb t' = true →
  (∀ v, (key, v) ∈ leaf_pairs t' ↔ (key, v) ∈ leaf_pairs t) →
  findLinear t' key val_out = findLinear t key val_out.
Proof.
  intros Hs Ho Hp Hs' Ho' Hp' Hsame.
  destruct (findLinear_result key val_out t Hs) as (b & v & Hr & Hb).
  rewrite Hr. destruct b.
  - apply findLinear_pairs; try done. apply Hsame.
    by apply (findLinear_pairs key val_out t).
  - rewrite Hb by done. apply findLinear_miss; try done.
    intros v' Hin. apply Hsame in Hin.
    rewrite Hb in Hr by done.
    by apply (findLinear_miss key val_out t Hs Ho Hp) in Hin.
Qed.

(** ** What a removal leaves behind *)


Lemma zip_delete {A B} (k : nat) (a : list A) :
  ∀ (b : list B), zip (delete k a) (delete k b) = delete k (zip a b).
Proof.
  revert k. induction a as [|x a IH]; intros k b.
  - by destruct k.
  - destruct b as [|y b].
    + destruct k; simpl; [by destruct a|done].
    + destruct k; simpl; [done|]. f_equal. apply IH.
Qed.


Lemma list_sum_insert_same {A} (f : A → nat) (l : list A) (i : nat) (x y : A) :
  l !! i = Some x → f y = f x →
  list_sum (map f (<[i := y]> l)) = list_sum (map f l).
Proof.
  revert i. induction l as [|z l IH]; intros [|i] Hx Hf; try done.
  - injection Hx as ->. simpl. by rewrite Hf.
  - simpl. f_equal. by apply IH.
Qed.



Section RemovedFacts.

Variables (M : nat) (key : Z).


End RemovedFacts.

(** ** Balance and shape, from the insertion invariant *)

Lemma roomb_shapeb (M : nat) (t : Node) :
  (Z.of_nat M < 65536)%Z → roomb M t = true →
  shapeb t = true ∧ capacityb M t = true.
Proof.
  intros HM. induction t as [n ks vs|n ks cs IH] using Node_ind; intros Hroom.
  - apply roomb_leaf_iff in Hroom as (Hn & Hks & HksM & Hvs & HvsM).
    cbn [shapeb capacityb]. split.
    + repeat (apply andb_true_intro; split);
        [apply Z.ltb_lt; lia|by apply Nat.leb_le..].
    + apply Nat.leb_le. lia.
  - apply roomb_internal_iff in Hroom as (Hn & Hks & HksM & Hcs & Hall).
    assert (∀ i c, cs !! i = Some c → shapeb c = true ∧ capacityb M c = true)
      as IH'.
    { intros i c Hc. apply (Forall_lookup_child _ _ _ IH Hc).
      by eapply forallb_lookup. }
    cbn [shapeb capacityb]. split.
    + repeat (apply andb_true_intro; split).
      * apply Z.ltb_lt. lia.
      * by apply Nat.leb_le.
      * by apply Nat.eqb_eq.
      * apply forallb_intro. intros i c Hc. by apply (IH' i c).
    + apply andb_true_intro. split; [apply Nat.leb_le; lia|].
      apply forallb_intro. intros i c Hc. by apply (IH' i c).
Qed.

Lemma depthb_balancedb (h : nat) (t : Node) :
  depthb h t = true → balancedb t = true.
Proof.
  intros Hdepth. unfold balancedb.
  pose proof (depthb_leaf_depths t h) as Hall.
  destruct (leaf_depths t) as [|d ds]; [done|].
  apply forallb_forall. intros x Hx%list_elem_of_In. apply Nat.eqb_eq.
  rewrite (Hall d), (Hall x); try done.
  - by apply list_elem_of_further.
  - apply list_elem_of_here.
Qed.

Lemma leaf_depths_child (n : nat) (ks : list Z) (cs : list Node)
    (i : nat) (c : Node) (d : nat) :
  cs !! i = Some c → d ∈ leaf_depths c → S d ∈ leaf_depths (Internal n ks cs).
Proof.
  intros Hc Hd. cbn [leaf_depths]. apply list_elem_of_fmap_2.
  apply elem_of_concat_map. by exists i, c.
Qed.

Lemma leaf_depths_nonempty (t : Node) :
  shapeb t = true → ∃ d, d ∈ leaf_depths t.
Proof.
  induction t as [n ks vs|n ks cs IH] using Node_ind; intros Hshape.
  - exists 0. apply list_elem_of_here.
  - cbn [shapeb] in Hshape. bools.
    destruct (lookup_lt_is_Some_2 cs 0) as [c Hc]; [lia|].
    destruct (Forall_lookup_child _ _ _ IH Hc) as [d Hd];
      [by eapply forallb_lookup|].
    exists (S d). by eapply leaf_depths_child.
Qed.

Lemma all_depths_depthb (t : Node) :
  ∀ h, shapeb t = true → (∀ d, d ∈ leaf_depths t → d = h) →
       depthb h t = true.
Proof.
  induction t as [n ks vs|n ks cs IH] using Node_ind; intros h Hshape Hall.
  - apply depthb_leaf_iff. symmetry. apply Hall, list_elem_of_here.
  - pose proof (leaf_depths_nonempty _ Hshape) as [d Hd].
    cbn [shapeb] in Hshape. bools.
    cbn [leaf_depths] in Hd. apply list_elem_of_fmap in Hd as (d0 & -> & Hd0).
    apply elem_of_concat_map in Hd0 as (i0 & c0 & Hc0 & Hd0).
    pose proof (Hall (S d0) (leaf_depths_child n ks cs i0 c0 d0 Hc0 Hd0)) as <-.
    apply depthb_internal_iff. exists d0. split; [done|].
    apply forallb_intro. intros i c Hc.
    apply (Forall_lookup_child _ _ _ IH Hc); [by eapply forallb_lookup|].
    intros d Hd.
    pose proof (Hall (S d) (leaf_depths_child n ks cs i c d Hc Hd)). lia.
Qed.

Lemma balancedb_depthb (t : Node) :
  shapeb t = true → balancedb t = true → ∃ h, depthb h t = true.
Proof.
  intros Hshape Hbal. unfold balancedb in Hbal.
  destruct (leaf_depths t) as [|d ds] eqn:Hds.
  - destruct (leaf_depths_nonempty t Hshape) as [d Hd]. rewrite Hds in Hd.
    by apply elem_of_nil in Hd.
  - exists d. apply all_depths_depthb; [done|]. rewrite Hds.
    intros x [->|Hx]%elem_of_cons; [done|].
    rewrite forallb_forall in Hbal. symmetry. apply Nat.eqb_eq, Hbal.
    by apply list_elem_of_In.
Qed.

Lemma valid_intro (M h : nat) (t : Node) :
  (Z.of_nat M < 65536)%Z →
  roomb M t = true → depthb h t = true →
  orderedb t = true → separatedb t = true → valid M t.
Proof.
  intros HM Hroom Hdepth Hord Hsep.
  destruct (roomb_shapeb M t HM Hroom) as [Hshape Hcap].
  repeat split; try done. by eapply depthb_balancedb.
Qed.

(** ** Insertion of a new key *)

(** The scan of [insert_recursive] stops at the first key that is not
    below [key]. *)
Lemma scan_gtb_stop (key : Z) (ks : list Z) (n : nat) :
  n ≤ length ks →
  ∃ i, scan Z.gtb key ks n 0 = Some i ∧ i ≤ n
       ∧ (∀ j k, j < i → ks !! j = Some k → (k < key)%Z)
       ∧ (∀ k, i < n → ks !! i = Some k → (key ≤ k)%Z).
Proof.
  intros Hlen. destruct (scan_gtb_spec key ks n Hlen) as (i & Hscan & Hi & Hlt).
  exists i. repeat split; try done. intros k Hin Hk.
  rewrite scan_first_hit in Hscan by lia. injection Hscan as Hscan.
  destruct (first_hit _ ks n 0) as [r|] eqn:Hr; simpl in Hscan; [|lia].
  subst r. apply first_hit_Some_elim in Hr as (_ & (k' & Hk' & Hp) & _).
  rewrite Hk in Hk'. injection Hk' as <-.
  apply negb_true_iff in Hp. rewrite Z.gtb_ltb in Hp. by apply Z.ltb_ge.
Qed.

Lemma open_slot_opened {A} (cap n i : nat) (a : list A) (x : A) :
  i ≤ n → n ≤ length a → n < cap →
  ∃ a1 a2,
    Arr.shift_right cap a (n - i) n = Some a1
    ∧ Arr.wr cap a1 i x = Some a2
    ∧ length a2 = length a `max` (n + 1)
    ∧ opened i n x a a2.
Proof. apply open_slot. Qed.

Ltac by_slots HA HB Hasc :=
  first
    [ lia
    | eapply HA; [|eassumption]; lia
    | eapply HB; [|eassumption]; lia
    | eapply (ascending_live_elim _ _ Hasc); [| |eassumption|eassumption]; lia ].

(** Putting a key between the keys below it and the keys above it keeps
    the slots ascending. *)
Lemma opened_ascending (i n : nat) (key : Z) (ks ks' : list Z) :
  i ≤ n → ascendingb (live n ks) = true → opened i n key ks ks' →
  (∀ j k, j < i → ks !! j = Some k → (k < key)%Z) →
  (∀ j k, i ≤ j < n → ks !! j = Some k → (key < k)%Z) →
  ascendingb (live (n + 1) ks') = true.
Proof.
  intros Hi Hasc Hop HA HB. apply ascending_live_intro.
  intros j1 j2 k1 k2 Hlt Hn H1 H2. rewrite (Hop j1) in H1. rewrite (Hop j2) in H2.
  repeat case_decide; simplify_eq; by_slots HA HB Hasc.
Qed.

Lemma opened_live {A} (i n : nat) (x : A) (a a' : list A) :
  i ≤ n → opened i n x a a' →
  ∀ y, y ∈ live (n + 1) a' ↔ y = x ∨ y ∈ live n a.
Proof.
  intros Hi Hop y. rewrite !elem_of_live. split.
  - intros (j & Hj & Hy). rewrite (Hop j) in Hy.
    repeat case_decide; simplify_eq; [by left|right..].
    + exists (j - 1). split; [lia|done].
    + exists j. split; [lia|done].
  - intros [->|(j & Hj & Hy)].
    + exists i. split; [lia|]. rewrite (Hop i). by rewrite decide_True.
    + destruct (decide (j < i)).
      * exists j. split; [lia|]. rewrite (Hop j).
        rewrite decide_False, decide_False by lia. done.
      * exists (S j). split; [lia|]. rewrite (Hop (S j)).
        rewrite decide_False, decide_True by lia.
        by replace (S j - 1) with j by lia.
Qed.

Lemma opened_pairs (i n : nat) (key value : Z) (ks ks' vs vs' : list Z) :
  i ≤ n → opened i n key ks ks' → opened i n value vs vs' →
  ∀ p, p ∈ leaf_pairs (Leaf (n + 1) ks' vs')
       ↔ p = (key, value) ∨ p ∈ leaf_pairs (Leaf n ks vs).
Proof.
  intros Hi Hk Hv p. rewrite !elem_of_pairs_leaf. split.
  - intros (j & Hj & Hpk & Hpv). rewrite (Hk j) in Hpk. rewrite (Hv j) in Hpv.
    repeat case_decide; simplify_eq.
    + left. by destruct p; simplify_eq/=.
    + right. exists (j - 1). split; [lia|done].
    + right. exists j. split; [lia|done].
  - intros [->|(j & Hj & Hpk & Hpv)].
    + exists i. split; [lia|]. rewrite (Hk i), (Hv i).
      by rewrite !decide_True.
    + destruct (decide (j < i)).
      * exists j. split; [lia|]. rewrite (Hk j), (Hv j).
        repeat case_decide; (done || lia).
      * exists (S j). split; [lia|]. rewrite (Hk (S j)), (Hv (S j)).
        replace (S j - 1) with j by lia.
        repeat case_decide; (done || lia).
Qed.

(** A node that took the pair in and then split. *)
Lemma halves_post (key value : Z) (t b old sibling : Node) (median : Z) :
  fresh_post key value t b None → halves b old sibling median →
  fresh_post key value t old (Some (sibling, median)).
Proof.
  intros (_ & _ & Hkeys & Hpairs)
    (Ho & Hs & Hos & Hss & Hko & Hks & Hmed & Hne & Hlt & Hge & Hp).
  repeat split; try done.
  - intros x Hx. by apply Hkeys, Hko.
  - intros x Hx. by apply Hkeys, Hks.
  - by apply Hkeys.
  - intros Hin. by apply Hpairs, Hp.
  - intros Hin. by apply Hp, Hpairs.
Qed.

Section SplitHalves.

Variable M : nat.
Hypothesis HM2 : 2 ≤ M.

Lemma split_leaf_halves (ks vs : list Z) (median : Z) :
  length ks = M → length vs = M →
  ascendingb (live M ks) = true → ks !! (M / 2) = Some median →
  halves (Leaf M ks vs) (Leaf (M / 2) ks vs)
    (Leaf (M - M / 2) (drop (M / 2) ks) (drop (M / 2) vs)) median.
Proof.
  intros Hks Hvs Hasc Hmed. pose proof (half_bounds M HM2) as (Hh1 & Hh2 & Hh3).
  set (m := M / 2) in *.
  unfold halves. cbn [orderedb separatedb keys_of].
  split; [|split; [done|split; [|split; [done|]]]].
  - apply ascending_live_intro. intros j1 j2 k1 k2 Hlt Hj H1 H2.
    apply (ascending_live_elim M ks Hasc j1 j2); (done || lia).
  - apply ascending_live_intro. intros j1 j2 k1 k2 Hlt Hj H1 H2.
    rewrite lookup_drop in H1, H2.
    apply (ascending_live_elim M ks Hasc (m + j1) (m + j2)); (done || lia).
  - split; [|split; [|split; [|split; [|split; [|split]]]]].
    + intros x (j & Hj & Hx)%elem_of_live. apply elem_of_live.
      exists j. split; [lia|done].
    + intros x (j & Hj & Hx)%elem_of_live. apply elem_of_live.
      rewrite lookup_drop in Hx. exists (m + j). split; [lia|done].
    + apply elem_of_live. exists m. split; [lia|done].
    + destruct (lookup_lt_is_Some_2 ks 0) as [x Hx]; [lia|].
      exists x. apply elem_of_live. exists 0. split; [lia|done].
    + intros x (j & Hj & Hx)%elem_of_live.
      apply (ascending_live_elim M ks Hasc j m); (done || lia).
    + intros x (j & Hj & Hx)%elem_of_live. rewrite lookup_drop in Hx.
      apply (live_sorted M ks Hasc m (m + j)); (done || lia).
    + intros p. rewrite !elem_of_pairs_leaf. split.
      * intros [(j & Hj & Hk & Hv)|(j & Hj & Hk & Hv)].
        -- exists j. split; [lia|done].
        -- rewrite lookup_drop in Hk, Hv. exists (m + j). split; [lia|done].
      * intros (j & Hj & Hk & Hv). destruct (decide (j < m)).
        -- left. by exists j.
        -- right. exists (j - m). rewrite !lookup_drop.
           replace (m + (j - m)) with j by lia. split; [lia|done].
Qed.

Lemma split_internal_halves (ks : list Z) (cs : list Node) (median : Z) :
  length ks = M → length cs = M + 1 →
  orderedb (Internal M ks cs) = true → separatedb (Internal M ks cs) = true →
  ks !! (M / 2) = Some median →
  halves (Internal M ks cs) (Internal (M / 2) ks (take (M / 2 + 1) cs))
    (Internal (M - M / 2 - 1) (drop (M / 2 + 1) ks) (drop (M / 2 + 1) cs))
    median.
Proof.
  intros Hks Hcs Hord Hsep Hmed.
  pose proof (half_bounds M HM2) as (Hh1 & Hh2 & Hh3).
  set (m := M / 2) in *.
  cbn [orderedb] in Hord. apply andb_prop in Hord as [Hasc Hords].
  apply separatedb_elim in Hsep as [Hseps Hsp].
  unfold halves.
  split; [|split; [|split; [|split; [|split; [|split; [|split; [|split;
    [|split; [|split]]]]]]]]].
  - cbn [orderedb]. apply andb_true_intro. split; [|by apply forallb_take].
    apply ascending_live_intro. intros j1 j2 k1 k2 Hlt Hj H1 H2.
    apply (ascending_live_elim M ks Hasc j1 j2); (done || lia).
  - apply separatedb_intro; [lia|rewrite length_take; lia|by apply forallb_take|..].
    + intros i k l x Hi Hk [Hl _]%lookup_take_Some Hx.
      destruct (Hsp i k ltac:(lia) Hk) as [Hleft _]. by apply (Hleft l x).
    + intros i k r x Hi Hk [Hr _]%lookup_take_Some Hx.
      destruct (Hsp i k ltac:(lia) Hk) as [_ Hright]. by apply (Hright r x).
  - cbn [orderedb]. apply andb_true_intro. split; [|by apply forallb_drop].
    apply ascending_live_intro. intros j1 j2 k1 k2 Hlt Hj H1 H2.
    rewrite lookup_drop in H1, H2.
    apply (ascending_live_elim M ks Hasc (m + 1 + j1) (m + 1 + j2));
      (done || lia).
  - apply separatedb_intro;
      [rewrite length_drop; lia|rewrite length_drop; lia
      |by apply forallb_drop|..].
    + intros i k l x Hi Hk Hl Hx. rewrite lookup_drop in Hk. rewrite lookup_drop in Hl.
      destruct (Hsp (m + 1 + i) k ltac:(lia) Hk) as [Hleft _].
      by apply (Hleft l x).
    + intros i k r x Hi Hk Hr Hx. rewrite lookup_drop in Hk. rewrite lookup_drop in Hr.
      destruct (Hsp (m + 1 + i) k ltac:(lia) Hk) as [_ Hright].
      apply (Hright r x); [|done].
      by replace (S (m + 1 + i)) with (m + 1 + S i) by lia.
  - intros x. rewrite !elem_of_keys_internal.
    intros [(j & Hj & Hx)|(j & c & [Hc _]%lookup_take_Some & Hx)].
    + left. exists j. split; [lia|done].
    + right. by exists j, c.
  - intros x. rewrite !elem_of_keys_internal.
    intros [(j & Hj & Hx)|(j & c & Hc & Hx)].
    + rewrite lookup_drop in Hx. left. exists (m + 1 + j). split; [lia|done].
    + rewrite lookup_drop in Hc. right. by exists (m + 1 + j), c.
  - apply elem_of_keys_internal. left. exists m. split; [lia|done].
  - destruct (lookup_lt_is_Some_2 ks 0) as [x Hx]; [lia|].
    exists x. apply elem_of_keys_internal. left. exists 0. split; [lia|done].
  - intros x. rewrite elem_of_keys_internal.
    intros [(j & Hj & Hx)|(j & c & [Hc Hj]%lookup_take_Some & Hx)].
    + apply (ascending_live_elim M ks Hasc j m); (done || lia).
    + destruct (lookup_lt_is_Some_2 ks j) as [kj Hkj]; [lia|].
      destruct (Hsp j kj ltac:(lia) Hkj) as [Hleft _].
      pose proof (Hleft c x Hc Hx).
      pose proof (live_sorted M ks Hasc j m kj median ltac:(lia) ltac:(lia)
                    Hkj Hmed). lia.
  - intros x. rewrite elem_of_keys_internal.
    intros [(j & Hj & Hx)|(j & c & Hc & Hx)].
    + rewrite lookup_drop in Hx.
      pose proof (ascending_live_elim M ks Hasc m (m + 1 + j) median x
                    ltac:(lia) ltac:(lia) Hmed Hx). lia.
    + rewrite lookup_drop in Hc. apply lookup_lt_Some in Hc as Hj.
      destruct (lookup_lt_is_Some_2 ks (m + j)) as [kq Hkq]; [lia|].
      destruct (Hsp (m + j) kq ltac:(lia) Hkq) as [_ Hright].
      replace (m + 1 + j) with (S (m + j)) in Hc by lia.
      pose proof (Hright c x Hc Hx).
      pose proof (live_sorted M ks Hasc m (m + j) median kq ltac:(lia)
                    ltac:(lia) Hmed Hkq). lia.
  - intros p. cbn [leaf_pairs].
    rewrite <- elem_of_app, <- concat_app, <- map_app, take_drop. done.
Qed.

End SplitHalves.

Section Absorb.

Variables (key value : Z) (n i : nat) (ks : list Z) (cs : list Node) (c c' : Node).

Hypothesis Hks : n ≤ length ks.
Hypothesis Hcs : length cs = n + 1.
Hypothesis Hi : i ≤ n.
Hypothesis Hc : cs !! i = Some c.
Hypothesis Hord : orderedb (Internal n ks cs) = true.
Hypothesis Hsep : separatedb (Internal n ks cs) = true.
Hypothesis HA : ∀ j k, j < i → ks !! j = Some k → (k < key)%Z.
Hypothesis HB : ∀ j k, i ≤ j < n → ks !! j = Some k → (key < k)%Z.

(** [key] and the keys under [children[i]] lie between the separators
    around that child. *)
Lemma new_lo (y : Z) :
  y = key ∨ y ∈ keys_of c → ∀ j k, j < i → ks !! j = Some k → (k ≤ y)%Z.
Proof.
  cbn [orderedb] in Hord. apply andb_prop in Hord as [Hasc _].
  apply separatedb_elim in Hsep as [_ Hsp].
  intros [->|Hy] j k Hj Hk.
  - specialize (HA j k Hj Hk). lia.
  - destruct (lookup_lt_is_Some_2 ks (i - 1)) as [k1 Hk1]; [lia|].
    destruct (Hsp (i - 1) k1 ltac:(lia) Hk1) as [_ Hright].
    replace (S (i - 1)) with i in Hright by lia.
    pose proof (Hright c y Hc Hy).
    pose proof (live_sorted n ks Hasc j (i - 1) k k1 ltac:(lia) ltac:(lia)
                  Hk Hk1). lia.
Qed.

Lemma new_hi (y : Z) :
  y = key ∨ y ∈ keys_of c → ∀ j k, i ≤ j < n → ks !! j = Some k → (y < k)%Z.
Proof.
  cbn [orderedb] in Hord. apply andb_prop in Hord as [Hasc _].
  apply separatedb_elim in Hsep as [_ Hsp].
  intros [->|Hy] j k Hj Hk.
  - by apply (HB j k).
  - destruct (lookup_lt_is_Some_2 ks i) as [ki Hki]; [lia|].
    destruct (Hsp i ki ltac:(lia) Hki) as [Hleft _].
    pose proof (Hleft c y Hc Hy).
    pose proof (live_sorted n ks Hasc i j ki k ltac:(lia) ltac:(lia)
                  Hki Hk). lia.
Qed.

(** The child took the pair in without splitting. *)
Lemma child_update_post :
  fresh_post key value c c' None →
  fresh_post key value (Internal n ks cs) (Internal n ks (<[i := c']> cs)) None.
Proof.
  intros (Ho' & Hs' & Hk' & Hp').
  pose proof Hord as [Hasc Hords]%andb_prop.
  pose proof Hsep as [Hseps Hsp]%separatedb_elim.
  pose proof (lookup_lt_Some _ _ _ Hc) as Hilt.
  split; [|split; [|split]].
  - cbn [orderedb]. apply andb_true_intro. split; [done|].
    by apply forallb_insert.
  - apply separatedb_intro; [done|by rewrite length_insert| |..].
    + by apply forallb_insert.
    + intros i0 k l x Hi0 Hk Hl Hx. destruct (decide (i0 = i)) as [->|Hne].
      * rewrite list_lookup_insert_eq in Hl by done. injection Hl as <-.
        apply (new_hi x (Hk' x Hx) i k); [lia|done].
      * rewrite list_lookup_insert_ne in Hl by done.
        destruct (Hsp i0 k Hi0 Hk) as [Hleft _]. by apply (Hleft l x).
    + intros i0 k r x Hi0 Hk Hr Hx. destruct (decide (S i0 = i)) as [Heq|Hne].
      * rewrite Heq, list_lookup_insert_eq in Hr by done. injection Hr as <-.
        apply (new_lo x (Hk' x Hx) i0 k); [lia|done].
      * rewrite list_lookup_insert_ne in Hr by done.
        destruct (Hsp i0 k Hi0 Hk) as [_ Hright]. by apply (Hright r x).
  - intros x. rewrite !elem_of_keys_internal.
    intros [Hx|(j & c2 & Hc2 & Hx)]; [by right; left|].
    destruct (decide (j = i)) as [->|Hne].
    + rewrite list_lookup_insert_eq in Hc2 by done. injection Hc2 as <-.
      destruct (Hk' x Hx) as [->|Hin]; [by left|].
      right. right. by exists i, c.
    + rewrite list_lookup_insert_ne in Hc2 by done.
      right. right. by exists j, c2.
  - intros p. rewrite !elem_of_pairs_internal. split.
    + intros (j & c2 & Hc2 & Hp). destruct (decide (j = i)) as [->|Hne].
      * rewrite list_lookup_insert_eq in Hc2 by done. injection Hc2 as <-.
        apply Hp' in Hp as [->|Hp]; [by left|]. right. by exists i, c.
      * rewrite list_lookup_insert_ne in Hc2 by done. right. by exists j, c2.
    + assert (∀ q, q = (key, value) ∨ q ∈ leaf_pairs c →
                ∃ j c2, <[i := c']> cs !! j = Some c2 ∧ q ∈ leaf_pairs c2)
        as Hin.
      { intros q Hq. exists i, c'. rewrite list_lookup_insert_eq by done.
        split; [done|]. by apply Hp'. }
      intros [->|(j & c2 & Hc2 & Hp)]; [by apply Hin; left|].
      destruct (decide (j = i)) as [->|Hne].
      * apply Hin. right. congruence.
      * exists j, c2. by rewrite list_lookup_insert_ne.
Qed.

(** The child split and the node took in its median and its sibling. *)
Lemma absorb_post (sibling : Node) (median : Z) (ks2 : list Z) (cs2 : list Node) :
  fresh_post key value c c' (Some (sibling, median)) →
  opened i n median ks ks2 →
  opened (i + 1) (n + 1) sibling (<[i := c']> cs) cs2 →
  n + 1 ≤ length ks2 → length cs2 = n + 2 →
  fresh_post key value (Internal n ks cs) (Internal (n + 1) ks2 cs2) None.
Proof.
  intros (Ho' & Hs' & Hk' & Hos & Hss & Hks' & Hmed & [x0 Hx0] & Hlt & Hge & Hp')
    Hk2 Hc2 Hkl Hcl.
  pose proof Hord as [Hasc Hords]%andb_prop.
  pose proof Hsep as [Hseps Hsp]%separatedb_elim.
  pose proof (lookup_lt_Some _ _ _ Hc) as Hilt.
  assert (∀ j, cs2 !! j = if decide (j = i) then Some c'
                          else if decide (j = i + 1) then Some sibling
                          else if decide (i + 1 < j ≤ n + 1) then cs !! (j - 1)
                          else cs !! j) as Hcs2.
  { intros j. rewrite (Hc2 j). destruct (decide (j = i)) as [->|Hne].
    - rewrite decide_False, decide_False by lia.
      by rewrite list_lookup_insert_eq.
    - repeat case_decide; try lia; try done;
        by rewrite list_lookup_insert_ne by lia. }
  assert (∀ f : Node → bool,
            f c' = true → f sibling = true → forallb f cs = true →
            forallb f cs2 = true) as Hall.
  { intros f Hfc Hfs Hf. apply forallb_intro. intros j x Hx.
    rewrite (Hcs2 j) in Hx.
    destruct (decide (j = i)); [by injection Hx as <-|].
    destruct (decide (j = i + 1)); [by injection Hx as <-|].
    destruct (decide (i + 1 < j ≤ n + 1)); by eapply forallb_lookup. }
  assert (∀ j k, j < i → ks !! j = Some k → (k < median)%Z) as HA'.
  { intros j k Hj Hk.
    pose proof (new_lo x0 (Hk' x0 Hx0) j k Hj Hk). specialize (Hlt x0 Hx0).
    lia. }
  assert (∀ j k, i ≤ j < n → ks !! j = Some k → (median < k)%Z) as HB'.
  { intros j k Hj Hk. apply (new_hi median Hmed j k Hj Hk). }
  split; [|split; [|split]].
  - cbn [orderedb]. apply andb_true_intro. split; [|by apply Hall].
    by apply (opened_ascending i n median ks ks2).
  - apply separatedb_intro; [done|lia|by apply Hall|..].
    + intros i0 k l x Hi0 Hk Hl Hx.
      rewrite (Hk2 i0) in Hk. rewrite (Hcs2 i0) in Hl.
      destruct (decide (i0 = i)) as [Heq|Hne].
      { injection Hk as <-. injection Hl as <-. by apply Hlt. }
      destruct (decide (i < i0 ≤ n)) as [Hin|Hout].
      * destruct (decide (i0 = i + 1)) as [Heq|Hne2].
        -- injection Hl as <-.
           apply (new_hi x (Hks' x Hx) (i0 - 1) k); [lia|done].
        -- rewrite decide_True in Hl by lia.
           destruct (Hsp (i0 - 1) k ltac:(lia) Hk) as [Hleft _].
           by apply (Hleft l x).
      * rewrite decide_False, decide_False in Hl by lia.
        destruct (Hsp i0 k ltac:(lia) Hk) as [Hleft _]. by apply (Hleft l x).
    + intros i0 k r x Hi0 Hk Hr Hx.
      rewrite (Hk2 i0) in Hk. rewrite (Hcs2 (S i0)) in Hr.
      destruct (decide (i0 = i)) as [Heq|Hne].
      { injection Hk as <-.
        rewrite decide_False, decide_True in Hr by lia.
        injection Hr as <-. by apply Hge. }
      destruct (decide (i < i0 ≤ n)) as [Hin|Hout].
      * rewrite decide_False, decide_False, decide_True in Hr by lia.
        destruct (Hsp (i0 - 1) k ltac:(lia) Hk) as [_ Hright].
        apply (Hright r x); [|done].
        by replace (S (i0 - 1)) with (S i0 - 1) by lia.
      * destruct (decide (S i0 = i)) as [Heq|Hne2].
        -- injection Hr as <-. apply (new_lo x (Hk' x Hx) i0 k); [lia|done].
        -- rewrite decide_False, decide_False in Hr by lia.
           destruct (Hsp i0 k ltac:(lia) Hk) as [_ Hright].
           by apply (Hright r x).
  - intros x. rewrite !elem_of_keys_internal.
    assert (∀ y, y = key ∨ y ∈ keys_of c →
              y = key ∨ ((∃ j, j < n ∧ ks !! j = Some y)
                         ∨ ∃ j c2, cs !! j = Some c2 ∧ y ∈ keys_of c2)) as Hnew.
    { intros y [->|Hy]; [by left|]. right. right. by exists i, c. }
    intros [(j & Hj & Hx)|(j & c2 & Hx & Hin)].
    + rewrite (Hk2 j) in Hx.
      destruct (decide (j = i)); [injection Hx as <-; by apply Hnew|].
      destruct (decide (i < j ≤ n)).
      * right. left. exists (j - 1). split; [lia|done].
      * right. left. exists j. split; [lia|done].
    + rewrite (Hcs2 j) in Hx.
      destruct (decide (j = i)); [injection Hx as <-; by apply Hnew, Hk'|].
      destruct (decide (j = i + 1)); [injection Hx as <-; by apply Hnew, Hks'|].
      destruct (decide (i + 1 < j ≤ n + 1)).
      * right. right. by exists (j - 1), c2.
      * right. right. by exists j, c2.
  - intros p. rewrite !elem_of_pairs_internal. split.
    + intros (j & c2 & Hx & Hin). rewrite (Hcs2 j) in Hx.
      assert (p = (key, value) ∨ p ∈ leaf_pairs c →
              p = (key, value) ∨ ∃ j c2, cs !! j = Some c2 ∧ p ∈ leaf_pairs c2)
        as Hnew.
      { intros [->|Hy]; [by left|]. right. by exists i, c. }
      destruct (decide (j = i)).
      { injection Hx as <-. apply Hnew, Hp'. by left. }
      destruct (decide (j = i + 1)).
      { injection Hx as <-. apply Hnew, Hp'. by right. }
      destruct (decide (i + 1 < j ≤ n + 1)).
      * right. by exists (j - 1), c2.
      * right. by exists j, c2.
    + assert (∀ q, q = (key, value) ∨ q ∈ leaf_pairs c →
                ∃ j c2, cs2 !! j = Some c2 ∧ q ∈ leaf_pairs c2) as Hin.
      { intros q [Hq|Hq]%Hp'.
        - exists i, c'. split; [|done]. rewrite (Hcs2 i). by rewrite decide_True.
        - exists (i + 1), sibling. split; [|done]. rewrite (Hcs2 (i + 1)).
          rewrite decide_False, decide_True by lia. done. }
      intros [->|(j & c2 & Hj & Hp)]; [by apply Hin; left|].
      destruct (lt_eq_lt_dec j i) as [[Hlt'|Heq]|Hgt].
      * exists j, c2. split; [|done]. rewrite (Hcs2 j).
        by rewrite decide_False, decide_False, decide_False by lia.
      * apply Hin. right. congruence.
      * exists (S j), c2. split; [|done]. rewrite (Hcs2 (S j)).
        apply lookup_lt_Some in Hj as Hjlt.
        rewrite decide_False, decide_False, decide_True by lia.
        by replace (S j - 1) with j by lia.
Qed.

End Absorb.

Section InsertFresh.

Variable M : nat.
Hypothesis HM2 : 2 ≤ M.
Hypothesis HM16 : (Z.of_nat M < 65536)%Z.

(** The keys from the slot the scan stops at are above a key that the
    node does not hold. *)
Lemma scan_stop_above (key : Z) (n i : nat) (ks : list Z) :
  ascendingb (live n ks) = true → key ∉ live n ks →
  (∀ k, i < n → ks !! i = Some k → (key ≤ k)%Z) →
  ∀ j k, i ≤ j < n → ks !! j = Some k → (key < k)%Z.
Proof.
  intros Hasc Hfresh Hstop j k Hj Hk.
  destruct (lookup_lt_is_Some_2 ks i) as [ki Hki];
    [apply lookup_lt_Some in Hk; lia|].
  pose proof (Hstop ki ltac:(lia) Hki).
  pose proof (live_sorted n ks Hasc i j ki k ltac:(lia) ltac:(lia) Hki Hk).
  assert (k ≠ key); [|lia].
  intros ->. apply Hfresh, elem_of_live. exists j. split; [lia|done].
Qed.

Lemma insert_leaf_fresh (n : nat) (ks vs : list Z) (key value : Z) :
  n < M → n ≤ length ks → length ks ≤ M → n ≤ length vs → length vs ≤ M →
  ascendingb (live n ks) = true → key ∉ live n ks →
  ∃ t' sp,
    insert_recursive M (Leaf n ks vs) key value = Some (t', sp)
    ∧ fresh_post key value (Leaf n ks vs) t' sp.
Proof.
  intros Hn Hks HksM Hvs HvsM Hasc Hfresh.
  destruct (scan_gtb_stop key ks n Hks) as (i & Hscan & Hi & HA & Hstop).
  pose proof (scan_stop_above key n i ks Hasc Hfresh Hstop) as HB.
  destruct (open_slot_opened M n i ks key) as (ks1 & ks2 & Hk1 & Hk2 & Hkl & Hkop);
    [lia..|].
  destruct (open_slot_opened M n i vs value)
    as (vs1 & vs2 & Hv1 & Hv2 & Hvl & Hvop); [lia..|].
  assert (fresh_post key value (Leaf n ks vs) (Leaf (n + 1) ks2 vs2) None)
    as Hbig.
  { split; [|split; [done|split]].
    - by apply (opened_ascending i n key ks ks2).
    - intros x. cbn [keys_of]. by rewrite (opened_live i n key ks ks2).
    - by apply (opened_pairs i n key value ks ks2 vs vs2). }
  cbn [insert_recursive]. rewrite Hscan. cbn [mbind option_bind].
  assert ((if 0 <? i then k ← ks !! (i - 1); Some (k =? key)%Z else Some false)
          = Some false) as ->.
  { destruct (0 <? i) eqn:E; [|done]. apply Nat.ltb_lt in E.
    destruct (lookup_lt_is_Some_2 ks (i - 1)) as [k Hk]; [lia|].
    rewrite Hk. cbn [mbind option_bind]. f_equal.
    specialize (HA (i - 1) k ltac:(lia) Hk). apply Z.eqb_neq. lia. }
  cbn [mbind option_bind]. rewrite Hk1. cbn [mbind option_bind].
  rewrite Hv1. cbn [mbind option_bind]. rewrite Hk2. cbn [mbind option_bind].
  rewrite Hv2. cbn [mbind option_bind].
  rewrite u16_small by lia.
  replace (Z.to_nat (Z.of_nat n + 1)) with (n + 1) by lia.
  destruct (decide (n + 1 = M)) as [HnM|HnM].
  - replace (M <=? n + 1) with true by (symmetry; apply Nat.leb_le; lia).
    rewrite HnM in *.
    destruct (split_leaf_spec M HM2 HM16 ks2 vs2) as (median & Hmed & ->);
      [lia..|].
    cbn [mbind option_bind]. eexists _, _. split; [done|].
    apply (halves_post key value _ (Leaf M ks2 vs2)); [done|].
    apply split_leaf_halves; try done; try lia. by destruct Hbig as [Ho _].
  - destruct (M <=? n + 1) eqn:E; [apply Nat.leb_le in E; lia|].
    by eexists _, _.
Qed.

Lemma insert_recursive_fresh (key value : Z) (t : Node) :
  ∀ h,
    roomb M t = true → depthb h t = true →
    orderedb t = true → separatedb t = true → key ∉ keys_of t →
    ∃ t' sp,
      insert_recursive M t key value = Some (t', sp)
      ∧ insert_post M h t t' sp ∧ fresh_post key value t t' sp.
Proof.
  pose proof (half_bounds M HM2) as (Hh1 & Hh2 & Hh3).
  induction t as [n ks vs|n ks cs IH] using Node_ind;
    intros h Hroom Hdepth Hord Hsep Hfresh.
  - destruct (insert_recursive_spec M HM2 HM16 key value _ h Hroom Hdepth)
      as (t0 & sp0 & Heq0 & Hpost0).
    apply roomb_leaf_iff in Hroom as (Hn & Hks & HksM & Hvs & HvsM).
    destruct (insert_leaf_fresh n ks vs key value) as (t' & sp & Heq & Hpost);
      try done.
    exists t', sp. rewrite Heq in Heq0. injection Heq0 as <- <-. done.
  - destruct (insert_recursive_spec M HM2 HM16 key value _ h Hroom Hdepth)
      as (t0 & sp0 & Heq0 & Hpost0).
    apply roomb_internal_iff in Hroom as (Hn & Hks & HksM & Hcs & Hall).
    apply depthb_internal_iff in Hdepth as (h' & -> & Hdeep).
    pose proof Hord as [Hasc Hords]%andb_prop.
    pose proof Hsep as [Hseps _]%separatedb_elim.
    assert (key ∉ live n ks) as Hfresh_ks.
    { intros Hin. apply Hfresh. cbn [keys_of]. apply elem_of_app. by left. }
    destruct (scan_gtb_stop key ks n Hks) as (i & Hscan & Hi & HA & Hstop).
    pose proof (scan_stop_above key n i ks Hasc Hfresh_ks Hstop) as HB.
    destruct (lookup_lt_is_Some_2 cs i) as [c Hc]; [lia|].
    destruct (Forall_lookup_child _ _ _ IH Hc h')
      as (c' & sp & Hrec & Hcpost & Hcfresh);
      [by eapply forallb_lookup..| |].
    { intros Hin. apply Hfresh, elem_of_keys_internal. right. by exists i, c. }
    assert (∃ t' sp',
              insert_recursive M (Internal n ks cs) key value = Some (t', sp')
              ∧ fresh_post key value (Internal n ks cs) t' sp') as Hgoal.
    { cbn [insert_recursive]. rewrite Hscan. cbn [mbind option_bind].
      rewrite at_index_lookup, Hc. cbn [mbind option_bind].
      rewrite Hrec. cbn [mbind option_bind].
      destruct sp as [[sibling median]|].
      - destruct (open_slot_opened M n i ks median)
          as (ks1 & ks2 & -> & Hk2 & Hkl & Hkop); [lia..|].
        destruct (open_slot_opened (M + 1) (n + 1) (i + 1) (<[i := c']> cs)
                    sibling) as (cs1 & cs2 & -> & Hc2 & Hcl & Hcop);
          [lia|rewrite length_insert; lia|lia|].
        rewrite length_insert in Hcl.
        cbn [mbind option_bind]. rewrite Hk2. cbn [mbind option_bind].
        rewrite Hc2. cbn [mbind option_bind].
        rewrite u16_small by lia.
        replace (Z.to_nat (Z.of_nat n + 1)) with (n + 1) by lia.
        assert (fresh_post key value (Internal n ks cs)
                  (Internal (n + 1) ks2 cs2) None) as Hbig.
        { apply (absorb_post key value n i ks cs c c') with sibling median;
            try done; lia. }
        destruct (decide (n + 1 = M)) as [HnM|HnM].
        + replace (M <=? n + 1) with true by (symmetry; apply Nat.leb_le; lia).
          rewrite HnM in *.
          destruct (split_internal_spec M HM2 HM16 ks2 cs2)
            as (med' & Hmed' & ->); [lia..|].
          cbn [mbind option_bind]. eexists _, _. split; [done|].
          apply (halves_post key value _ (Internal M ks2 cs2)); [done|].
          destruct Hbig as (Ho & Hs & _).
          apply split_internal_halves; try done; lia.
        + destruct (M <=? n + 1) eqn:E; [apply Nat.leb_le in E; lia|].
          by eexists _, _.
      - eexists _, _. split; [done|].
        by apply (child_update_post key value n i ks cs c c'). }
    destruct Hgoal as (t' & sp' & Heq & Hpost).
    exists t', sp'. rewrite Heq in Heq0. injection Heq0 as <- <-. done.
Qed.

(** An insert of a key the tree does not hold, separators included. *)
Lemma insert_fresh (key value : Z) (t : Node) (h : nat) :
  roomb M t = true → depthb h t = true →
  orderedb t = true → separatedb t = true → key ∉ keys_of t →
  ∃ t' h',
    insert M t key value = Some t'
    ∧ roomb M t' = true ∧ depthb h' t' = true
    ∧ orderedb t' = true ∧ separatedb t' = true
    ∧ (3 ≤ M → separator_in_each t = true → separator_in_each t' = true)
    ∧ (∀ x, x ∈ keys_of t' → x = key ∨ x ∈ keys_of t)
    ∧ (∀ p, p ∈ leaf_pairs t' ↔ p = (key, value) ∨ p ∈ leaf_pairs t).
Proof.
  intros Hroom Hdepth Hord Hsep Hfresh.
  destruct (insert_spec M HM2 HM16 key value t h Hroom Hdepth)
    as (t0 & h0 & Heq0 & Hroom0 & Hdepth0 & Hsie0).
  destruct (insert_recursive_fresh key value t h Hroom Hdepth Hord Hsep Hfresh)
    as (t' & sp & Hrec & _ & Ho' & Hs' & Hk' & Hsp).
  exists t0, h0. do 3 (split; [done|]).
  unfold insert in Heq0. rewrite Hrec in Heq0. cbn [mbind option_bind] in Heq0.
  destruct sp as [[new_child median]|].
  - destruct Hsp as (Hos & Hss & Hks & Hmed & _ & Hlt & Hge & Hp).
    unfold Arr.wr in Heq0. cbn [length] in Heq0.
    destruct (M <=? 0) eqn:E0; [apply Nat.leb_le in E0; lia|].
    destruct (M + 1 <=? 0) eqn:E1; [apply Nat.leb_le in E1; lia|].
    destruct (M + 1 <=? 1) eqn:E2; [apply Nat.leb_le in E2; lia|].
    cbn in Heq0. injection Heq0 as <-. change (u16 1) with 1.
    split; [|split; [|split; [done|split]]].
    + cbn [orderedb forallb live take ascendingb]. by rewrite Ho', Hos.
    + apply separatedb_intro; [done|done|cbn [forallb]; by rewrite Hs', Hss|..].
      * intros [|i] k l x Hi Hk Hl Hx; [|lia]. simplify_eq/=. by apply Hlt.
      * intros [|i] k r x Hi Hk Hr Hx; [|lia]. simplify_eq/=. by apply Hge.
    + intros x. rewrite elem_of_keys_internal.
      intros [([|j] & Hj & Hx)|([|[|j]] & c & Hc & Hx)]; simplify_eq/=; auto;
        lia.
    + intros p. rewrite elem_of_pairs_internal. rewrite <- Hp. split.
      * intros ([|[|j]] & c & Hc & Hx); simplify_eq/=; auto.
      * intros [Hx|Hx]; [by exists 0, t'|by exists 1, new_child].
  - injection Heq0 as <-. done.
Qed.

(** A run of inserts of keys that are new to the tree and differ from
    one another. *)
Lemma insert_all_fresh (kvs : list (Z * Z)) :
  ∀ t h,
    roomb M t = true → depthb h t = true →
    orderedb t = true → separatedb t = true →
    NoDup (kvs.*1) → (∀ k, k ∈ kvs.*1 → k ∉ keys_of t) →
    ∃ t' h',
      insert_all M t kvs = Some t'
      ∧ roomb M t' = true ∧ depthb h' t' = true
      ∧ orderedb t' = true ∧ separatedb t' = true
      ∧ (3 ≤ M → separator_in_each t = true → separator_in_each t' = true)
      ∧ (∀ x, x ∈ keys_of t' → x ∈ kvs.*1 ∨ x ∈ keys_of t)
      ∧ (∀ p, p ∈ leaf_pairs t' ↔ p ∈ kvs ∨ p ∈ leaf_pairs t).
Proof.
  induction kvs as [|[k v] kvs IH]; intros t h Hroom Hdepth Hord Hsep Hnd Hnew.
  - exists t, h. do 6 (split; [done|]). split; [tauto|].
    intros p. split; [tauto|].
    intros [Hp|Hp]; [by apply elem_of_nil in Hp|done].
  - cbn [fmap list_fmap fst] in Hnd, Hnew.
    pose proof (NoDup_cons_1_1 _ _ Hnd) as Hk. apply NoDup_cons_1_2 in Hnd.
    destruct (insert_fresh k v t h Hroom Hdepth Hord Hsep)
      as (t1 & h1 & Hins & Hr1 & Hd1 & Ho1 & Hs1 & Hsie1 & Hk1 & Hp1).
    { apply Hnew. apply list_elem_of_here. }
    destruct (IH t1 h1 Hr1 Hd1 Ho1 Hs1 Hnd)
      as (t' & h' & Hrun & Hr' & Hd' & Ho' & Hs' & Hsie' & Hk' & Hp').
    { intros x Hx Hin. apply Hk1 in Hin as [->|Hin]; [done|].
      apply (Hnew x); [by apply list_elem_of_further|done]. }
    exists t', h'. cbn [insert_all]. rewrite Hins. cbn [mbind option_bind].
    do 5 (split; [done|]). split; [auto|]. split.
    + intros x [Hx|Hx]%Hk'; [left; by apply list_elem_of_further|].
      apply Hk1 in Hx as [->|Hx]; [left; apply list_elem_of_here|by right].
    + intros p. split.
      * intros [Hx|Hx]%Hp'; [left; by apply list_elem_of_further|].
        apply Hp1 in Hx as [->|Hx]; [left; apply list_elem_of_here|by right].
      * intros [[->|Hx]%elem_of_cons|Hx]; apply Hp'.
        -- right. apply Hp1. by left.
        -- by left.
        -- right. apply Hp1. by right.
Qed.

End InsertFresh.


Lemma removed_absent_id (key : Z) (t t' : Node) :
  removed key t t' → shapeb t = true →
  (∀ v, (key, v) ∉ leaf_pairs t) → t' = t.
Proof.
  induction 1 as [n ks vs Habs|n ks vs k ks' vs' Hk Hkey Hks' Hvs'
                 |n ks cs c c' Hc Hrem IH]; intros Hshape Hnone.
  - done.
  - cbn [shapeb] in Hshape. bools.
    destruct (lookup_lt_is_Some_2 vs k) as [v Hv]; [lia|].
    exfalso. apply (Hnone v), elem_of_pairs_leaf. by exists k.
  - cbn [shapeb] in Hshape. bools.
    rewrite IH.
    + by rewrite list_insert_id.
    + by eapply forallb_lookup.
    + intros v Hin. apply (Hnone v), elem_of_pairs_internal. eauto.
Qed.

Lemma valid_depthb (M : nat) (t : Node) : valid M t → ∃ h, depthb h t = true.
Proof. intros (Hshape & _ & _ & _ & Hbal). by apply balancedb_depthb. Qed.

(** * Further properties of the lookups, of [insert] and of [remove] *)

(** X1: on a valid tree a lookup returns true with [v] exactly when a leaf
    stores the pair of [key] and [v], and false with [val_out] untouched
    exactly when no leaf stores [key]; [findSIMD] returns what [findLinear]
    returns, and so does [findBinary] when no internal node is empty. *)
Theorem lookup_hits_stored_pairs (M : nat) (junk : nat → Z) (t : Node)
    (key val_out : Z) :
  valid M t →
  (∀ v, findLinear t key val_out = Some (true, v) ↔ (key, v) ∈ leaf_pairs t)
  ∧ (findLinear t key val_out = Some (false, val_out)
     ↔ ∀ v, (key, v) ∉ leaf_pairs t)
  ∧ findSIMD junk t key val_out = findLinear t key val_out
  ∧ (separator_in_each t = true →
     findBinary t key val_out = findLinear t key val_out).
Proof.
  intros (Hshape & _ & Hord & Hsep & _).
  split; [by apply findLinear_pairs|]. split; [by apply findLinear_miss|].
  split; [by apply findSIMD_findLinear|].
  intros Hsie. by apply findBinary_findLinear.
Qed.

Lemma lookup_hits_stored_pairs_witness :
  let t := (Internal 1 [10]
              [Leaf 2 [5; 6; 10; 20] [3; 4; 1; 2]; Leaf 2 [10; 20] [1; 2]])%Z in
  valid 4 t
  ∧ findLinear t 20 0 = Some (true, 2%Z)
  ∧ findLinear t 7 0 = Some (false, 0%Z)
  ∧ findSIMD (λ _, 7%Z) t 7 0 = findLinear t 7 0.
Proof.
  intros t.
  assert (valid 4 t) as Hv by (repeat split; reflexivity).
  split; [exact Hv|].
  destruct (lookup_hits_stored_pairs 4 (λ _, 7%Z) t 20 0 Hv) as (Hhit & _).
  destruct (lookup_hits_stored_pairs 4 (λ _, 7%Z) t 7 0 Hv)
    as (_ & Hmiss & Hsimd & _).
  split; [|split; [|exact Hsimd]].
  - apply Hhit. apply (bool_decide_unpack _). vm_compute. exact I.
  - apply Hmiss. intros v Hin. apply pairs_keys in Hin.
    revert Hin. apply (bool_decide_unpack _). vm_compute. exact I.
Defined.





(** X4: after such an [insert] the leaves store the old pairs and the new
    one; a lookup of [key] returns true with [value], and a lookup of any
    other key returns what it returned before. *)
Theorem insert_new_key_then_find (M : nat) (junk : nat → Z) (t : Node)
    (key value val_out : Z) :
  2 ≤ M → (Z.of_nat M < 65536)%Z →
  valid M t → roomb M t = true → key ∉ keys_of t →
  ∃ t',
    insert M t key value = Some t'
    ∧ (∀ p, p ∈ leaf_pairs t' ↔ p = (key, value) ∨ p ∈ leaf_pairs t)
    ∧ findLinear t' key val_out = Some (true, value)
    ∧ findSIMD junk t' key val_out = Some (true, value)
    ∧ (3 ≤ M → separator_in_each t = true →
       findBinary t' key val_out = Some (true, value))
    ∧ ∀ k, k ≠ key →
           findLinear t' k val_out = findLinear t k val_out
           ∧ findSIMD junk t' k val_out = findSIMD junk t k val_out.
Proof.
  intros HM2 HM16 Hv Hroom Hfresh.
  destruct (valid_depthb M t Hv) as [h Hdepth].
  destruct Hv as (Hshape & _ & Hord & Hsep & _).
  destruct (insert_fresh M HM2 HM16 key value t h Hroom Hdepth Hord Hsep Hfresh)
    as (t' & h' & Hins & Hr' & Hd' & Ho' & Hs' & Hsie' & _ & Hp').
  destruct (roomb_shapeb M t' HM16 Hr') as [Hshape' _].
  assert (findLinear t' key val_out = Some (true, value)) as Hfound.
  { apply findLinear_pairs; try done. apply Hp'. by left. }
  exists t'. split; [done|]. split; [done|]. split; [done|].
  split; [by rewrite findSIMD_findLinear|]. split.
  - intros H3 Hsie. rewrite findBinary_findLinear; auto.
  - intros k Hk. rewrite !findSIMD_findLinear by done.
    assert (findLinear t' k val_out = findLinear t k val_out) as Hsame; [|done].
    apply findLinear_ext; try done.
    intros v. rewrite Hp'. split; [|by right].
    intros [[= -> _]|Hin]; done.
Qed.

Lemma insert_new_key_then_find_witness :
  ∃ t',
    insert 4 (Internal 1 [10]
                [Leaf 2 [5; 6; 10; 20] [3; 4; 1; 2]; Leaf 2 [10; 20] [1; 2]])%Z
      7 70 = Some t'
    ∧ findLinear t' 7 0 = Some (true, 70%Z)
    ∧ findLinear t' 20 0 = Some (true, 2%Z).
Proof.
  destruct (insert_new_key_then_find 4 (λ _, 0%Z)
              (Internal 1 [10]
                 [Leaf 2 [5; 6; 10; 20] [3; 4; 1; 2]; Leaf 2 [10; 20] [1; 2]])%Z
              7 70 0) as (t' & Hins & _ & Hfound & _ & _ & Hother).
  - lia.
  - lia.
  - repeat split; reflexivity.
  - reflexivity.
  - apply (bool_decide_unpack _). vm_compute. exact I.
  - exists t'. split; [done|]. split; [done|].
    destruct (Hother 20%Z) as [-> _]; [lia|]. reflexivity.
Defined.

(** X5: a run of inserts of pairwise different keys into the empty tree
    gives a valid tree that stores exactly the inserted pairs: every
    inserted key is found with its value, by all the lookups, and no other
    key is found. *)
Theorem distinct_inserts_all_found (M : nat) (junk : nat → Z)
    (kvs : list (Z * Z)) :
  2 ≤ M → (Z.of_nat M < 65536)%Z → NoDup (kvs.*1) →
  ∃ t,
    insert_all M empty kvs = Some t
    ∧ valid M t ∧ roomb M t = true
    ∧ (∀ p, p ∈ leaf_pairs t ↔ p ∈ kvs)
    ∧ ∀ k val_out,
        (∀ v, findLinear t k val_out = Some (true, v) ↔ (k, v) ∈ kvs)
        ∧ (k ∉ kvs.*1 → findLinear t k val_out = Some (false, val_out))
        ∧ findSIMD junk t k val_out = findLinear t k val_out
        ∧ (3 ≤ M → findBinary t k val_out = findLinear t k val_out).
Proof.
  intros HM2 HM16 Hnd.
  destruct (empty_room M HM2) as [Hroom Hdepth].
  destruct (insert_all_fresh M HM2 HM16 kvs empty 0 Hroom Hdepth)
    as (t & h & Hrun & Hr & Hd & Ho & Hs & Hsie & _ & Hp); try done.
  { intros k _ Hin. by apply elem_of_nil in Hin. }
  destruct (roomb_shapeb M t HM16 Hr) as [Hshape _].
  assert (∀ p, p ∈ leaf_pairs t ↔ p ∈ kvs) as Hp'.
  { intros p. rewrite Hp. split; [|by left].
    intros [Hin|Hin]; [done|by apply elem_of_nil in Hin]. }
  exists t. split; [done|]. split; [by apply (valid_intro M h)|].
  split; [done|]. split; [done|]. intros k val_out.
  split; [|split; [|split]].
  - intros v. rewrite <- Hp'. by apply findLinear_pairs.
  - intros Hk. apply findLinear_miss; try done. intros v Hin%Hp'.
    apply Hk. by apply (list_elem_of_fmap_2 fst) in Hin.
  - by apply findSIMD_findLinear.
  - intros H3. apply findBinary_findLinear; auto.
Qed.

Lemma distinct_inserts_all_found_witness :
  ∃ t,
    insert_all 4 empty ((λ k, (Z.of_nat k, Z.of_nat (10 * k))) <$> seq 1 10)
    = Some t
    ∧ valid 4 t
    ∧ findLinear t 7 0 = Some (true, 70%Z)
    ∧ findLinear t 11 0 = Some (false, 0%Z).
Proof.
  destruct (distinct_inserts_all_found 4 (λ _, 0%Z)
              ((λ k, (Z.of_nat k, Z.of_nat (10 * k))) <$> seq 1 10))
    as (t & Hrun & Hv & _ & _ & Hfind).
  - lia.
  - lia.
  - apply (bool_decide_unpack _). vm_compute. exact I.
  - exists t. split; [done|]. split; [done|]. split.
    + apply (Hfind 7%Z 0%Z). apply (bool_decide_unpack _). vm_compute. exact I.
    + apply (Hfind 11%Z 0%Z). apply (bool_decide_unpack _). vm_compute. exact I.
Defined.





(** X8: [remove] of a key that the lookup does not find leaves a valid
    tree as it is. *)
Theorem remove_absent_key_changes_nothing (M : nat) (t : Node) (key val_out : Z) :
  valid M t →
  findLinear t key val_out = Some (false, val_out) →
  remove M t key = Some t.
Proof.
  intros (Hshape & Hcap & Hord & Hsep & _) Hmiss.
  destruct (remove_recursive_spec M key t Hshape Hcap) as (t' & Hrm & Hrel).
  unfold remove. rewrite Hrm. f_equal.
  apply (removed_absent_id key t t' Hrel Hshape).
  by apply (findLinear_miss key val_out t).
Qed.

Lemma remove_absent_key_changes_nothing_witness :
  remove 4 (Internal 1 [10]
              [Leaf 2 [5; 6; 10; 20] [3; 4; 1; 2]; Leaf 2 [10; 20] [1; 2]])%Z 7
  = Some (Internal 1 [10]
            [Leaf 2 [5; 6; 10; 20] [3; 4; 1; 2]; Leaf 2 [10; 20] [1; 2]])%Z.
Proof.
  apply (remove_absent_key_changes_nothing 4 _ 7 0).
  - repeat split; reflexivity.
  - reflexivity.
Defined.



(** ** The blocks an arena hands out *)

(** [allocate] changes neither the buffer nor its size. *)
Lemma allocate_frame (a : Arena.t) (bytes : Z) :
  Arena.memory (Arena.allocate a bytes).2 = Arena.memory a
  ∧ Arena.capacity (Arena.allocate a bytes).2 = Arena.capacity a.
Proof.
  unfold Arena.allocate. by destruct (_ <? _)%Z.
Qed.

Lemma allocate_blocks_frame (reqs : list Z) :
  ∀ a blocks a',
    allocate_blocks a reqs = Some (blocks, a') →
    Arena.memory a' = Arena.memory a ∧ Arena.capacity a' = Arena.capacity a.
Proof.
  induction reqs as [|b reqs IH]; intros a blocks a' Hrun.
  - by injection Hrun as <- <-.
  - cbn [allocate_blocks] in Hrun.
    pose proof (allocate_frame a b) as [Hm Hc].
    destruct (Arena.allocate a b) as [[p|] a1]; [|done].
    destruct (allocate_blocks a1 reqs) as [[blocks1 a2]|] eqn:Hrest; [|done].
    cbn [mbind option_bind] in Hrun. injection Hrun as <- <-.
    destruct (IH a1 blocks1 a2 Hrest) as [-> ->]. done.
Qed.

(** One step of a run that does not overflow [size_t]. *)
Lemma allocate_step (a : Arena.t) (bytes p : Z) (a' : Arena.t) :
  Arena.well_formed a → (Arena.offset a mod 64 = 0)%Z →
  (0 ≤ bytes)%Z → (bytes + 63 < Arena.size_max)%Z →
  (Arena.offset a + round_up_64 bytes < Arena.size_max)%Z →
  Arena.allocate a bytes = (Arena.Ptr p, a') →
  p = (Arena.memory a + Arena.offset a)%Z
  ∧ Arena.offset a' = (Arena.offset a + round_up_64 bytes)%Z
  ∧ Arena.memory a' = Arena.memory a ∧ Arena.capacity a' = Arena.capacity a
  ∧ Arena.well_formed a' ∧ (Arena.offset a' mod 64 = 0)%Z.
Proof.
  intros Hwf Hal Hb Hb63 Hfit Halloc.
  rewrite allocate_no_wrap in Halloc by done. unfold allocate_spec in Halloc.
  pose proof (round_up_64_bounds bytes) as (Hmod & Hlo & Hhi).
  destruct (_ <? _)%Z eqn:E; [done|]. apply Z.ltb_ge in E.
  injection Halloc as <- <-. cbn [Arena.offset Arena.memory Arena.capacity].
  do 4 (split; [done|]). split.
  - unfold Arena.well_formed in *.
    cbn [Arena.offset Arena.memory Arena.capacity]. lia.
  - rewrite Z.add_mod, Hal, Hmod by lia. done.
Qed.

Lemma rounded_total_nonneg (reqs : list Z) :
  Forall (λ b, 0 ≤ b ∧ b + 63 < Arena.size_max)%Z reqs →
  (0 ≤ rounded_total reqs)%Z.
Proof.
  induction 1 as [|b reqs [Hb _] _ IH]; [done|].
  cbn [rounded_total foldr]. fold (rounded_total reqs).
  pose proof (round_up_64_bounds b). lia.
Qed.

Lemma allocate_blocks_spec (reqs : list Z) :
  ∀ a blocks a',
    Arena.well_formed a → (Arena.offset a mod 64 = 0)%Z →
    Forall (λ b, 0 ≤ b ∧ b + 63 < Arena.size_max)%Z reqs →
    (Arena.offset a + rounded_total reqs < Arena.size_max)%Z →
    allocate_blocks a reqs = Some (blocks, a') →
    Arena.offset a' = (Arena.offset a + rounded_total reqs)%Z
    ∧ Arena.well_formed a' ∧ (Arena.offset a' mod 64 = 0)%Z
    ∧ blocks.*2 = reqs
    ∧ (∀ i p b,
         blocks !! i = Some (p, b) →
         ((p - Arena.memory a) mod 64 = 0
          ∧ Arena.memory a + Arena.offset a ≤ p
          ∧ p + b ≤ Arena.memory a + Arena.offset a')%Z)
    ∧ ∀ i j p b q c,
        i < j → blocks !! i = Some (p, b) → blocks !! j = Some (q, c) →
        (p + b ≤ q)%Z.
Proof.
  induction reqs as [|b reqs IH]; intros a blocks a' Hwf Hal Hreqs Hfit Hrun.
  - injection Hrun as <- <-. cbn [rounded_total foldr].
    rewrite Z.add_0_r. do 4 (split; [done|]). split.
    + intros i p b Hi. by destruct i.
    + intros i j p b q c _ Hi. by destruct i.
  - apply Forall_cons_1 in Hreqs as [[Hb Hb63] Hreqs].
    cbn [rounded_total foldr] in Hfit |- *. fold (rounded_total reqs) in Hfit |- *.
    pose proof (rounded_total_nonneg reqs Hreqs) as Htot.
    pose proof (round_up_64_bounds b) as (Hmod & Hlo & Hhi).
    cbn [allocate_blocks] in Hrun.
    destruct (Arena.allocate a b) as [[p|] a1] eqn:Halloc; [|done].
    destruct (allocate_step a b p a1 Hwf Hal Hb Hb63 ltac:(lia) Halloc)
      as (-> & Ho1 & Hm1 & Hc1 & Hwf1 & Hal1).
    destruct (allocate_blocks a1 reqs) as [[blocks1 a2]|] eqn:Hrest; [|done].
    cbn [mbind option_bind] in Hrun. injection Hrun as <- <-.
    destruct (IH a1 blocks1 a2 Hwf1 Hal1 Hreqs ltac:(lia) Hrest)
      as (Ho2 & Hwf2 & Hal2 & Hsizes & Hin & Hdis).
    rewrite Ho1, Hm1 in *.
    split; [lia|]. split; [done|]. split; [done|].
    split; [by rewrite fmap_cons, Hsizes|]. split.
    + intros [|i] q c Hq.
      * injection Hq as <- <-.
        replace (Arena.memory a + Arena.offset a - Arena.memory a)%Z
          with (Arena.offset a) by lia. lia.
      * destruct (Hin i q c Hq) as (? & ? & ?). lia.
    + intros [|i] [|j] q c q' c' Hlt Hq Hq'; try lia.
      * injection Hq as <- <-. destruct (Hin j q' c' Hq') as (? & ? & ?). lia.
      * apply (Hdis i j q c q' c'); (done || lia).
Qed.

(** * Further properties of the arena *)

(** X10: the blocks of a run of requests that [size_t] can count, from an
    arena whose offset is a multiple of 64 (a new one, or one after
    [reset]): every block starts a multiple of 64 bytes from the base of
    the buffer and lies inside the buffer, and a later block starts at or
    after the end of every earlier one. *)
Theorem blocks_aligned_and_disjoint (a : Arena.t) (reqs : list Z)
    (blocks : list (Z * Z)) (a' : Arena.t) :
  Arena.well_formed a → (Arena.offset a mod 64 = 0)%Z →
  Forall (λ b, 0 ≤ b ∧ b + 63 < Arena.size_max)%Z reqs →
  (Arena.offset a + rounded_total reqs < Arena.size_max)%Z →
  allocate_blocks a reqs = Some (blocks, a') →
  (∀ i p b,
     blocks !! i = Some (p, b) →
     ((p - Arena.memory a) mod 64 = 0
      ∧ Arena.memory a ≤ p
      ∧ p + b ≤ Arena.memory a + Arena.capacity a)%Z)
  ∧ (∀ i j p b q c,
       i < j → blocks !! i = Some (p, b) → blocks !! j = Some (q, c) →
       (p + b ≤ q)%Z)
  ∧ (Arena.get_used_memory a' mod 64 = 0)%Z ∧ Arena.well_formed a'.
Proof.
  intros Hwf Hal Hreqs Hfit Hrun.
  destruct (allocate_blocks_spec reqs a blocks a' Hwf Hal Hreqs Hfit Hrun)
    as (Ho & Hwf' & Hal' & _ & Hin & Hdis).
  destruct (allocate_blocks_frame reqs a blocks a' Hrun) as [Hm Hc].
  split; [|done]. intros i p b Hi. destruct (Hin i p b Hi) as (? & ? & ?).
  unfold Arena.well_formed in *. split; [done|]. lia.
Qed.

Lemma blocks_aligned_and_disjoint_witness :
  ∃ a',
    allocate_blocks (Arena.new 4096 1024) [100; 1; 64]%Z
    = Some ([(4096, 100); (4224, 1); (4288, 64)]%Z, a')
    ∧ (4096 + 100 ≤ 4224)%Z
    ∧ Arena.well_formed a'.
Proof.
  eexists. split; [vm_compute; reflexivity|].
  match goal with |- _ ∧ Arena.well_formed ?a' =>
    destruct (blocks_aligned_and_disjoint (Arena.new 4096 1024) [100; 1; 64]%Z
                [(4096, 100); (4224, 1); (4288, 64)]%Z a')
      as (_ & Hdis & _ & Hwf)
  end.
  - vm_compute. split; [split|]; (done || congruence).
  - reflexivity.
  - repeat constructor; vm_compute; congruence.
  - vm_compute. reflexivity.
  - vm_compute. reflexivity.
  - split; [|exact Hwf].
    apply (Hdis 0 1 4096%Z 100%Z 4224%Z 1%Z); (reflexivity || lia).
Defined.

(** X11: [reset] rewinds the arena and keeps the buffer: after it nothing
    is in use, the capacity is what it was, and the requests of the run
    before it are given the very blocks they were given before, so a
    block handed out before the [reset] is handed out a second time. *)
Theorem reset_hands_out_the_same_blocks (base size : Z) (reqs : list Z)
    (blocks : list (Z * Z)) (a' : Arena.t) :
  allocate_blocks (Arena.new base size) reqs = Some (blocks, a') →
  Arena.get_used_memory (Arena.reset a') = 0%Z
  ∧ Arena.get_capacity (Arena.reset a') = size
  ∧ allocate_blocks (Arena.reset a') reqs = Some (blocks, a').
Proof.
  intros Hrun.
  destruct (allocate_blocks_frame reqs _ blocks a' Hrun) as [Hm Hc].
  cbn [Arena.new Arena.memory Arena.capacity] in Hm, Hc.
  unfold Arena.reset. rewrite Hm, Hc. done.
Qed.

Lemma reset_hands_out_the_same_blocks_witness :
  ∃ a',
    allocate_blocks (Arena.new 4096 1024) [100; 1]%Z
    = Some ([(4096, 100); (4224, 1)]%Z, a')
    ∧ Arena.get_used_memory a' = 192%Z
    ∧ allocate_blocks (Arena.reset a') [100; 1]%Z
      = Some ([(4096, 100); (4224, 1)]%Z, a').
Proof.
  eexists. split; [vm_compute; reflexivity|]. split; [reflexivity|].
  match goal with |- allocate_blocks (Arena.reset ?a') _ = _ =>
    apply (reset_hands_out_the_same_blocks 4096 1024 [100; 1]%Z
             [(4096, 100); (4224, 1)]%Z a')
  end.
  vm_compute. reflexivity.
Defined.

(** ** Insertion with the arena *)

Lemma allocate_cases (a : Arena.t) (bytes : Z) :
  (∃ p a', Arena.allocate a bytes = (Arena.Ptr p, a'))
  ∨ Arena.allocate a bytes = (Arena.OutOfArena, a).
Proof.
  unfold Arena.allocate. destruct (_ <? _)%Z; [by right|left; eauto].
Qed.

Lemma allocate_all_app (reqs1 reqs2 : list Z) :
  ∀ a, Arena.allocate_all a (reqs1 ++ reqs2)
       = Arena.allocate_all a reqs1 ≫= λ a', Arena.allocate_all a' reqs2.
Proof.
  induction reqs1 as [|b reqs1 IH]; intros a; [done|].
  cbn [app Arena.allocate_all].
  destruct (Arena.allocate a b) as [[p|] a1]; [apply IH|done].
Qed.

Lemma allocate_all_one_more (a a1 a2 : Arena.t) (k : nat) (bytes p : Z) :
  Arena.allocate_all a (replicate k bytes) = Some a1 →
  Arena.allocate a1 bytes = (Arena.Ptr p, a2) →
  Arena.allocate_all a (replicate (k + 1) bytes) = Some a2.
Proof.
  intros Hk H1. rewrite replicate_add, allocate_all_app, Hk.
  cbn [mbind option_bind replicate Arena.allocate_all]. by rewrite H1.
Qed.

Lemma opened_eq {A} (i n : nat) (x : A) (a a' : list A) :
  i ≤ n → length a = n → length a' = n + 1 → opened i n x a a' →
  a' = take i a ++ x :: drop i a.
Proof.
  intros Hi Ha Ha' Hop. apply list_eq. intros j. rewrite (Hop j).
  destruct (decide (j = i)) as [->|Hne].
  - rewrite lookup_app_r by (rewrite length_take; lia).
    rewrite length_take. by replace (i - i `min` length a) with 0 by lia.
  - destruct (decide (i < j ≤ n)).
    + rewrite lookup_app_r by (rewrite length_take; lia).
      rewrite length_take.
      replace (j - i `min` length a) with (S (j - 1 - i)) by lia.
      change ((x :: drop i a) !! S (j - 1 - i)) with (drop i a !! (j - 1 - i)).
      rewrite lookup_drop. f_equal. lia.
    + destruct (decide (j < i)).
      * rewrite lookup_app_l by (rewrite length_take; lia).
        by rewrite lookup_take_lt.
      * rewrite !lookup_ge_None_2; [done| |lia].
        rewrite length_app, length_take. cbn [length]. rewrite length_drop. lia.
Qed.

Lemma list_sum_opened (f : Node → nat) (i n : nat) (x : Node) (a a' : list Node) :
  i ≤ n → length a = n → length a' = n + 1 → opened i n x a a' →
  list_sum (map f a') = list_sum (map f a) + f x.
Proof.
  intros Hi Ha Ha' Hop. rewrite (opened_eq i n x a a' Hi Ha Ha' Hop).
  rewrite map_app, list_sum_app. cbn [map].
  change (list_sum (f x :: map f (drop i a)))
    with (f x + list_sum (map f (drop i a))).
  assert (list_sum (map f a)
          = list_sum (map f (take i a)) + list_sum (map f (drop i a))) as ->
    by (by rewrite <- list_sum_app, <- map_app, take_drop).
  lia.
Qed.

Lemma list_sum_insert_child (f : Node → nat) (l : list Node) (i : nat)
    (x y : Node) :
  l !! i = Some x →
  list_sum (map f (<[i := y]> l)) + f x = list_sum (map f l) + f y.
Proof.
  revert i. induction l as [|z l IH]; intros [|i] Hx; try done.
  - injection Hx as ->. simpl. lia.
  - simpl. specialize (IH i Hx). lia.
Qed.

(** ** The internal case of an insert, step by step *)

Section InternalStep.

Variable M : nat.
Hypothesis HM2 : 2 ≤ M.
Hypothesis HM16 : (Z.of_nat M < 65536)%Z.

Lemma node_count_internal (n : nat) (ks : list Z) (cs : list Node) :
  node_count (Internal n ks cs) = 1 + list_sum (map node_count cs).
Proof. done. Qed.

(** The internal case of [insert_recursive], given what the call on the
    child returned. *)
Lemma insert_internal_eq (n : nat) (ks : list Z) (cs : list Node)
    (key value : Z) :
  n < M → n ≤ length ks → length ks ≤ M → length cs = n + 1 →
  ∃ i c,
    scan Z.gtb key ks n 0 = Some i ∧ i ≤ n ∧ cs !! i = Some c
    ∧ ∀ c' spc,
        insert_recursive M c key value = Some (c', spc) →
        match spc with
        | None =>
            insert_recursive M (Internal n ks cs) key value
            = Some (Internal n ks (<[i := c']> cs), None)
        | Some (sibling, median) =>
            ∃ ks2 cs2,
              opened i n median ks ks2
              ∧ opened (i + 1) (n + 1) sibling (<[i := c']> cs) cs2
              ∧ length ks2 = length ks `max` (n + 1)
              ∧ length cs2 = n + 2
              ∧ insert_recursive M (Internal n ks cs) key value
                = (if decide (n + 1 = M)
                   then '(old, sp) ← split_internal M M ks2 cs2;
                        Some (old, Some sp)
                   else Some (Internal (n + 1) ks2 cs2, None))
        end.
Proof.
  intros Hn Hks HksM Hcs.
  destruct (scan_gtb_spec key ks n Hks) as (i & Hscan & Hi & _).
  destruct (lookup_lt_is_Some_2 cs i) as [c Hc]; [lia|].
  exists i, c. do 3 (split; [done|]). intros c' spc Hrec.
  cbn [insert_recursive]. rewrite Hscan. cbn [mbind option_bind].
  rewrite at_index_lookup, Hc. cbn [mbind option_bind]. rewrite Hrec.
  cbn [mbind option_bind]. destruct spc as [[sibling median]|]; [|done].
  destruct (open_slot_opened M n i ks median)
    as (ks1 & ks2 & -> & Hk2 & Hkl & Hkop); [lia..|].
  destruct (open_slot_opened (M + 1) (n + 1) (i + 1) (<[i := c']> cs) sibling)
    as (cs1 & cs2 & -> & Hc2 & Hcl & Hcop);
    [lia|rewrite length_insert; lia|lia|].
  rewrite length_insert in Hcl.
  cbn [mbind option_bind]. rewrite Hk2. cbn [mbind option_bind].
  rewrite Hc2. cbn [mbind option_bind]. rewrite u16_small by lia.
  replace (Z.to_nat (Z.of_nat n + 1)) with (n + 1) by lia.
  exists ks2, cs2. do 2 (split; [done|]). split; [done|]. split; [lia|].
  destruct (decide (n + 1 = M)) as [->|Hne].
  - by rewrite Nat.leb_refl.
  - destruct (M <=? n + 1) eqn:E; [apply Nat.leb_le in E; lia|done].
Qed.

(** The nodes that [insert_recursive] adds below an internal node are
    added to the node. *)
Lemma internal_step_count (n : nat) (ks : list Z) (cs : list Node)
    (key value : Z) (i : nat) (c c' : Node) (spc : option (Node * Z))
    (ks2 : list Z) (cs2 : list Node) (sibling : Node) :
  cs !! i = Some c → i ≤ n → length cs = n + 1 → length cs2 = n + 2 →
  opened (i + 1) (n + 1) sibling (<[i := c']> cs) cs2 →
  list_sum (map node_count cs2) + node_count c
  = list_sum (map node_count cs) + node_count c' + node_count sibling.
Proof.
  intros Hc Hi Hcs Hcs2 Hop.
  pose proof (list_sum_insert_child node_count cs i c c' Hc) as Hsum0.
  pose proof (list_sum_opened node_count (i + 1) (n + 1) sibling
                (<[i := c']> cs) cs2 ltac:(lia)
                ltac:(rewrite length_insert; lia) ltac:(lia) Hop) as Hsum2.
  lia.
Qed.

(** The nodes of an internal node after [insert_recursive], from those
    of the child it went to: one more when the node split. *)
Lemma insert_internal_count (n : nat) (ks : list Z) (cs : list Node)
    (key value : Z) :
  n < M → n ≤ length ks → length ks ≤ M → length cs = n + 1 →
  ∃ i c,
    scan Z.gtb key ks n 0 = Some i ∧ cs !! i = Some c
    ∧ ∀ c' spc t' sp,
        insert_recursive M c key value = Some (c', spc) →
        insert_recursive M (Internal n ks cs) key value = Some (t', sp) →
        node_count t'
        + match sp with Some (s, _) => node_count s | None => 0 end
        + node_count c
        = node_count (Internal n ks cs) + node_count c'
          + match spc with Some (s, _) => node_count s | None => 0 end
          + (if sp is Some _ then 1 else 0).
Proof.
  intros Hn Hks HksM Hcs.
  destruct (insert_internal_eq n ks cs key value Hn Hks HksM Hcs)
    as (i & c & Hscan & Hi & Hc & Hstep).
  exists i, c. do 2 (split; [done|]). intros c' spc t' sp Hrecc Hrec.
  specialize (Hstep c' spc Hrecc).
  pose proof (list_sum_insert_child node_count cs i c c' Hc) as Hsum0.
  destruct spc as [[sibling median]|].
  - destruct Hstep as (ks2 & cs2 & Hkop & Hcop & Hkl & Hcl & Heq).
    pose proof (internal_step_count n ks cs key value i c c'
                  (Some (sibling, median)) ks2 cs2 sibling Hc Hi Hcs Hcl
                  Hcop) as Hsum.
    rewrite Heq in Hrec. destruct (decide (n + 1 = M)) as [HnM|HnM].
    + destruct (split_internal_spec M HM2 HM16 ks2 cs2)
        as (med' & _ & Hsplit); [lia..|].
      rewrite Hsplit in Hrec. cbn [mbind option_bind] in Hrec.
      injection Hrec as <- <-.
      assert (list_sum (map node_count cs2)
              = list_sum (map node_count (take (M / 2 + 1) cs2))
                + list_sum (map node_count (drop (M / 2 + 1) cs2)))
        as Hsplit_sum
        by (by rewrite <- list_sum_app, <- map_app, take_drop).
      rewrite !node_count_internal.
      change (Nat.divmod M 1 0 1).1 with (M / 2). lia.
    + injection Hrec as <- <-. rewrite !node_count_internal. lia.
  - rewrite Hstep in Hrec. injection Hrec as <- <-. rewrite !node_count_internal. lia.
Qed.

End InternalStep.

Section AllocFacts.

Variables (node_size : Z) (M : nat).
Hypothesis HM2 : 2 ≤ M.
Hypothesis HM16 : (Z.of_nat M < 65536)%Z.

(** The leaf case of [insert_recursive], without and with the arena: the
    two differ in the allocation only. *)
Lemma insert_leaf_in_eq (n : nat) (ks vs : list Z) (key value : Z) :
  n < M → n ≤ length ks → length ks ≤ M → n ≤ length vs → length vs ≤ M →
  ∃ i ks' vs',
    i ≤ n ∧ opened i n key ks ks' ∧ opened i n value vs vs'
    ∧ length ks' = length ks `max` (n + 1)
    ∧ length vs' = length vs `max` (n + 1)
    ∧ insert_recursive M (Leaf n ks vs) key value
      = (if decide (n + 1 = M)
         then '(old, sp) ← split_leaf M M ks' vs'; Some (old, Some sp)
         else Some (Leaf (n + 1) ks' vs', None))
    ∧ ∀ g,
        insert_recursive_in node_size M g (Leaf n ks vs) key value
        = (if decide (n + 1 = M)
           then '(out, g') ← split_leaf_in node_size M g M ks' vs';
                match out with
                | Threw e => Some (Leaf M ks' vs', Threw e, g')
                | Returned (old, sp) => Some (old, Returned (Some sp), g')
                end
           else Some (Leaf (n + 1) ks' vs', Returned None, g)).
Proof.
  intros Hn Hks HksM Hvs HvsM.
  destruct (scan_gtb_spec key ks n Hks) as (i & Hscan & Hi & HA).
  destruct (open_slot_opened M n i ks key) as (ks1 & ks2 & Hk1 & Hk2 & Hkl & Hkop);
    [lia..|].
  destruct (open_slot_opened M n i vs value)
    as (vs1 & vs2 & Hv1 & Hv2 & Hvl & Hvop); [lia..|].
  exists i, ks2, vs2. do 5 (split; [done|]).
  assert ((if 0 <? i then k ← ks !! (i - 1); Some (k =? key)%Z else Some false)
          = Some false) as Hhit.
  { destruct (0 <? i) eqn:E; [|done]. apply Nat.ltb_lt in E.
    destruct (lookup_lt_is_Some_2 ks (i - 1)) as [k Hk]; [lia|].
    rewrite Hk. cbn [mbind option_bind]. f_equal.
    specialize (HA (i - 1) k ltac:(lia) Hk). apply Z.eqb_neq. lia. }
  assert (u16 (Z.of_nat n + 1) = n + 1) as Hn'.
  { rewrite u16_small by lia. lia. }
  split; [|intros g].
  - cbn [insert_recursive]. rewrite Hscan. cbn [mbind option_bind].
    rewrite Hhit. cbn [mbind option_bind]. rewrite Hk1. cbn [mbind option_bind].
    rewrite Hv1. cbn [mbind option_bind]. rewrite Hk2. cbn [mbind option_bind].
    rewrite Hv2. cbn [mbind option_bind]. rewrite Hn'.
    destruct (decide (n + 1 = M)) as [->|Hne].
    + by rewrite Nat.leb_refl.
    + destruct (M <=? n + 1) eqn:E; [apply Nat.leb_le in E; lia|done].
  - cbn [insert_recursive_in]. rewrite Hscan. cbn [mbind option_bind].
    rewrite Hhit. cbn [mbind option_bind]. rewrite Hk1. cbn [mbind option_bind].
    rewrite Hv1. cbn [mbind option_bind]. rewrite Hk2. cbn [mbind option_bind].
    rewrite Hv2. cbn [mbind option_bind]. rewrite Hn'.
    destruct (decide (n + 1 = M)) as [->|Hne].
    + by rewrite Nat.leb_refl.
    + destruct (M <=? n + 1) eqn:E; [apply Nat.leb_le in E; lia|done].
Qed.

(** [insert_recursive] with the arena: what it allocates, what it returns
    when no allocation throws, and where it stops when one does. *)
Lemma insert_recursive_in_spec (key value : Z) (t : Node) :
  ∀ h a,
    roomb M t = true → depthb h t = true →
    ∃ t' out a' k,
      insert_recursive_in node_size M (Some a) t key value
      = Some (t', out, Some a')
      ∧ Arena.allocate_all a (replicate k node_size) = Some a'
      ∧ match out with
        | Returned sp =>
            (k ≤ h + 1 ∧ (is_Some sp → k = h + 1))
            ∧ insert_recursive M t key value = Some (t', sp)
            ∧ node_count t'
              + match sp with Some (s, _) => node_count s | None => 0 end
              = node_count t + k
        | Threw e =>
            k ≤ h ∧ e = ArenaOutOfMemory
            ∧ Arena.allocate a' node_size = (Arena.OutOfArena, a')
            ∧ ∀ t2 sp2,
                insert_recursive M t key value = Some (t2, sp2) →
                node_count t + k
                < node_count t2
                  + match sp2 with Some (s, _) => node_count s | None => 0 end
        end.
Proof.
  pose proof (half_bounds M HM2) as (Hh1 & Hh2 & Hh3).
  induction t as [n ks vs|n ks cs IH] using Node_ind; intros h a Hroom Hdepth.
  - apply roomb_leaf_iff in Hroom as (Hn & Hks & HksM & Hvs & HvsM).
    apply depthb_leaf_iff in Hdepth as ->.
    destruct (insert_leaf_in_eq n ks vs key value)
      as (i & ks' & vs' & _ & _ & _ & Hkl & Hvl & Hpure & Hin); [done..|].
    rewrite Hpure, (Hin (Some a)).
    destruct (decide (n + 1 = M)) as [HnM|HnM].
    + destruct (split_leaf_spec M HM2 HM16 ks' vs') as (median & _ & Hsplit);
        [lia..|].
      unfold split_leaf_in, operator_new. rewrite Hsplit.
      destruct (allocate_cases a node_size) as [(p & a1 & Ha)|Ha]; rewrite Ha.
      * cbn [mbind option_bind]. eexists _, _, a1, 1. split; [done|].
        split; [cbn [replicate Arena.allocate_all]; by rewrite Ha|].
        cbn [node_count]. split; [split; [lia|intros _; lia]|].
        split; [done|lia].
      * cbn [mbind option_bind]. eexists _, _, a, 0. split; [done|].
        split; [done|]. split; [lia|]. do 2 (split; [done|]).
        intros t2 sp2 Heq. injection Heq as <- <-. cbn [node_count]. lia.
    + eexists _, _, a, 0. split; [done|]. split; [done|].
      cbn [node_count]. split; [split; [lia|by intros [? ?]]|].
      split; [done|lia].
  - apply roomb_internal_iff in Hroom as (Hn & Hks & HksM & Hcs & Hall).
    apply depthb_internal_iff in Hdepth as (h' & -> & Hdeep).
    destruct (scan_gtb_spec key ks n Hks) as (i & Hscan & Hi & _).
    destruct (lookup_lt_is_Some_2 cs i) as [c Hc]; [lia|].
    destruct (Forall_lookup_child _ _ _ IH Hc h' a)
      as (c' & out & a1 & k1 & Hrec & Hall1 & Hout);
      [by eapply forallb_lookup..|].
    cbn [insert_recursive_in insert_recursive]. rewrite Hscan.
    cbn [mbind option_bind]. rewrite !at_index_lookup, Hc.
    cbn [mbind option_bind]. rewrite Hrec. cbn [mbind option_bind].
    destruct out as [sp|e].
    + destruct Hout as ((Hk1 & Hfull1) & Hpure & Hcount). rewrite Hpure.
      cbn [mbind option_bind].
      pose proof (list_sum_insert_child node_count cs i c c' Hc) as Hsum0.
      destruct sp as [[sibling median]|].
      * destruct (open_slot_opened M n i ks median)
          as (ks1 & ks2 & -> & Hk2 & Hkl & _); [lia..|].
        destruct (open_slot_opened (M + 1) (n + 1) (i + 1) (<[i := c']> cs)
                    sibling) as (cs1 & cs2 & -> & Hc2 & Hcl & Hcop);
          [lia|rewrite length_insert; lia|lia|].
        rewrite length_insert in Hcl.
        cbn [mbind option_bind]. rewrite Hk2. cbn [mbind option_bind].
        rewrite Hc2. cbn [mbind option_bind].
        rewrite u16_small by lia.
        replace (Z.to_nat (Z.of_nat n + 1)) with (n + 1) by lia.
        pose proof (list_sum_opened node_count (i + 1) (n + 1) sibling
                      (<[i := c']> cs) cs2 ltac:(lia)
                      ltac:(rewrite length_insert; lia) ltac:(lia) Hcop)
          as Hsum2.
        destruct (decide (n + 1 = M)) as [HnM|HnM].
        -- replace (M <=? n + 1) with true by (symmetry; apply Nat.leb_le; lia).
           rewrite HnM.
           destruct (split_internal_spec M HM2 HM16 ks2 cs2)
             as (med' & _ & Hsplit); [lia..|].
           unfold split_internal_in, operator_new. rewrite Hsplit.
           destruct (allocate_cases a1 node_size) as [(p & a2 & Ha)|Ha];
             rewrite Ha; cbn [mbind option_bind].
           ++ eexists _, _, a2, (k1 + 1). split; [done|].
              split; [by eapply allocate_all_one_more|].
              assert (k1 = h' + 1) as Hk1' by (apply Hfull1; by eexists).
              split; [split; [lia|intros _; lia]|]. split; [done|].
              cbn [node_count].
              assert (list_sum (map node_count cs2)
                      = list_sum (map node_count (take (M / 2 + 1) cs2))
                        + list_sum (map node_count (drop (M / 2 + 1) cs2)))
                as Hsplit_sum
                by (by rewrite <- list_sum_app, <- map_app, take_drop).
              lia.
           ++ eexists _, _, a1, k1. split; [done|]. split; [done|].
              split; [lia|]. do 2 (split; [done|]).
              intros t2 sp2 Heq. injection Heq as <- <-.
              rewrite !node_count_internal.
              assert (list_sum (map node_count cs2)
                      = list_sum (map node_count (take (M / 2 + 1) cs2))
                        + list_sum (map node_count (drop (M / 2 + 1) cs2)))
                as Hsplit_sum
                by (by rewrite <- list_sum_app, <- map_app, take_drop).
              change (Nat.divmod M 1 0 1).1 with (M / 2). lia.
        -- destruct (M <=? n + 1) eqn:E; [apply Nat.leb_le in E; lia|].
           eexists _, _, a1, k1. split; [done|]. split; [done|].
           split; [split; [lia|by intros [? ?]]|]. split; [done|].
           cbn [node_count]. lia.
      * eexists _, _, a1, k1. split; [done|]. split; [done|].
        split; [split; [lia|by intros [? ?]]|]. split; [done|].
        cbn [node_count]. lia.
    + destruct Hout as (Hk1 & -> & Hfail & Hmore).
      eexists _, _, a1, k1. split; [done|]. split; [done|].
      split; [lia|]. do 2 (split; [done|]). intros t2 sp2 Heq.
      assert (insert_recursive M (Internal n ks cs) key value = Some (t2, sp2))
        as Heq'.
      { cbn [insert_recursive]. rewrite Hscan. cbn [mbind option_bind].
        rewrite at_index_lookup, Hc. exact Heq. }
      destruct (insert_internal_count M HM2 HM16 n ks cs key value)
        as (i' & c0 & Hscan' & Hc' & Hstep); [lia..|].
      rewrite Hscan in Hscan'. injection Hscan' as <-.
      rewrite Hc in Hc'. injection Hc' as <-.
      destruct (insert_recursive_spec M HM2 HM16 key value c h')
        as (c2 & spc2 & Hrecc & _); [by eapply forallb_lookup..|].
      specialize (Hmore c2 spc2 Hrecc).
      specialize (Hstep c2 spc2 t2 sp2 Hrecc Heq').
      destruct sp2 as [[s2 m2]|]; lia.
Qed.

(** [insert] with the arena. *)
Lemma insert_in_spec (key value : Z) (t : Node) (h : nat) (a : Arena.t) :
  roomb M t = true → depthb h t = true →
  ∃ t' out a' k,
    insert_in node_size M (Some a) t key value = Some (t', out, Some a')
    ∧ Arena.allocate_all a (replicate k node_size) = Some a'
    ∧ match out with
      | Returned _ =>
          k ≤ h + 2 ∧ insert M t key value = Some t'
          ∧ node_count t' = node_count t + k
      | Threw e =>
          k ≤ h + 1 ∧ e = ArenaOutOfMemory
          ∧ Arena.allocate a' node_size = (Arena.OutOfArena, a')
          ∧ ∀ t2,
              insert M t key value = Some t2 →
              node_count t + k < node_count t2
      end.
Proof.
  intros Hroom Hdepth.
  destruct (insert_recursive_in_spec key value t h a Hroom Hdepth)
    as (t' & out & a1 & k1 & Hrec & Hall1 & Hout).
  unfold insert_in, insert. rewrite Hrec. cbn [mbind option_bind].
  destruct out as [sp|e].
  - destruct Hout as ((Hk1 & _) & Hpure & Hcount). rewrite Hpure.
    cbn [mbind option_bind]. destruct sp as [[new_child median]|].
    + unfold operator_new. unfold Arr.wr. cbn [length].
      destruct (M <=? 0) eqn:E0; [apply Nat.leb_le in E0; lia|].
      destruct (M + 1 <=? 0) eqn:E1; [apply Nat.leb_le in E1; lia|].
      destruct (M + 1 <=? 1) eqn:E2; [apply Nat.leb_le in E2; lia|].
      destruct (allocate_cases a1 node_size) as [(p & a2 & Ha)|Ha]; rewrite Ha.
      * cbn. eexists _, _, a2, (k1 + 1). split; [done|].
        split; [by eapply allocate_all_one_more|].
        split; [lia|]. split; [done|].
        change (node_count (Internal (u16 1) [median] [t'; new_child]))
          with (1 + (node_count t' + (node_count new_child + 0))).
        lia.
      * eexists _, _, a1, k1. split; [done|]. split; [done|].
        split; [lia|]. do 2 (split; [done|]).
        intros t2 Heq. cbn in Heq. injection Heq as <-.
        change (node_count (Internal (u16 1) [median] [t'; new_child]))
          with (1 + (node_count t' + (node_count new_child + 0))).
        lia.
    + eexists _, _, a1, k1. split; [done|]. split; [done|].
      split; [lia|]. split; [done|lia].
  - destruct Hout as (Hk1 & -> & Hfail & Hmore).
    eexists _, _, a1, k1. split; [done|]. split; [done|]. split; [lia|].
    do 2 (split; [done|]). intros t2 Heq.
    destruct (insert_recursive M t key value) as [[t3 sp3]|]; [|done].
    specialize (Hmore t3 sp3 eq_refl). cbn [mbind option_bind] in Heq.
    destruct sp3 as [[s3 m3]|].
    + unfold Arr.wr in Heq. cbn [length] in Heq.
      destruct (M <=? 0) eqn:E0; [apply Nat.leb_le in E0; lia|].
      destruct (M + 1 <=? 0) eqn:E1; [apply Nat.leb_le in E1; lia|].
      destruct (M + 1 <=? 1) eqn:E2; [apply Nat.leb_le in E2; lia|].
      cbn in Heq. injection Heq as <-.
      change (node_count (Internal (u16 1) [m3] [t3; s3]))
        with (1 + (node_count t3 + (node_count s3 + 0))).
      lia.
    + injection Heq as <-. lia.
Qed.

End AllocFacts.

Lemma shift_right_overflow {A} (cap cnt k : nat) (a : list A) :
  0 < cnt → cap ≤ k → Arr.shift_right cap a cnt k = None.
Proof.
  intros Hcnt Hcap. destruct cnt as [|cnt]; [lia|]. cbn [Arr.shift_right].
  destruct (a !! (k - 1)) as [x|]; [|done]. cbn [mbind option_bind].
  by rewrite wr_None_cap.
Qed.

Lemma forallb_insert_false {A} (f : A → bool) (l : list A) (i : nat) (x : A) :
  i < length l → f x = false → forallb f (<[i := x]> l) = false.
Proof.
  revert i. induction l as [|y l IH]; intros [|i] Hi Hx; simpl in *; try lia.
  - by rewrite Hx.
  - rewrite IH by (done || lia). apply andb_false_r.
Qed.

Section Exhausted.

Variables (node_size : Z) (M : nat).
Hypothesis HM2 : 2 ≤ M.
Hypothesis HM16 : (Z.of_nat M < 65536)%Z.

(** A leaf that holds [M] pairs has no slot left: the next insert into it
    writes behind its arrays. *)
Lemma full_leaf_overflows (ks vs : list Z) (key value : Z) :
  M ≤ length ks → M ≤ length vs →
  insert_recursive M (Leaf M ks vs) key value = None
  ∧ ∀ g, insert_recursive_in node_size M g (Leaf M ks vs) key value = None.
Proof.
  intros Hks Hvs.
  destruct (scan_gtb_spec key ks M Hks) as (i & Hscan & Hi & HA).
  assert ((if 0 <? i then k ← ks !! (i - 1); Some (k =? key)%Z else Some false)
          = Some false) as Hhit.
  { destruct (0 <? i) eqn:E; [|done]. apply Nat.ltb_lt in E.
    destruct (lookup_lt_is_Some_2 ks (i - 1)) as [k Hk]; [lia|].
    rewrite Hk. cbn [mbind option_bind]. f_equal.
    specialize (HA (i - 1) k ltac:(lia) Hk). apply Z.eqb_neq. lia. }
  assert (∀ {R} (f : list Z → list Z → option R),
            (ks1 ← Arr.shift_right M ks (M - i) M;
             vs1 ← Arr.shift_right M vs (M - i) M;
             ks2 ← Arr.wr M ks1 i key;
             f ks2 vs1) = None) as Hover.
  { intros R f. destruct (decide (i = M)) as [Heq|Hne].
    - replace (M - i) with 0 by lia. cbn [Arr.shift_right mbind option_bind].
      by rewrite wr_None_cap by lia.
    - by rewrite (shift_right_overflow M (M - i) M ks) by lia. }
  split; [|intros g].
  - cbn [insert_recursive]. rewrite Hscan. cbn [mbind option_bind].
    rewrite Hhit. cbn [mbind option_bind]. apply Hover.
  - cbn [insert_recursive_in]. rewrite Hscan. cbn [mbind option_bind].
    rewrite Hhit. cbn [mbind option_bind]. apply Hover.
Qed.

Variables (g : option Arena.t) (e : Error).
Hypothesis Hnone : operator_new node_size g = (Threw e, g).

(** [insert_recursive] when no node can be had: the pair goes into its
    leaf; the call returns if that leaves the leaf below capacity and
    throws with the leaf full if not. *)
Lemma insert_recursive_in_exhausted (key value : Z) (t : Node) :
  roomb M t = true →
  ∃ t' out,
    insert_recursive_in node_size M g t key value = Some (t', out, g)
    ∧ node_count t' = node_count t
    ∧ (∀ p, p ∈ leaf_pairs t' ↔ p = (key, value) ∨ p ∈ leaf_pairs t)
    ∧ match out with
      | Returned sp =>
          sp = None ∧ insert_recursive M t key value = Some (t', None)
      | Threw e' =>
          e' = e ∧ roomb M t' = false
          ∧ ∀ value',
              insert_recursive M t' key value' = None
              ∧ ∀ g', insert_recursive_in node_size M g' t' key value' = None
      end.
Proof.
  induction t as [n ks vs|n ks cs IH] using Node_ind; intros Hroom.
  - apply roomb_leaf_iff in Hroom as (Hn & Hks & HksM & Hvs & HvsM).
    destruct (insert_leaf_in_eq node_size M HM2 HM16 n ks vs key value)
      as (i & ks' & vs' & Hi & Hkop & Hvop & Hkl & Hvl & Hpure & Hin);
      [done..|].
    rewrite Hpure, (Hin g).
    pose proof (opened_pairs i n key value ks ks' vs vs' Hi Hkop Hvop) as Hp.
    destruct (decide (n + 1 = M)) as [HnM|HnM].
    + unfold split_leaf_in. rewrite Hnone. cbn [mbind option_bind].
      eexists _, _. split; [done|]. split; [done|].
      split; [by rewrite <- HnM|]. split; [done|]. split.
      * cbn [roomb]. by rewrite Nat.ltb_irrefl.
      * intros value'. apply full_leaf_overflows; lia.
    + eexists _, _. split; [done|]. split; [done|]. split; [done|]. done.
  - apply roomb_internal_iff in Hroom as (Hn & Hks & HksM & Hcs & Hall).
    destruct (scan_gtb_spec key ks n Hks) as (i & Hscan & Hi & _).
    destruct (lookup_lt_is_Some_2 cs i) as [c Hc]; [lia|].
    destruct (Forall_lookup_child _ _ _ IH Hc)
      as (c' & out & Hrec & Hcount & Hp & Hout); [by eapply forallb_lookup|].
    assert (∀ p, p ∈ leaf_pairs (Internal n ks (<[i := c']> cs))
                 ↔ p = (key, value) ∨ p ∈ leaf_pairs (Internal n ks cs)) as Hp'.
    { intros p. rewrite !elem_of_pairs_internal. split.
      - intros (j & c2 & Hc2 & Hin). destruct (decide (j = i)) as [->|Hne].
        + rewrite list_lookup_insert_eq in Hc2 by lia. injection Hc2 as <-.
          apply Hp in Hin as [->|Hin]; [by left|]. right. by exists i, c.
        + rewrite list_lookup_insert_ne in Hc2 by done. right. by exists j, c2.
      - assert (∀ q, q = (key, value) ∨ q ∈ leaf_pairs c →
                  ∃ j c2, <[i := c']> cs !! j = Some c2 ∧ q ∈ leaf_pairs c2)
          as Hnew.
        { intros q Hq. exists i, c'. rewrite list_lookup_insert_eq by lia.
          split; [done|]. by apply Hp. }
        intros [->|(j & c2 & Hc2 & Hin)]; [by apply Hnew; left|].
        destruct (decide (j = i)) as [->|Hne].
        + apply Hnew. right. congruence.
        + exists j, c2. by rewrite list_lookup_insert_ne. }
    assert (node_count (Internal n ks (<[i := c']> cs))
            = node_count (Internal n ks cs)) as Hcount'.
    { cbn [node_count]. f_equal.
      by apply (list_sum_insert_same node_count cs i c c'). }
    cbn [insert_recursive_in insert_recursive]. rewrite Hscan.
    cbn [mbind option_bind]. rewrite !at_index_lookup, Hc.
    cbn [mbind option_bind]. rewrite Hrec. cbn [mbind option_bind].
    destruct out as [sp|e'].
    + destruct Hout as (-> & Hpure). rewrite Hpure. cbn [mbind option_bind].
      eexists _, _. split; [done|]. split; [done|]. split; [done|]. done.
    + destruct Hout as (-> & Hfull & Hretry).
      eexists _, _. split; [done|]. split; [done|]. split; [done|].
      split; [done|]. split.
      * cbn [roomb]. rewrite forallb_insert_false by (done || lia).
        apply andb_false_r.
      * intros value'. destruct (Hretry value') as [Hr1 Hr2].
        split; [|intros g'].
        -- cbn [insert_recursive]. rewrite Hscan. cbn [mbind option_bind].
           rewrite at_index_lookup, list_lookup_insert_eq by lia.
           cbn [mbind option_bind]. by rewrite Hr1.
        -- cbn [insert_recursive_in]. rewrite Hscan. cbn [mbind option_bind].
           rewrite at_index_lookup, list_lookup_insert_eq by lia.
           cbn [mbind option_bind]. by rewrite Hr2.
Qed.

End Exhausted.

(** ** What the inserts take from the arena *)

Lemma allocate_with_room (a : Arena.t) (bytes : Z) :
  Arena.well_formed a → (0 ≤ bytes)%Z → (bytes + 63 < Arena.size_max)%Z →
  (Arena.offset a + round_up_64 bytes ≤ Arena.capacity a)%Z →
  Arena.allocate a bytes
  = (Arena.Ptr (Arena.memory a + Arena.offset a),
     Arena.mk (Arena.memory a) (Arena.offset a + round_up_64 bytes)
       (Arena.capacity a)).
Proof.
  intros Hwf Hb Hb63 Hroom. unfold Arena.well_formed in Hwf.
  rewrite allocate_no_wrap by (done || lia). unfold allocate_spec.
  destruct (_ <? _)%Z eqn:E; [apply Z.ltb_lt in E; lia|done].
Qed.

Lemma allocate_without_room (a : Arena.t) (bytes : Z) :
  Arena.well_formed a → (0 ≤ bytes)%Z → (bytes + 63 < Arena.size_max)%Z →
  (Arena.capacity a + round_up_64 bytes < Arena.size_max)%Z →
  Arena.allocate a bytes = (Arena.OutOfArena, a) →
  (Arena.capacity a < Arena.offset a + round_up_64 bytes)%Z.
Proof.
  intros Hwf Hb Hb63 Hcap Hfail. unfold Arena.well_formed in Hwf.
  rewrite allocate_no_wrap in Hfail by (done || lia).
  unfold allocate_spec in Hfail.
  destruct (_ <? _)%Z eqn:E; [by apply Z.ltb_lt in E|done].
Qed.

(** A run of [k] requests of one size in an arena whose capacity leaves
    [size_t] room for one more block. *)
Lemma allocate_all_replicate_used (bytes : Z) (k : nat) :
  (0 ≤ bytes)%Z → (bytes + 63 < Arena.size_max)%Z →
  ∀ a a',
    Arena.well_formed a →
    (Arena.capacity a + round_up_64 bytes < Arena.size_max)%Z →
    Arena.allocate_all a (replicate k bytes) = Some a' →
    Arena.offset a' = (Arena.offset a + Z.of_nat k * round_up_64 bytes)%Z
    ∧ Arena.well_formed a' ∧ Arena.capacity a' = Arena.capacity a.
Proof.
  intros Hb Hb63. induction k as [|k IH]; intros a a' Hwf Hcap Hrun.
  - injection Hrun as <-. split; [lia|done].
  - cbn [replicate Arena.allocate_all] in Hrun.
    destruct (allocate_cases a bytes) as [(p & a1 & Ha)|Ha];
      rewrite Ha in Hrun; [|done].
    pose proof Hwf as Hwf0. unfold Arena.well_formed in Hwf0.
    rewrite allocate_no_wrap in Ha by (done || lia).
    unfold allocate_spec in Ha.
    destruct (_ <? _)%Z eqn:E; [done|]. apply Z.ltb_ge in E.
    injection Ha as <- <-.
    pose proof (round_up_64_bounds bytes) as (_ & Hlo & _).
    apply IH in Hrun as (Ho & Hwf' & Hc); [| |done].
    2: { unfold Arena.well_formed.
         cbn [Arena.offset Arena.memory Arena.capacity]. lia. }
    cbn [Arena.offset Arena.memory Arena.capacity] in Ho, Hc.
    split; [lia|done].
Qed.

Section AllocRuns.

Variables (node_size : Z) (M : nat).
Hypothesis HM2 : 2 ≤ M.
Hypothesis HM16 : (Z.of_nat M < 65536)%Z.

(** A run of inserts with the arena. *)
Lemma insert_all_in_spec (kvs : list (Z * Z)) :
  ∀ t h a,
    roomb M t = true → depthb h t = true →
    ∃ t' out a' k,
      insert_all_in node_size M (Some a) t kvs = Some (t', out, Some a')
      ∧ Arena.allocate_all a (replicate k node_size) = Some a'
      ∧ match out with
        | Returned _ =>
            insert_all M t kvs = Some t' ∧ node_count t' = node_count t + k
        | Threw e =>
            e = ArenaOutOfMemory
            ∧ Arena.allocate a' node_size = (Arena.OutOfArena, a')
            ∧ ∃ kvs1 kvs2 t2,
                kvs = kvs1 ++ kvs2 ∧ insert_all M t kvs1 = Some t2
                ∧ node_count t + k < node_count t2
        end.
Proof.
  induction kvs as [|[key value] kvs IH]; intros t h a Hroom Hdepth.
  - exists t, (Returned ()), a, 0. split; [done|]. split; [done|].
    split; [done|lia].
  - destruct (insert_in_spec node_size M HM2 HM16 key value t h a Hroom Hdepth)
      as (t1 & out1 & a1 & k1 & Hin & Hall1 & Hout1).
    cbn [insert_all_in insert_all]. rewrite Hin. cbn [mbind option_bind].
    destruct out1 as [[]|e].
    + destruct Hout1 as (_ & Hpure & Hcount1).
      destruct (insert_spec M HM2 HM16 key value t h Hroom Hdepth)
        as (t1' & h1 & Hpure' & Hroom1 & Hdepth1 & _).
      rewrite Hpure in Hpure'. injection Hpure' as <-.
      destruct (IH t1 h1 a1 Hroom1 Hdepth1)
        as (t' & out & a' & k & Hrun & Hall & Hout).
      exists t', out, a', (k1 + k). split; [done|]. split.
      { by rewrite replicate_add, allocate_all_app, Hall1. }
      rewrite Hpure. cbn [mbind option_bind].
      destruct out as [[]|e].
      * destruct Hout as [Hrun' Hcount]. split; [done|lia].
      * destruct Hout as (-> & Hfail & kvs1 & kvs2 & t2 & -> & Hrun2 & Hmore).
        do 2 (split; [done|]).
        exists ((key, value) :: kvs1), kvs2, t2. split; [done|].
        cbn [insert_all]. rewrite Hpure. cbn [mbind option_bind].
        split; [done|lia].
    + destruct Hout1 as (_ & -> & Hfail & Hmore).
      destruct (insert_spec M HM2 HM16 key value t h Hroom Hdepth)
        as (t2 & _ & Hpure & _).
      exists t1, (Threw ArenaOutOfMemory), a1, k1. do 4 (split; [done|]).
      exists [(key, value)], kvs, t2. split; [done|].
      cbn [insert_all]. rewrite Hpure. cbn [mbind option_bind].
      split; [done|]. by apply Hmore.
Qed.

End AllocRuns.

Lemma rounded_total_replicate (k : nat) (bytes : Z) :
  rounded_total (replicate k bytes) = (Z.of_nat k * round_up_64 bytes)%Z.
Proof.
  induction k as [|k IH]; [done|].
  cbn [replicate rounded_total foldr]. fold (rounded_total (replicate k bytes)).
  rewrite IH. lia.
Qed.

Lemma allocate_all_frame (reqs : list Z) :
  ∀ a a',
    Arena.allocate_all a reqs = Some a' →
    Arena.memory a' = Arena.memory a ∧ Arena.capacity a' = Arena.capacity a.
Proof.
  induction reqs as [|b reqs IH]; intros a a' Hrun.
  - by injection Hrun as <-.
  - cbn [Arena.allocate_all] in Hrun.
    pose proof (allocate_frame a b) as [Hm Hc].
    destruct (Arena.allocate a b) as [[p|] a1]; [|done].
    destruct (IH a1 a' Hrun) as [-> ->]. done.
Qed.

(** * Further properties of the inserts and the arena together *)

(** X12: when the constructor and a run of inserts on a new arena all
    return, the bytes in use are the number of nodes of the tree times the
    size of a node rounded up to a multiple of 64, and the tree is the one
    the inserts build when no allocation fails. *)
Theorem nodes_account_for_the_arena (node_size : Z) (M : nat) (base size : Z)
    (kvs : list (Z * Z)) (t0 : Node) (g0 : option Arena.t) (t : Node)
    (g : option Arena.t) :
  2 ≤ M → (Z.of_nat M < 65536)%Z →
  (0 ≤ node_size)%Z → (node_size + 63 < Arena.size_max)%Z →
  (0 ≤ size)%Z → (size + round_up_64 node_size < Arena.size_max)%Z →
  BPlusTree_in node_size (Some (Arena.new base size)) = (Returned t0, g0) →
  insert_all_in node_size M g0 t0 kvs = Some (t, Returned (), g) →
  ∃ a,
    g = Some a
    ∧ insert_all M empty kvs = Some t
    ∧ Arena.get_used_memory a
      = (Z.of_nat (node_count t) * round_up_64 node_size)%Z
    ∧ (Arena.get_used_memory a ≤ Arena.get_capacity a)%Z.
Proof.
  intros HM2 HM16 Hns Hns63 Hsize Hcap Hctor Hrun.
  pose proof (round_up_64_bounds node_size) as (_ & Hlo & _).
  unfold BPlusTree_in, operator_new in Hctor.
  destruct (allocate_cases (Arena.new base size) node_size)
    as [(p & a0 & Ha)|Ha]; rewrite Ha in Hctor; [|done].
  injection Hctor as <- <-.
  destruct (empty_room M HM2) as [Hroom Hdepth].
  destruct (insert_all_in_spec node_size M HM2 HM16 kvs empty 0 a0 Hroom Hdepth)
    as (t' & out & a' & k & Hrun' & Hall & Hout).
  rewrite Hrun' in Hrun. injection Hrun as -> -> <-.
  destruct Hout as [Hpure Hcount].
  assert (Arena.allocate_all (Arena.new base size) (replicate (S k) node_size)
          = Some a') as Hall'.
  { cbn [replicate Arena.allocate_all]. by rewrite Ha. }
  destruct (allocate_all_replicate_used node_size (S k) Hns Hns63
              (Arena.new base size) a') as (Ho & Hwf & _); try done.
  { unfold Arena.well_formed, Arena.new.
    cbn [Arena.offset Arena.memory Arena.capacity]. lia. }
  exists a'. split; [done|]. split; [done|].
  unfold Arena.get_used_memory, Arena.get_capacity. split.
  - rewrite Ho, Hcount. cbn [Arena.new Arena.offset node_count empty]. lia.
  - unfold Arena.well_formed in Hwf. lia.
Qed.

Lemma nodes_account_for_the_arena_witness :
  BPlusTree_in 100 (Some (Arena.new 0 384))
  = (Returned empty, Some (Arena.mk 0 128 384))
  ∧ ∃ a,
      insert_all_in 100 4 (Some (Arena.mk 0 128 384)) empty
        [(10, 1); (20, 2); (5, 3); (6, 4)]%Z
      = Some ((Internal 1 [10]
                 [Leaf 2 [5; 6; 10; 20] [3; 4; 1; 2]; Leaf 2 [10; 20] [1; 2]])%Z,
              Returned (), Some a)
      ∧ Arena.get_used_memory a = 384%Z.
Proof.
  split; [vm_compute; reflexivity|].
  destruct (nodes_account_for_the_arena 100 4 0 384
              [(10, 1); (20, 2); (5, 3); (6, 4)]%Z empty
              (Some (Arena.mk 0 128 384))
              (Internal 1 [10]
                 [Leaf 2 [5; 6; 10; 20] [3; 4; 1; 2]; Leaf 2 [10; 20] [1; 2]])%Z
              (Some (Arena.mk 0 384 384)))
    as (a & Hg & _ & Hused & _).
  - lia.
  - lia.
  - lia.
  - vm_compute. reflexivity.
  - lia.
  - vm_compute. reflexivity.
  - vm_compute. reflexivity.
  - vm_compute. reflexivity.
  - exists a. injection Hg as <-. split; vm_compute; reflexivity.
Defined.

(** X13: an [insert] takes at most [h + 2] nodes from the arena, [h] the
    depth of the leaves: when the arena has room for that many, no
    allocation throws, the tree is the one [insert] builds, and the bytes
    in use grow by the rounded node size for every node the tree gained. *)
Theorem insert_with_room_returns (node_size : Z) (M : nat) (a : Arena.t)
    (t : Node) (h : nat) (key value : Z) :
  2 ≤ M → (Z.of_nat M < 65536)%Z →
  (0 ≤ node_size)%Z → (node_size + 63 < Arena.size_max)%Z →
  Arena.well_formed a →
  roomb M t = true → depthb h t = true →
  (Arena.offset a + Z.of_nat (h + 2) * round_up_64 node_size
   ≤ Arena.capacity a)%Z →
  ∃ t' a' k,
    insert_in node_size M (Some a) t key value = Some (t', Returned (), Some a')
    ∧ insert M t key value = Some t'
    ∧ k ≤ h + 2 ∧ node_count t' = node_count t + k
    ∧ Arena.get_used_memory a'
      = (Arena.get_used_memory a + Z.of_nat k * round_up_64 node_size)%Z.
Proof.
  intros HM2 HM16 Hns Hns63 Hwf Hroom Hdepth Hfits.
  pose proof (round_up_64_bounds node_size) as (_ & Hlo & _).
  pose proof Hwf as Hwf0. unfold Arena.well_formed in Hwf0.
  destruct (insert_in_spec node_size M HM2 HM16 key value t h a Hroom Hdepth)
    as (t' & out & a' & k & Hin & Hall & Hout).
  assert (k ≤ h + 2) as Hk by (destruct out; lia).
  destruct (allocate_all_used (replicate k node_size) a a' Hwf)
    as [Hused Hwf']; [|rewrite rounded_total_replicate; nia|done|].
  { apply Forall_replicate. done. }
  rewrite rounded_total_replicate in Hused.
  destruct (allocate_all_frame _ a a' Hall) as [_ Hc].
  destruct out as [[]|e].
  - destruct Hout as (_ & Hpure & Hcount). by exists t', a', k.
  - destruct Hout as (Hk' & _ & Hfail & _). exfalso.
    unfold Arena.get_used_memory in Hused.
    rewrite allocate_with_room in Hfail; try done. rewrite Hused, Hc. nia.
Qed.

Lemma insert_with_room_returns_witness :
  ∃ t' a',
    insert_in 100 4 (Some (Arena.mk 0 128 384)) (Leaf 3 [5; 10; 20] [3; 1; 2])%Z
      6 4 = Some (t', Returned (), Some a')
    ∧ node_count t' = 3 ∧ Arena.get_used_memory a' = 384%Z.
Proof.
  destruct (insert_with_room_returns 100 4 (Arena.mk 0 128 384)
              (Leaf 3 [5; 10; 20] [3; 1; 2])%Z 0 6 4)
    as (t' & a' & k & Hin & _ & _ & Hcount & Hused).
  - lia.
  - lia.
  - lia.
  - vm_compute. reflexivity.
  - vm_compute. split; [split|]; (done || congruence).
  - reflexivity.
  - reflexivity.
  - vm_compute. congruence.
  - exists t', a'. split; [done|].
    vm_compute in Hin. injection Hin as <- <-. split; reflexivity.
Defined.

(** X14: [insert] when no node can be had, the global arena being null or
    full: the pair goes into its leaf all the same.  If the leaf stays
    below capacity the call returns as it does with memory at hand; if
    not, the call throws and leaves the leaf with [M] pairs, and the next
    [insert] of that key writes behind the arrays of the leaf. *)
Theorem insert_without_memory (node_size : Z) (M : nat) (g : option Arena.t)
    (e : Error) (t : Node) (key value : Z) :
  2 ≤ M → (Z.of_nat M < 65536)%Z →
  operator_new node_size g = (Threw e, g) →
  roomb M t = true →
  ∃ t' out,
    insert_in node_size M g t key value = Some (t', out, g)
    ∧ node_count t' = node_count t
    ∧ (∀ p, p ∈ leaf_pairs t' ↔ p = (key, value) ∨ p ∈ leaf_pairs t)
    ∧ match out with
      | Returned _ => insert M t key value = Some t'
      | Threw e' =>
          e' = e ∧ roomb M t' = false
          ∧ ∀ value' g',
              insert M t' key value' = None
              ∧ insert_in node_size M g' t' key value' = None
      end.
Proof.
  intros HM2 HM16 Hnone Hroom.
  destruct (insert_recursive_in_exhausted node_size M HM2 HM16 g e Hnone
              key value t Hroom) as (t' & out & Hrec & Hcount & Hp & Hout).
  unfold insert_in, insert. rewrite Hrec. cbn [mbind option_bind].
  destruct out as [sp|e'].
  - destruct Hout as [-> Hpure]. rewrite Hpure. cbn [mbind option_bind].
    by exists t', (Returned ()).
  - destruct Hout as (-> & Hfull & Hretry).
    exists t', (Threw e). do 3 (split; [done|]). split; [done|].
    split; [done|]. intros value' g'. destruct (Hretry value') as [Hr1 Hr2].
    unfold insert_in, insert. by rewrite Hr1, Hr2.
Qed.

Lemma insert_without_memory_witness :
  ∃ t',
    insert_in 100 4 (Some (Arena.mk 0 128 128)) (Leaf 3 [5; 10; 20] [3; 1; 2])%Z
      6 4
    = Some (t', Threw ArenaOutOfMemory, Some (Arena.mk 0 128 128))
    ∧ roomb 4 t' = false
    ∧ insert 4 t' 6 7 = None.
Proof.
  destruct (insert_without_memory 100 4 (Some (Arena.mk 0 128 128))
              ArenaOutOfMemory (Leaf 3 [5; 10; 20] [3; 1; 2])%Z 6 4)
    as (t' & out & Hin & _ & _ & Hout).
  - lia.
  - lia.
  - vm_compute. reflexivity.
  - reflexivity.
  - exists t'. destruct out as [[]|e'].
    + vm_compute in Hin. discriminate Hin.
    + destruct Hout as (-> & Hfull & Hretry). split; [done|].
      split; [done|]. apply (Hretry 7%Z None).
Defined.

(** * Further properties of runs of inserts with repeated keys *)

(** ** The pairs an insert keeps *)

Lemma opened_live_eq {A} (i n : nat) (x : A) (a a' : list A) :
  i ≤ n → n ≤ length a → n + 1 ≤ length a' → opened i n x a a' →
  live (n + 1) a' = take i (live n a) ++ x :: drop i (live n a).
Proof.
  intros Hi Ha Ha' Hop.
  apply (opened_eq i n x (live n a) (live (n + 1) a')); try done.
  - by apply length_live.
  - by apply length_live.
  - intros j. unfold live. destruct (decide (j < n + 1)) as [Hj|Hj].
    + rewrite lookup_take_lt, (Hop j) by done.
      destruct (decide (j = i)); [done|].
      destruct (decide (i < j ≤ n)); by rewrite lookup_take_lt by lia.
    + rewrite lookup_take_ge by lia.
      rewrite decide_False, decide_False by lia.
      by rewrite lookup_take_ge by lia.
Qed.

Lemma leaf_pairs_opened (i n : nat) (key value : Z) (ks ks' vs vs' : list Z) :
  i ≤ n → n ≤ length ks → n ≤ length vs →
  n + 1 ≤ length ks' → n + 1 ≤ length vs' →
  opened i n key ks ks' → opened i n value vs vs' →
  leaf_pairs (Leaf (n + 1) ks' vs') ≡ₚ (key, value) :: leaf_pairs (Leaf n ks vs).
Proof.
  intros Hi Hks Hvs Hks' Hvs' Hkop Hvop. cbn [leaf_pairs].
  rewrite (opened_live_eq i n key ks ks'), (opened_live_eq i n value vs vs')
    by done.
  rewrite zip_with_app by (unfold live; rewrite !length_take; lia).
  cbn [zip_with]. rewrite <- Permutation_middle. f_equiv.
  rewrite <- zip_with_app by (unfold live; rewrite !length_take; lia).
  by rewrite !take_drop.
Qed.

Lemma leaf_pairs_split_leaf (M : nat) (ks vs : list Z) :
  length ks = M → length vs = M →
  leaf_pairs (Leaf (M / 2) ks vs)
  ++ leaf_pairs (Leaf (M - M / 2) (drop (M / 2) ks) (drop (M / 2) vs))
  = leaf_pairs (Leaf M ks vs).
Proof.
  intros Hks Hvs. cbn [leaf_pairs]. unfold live.
  rewrite (take_ge (drop _ ks)), (take_ge (drop _ vs))
    by (rewrite length_drop; lia).
  rewrite (take_ge ks M), (take_ge vs M) by lia.
  rewrite <- zip_with_app by (rewrite !length_take; lia).
  by rewrite !take_drop.
Qed.

Lemma leaf_pairs_split_internal (n1 n2 n m : nat) (ks1 ks2 ks : list Z)
    (cs : list Node) :
  leaf_pairs (Internal n1 ks1 (take m cs))
  ++ leaf_pairs (Internal n2 ks2 (drop m cs))
  = leaf_pairs (Internal n ks cs).
Proof. cbn [leaf_pairs]. by rewrite <- concat_app, <- map_app, take_drop. Qed.

Lemma leaf_pairs_insert_child (n : nat) (ks : list Z) (cs : list Node)
    (i : nat) (c c' : Node) (extra : list (Z * Z)) (p : Z * Z) :
  cs !! i = Some c →
  leaf_pairs c' ++ extra ≡ₚ p :: leaf_pairs c →
  leaf_pairs (Internal n ks (<[i := c']> cs)) ++ extra
  ≡ₚ p :: leaf_pairs (Internal n ks cs).
Proof.
  intros Hc Hperm. cbn [leaf_pairs].
  rewrite insert_take_drop by (by eapply lookup_lt_Some).
  rewrite <- (take_drop_middle cs i c Hc) at 3.
  rewrite !map_app, !concat_app. cbn [map concat].
  rewrite <- !app_assoc. rewrite (Permutation_app_comm _ extra).
  rewrite !app_assoc. rewrite <- (app_assoc _ (leaf_pairs c') extra), Hperm.
  rewrite <- !app_assoc. cbn [app]. by rewrite <- Permutation_middle.
Qed.

Section PairsKept.

Variable M : nat.
Hypothesis HM2 : 2 ≤ M.
Hypothesis HM16 : (Z.of_nat M < 65536)%Z.

(** [insert_recursive] adds the pair and keeps every pair there was, also
    a pair of the same key. *)
Lemma insert_recursive_pairs (key value : Z) (t : Node) :
  ∀ h,
    roomb M t = true → depthb h t = true →
    ∃ t' sp,
      insert_recursive M t key value = Some (t', sp)
      ∧ leaf_pairs t'
        ++ match sp with Some (s, _) => leaf_pairs s | None => [] end
        ≡ₚ (key, value) :: leaf_pairs t.
Proof.
  pose proof (half_bounds M HM2) as (Hh1 & Hh2 & Hh3).
  induction t as [n ks vs|n ks cs IH] using Node_ind; intros h Hroom Hdepth.
  - apply roomb_leaf_iff in Hroom as (Hn & Hks & HksM & Hvs & HvsM).
    destruct (insert_leaf_in_eq 0 M HM2 HM16 n ks vs key value)
      as (i & ks' & vs' & Hi & Hkop & Hvop & Hkl & Hvl & -> & _); [done..|].
    pose proof (leaf_pairs_opened i n key value ks ks' vs vs' Hi Hks Hvs
                  ltac:(lia) ltac:(lia) Hkop Hvop) as Hp.
    destruct (decide (n + 1 = M)) as [HnM|HnM].
    + destruct (split_leaf_spec M HM2 HM16 ks' vs') as (median & _ & ->);
        [lia..|].
      cbn [mbind option_bind]. eexists _, _. split; [done|].
      cbv beta iota. rewrite leaf_pairs_split_leaf by lia. by rewrite <- HnM.
    + eexists _, _. split; [done|]. by rewrite app_nil_r.
  - apply roomb_internal_iff in Hroom as (Hn & Hks & HksM & Hcs & Hall).
    apply depthb_internal_iff in Hdepth as (h' & -> & Hdeep).
    destruct (scan_gtb_spec key ks n Hks) as (i & Hscan & Hi & _).
    destruct (lookup_lt_is_Some_2 cs i) as [c Hc]; [lia|].
    destruct (Forall_lookup_child _ _ _ IH Hc h') as (c' & sp & Hrec & Hp);
      [by eapply forallb_lookup..|].
    cbn [insert_recursive]. rewrite Hscan. cbn [mbind option_bind].
    rewrite at_index_lookup, Hc. cbn [mbind option_bind].
    rewrite Hrec. cbn [mbind option_bind].
    pose proof (leaf_pairs_insert_child n ks cs i c c' _ _ Hc Hp) as Hp0.
    destruct sp as [[sibling median]|].
    + destruct (open_slot_opened M n i ks median)
        as (ks1 & ks2 & -> & Hk2 & Hkl & _); [lia..|].
      destruct (open_slot_opened (M + 1) (n + 1) (i + 1) (<[i := c']> cs)
                  sibling) as (cs1 & cs2 & -> & Hc2 & Hcl & Hcop);
        [lia|rewrite length_insert; lia|lia|].
      rewrite length_insert in Hcl.
      cbn [mbind option_bind]. rewrite Hk2. cbn [mbind option_bind].
      rewrite Hc2. cbn [mbind option_bind].
      rewrite u16_small by lia.
      replace (Z.to_nat (Z.of_nat n + 1)) with (n + 1) by lia.
      assert (∀ n2 ks2', leaf_pairs (Internal n2 ks2' cs2)
                         ≡ₚ (key, value) :: leaf_pairs (Internal n ks cs))
        as Hbig.
      { intros n2 ks2'. rewrite <- Hp0. cbn [leaf_pairs].
        rewrite (opened_eq (i + 1) (n + 1) sibling (<[i := c']> cs) cs2)
          by (done || lia || (rewrite length_insert; lia)).
        rewrite <- (take_drop (i + 1) (<[i := c']> cs)) at 3.
        rewrite !map_app, !concat_app. cbn [map concat].
        rewrite <- !app_assoc. f_equiv. apply Permutation_app_comm. }
      destruct (decide (n + 1 = M)) as [HnM|HnM].
      * replace (M <=? n + 1) with true by (symmetry; apply Nat.leb_le; lia).
        rewrite HnM.
        destruct (split_internal_spec M HM2 HM16 ks2 cs2) as (med' & _ & ->);
          [lia..|].
        cbn [mbind option_bind]. eexists _, _. split; [done|].
        cbv beta iota.
        by rewrite (leaf_pairs_split_internal _ _ M _ _ _ ks2 cs2).
      * destruct (M <=? n + 1) eqn:E; [apply Nat.leb_le in E; lia|].
        eexists _, _. split; [done|]. by rewrite app_nil_r.
    + eexists _, _. split; [done|]. done.
Qed.

Lemma insert_pairs (key value : Z) (t : Node) (h : nat) :
  roomb M t = true → depthb h t = true →
  ∃ t', insert M t key value = Some t'
        ∧ leaf_pairs t' ≡ₚ (key, value) :: leaf_pairs t.
Proof.
  intros Hroom Hdepth.
  destruct (insert_recursive_pairs key value t h Hroom Hdepth)
    as (t' & sp & Hrec & Hp).
  unfold insert. rewrite Hrec. cbn [mbind option_bind].
  destruct sp as [[new_child median]|].
  - unfold Arr.wr. cbn [length].
    destruct (M <=? 0) eqn:E0; [apply Nat.leb_le in E0; lia|].
    destruct (M + 1 <=? 0) eqn:E1; [apply Nat.leb_le in E1; lia|].
    destruct (M + 1 <=? 1) eqn:E2; [apply Nat.leb_le in E2; lia|].
    cbn. eexists. split; [done|]. cbv beta iota in Hp.
    cbn [leaf_pairs map concat]. by rewrite app_nil_r.
  - exists t'. split; [done|]. by rewrite app_nil_r in Hp.
Qed.

Lemma insert_all_pairs (kvs : list (Z * Z)) :
  ∀ t h,
    roomb M t = true → depthb h t = true →
    ∃ t', insert_all M t kvs = Some t'
          ∧ leaf_pairs t' ≡ₚ kvs ++ leaf_pairs t.
Proof.
  induction kvs as [|[k v] kvs IH]; intros t h Hroom Hdepth.
  - by exists t.
  - destruct (insert_spec M HM2 HM16 k v t h Hroom Hdepth)
      as (t1 & h1 & Hins & Hr1 & Hd1 & _).
    destruct (insert_pairs k v t h Hroom Hdepth) as (t1' & Hins' & Hp1).
    rewrite Hins in Hins'. injection Hins' as <-.
    destruct (IH t1 h1 Hr1 Hd1) as (t' & Hrun & Hp).
    exists t'. cbn [insert_all]. rewrite Hins. cbn [mbind option_bind].
    split; [done|]. rewrite Hp, Hp1. cbn [app].
    by rewrite <- Permutation_middle.
Qed.

End PairsKept.

(** ** Order with repeated keys *)

Lemma nondecreasingb_intro (l : list Z) :
  (∀ j1 j2 k1 k2,
     j1 < j2 → l !! j1 = Some k1 → l !! j2 = Some k2 → (k1 ≤ k2)%Z) →
  nondecreasingb l = true.
Proof.
  induction l as [|a [|b l] IH]; intros H; [done..|].
  cbn [nondecreasingb]. apply andb_true_intro. split.
  - apply Z.leb_le. by apply (H 0 1); [lia|..].
  - apply IH. intros j1 j2 k1 k2 Hlt H1 H2. by apply (H (S j1) (S j2)); [lia|..].
Qed.

Lemma nondecreasingb_le (l : list Z) :
  nondecreasingb l = true →
  ∀ j1 j2 k1 k2,
    j1 ≤ j2 → l !! j1 = Some k1 → l !! j2 = Some k2 → (k1 ≤ k2)%Z.
Proof.
  induction l as [|a l IH]; intros Hs j1 j2 k1 k2 Hj H1 H2; [done|].
  assert (nondecreasingb l = true ∧ ∀ b, l !! 0 = Some b → (a ≤ b)%Z)
    as [Hs' Hhd].
  { destruct l as [|b l]; [done|]. cbn [nondecreasingb] in Hs.
    apply andb_prop in Hs as [Hab Hs]. apply Z.leb_le in Hab.
    split; [done|]. by intros ? [= <-]. }
  assert (∀ j k, l !! j = Some k → (a ≤ k)%Z) as Hall.
  { intros j k Hk. destruct (lookup_lt_is_Some_2 l 0) as [b Hb].
    { apply lookup_lt_Some in Hk. lia. }
    pose proof (Hhd b Hb). pose proof (IH Hs' 0 j b k ltac:(lia) Hb Hk). lia. }
  destruct j1 as [|j1], j2 as [|j2]; simplify_eq/=; try lia.
  - by apply (Hall j2).
  - by apply (IH Hs' j1 j2); [lia|..].
Qed.

Lemma nondecreasing_live_intro (n : nat) (ks : list Z) :
  (∀ j1 j2 k1 k2,
     j1 < j2 → j2 < n → ks !! j1 = Some k1 → ks !! j2 = Some k2 → (k1 ≤ k2)%Z) →
  nondecreasingb (live n ks) = true.
Proof.
  intros H. apply nondecreasingb_intro. intros j1 j2 k1 k2 Hlt H1 H2.
  apply lookup_take_Some in H1 as [H1 ?]. apply lookup_take_Some in H2 as [H2 ?].
  by apply (H j1 j2).
Qed.

Lemma nondecreasing_live_elim (n : nat) (ks : list Z) :
  nondecreasingb (live n ks) = true →
  ∀ j1 j2 k1 k2,
    j1 ≤ j2 → j2 < n → ks !! j1 = Some k1 → ks !! j2 = Some k2 → (k1 ≤ k2)%Z.
Proof.
  intros H j1 j2 k1 k2 Hlt Hn H1 H2.
  apply (nondecreasingb_le _ H j1 j2); [done|..]; by rewrite lookup_live by lia.
Qed.

Lemma boundedb_elim (n : nat) (ks : list Z) (cs : list Node) :
  boundedb (Internal n ks cs) = true →
  forallb boundedb cs = true
  ∧ ∀ i k,
      i < n → ks !! i = Some k →
      (∀ l x, cs !! i = Some l → x ∈ keys_of l → (x ≤ k)%Z)
      ∧ (∀ r x, cs !! S i = Some r → x ∈ keys_of r → (k ≤ x)%Z).
Proof.
  cbn [boundedb]. intros [Hall Hsep]%andb_prop. split; [done|].
  intros i k Hi Hk. rewrite forallb_forall in Hsep.
  specialize (Hsep i). rewrite in_seq in Hsep. specialize (Hsep ltac:(lia)).
  rewrite Hk in Hsep.
  destruct (cs !! i) as [l|], (cs !! S i) as [r|]; try done.
  apply andb_prop in Hsep as [Hl Hr]. rewrite forallb_forall in Hl, Hr.
  split.
  - intros ? x [= <-] Hx. apply Z.leb_le, Hl. by apply list_elem_of_In.
  - intros ? x [= <-] Hx. apply Z.leb_le, Hr. by apply list_elem_of_In.
Qed.

Lemma boundedb_intro (n : nat) (ks : list Z) (cs : list Node) :
  n ≤ length ks → length cs = n + 1 →
  forallb boundedb cs = true →
  (∀ i k l x,
     i < n → ks !! i = Some k → cs !! i = Some l → x ∈ keys_of l → (x ≤ k)%Z) →
  (∀ i k r x,
     i < n → ks !! i = Some k → cs !! S i = Some r → x ∈ keys_of r → (k ≤ x)%Z) →
  boundedb (Internal n ks cs) = true.
Proof.
  intros Hks Hcs Hall Hleft Hright. cbn [boundedb].
  apply andb_true_intro. split; [done|]. apply forallb_forall.
  intros i [_ Hi]%in_seq.
  destruct (lookup_lt_is_Some_2 ks i) as [k Hk]; [lia|].
  destruct (lookup_lt_is_Some_2 cs i) as [l Hl]; [lia|].
  destruct (lookup_lt_is_Some_2 cs (S i)) as [r Hr]; [lia|].
  rewrite Hk, Hl, Hr. apply andb_true_intro. split; apply forallb_forall.
  - intros x Hx%list_elem_of_In. apply Z.leb_le. by eapply Hleft.
  - intros x Hx%list_elem_of_In. apply Z.leb_le. by eapply Hright.
Qed.

Lemma existsb_key (k : Z) (l : list (Z * Z)) :
  existsb (λ p, (p.1 =? k)%Z) l = true ↔ k ∈ l.*1.
Proof.
  rewrite existsb_exists, list_elem_of_fmap. split.
  - intros (p & Hp & Heq). apply Z.eqb_eq in Heq. exists p.
    split; [done|]. by apply list_elem_of_In.
  - intros (p & -> & Hp). exists p. split; [by apply list_elem_of_In|].
    apply Z.eqb_refl.
Qed.

Lemma anchoredb_elim (n : nat) (ks : list Z) (cs : list Node) :
  anchoredb (Internal n ks cs) = true →
  forallb anchoredb cs = true
  ∧ ∀ i k r,
      i < n → ks !! i = Some k → cs !! S i = Some r → k ∈ (leaf_pairs r).*1.
Proof.
  cbn [anchoredb]. intros [Hall Hsep]%andb_prop. split; [done|].
  intros i k r Hi Hk Hr. rewrite forallb_forall in Hsep.
  specialize (Hsep i). rewrite in_seq in Hsep. specialize (Hsep ltac:(lia)).
  rewrite Hk, Hr in Hsep. by apply existsb_key.
Qed.

Lemma anchoredb_intro (n : nat) (ks : list Z) (cs : list Node) :
  n ≤ length ks → length cs = n + 1 →
  forallb anchoredb cs = true →
  (∀ i k r,
     i < n → ks !! i = Some k → cs !! S i = Some r → k ∈ (leaf_pairs r).*1) →
  anchoredb (Internal n ks cs) = true.
Proof.
  intros Hks Hcs Hall Hanch. cbn [anchoredb].
  apply andb_true_intro. split; [done|]. apply forallb_forall.
  intros i [_ Hi]%in_seq.
  destruct (lookup_lt_is_Some_2 ks i) as [k Hk]; [lia|].
  destruct (lookup_lt_is_Some_2 cs (S i)) as [r Hr]; [lia|].
  rewrite Hk, Hr. apply existsb_key. by eapply Hanch.
Qed.

Lemma fullb_children (t : Node) : fullb t = true → children_full t = true.
Proof. by destruct t. Qed.

(** A tree all of whose leaves hold a pair stores a pair. *)
Lemma fullb_inhabited (t : Node) :
  shapeb t = true → fullb t = true → ∃ p, p ∈ leaf_pairs t.
Proof.
  induction t as [n ks vs|n ks cs IH] using Node_ind; intros Hshape Hfull.
  - cbn [shapeb] in Hshape. bools. cbn [fullb] in Hfull. bools.
    destruct (lookup_lt_is_Some_2 ks 0) as [k Hk]; [lia|].
    destruct (lookup_lt_is_Some_2 vs 0) as [v Hv]; [lia|].
    exists (k, v). apply elem_of_pairs_leaf. by exists 0.
  - cbn [shapeb] in Hshape. bools. cbn [fullb] in Hfull.
    destruct (lookup_lt_is_Some_2 cs 0) as [c Hc]; [lia|].
    destruct (Forall_lookup_child _ _ _ IH Hc) as [p Hp];
      [by eapply forallb_lookup..|].
    exists p. apply elem_of_pairs_internal. by exists 0, c.
Qed.

Lemma opened_nondecreasing (i n : nat) (key : Z) (ks ks' : list Z) :
  i ≤ n → nondecreasingb (live n ks) = true → opened i n key ks ks' →
  (∀ j k, j < i → ks !! j = Some k → (k ≤ key)%Z) →
  (∀ j k, i ≤ j < n → ks !! j = Some k → (key ≤ k)%Z) →
  nondecreasingb (live (n + 1) ks') = true.
Proof.
  intros Hi Hasc Hop HA HB. apply nondecreasing_live_intro.
  intros j1 j2 k1 k2 Hlt Hn H1 H2. rewrite (Hop j1) in H1. rewrite (Hop j2) in H2.
  repeat case_decide; simplify_eq;
    first
      [ lia
      | eapply HA; [|eassumption]; lia
      | eapply HB; [|eassumption]; lia
      | eapply (nondecreasing_live_elim _ _ Hasc); [| |eassumption|eassumption];
        lia ].
Qed.

(** ** Splits and separators with repeated keys *)

Lemma elem_of_leaf_keys_internal (n : nat) (ks : list Z) (cs : list Node) (k : Z) :
  k ∈ (leaf_pairs (Internal n ks cs)).*1
  ↔ ∃ j c, cs !! j = Some c ∧ k ∈ (leaf_pairs c).*1.
Proof.
  rewrite list_elem_of_fmap. split.
  - intros (p & -> & (j & c & Hc & Hp)%elem_of_pairs_internal).
    exists j, c. split; [done|]. by apply list_elem_of_fmap_2.
  - intros (j & c & Hc & (p & -> & Hp)%list_elem_of_fmap).
    exists p. split; [done|]. apply elem_of_pairs_internal. by exists j, c.
Qed.

Section SplitWeak.

Variable M : nat.
Hypothesis HM2 : 2 ≤ M.

Lemma split_leaf_whalves (ks vs : list Z) (median : Z) :
  length ks = M → length vs = M →
  nondecreasingb (live M ks) = true → ks !! (M / 2) = Some median →
  whalves (Leaf M ks vs) (Leaf (M / 2) ks vs)
    (Leaf (M - M / 2) (drop (M / 2) ks) (drop (M / 2) vs)) median.
Proof.
  intros Hks Hvs Hasc Hmed. pose proof (half_bounds M HM2) as (Hh1 & Hh2 & Hh3).
  set (m := M / 2) in *. unfold whalves, grown.
  cbn [sortedb boundedb anchoredb fullb keys_of].
  split; [|split; [|split; [|split; [|split; [|split; [|split]]]]]].
  - split; [|split; [done|split; [done|by apply Nat.ltb_lt]]].
    apply nondecreasing_live_intro. intros j1 j2 k1 k2 Hlt Hj H1 H2.
    apply (nondecreasing_live_elim M ks Hasc j1 j2); (done || lia).
  - split; [|split; [done|split; [done|apply Nat.ltb_lt; lia]]].
    apply nondecreasing_live_intro. intros j1 j2 k1 k2 Hlt Hj H1 H2.
    rewrite lookup_drop in H1, H2.
    apply (nondecreasing_live_elim M ks Hasc (m + j1) (m + j2)); (done || lia).
  - intros x (j & Hj & Hx)%elem_of_live. apply elem_of_live.
    exists j. split; [lia|done].
  - intros x (j & Hj & Hx)%elem_of_live. apply elem_of_live.
    rewrite lookup_drop in Hx. exists (m + j). split; [lia|done].
  - apply elem_of_live. exists m. split; [lia|done].
  - intros x (j & Hj & Hx)%elem_of_live.
    apply (nondecreasing_live_elim M ks Hasc j m); (done || lia).
  - intros x (j & Hj & Hx)%elem_of_live. rewrite lookup_drop in Hx.
    apply (nondecreasing_live_elim M ks Hasc m (m + j)); (done || lia).
  - destruct (lookup_lt_is_Some_2 vs m) as [v Hv]; [lia|].
    apply list_elem_of_fmap. exists (median, v). split; [done|].
    apply elem_of_pairs_leaf. exists 0. rewrite !lookup_drop, Nat.add_0_r.
    split; [lia|done].
Qed.

Lemma split_internal_whalves (ks : list Z) (cs : list Node) (median : Z) :
  length ks = M → length cs = M + 1 →
  grown (Internal M ks cs) →
  ks !! (M / 2) = Some median →
  whalves (Internal M ks cs) (Internal (M / 2) ks (take (M / 2 + 1) cs))
    (Internal (M - M / 2 - 1) (drop (M / 2 + 1) ks) (drop (M / 2 + 1) cs))
    median.
Proof.
  intros Hks Hcs (Hord & Hsep & Hanc & Hfull) Hmed.
  pose proof (half_bounds M HM2) as (Hh1 & Hh2 & Hh3).
  set (m := M / 2) in *.
  cbn [sortedb] in Hord. apply andb_prop in Hord as [Hasc Hords].
  apply boundedb_elim in Hsep as [Hseps Hsp].
  apply anchoredb_elim in Hanc as [Hancs Han].
  cbn [fullb] in Hfull.
  unfold whalves, grown.
  split; [|split; [|split; [|split; [|split; [|split; [|split]]]]]].
  - split; [|split; [|split]].
    + cbn [sortedb]. apply andb_true_intro. split; [|by apply forallb_take].
      apply nondecreasing_live_intro. intros j1 j2 k1 k2 Hlt Hj H1 H2.
      apply (nondecreasing_live_elim M ks Hasc j1 j2); (done || lia).
    + apply boundedb_intro;
        [lia|rewrite length_take; lia|by apply forallb_take|..].
      * intros i k l x Hi Hk [Hl _]%lookup_take_Some Hx.
        destruct (Hsp i k ltac:(lia) Hk) as [Hleft _]. by apply (Hleft l x).
      * intros i k r x Hi Hk [Hr _]%lookup_take_Some Hx.
        destruct (Hsp i k ltac:(lia) Hk) as [_ Hright]. by apply (Hright r x).
    + apply anchoredb_intro;
        [lia|rewrite length_take; lia|by apply forallb_take|].
      intros i k r Hi Hk [Hr _]%lookup_take_Some.
      apply (Han i k r); (done || lia).
    + cbn [fullb]. by apply forallb_take.
  - split; [|split; [|split]].
    + cbn [sortedb]. apply andb_true_intro. split; [|by apply forallb_drop].
      apply nondecreasing_live_intro. intros j1 j2 k1 k2 Hlt Hj H1 H2.
      rewrite lookup_drop in H1, H2.
      apply (nondecreasing_live_elim M ks Hasc (m + 1 + j1) (m + 1 + j2));
        (done || lia).
    + apply boundedb_intro;
        [rewrite length_drop; lia|rewrite length_drop; lia
        |by apply forallb_drop|..].
      * intros i k l x Hi Hk Hl Hx.
        rewrite lookup_drop in Hk. rewrite lookup_drop in Hl.
        destruct (Hsp (m + 1 + i) k ltac:(lia) Hk) as [Hleft _].
        by apply (Hleft l x).
      * intros i k r x Hi Hk Hr Hx.
        rewrite lookup_drop in Hk. rewrite lookup_drop in Hr.
        destruct (Hsp (m + 1 + i) k ltac:(lia) Hk) as [_ Hright].
        apply (Hright r x); [|done].
        by replace (S (m + 1 + i)) with (m + 1 + S i) by lia.
    + apply anchoredb_intro;
        [rewrite length_drop; lia|rewrite length_drop; lia
        |by apply forallb_drop|].
      intros i k r Hi Hk Hr.
      rewrite lookup_drop in Hk. rewrite lookup_drop in Hr.
      apply (Han (m + 1 + i) k r); [lia|done|].
      by replace (S (m + 1 + i)) with (m + 1 + S i) by lia.
    + cbn [fullb]. by apply forallb_drop.
  - intros x. rewrite !elem_of_keys_internal.
    intros [(j & Hj & Hx)|(j & c & [Hc _]%lookup_take_Some & Hx)].
    + left. exists j. split; [lia|done].
    + right. by exists j, c.
  - intros x. rewrite !elem_of_keys_internal.
    intros [(j & Hj & Hx)|(j & c & Hc & Hx)].
    + rewrite lookup_drop in Hx. left. exists (m + 1 + j). split; [lia|done].
    + rewrite lookup_drop in Hc. right. by exists (m + 1 + j), c.
  - apply elem_of_keys_internal. left. exists m. split; [lia|done].
  - intros x. rewrite elem_of_keys_internal.
    intros [(j & Hj & Hx)|(j & c & [Hc Hj]%lookup_take_Some & Hx)].
    + apply (nondecreasing_live_elim M ks Hasc j m); (done || lia).
    + destruct (lookup_lt_is_Some_2 ks j) as [kj Hkj]; [lia|].
      destruct (Hsp j kj ltac:(lia) Hkj) as [Hleft _].
      pose proof (Hleft c x Hc Hx).
      pose proof (nondecreasing_live_elim M ks Hasc j m kj median ltac:(lia)
                    ltac:(lia) Hkj Hmed). lia.
  - intros x. rewrite elem_of_keys_internal.
    intros [(j & Hj & Hx)|(j & c & Hc & Hx)].
    + rewrite lookup_drop in Hx.
      apply (nondecreasing_live_elim M ks Hasc m (m + 1 + j)); (done || lia).
    + rewrite lookup_drop in Hc. apply lookup_lt_Some in Hc as Hj.
      destruct (lookup_lt_is_Some_2 ks (m + j)) as [kq Hkq]; [lia|].
      destruct (Hsp (m + j) kq ltac:(lia) Hkq) as [_ Hright].
      replace (m + 1 + j) with (S (m + j)) in Hc by lia.
      pose proof (Hright c x Hc Hx).
      pose proof (nondecreasing_live_elim M ks Hasc m (m + j) median kq
                    ltac:(lia) ltac:(lia) Hmed Hkq). lia.
  - destruct (lookup_lt_is_Some_2 cs (S m)) as [r Hr]; [lia|].
    apply elem_of_leaf_keys_internal. exists 0, r.
    rewrite lookup_drop, Nat.add_0_r.
    replace (m + 1) with (S m) by lia. split; [done|].
    apply (Han m median r); (done || lia).
Qed.

End SplitWeak.

(** A node that took the pair in and then split. *)
Lemma whalves_post (key : Z) (t b old sibling : Node) (median : Z) :
  any_post key t b None → whalves b old sibling median →
  any_post key t old (Some (sibling, median)).
Proof.
  intros (_ & Hkeys & _) (Ho & Hs & Hko & Hks & Hmed & Hlt & Hge & Hin).
  repeat split; try done; try apply Ho; try apply Hs.
  - intros x Hx. by apply Hkeys, Hko.
  - intros x Hx. by apply Hkeys, Hks.
  - by apply Hkeys.
Qed.

Section AbsorbWeak.

Variables (key : Z) (n i : nat) (ks : list Z) (cs : list Node) (c c' : Node).

Hypothesis Hks : n ≤ length ks.
Hypothesis Hcs : length cs = n + 1.
Hypothesis Hi : i ≤ n.
Hypothesis Hc : cs !! i = Some c.
Hypothesis Hord : sortedb (Internal n ks cs) = true.
Hypothesis Hsep : boundedb (Internal n ks cs) = true.
Hypothesis Hanc : anchoredb (Internal n ks cs) = true.
Hypothesis Hfull : forallb fullb cs = true.
Hypothesis HA : ∀ j k, j < i → ks !! j = Some k → (k < key)%Z.
Hypothesis HB : ∀ j k, i ≤ j < n → ks !! j = Some k → (key ≤ k)%Z.

Lemma new_lo_weak (y : Z) :
  y = key ∨ y ∈ keys_of c → ∀ j k, j < i → ks !! j = Some k → (k ≤ y)%Z.
Proof.
  cbn [sortedb] in Hord. apply andb_prop in Hord as [Hasc _].
  apply boundedb_elim in Hsep as [_ Hsp].
  intros [->|Hy] j k Hj Hk.
  - specialize (HA j k Hj Hk). lia.
  - destruct (lookup_lt_is_Some_2 ks (i - 1)) as [k1 Hk1]; [lia|].
    destruct (Hsp (i - 1) k1 ltac:(lia) Hk1) as [_ Hright].
    replace (S (i - 1)) with i in Hright by lia.
    pose proof (Hright c y Hc Hy).
    pose proof (nondecreasing_live_elim n ks Hasc j (i - 1) k k1 ltac:(lia)
                  ltac:(lia) Hk Hk1). lia.
Qed.

Lemma new_hi_weak (y : Z) :
  y = key ∨ y ∈ keys_of c → ∀ j k, i ≤ j < n → ks !! j = Some k → (y ≤ k)%Z.
Proof.
  cbn [sortedb] in Hord. apply andb_prop in Hord as [Hasc _].
  apply boundedb_elim in Hsep as [_ Hsp].
  intros [->|Hy] j k Hj Hk.
  - by apply (HB j k).
  - destruct (lookup_lt_is_Some_2 ks i) as [ki Hki]; [lia|].
    destruct (Hsp i ki ltac:(lia) Hki) as [Hleft _].
    pose proof (Hleft c y Hc Hy).
    pose proof (nondecreasing_live_elim n ks Hasc i j ki k ltac:(lia)
                  ltac:(lia) Hki Hk). lia.
Qed.

(** The child took the pair in without splitting. *)
Lemma child_update_weak :
  any_post key c c' None →
  (∀ k, k ∈ (leaf_pairs c).*1 → k ∈ (leaf_pairs c').*1) →
  any_post key (Internal n ks cs) (Internal n ks (<[i := c']> cs)) None.
Proof.
  intros ((Ho' & Hs' & Ha' & Hf') & Hk' & _) Hsub.
  pose proof Hord as [Hasc Hords]%andb_prop.
  pose proof Hsep as [Hseps Hsp]%boundedb_elim.
  pose proof Hanc as [Hancs Han]%anchoredb_elim.
  pose proof (lookup_lt_Some _ _ _ Hc) as Hilt.
  split; [split; [|split; [|split]]|split; [|done]].
  - cbn [sortedb]. apply andb_true_intro. split; [done|].
    by apply forallb_insert.
  - apply boundedb_intro; [done|by rewrite length_insert| |..].
    + by apply forallb_insert.
    + intros i0 k l x Hi0 Hk Hl Hx. destruct (decide (i0 = i)) as [Heq|Hne].
      * rewrite Heq, list_lookup_insert_eq in Hl by done. injection Hl as <-.
        apply (new_hi_weak x (Hk' x Hx) i k); [lia|by rewrite <- Heq].
      * rewrite list_lookup_insert_ne in Hl by done.
        destruct (Hsp i0 k Hi0 Hk) as [Hleft _]. by apply (Hleft l x).
    + intros i0 k r x Hi0 Hk Hr Hx. destruct (decide (S i0 = i)) as [Heq|Hne].
      * rewrite Heq, list_lookup_insert_eq in Hr by done. injection Hr as <-.
        apply (new_lo_weak x (Hk' x Hx) i0 k); [lia|done].
      * rewrite list_lookup_insert_ne in Hr by done.
        destruct (Hsp i0 k Hi0 Hk) as [_ Hright]. by apply (Hright r x).
  - apply anchoredb_intro; [done|by rewrite length_insert| |].
    + by apply forallb_insert.
    + intros i0 k r Hi0 Hk Hr. destruct (decide (S i0 = i)) as [Heq|Hne].
      * rewrite Heq, list_lookup_insert_eq in Hr by done. injection Hr as <-.
        apply Hsub. apply (Han i0 k c); [done|done|by rewrite Heq].
      * rewrite list_lookup_insert_ne in Hr by done. by apply (Han i0 k r).
  - cbn [fullb]. by apply forallb_insert.
  - intros x. rewrite !elem_of_keys_internal.
    intros [Hx|(j & c2 & Hc2 & Hx)]; [by right; left|].
    destruct (decide (j = i)) as [Heq|Hne].
    + rewrite Heq, list_lookup_insert_eq in Hc2 by done. injection Hc2 as <-.
      destruct (Hk' x Hx) as [->|Hin]; [by left|].
      right. right. by exists i, c.
    + rewrite list_lookup_insert_ne in Hc2 by done.
      right. right. by exists j, c2.
Qed.

(** The child split and the node took in its median and its sibling. *)
Lemma absorb_weak (sibling : Node) (median : Z) (ks2 : list Z) (cs2 : list Node) :
  any_post key c c' (Some (sibling, median)) →
  (∀ k, k ∈ (leaf_pairs c).*1 →
        k ∈ (leaf_pairs c').*1 ∨ k ∈ (leaf_pairs sibling).*1) →
  (∃ p, p ∈ leaf_pairs c') →
  opened i n median ks ks2 →
  opened (i + 1) (n + 1) sibling (<[i := c']> cs) cs2 →
  n + 1 ≤ length ks2 → length cs2 = n + 2 →
  any_post key (Internal n ks cs) (Internal (n + 1) ks2 cs2) None.
Proof.
  intros ((Ho' & Hs' & Ha' & Hf') & Hk' & (Hos & Hss & Has & Hfs) & Hks' & Hmed
          & Hlt & Hge & Hmin) Hsub [p0 Hp0] Hk2 Hc2 Hkl Hcl.
  pose proof Hord as [Hasc Hords]%andb_prop.
  pose proof Hsep as [Hseps Hsp]%boundedb_elim.
  pose proof Hanc as [Hancs Han]%anchoredb_elim.
  pose proof (lookup_lt_Some _ _ _ Hc) as Hilt.
  assert (∀ j, cs2 !! j = if decide (j = i) then Some c'
                          else if decide (j = i + 1) then Some sibling
                          else if decide (i + 1 < j ≤ n + 1) then cs !! (j - 1)
                          else cs !! j) as Hcs2.
  { intros j. rewrite (Hc2 j). destruct (decide (j = i)) as [Heq|Hne].
    - rewrite decide_False, decide_False by lia.
      by rewrite Heq, list_lookup_insert_eq.
    - repeat case_decide; try lia; try done;
        by rewrite list_lookup_insert_ne by lia. }
  assert (∀ f : Node → bool,
            f c' = true → f sibling = true → forallb f cs = true →
            forallb f cs2 = true) as Hall.
  { intros f Hfc Hfs' Hf. apply forallb_intro. intros j x Hx.
    rewrite (Hcs2 j) in Hx.
    destruct (decide (j = i)); [by injection Hx as <-|].
    destruct (decide (j = i + 1)); [by injection Hx as <-|].
    destruct (decide (i + 1 < j ≤ n + 1)); by eapply forallb_lookup. }
  assert (∀ j k, j < i → ks !! j = Some k → (k ≤ median)%Z) as HA'.
  { intros j k Hj Hk. by apply (new_lo_weak median Hmed j k). }
  assert (∀ j k, i ≤ j < n → ks !! j = Some k → (median ≤ k)%Z) as HB'.
  { intros j k Hj Hk. apply (new_hi_weak median Hmed j k Hj Hk). }
  split; [split; [|split; [|split]]|split; [|done]].
  - cbn [sortedb]. apply andb_true_intro. split; [|by apply Hall].
    by apply (opened_nondecreasing i n median ks ks2).
  - apply boundedb_intro; [done|lia|by apply Hall|..].
    + intros i0 k l x Hi0 Hk Hl Hx.
      rewrite (Hk2 i0) in Hk. rewrite (Hcs2 i0) in Hl.
      destruct (decide (i0 = i)) as [Heq|Hne].
      { injection Hk as <-. injection Hl as <-. by apply Hlt. }
      destruct (decide (i < i0 ≤ n)) as [Hin|Hout].
      * destruct (decide (i0 = i + 1)) as [Heq|Hne2].
        -- injection Hl as <-.
           apply (new_hi_weak x (Hks' x Hx) (i0 - 1) k); [lia|done].
        -- rewrite decide_True in Hl by lia.
           destruct (Hsp (i0 - 1) k ltac:(lia) Hk) as [Hleft _].
           by apply (Hleft l x).
      * rewrite decide_False, decide_False in Hl by lia.
        destruct (Hsp i0 k ltac:(lia) Hk) as [Hleft _]. by apply (Hleft l x).
    + intros i0 k r x Hi0 Hk Hr Hx.
      rewrite (Hk2 i0) in Hk. rewrite (Hcs2 (S i0)) in Hr.
      destruct (decide (i0 = i)) as [Heq|Hne].
      { injection Hk as <-.
        rewrite decide_False, decide_True in Hr by lia.
        injection Hr as <-. by apply Hge. }
      destruct (decide (i < i0 ≤ n)) as [Hin|Hout].
      * rewrite decide_False, decide_False, decide_True in Hr by lia.
        destruct (Hsp (i0 - 1) k ltac:(lia) Hk) as [_ Hright].
        apply (Hright r x); [|done].
        by replace (S (i0 - 1)) with (S i0 - 1) by lia.
      * destruct (decide (S i0 = i)) as [Heq|Hne2].
        -- injection Hr as <-.
           apply (new_lo_weak x (Hk' x Hx) i0 k); [lia|done].
        -- rewrite decide_False, decide_False in Hr by lia.
           destruct (Hsp i0 k ltac:(lia) Hk) as [_ Hright].
           by apply (Hright r x).
  - apply anchoredb_intro; [done|lia|by apply Hall|].
    intros i0 k r Hi0 Hk Hr.
    rewrite (Hk2 i0) in Hk. rewrite (Hcs2 (S i0)) in Hr.
    destruct (decide (i0 = i)) as [Heq|Hne].
    { injection Hk as <-.
      rewrite decide_False, decide_True in Hr by lia.
      by injection Hr as <-. }
    destruct (decide (i < i0 ≤ n)) as [Hin|Hout].
    + rewrite decide_False, decide_False, decide_True in Hr by lia.
      apply (Han (i0 - 1) k r); [lia|done|].
      by replace (S (i0 - 1)) with (S i0 - 1) by lia.
    + destruct (decide (S i0 = i)) as [Heq|Hne2].
      * injection Hr as <-.
        assert (k ∈ (leaf_pairs c).*1) as Hkc.
        { apply (Han i0 k c); [lia|done|by rewrite Heq]. }
        destruct (Hsub k Hkc) as [Hin|Hin]; [done|].
        apply list_elem_of_fmap in Hin as (q & -> & Hq).
        pose proof (Hge q.1 (pairs_keys sibling q Hq)) as Hq1.
        pose proof (pairs_keys c' p0 Hp0) as Hp1.
        pose proof (Hlt _ Hp1) as Hp2.
        pose proof (new_lo_weak p0.1 (Hk' _ Hp1) i0 q.1 ltac:(lia) Hk) as Hp3.
        replace q.1 with p0.1 by lia. by apply list_elem_of_fmap_2.
      * rewrite decide_False, decide_False in Hr by lia.
        apply (Han i0 k r); (done || lia).
  - cbn [fullb]. by apply Hall.
  - intros x. rewrite !elem_of_keys_internal.
    assert (∀ y, y = key ∨ y ∈ keys_of c →
              y = key ∨ ((∃ j, j < n ∧ ks !! j = Some y)
                         ∨ ∃ j c2, cs !! j = Some c2 ∧ y ∈ keys_of c2)) as Hnew.
    { intros y [->|Hy]; [by left|]. right. right. by exists i, c. }
    intros [(j & Hj & Hx)|(j & c2 & Hx & Hin)].
    + rewrite (Hk2 j) in Hx.
      destruct (decide (j = i)); [injection Hx as <-; by apply Hnew|].
      destruct (decide (i < j ≤ n)).
      * right. left. exists (j - 1). split; [lia|done].
      * right. left. exists j. split; [lia|done].
    + rewrite (Hcs2 j) in Hx.
      destruct (decide (j = i)); [injection Hx as <-; by apply Hnew, Hk'|].
      destruct (decide (j = i + 1)); [injection Hx as <-; by apply Hnew, Hks'|].
      destruct (decide (i + 1 < j ≤ n + 1)).
      * right. right. by exists (j - 1), c2.
      * right. right. by exists j, c2.
Qed.

End AbsorbWeak.

(** ** Insertion of any key *)

Section InsertAny.

Variable M : nat.
Hypothesis HM2 : 2 ≤ M.
Hypothesis HM16 : (Z.of_nat M < 65536)%Z.

Lemma scan_stop_weak (key : Z) (n i : nat) (ks : list Z) :
  nondecreasingb (live n ks) = true →
  (∀ k, i < n → ks !! i = Some k → (key ≤ k)%Z) →
  ∀ j k, i ≤ j < n → ks !! j = Some k → (key ≤ k)%Z.
Proof.
  intros Hasc Hstop j k Hj Hk.
  destruct (lookup_lt_is_Some_2 ks i) as [ki Hki];
    [apply lookup_lt_Some in Hk; lia|].
  pose proof (Hstop ki ltac:(lia) Hki).
  pose proof (nondecreasing_live_elim n ks Hasc i j ki k ltac:(lia) ltac:(lia)
                Hki Hk). lia.
Qed.

Lemma insert_leaf_any (n : nat) (ks vs : list Z) (key value : Z) :
  n < M → n ≤ length ks → length ks ≤ M → n ≤ length vs → length vs ≤ M →
  nondecreasingb (live n ks) = true →
  ∃ t' sp,
    insert_recursive M (Leaf n ks vs) key value = Some (t', sp)
    ∧ any_post key (Leaf n ks vs) t' sp.
Proof.
  intros Hn Hks HksM Hvs HvsM Hasc.
  destruct (scan_gtb_stop key ks n Hks) as (i & Hscan & Hi & HA & Hstop).
  pose proof (scan_stop_weak key n i ks Hasc Hstop) as HB.
  destruct (open_slot_opened M n i ks key) as (ks1 & ks2 & Hk1 & Hk2 & Hkl & Hkop);
    [lia..|].
  destruct (open_slot_opened M n i vs value)
    as (vs1 & vs2 & Hv1 & Hv2 & Hvl & Hvop); [lia..|].
  assert (any_post key (Leaf n ks vs) (Leaf (n + 1) ks2 vs2) None) as Hbig.
  { split; [split; [|split; [done|split; [done|]]]|split; [|done]].
    - apply (opened_nondecreasing i n key ks ks2); try done.
      intros j k Hj Hk. specialize (HA j k Hj Hk). lia.
    - cbn [fullb]. apply Nat.ltb_lt. lia.
    - intros x. cbn [keys_of]. by rewrite (opened_live i n key ks ks2). }
  cbn [insert_recursive]. rewrite Hscan. cbn [mbind option_bind].
  assert ((if 0 <? i then k ← ks !! (i - 1); Some (k =? key)%Z else Some false)
          = Some false) as ->.
  { destruct (0 <? i) eqn:E; [|done]. apply Nat.ltb_lt in E.
    destruct (lookup_lt_is_Some_2 ks (i - 1)) as [k Hk]; [lia|].
    rewrite Hk. cbn [mbind option_bind]. f_equal.
    specialize (HA (i - 1) k ltac:(lia) Hk). apply Z.eqb_neq. lia. }
  cbn [mbind option_bind]. rewrite Hk1. cbn [mbind option_bind].
  rewrite Hv1. cbn [mbind option_bind]. rewrite Hk2. cbn [mbind option_bind].
  rewrite Hv2. cbn [mbind option_bind].
  rewrite u16_small by lia.
  replace (Z.to_nat (Z.of_nat n + 1)) with (n + 1) by lia.
  destruct (decide (n + 1 = M)) as [HnM|HnM].
  - replace (M <=? n + 1) with true by (symmetry; apply Nat.leb_le; lia).
    rewrite HnM in *.
    destruct (split_leaf_spec M HM2 HM16 ks2 vs2) as (median & Hmed & ->);
      [lia..|].
    cbn [mbind option_bind]. eexists _, _. split; [done|].
    apply (whalves_post key _ (Leaf M ks2 vs2)); [done|].
    apply split_leaf_whalves; try done; try lia.
    by destruct Hbig as ((Ho & _) & _).
  - destruct (M <=? n + 1) eqn:E; [apply Nat.leb_le in E; lia|].
    by eexists _, _.
Qed.

(** [insert_recursive] of any key keeps the keys of every node in
    non-decreasing order and between the separators around the node,
    every separator among the keys stored under the child to its right,
    and no leaf empty. *)
Lemma insert_recursive_any (key value : Z) (t : Node) :
  ∀ h,
    roomb M t = true → depthb h t = true →
    sortedb t = true → boundedb t = true → anchoredb t = true →
    children_full t = true →
    ∃ t' sp,
      insert_recursive M t key value = Some (t', sp)
      ∧ insert_post M h t t' sp ∧ any_post key t t' sp.
Proof.
  pose proof (half_bounds M HM2) as (Hh1 & Hh2 & Hh3).
  induction t as [n ks vs|n ks cs IH] using Node_ind;
    intros h Hroom Hdepth Hord Hsep Hanc Hfull.
  - destruct (insert_recursive_spec M HM2 HM16 key value _ h Hroom Hdepth)
      as (t0 & sp0 & Heq0 & Hpost0).
    apply roomb_leaf_iff in Hroom as (Hn & Hks & HksM & Hvs & HvsM).
    destruct (insert_leaf_any n ks vs key value) as (t' & sp & Heq & Hpost);
      try done.
    exists t', sp. rewrite Heq in Heq0. injection Heq0 as <- <-. done.
  - destruct (insert_recursive_spec M HM2 HM16 key value _ h Hroom Hdepth)
      as (t0 & sp0 & Heq0 & Hpost0).
    apply roomb_internal_iff in Hroom as (Hn & Hks & HksM & Hcs & Hall).
    apply depthb_internal_iff in Hdepth as (h' & -> & Hdeep).
    pose proof Hord as [Hasc Hords]%andb_prop.
    pose proof Hsep as [Hseps _]%boundedb_elim.
    pose proof Hanc as [Hancs _]%anchoredb_elim.
    cbn [children_full] in Hfull.
    destruct (scan_gtb_stop key ks n Hks) as (i & Hscan & Hi & HA & Hstop).
    pose proof (scan_stop_weak key n i ks Hasc Hstop) as HB.
    destruct (lookup_lt_is_Some_2 cs i) as [c Hc]; [lia|].
    assert (roomb M c = true) as Hroomc by (by eapply forallb_lookup).
    assert (depthb h' c = true) as Hdepthc by (by eapply forallb_lookup).
    destruct (Forall_lookup_child _ _ _ IH Hc h' Hroomc Hdepthc)
      as (c' & sp & Hrec & Hcpost & Hcany).
    { by eapply forallb_lookup. }
    { by eapply forallb_lookup. }
    { by eapply forallb_lookup. }
    { apply fullb_children. by eapply forallb_lookup. }
    destruct (insert_recursive_pairs M HM2 HM16 key value c h' Hroomc Hdepthc)
      as (c1 & sp1 & Hrec1 & Hperm).
    rewrite Hrec in Hrec1. injection Hrec1 as <- <-.
    assert (shapeb c' = true) as Hshape'.
    { destruct Hcpost as ((Hr' & _) & _). by apply (roomb_shapeb M c' HM16). }
    assert (∃ t' sp',
              insert_recursive M (Internal n ks cs) key value = Some (t', sp')
              ∧ any_post key (Internal n ks cs) t' sp') as Hgoal.
    { cbn [insert_recursive]. rewrite Hscan. cbn [mbind option_bind].
      rewrite at_index_lookup, Hc. cbn [mbind option_bind].
      rewrite Hrec. cbn [mbind option_bind].
      destruct sp as [[sibling median]|].
      - destruct (open_slot_opened M n i ks median)
          as (ks1 & ks2 & -> & Hk2 & Hkl & Hkop); [lia..|].
        destruct (open_slot_opened (M + 1) (n + 1) (i + 1) (<[i := c']> cs)
                    sibling) as (cs1 & cs2 & -> & Hc2 & Hcl & Hcop);
          [lia|rewrite length_insert; lia|lia|].
        rewrite length_insert in Hcl.
        cbn [mbind option_bind]. rewrite Hk2. cbn [mbind option_bind].
        rewrite Hc2. cbn [mbind option_bind].
        rewrite u16_small by lia.
        replace (Z.to_nat (Z.of_nat n + 1)) with (n + 1) by lia.
        assert (any_post key (Internal n ks cs)
                  (Internal (n + 1) ks2 cs2) None) as Hbig.
        { apply (absorb_weak key n i ks cs c c') with sibling median;
            try done; try lia.
          - intros k (p & -> & Hp)%list_elem_of_fmap.
            assert (p ∈ leaf_pairs c' ++ leaf_pairs sibling) as Hin.
            { rewrite Hperm. by apply list_elem_of_further. }
            apply elem_of_app in Hin as [Hin|Hin];
              [left|right]; by apply list_elem_of_fmap_2.
          - apply fullb_inhabited; [done|]. by destruct Hcany as ((_ & _ & _ & ?) & _). }
        destruct (decide (n + 1 = M)) as [HnM|HnM].
        + replace (M <=? n + 1) with true by (symmetry; apply Nat.leb_le; lia).
          rewrite HnM in *.
          destruct (split_internal_spec M HM2 HM16 ks2 cs2)
            as (med' & Hmed' & ->); [lia..|].
          cbn [mbind option_bind]. eexists _, _. split; [done|].
          apply (whalves_post key _ (Internal M ks2 cs2)); [done|].
          destruct Hbig as (Hg & _).
          apply split_internal_whalves; try done; lia.
        + destruct (M <=? n + 1) eqn:E; [apply Nat.leb_le in E; lia|].
          by eexists _, _.
      - eexists _, _. split; [done|].
        apply (child_update_weak key n i ks cs c c'); try done.
        intros k (p & -> & Hp)%list_elem_of_fmap.
        apply list_elem_of_fmap_2. rewrite app_nil_r in Hperm.
        rewrite Hperm. by apply list_elem_of_further. }
    destruct Hgoal as (t' & sp' & Heq & Hpost).
    exists t', sp'. rewrite Heq in Heq0. injection Heq0 as <- <-. done.
Qed.

Lemma insert_any (key value : Z) (t : Node) (h : nat) :
  roomb M t = true → depthb h t = true →
  sortedb t = true → boundedb t = true → anchoredb t = true →
  children_full t = true →
  ∃ t' h',
    insert M t key value = Some t'
    ∧ roomb M t' = true ∧ depthb h' t' = true ∧ grown t'
    ∧ (3 ≤ M → separator_in_each t = true → separator_in_each t' = true).
Proof.
  intros Hroom Hdepth Hord Hsep Hanc Hfull.
  destruct (insert_spec M HM2 HM16 key value t h Hroom Hdepth)
    as (t0 & h0 & Heq0 & Hroom0 & Hdepth0 & Hsie0).
  destruct (insert_recursive_any key value t h Hroom Hdepth Hord Hsep Hanc Hfull)
    as (t' & sp & Hrec & _ & (Ho' & Hs' & Ha' & Hf') & Hk' & Hsp).
  exists t0, h0. do 3 (split; [done|]). split; [|done].
  unfold insert in Heq0. rewrite Hrec in Heq0. cbn [mbind option_bind] in Heq0.
  destruct sp as [[new_child median]|].
  - destruct Hsp as ((Hos & Hss & Has & Hfs) & Hks & Hmed & Hlt & Hge & Hmin).
    unfold Arr.wr in Heq0. cbn [length] in Heq0.
    destruct (M <=? 0) eqn:E0; [apply Nat.leb_le in E0; lia|].
    destruct (M + 1 <=? 0) eqn:E1; [apply Nat.leb_le in E1; lia|].
    destruct (M + 1 <=? 1) eqn:E2; [apply Nat.leb_le in E2; lia|].
    cbn in Heq0. injection Heq0 as <-. change (u16 1) with 1.
    split; [|split; [|split]].
    + cbn [sortedb forallb live take nondecreasingb]. by rewrite Ho', Hos.
    + apply boundedb_intro; [done|done|cbn [forallb]; by rewrite Hs', Hss|..].
      * intros [|i] k l x Hi Hk Hl Hx; [|lia]. simplify_eq/=. by apply Hlt.
      * intros [|i] k r x Hi Hk Hr Hx; [|lia]. simplify_eq/=. by apply Hge.
    + apply anchoredb_intro; [done|done|cbn [forallb]; by rewrite Ha', Has|].
      intros [|i] k r Hi Hk Hr; [|lia]. by simplify_eq/=.
    + cbn [fullb forallb]. by rewrite Hf', Hfs.
  - injection Heq0 as <-. done.
Qed.

Lemma insert_all_any (kvs : list (Z * Z)) :
  ∀ t h,
    roomb M t = true → depthb h t = true →
    sortedb t = true → boundedb t = true → anchoredb t = true →
    children_full t = true →
    ∃ t' h',
      insert_all M t kvs = Some t'
      ∧ roomb M t' = true ∧ depthb h' t' = true
      ∧ sortedb t' = true ∧ boundedb t' = true ∧ anchoredb t' = true
      ∧ children_full t' = true
      ∧ (3 ≤ M → separator_in_each t = true → separator_in_each t' = true).
Proof.
  induction kvs as [|[k v] kvs IH];
    intros t h Hroom Hdepth Hord Hsep Hanc Hfull.
  - by exists t, h.
  - destruct (insert_any k v t h Hroom Hdepth Hord Hsep Hanc Hfull)
      as (t1 & h1 & Hins & Hr1 & Hd1 & (Ho1 & Hs1 & Ha1 & Hf1) & Hsie1).
    destruct (IH t1 h1 Hr1 Hd1 Ho1 Hs1 Ha1 (fullb_children t1 Hf1))
      as (t' & h' & Hrun & Hr' & Hd' & Ho' & Hs' & Ha' & Hf' & Hsie').
    exists t', h'. cbn [insert_all]. rewrite Hins. cbn [mbind option_bind].
    do 7 (split; [done|]). auto.
Qed.

End InsertAny.

(** ** Lookups on trees with repeated keys *)

(** A hit returns a pair that a leaf stores. *)
Lemma findLinear_hit_pairs (key val_out : Z) (t : Node) (v : Z) :
  shapeb t = true →
  findLinear t key val_out = Some (true, v) → (key, v) ∈ leaf_pairs t.
Proof.
  induction t as [n ks vs|n ks cs IH] using Node_ind; intros Hshape Hfind.
  - cbn [shapeb] in Hshape. bools. cbn [findLinear] in Hfind.
    rewrite leaf_linear_first_hit in Hfind by lia.
    destruct (first_hit _ ks n 0) as [idx|] eqn:Hf; [|done].
    apply first_hit_Some_elim in Hf as (Hr & (k & Hk & Hp) & _).
    apply Z.eqb_eq in Hp as ->.
    destruct (vs !! idx) as [v'|] eqn:Hv; [|done].
    injection Hfind as <-. apply elem_of_pairs_leaf. exists idx.
    split; [lia|done].
  - cbn [shapeb] in Hshape. bools. cbn [findLinear] in Hfind.
    rewrite scan_geb_descent_index in Hfind by lia.
    cbn [mbind option_bind] in Hfind. rewrite at_index_lookup in Hfind.
    destruct (cs !! descent_index key (live n ks)) as [c|] eqn:Hc; [|done].
    cbn [mbind option_bind] in Hfind.
    apply elem_of_pairs_internal. exists (descent_index key (live n ks)), c.
    split; [done|]. apply (Forall_lookup_child _ _ _ IH Hc); [|done].
    by eapply forallb_lookup.
Qed.

(** A stored key is stored under the child that the descent for it
    takes. *)
Lemma stored_key_descent (key : Z) (n : nat) (ks : list Z) (cs : list Node)
    (cd : Node) :
  shapeb (Internal n ks cs) = true → sortedb (Internal n ks cs) = true →
  boundedb (Internal n ks cs) = true → anchoredb (Internal n ks cs) = true →
  key ∈ (leaf_pairs (Internal n ks cs)).*1 →
  cs !! descent_index key (live n ks) = Some cd →
  key ∈ (leaf_pairs cd).*1.
Proof.
  intros Hshape Hord Hsep Hanc Hin Hcd.
  cbn [shapeb] in Hshape. bools.
  pose proof Hord as [Hasc Hords]%andb_prop.
  pose proof Hsep as [Hseps Hsp]%boundedb_elim.
  pose proof Hanc as [Hancs Han]%anchoredb_elim.
  apply elem_of_leaf_keys_internal in Hin as (j & c & Hc & Hin).
  pose proof (lookup_lt_Some _ _ _ Hc) as Hjlt.
  assert (key ∈ keys_of c) as Hkey.
  { apply list_elem_of_fmap in Hin as (p & -> & Hp). by apply pairs_keys. }
  pose proof (descent_index_spec key (live n ks)) as (Hb & Hbelow & Habove).
  rewrite length_live in Hb by lia.
  set (d := descent_index key (live n ks)) in *.
  destruct (lt_eq_lt_dec d j) as [[Hlt|Heq]|Hgt].
  - exfalso.
    destruct (lookup_lt_is_Some_2 ks d) as [kd Hkd]; [lia|].
    destruct (lookup_lt_is_Some_2 ks (j - 1)) as [kj Hkj]; [lia|].
    specialize (Habove kd). rewrite lookup_live in Habove by lia.
    specialize (Habove Hkd).
    destruct (Hsp (j - 1) kj ltac:(lia) Hkj) as [_ Hr].
    replace (S (j - 1)) with j in Hr by lia. specialize (Hr c key Hc Hkey).
    pose proof (nondecreasing_live_elim n ks Hasc d (j - 1) kd kj
                  ltac:(lia) ltac:(lia) Hkd Hkj). lia.
  - rewrite Heq in Hcd. by simplify_eq.
  - destruct (lookup_lt_is_Some_2 ks (d - 1)) as [kd Hkd]; [lia|].
    destruct (lookup_lt_is_Some_2 ks j) as [kj Hkj]; [lia|].
    specialize (Hbelow (d - 1) kd ltac:(lia)).
    rewrite lookup_live in Hbelow by lia. specialize (Hbelow Hkd).
    destruct (Hsp j kj ltac:(lia) Hkj) as [Hl _].
    specialize (Hl c key Hc Hkey).
    pose proof (nondecreasing_live_elim n ks Hasc j (d - 1) kj kd
                  ltac:(lia) ltac:(lia) Hkj Hkd).
    assert (kd = key) as <- by lia.
    apply (Han (d - 1) kd cd); [lia|done|].
    by replace (S (d - 1)) with d by lia.
Qed.

(** A key that a leaf stores is found, also when it equals separators on
    its way: the descent then goes right of them, where the separator is
    stored too. *)
Lemma stored_key_found (key val_out : Z) (t : Node) :
  shapeb t = true → sortedb t = true → boundedb t = true →
  anchoredb t = true →
  key ∈ (leaf_pairs t).*1 →
  ∃ v, findLinear t key val_out = Some (true, v).
Proof.
  induction t as [n ks vs|n ks cs IH] using Node_ind;
    intros Hshape Hord Hsep Hanc Hin.
  - cbn [shapeb] in Hshape. bools.
    apply list_elem_of_fmap in Hin as (p & -> & Hp).
    apply elem_of_pairs_leaf in Hp as (j & Hj & Hk & Hv).
    cbn [findLinear]. rewrite leaf_linear_first_hit by lia.
    destruct (first_hit _ ks n 0) as [idx|] eqn:Hf.
    + apply first_hit_Some_elim in Hf as (Hr & _ & _).
      destruct (lookup_lt_is_Some_2 vs idx) as [v Hv']; [lia|].
      exists v. by rewrite Hv'.
    + pose proof (first_hit_None_elim _ ks n 0 ltac:(lia) Hf j p.1
                    ltac:(lia) Hk) as Hp.
      apply Z.eqb_neq in Hp. done.
  - pose proof Hshape as Hshape'. cbn [shapeb] in Hshape'. bools.
    pose proof Hord as [_ Hords]%andb_prop.
    pose proof Hsep as [Hseps _]%boundedb_elim.
    pose proof Hanc as [Hancs _]%anchoredb_elim.
    pose proof (descent_index_spec key (live n ks)) as (Hb & _).
    rewrite length_live in Hb by lia.
    destruct (lookup_lt_is_Some_2 cs (descent_index key (live n ks)))
      as [cd Hcd]; [lia|].
    pose proof (stored_key_descent key n ks cs cd Hshape Hord Hsep Hanc Hin
                  Hcd) as Hind.
    cbn [findLinear]. rewrite scan_geb_descent_index by lia.
    cbn [mbind option_bind]. rewrite at_index_lookup, Hcd.
    cbn [mbind option_bind].
    apply (Forall_lookup_child _ _ _ IH Hcd); try done;
      by eapply forallb_lookup.
Qed.

Lemma binary_leaf_sorted (key val_out : Z) (n : nat) (ks vs : list Z) :
  n ≤ length ks → n ≤ length vs → nondecreasingb (live n ks) = true →
  findBinary (Leaf n ks vs) key val_out = findLinear (Leaf n ks vs) key val_out.
Proof.
  intros Hks Hvs Hasc.
  pose proof (nondecreasing_live_elim n ks Hasc) as Hsorted.
  destruct (bsearch_boundary Z.ltb ks key n Hks) as (Hb & Hrun & Hleft & Hright).
  { intros j1 j2 k1 k2 Hj Hn H1 H2 Hlt. apply Z.ltb_lt in Hlt. apply Z.ltb_lt.
    pose proof (Hsorted j1 j2 k1 k2 Hj Hn H1 H2). lia. }
  set (b := default n (first_hit (λ k, negb (k <? key)%Z) ks n 0)) in *.
  cbn [findBinary findLinear]. rewrite Hrun. cbn [mbind option_bind].
  rewrite leaf_linear_first_hit by lia.
  destruct (b =? n) eqn:Eb.
  - apply Nat.eqb_eq in Eb.
    assert (first_hit (λ k, (k =? key)%Z) ks n 0 = None) as ->.
    { apply first_hit_None_intro. intros j Hj.
      destruct (lookup_lt_is_Some_2 ks j) as [y Hy]; [lia|].
      exists y. split; [done|]. specialize (Hleft j y ltac:(lia) Hy).
      apply Z.ltb_lt in Hleft. apply Z.eqb_neq. lia. }
    destruct (decide (n = 0)) as [->|Hn]; [done|].
    replace ((0 <=? Z.of_nat n - 1)%Z && (Z.of_nat n - 1 <? Z.of_nat n)%Z)
      with true by (symmetry; apply andb_true_intro; split;
                    [apply Z.leb_le|apply Z.ltb_lt]; lia).
    unfold Arr.rdZ.
    destruct (Z.of_nat n - 1 <? 0)%Z eqn:E; [apply Z.ltb_lt in E; lia|].
    destruct (lookup_lt_is_Some_2 ks (Z.to_nat (Z.of_nat n - 1))) as [k Hk]; [lia|].
    rewrite Hk. cbn [mbind option_bind].
    specialize (Hleft (Z.to_nat (Z.of_nat n - 1)) k ltac:(lia) Hk).
    apply Z.ltb_lt in Hleft.
    destruct (k =? key)%Z eqn:E2; [apply Z.eqb_eq in E2; lia|done].
  - apply Nat.eqb_neq in Eb.
    replace ((0 <=? Z.of_nat b)%Z && (Z.of_nat b <? Z.of_nat n)%Z)
      with true by (symmetry; apply andb_true_intro; split;
                    [apply Z.leb_le|apply Z.ltb_lt]; lia).
    unfold Arr.rdZ.
    destruct (Z.of_nat b <? 0)%Z eqn:E; [apply Z.ltb_lt in E; lia|].
    rewrite Nat2Z.id.
    destruct (lookup_lt_is_Some_2 ks b) as [k Hk]; [lia|].
    rewrite Hk. cbn [mbind option_bind].
    specialize (Hright k ltac:(lia) Hk). apply Z.ltb_ge in Hright.
    assert (∀ j, j < b → ∃ y, ks !! (0 + j) = Some y ∧ (y =? key)%Z = false)
      as Hbefore.
    { intros j Hj. destruct (lookup_lt_is_Some_2 ks j) as [y Hy]; [lia|].
      exists y. split; [done|]. specialize (Hleft j y Hj Hy).
      apply Z.ltb_lt in Hleft. apply Z.eqb_neq. lia. }
    destruct (k =? key)%Z eqn:E2.
    + rewrite (first_hit_Some_intro _ ks n 0 b k); [done|lia|done|done|done].
    + apply Z.eqb_neq in E2.
      rewrite first_hit_None_intro; [done|].
      intros j Hj. destruct (decide (j < b)) as [Hlt|Hge]; [by apply Hbefore|].
      destruct (lookup_lt_is_Some_2 ks j) as [y Hy]; [lia|].
      exists y. split; [done|].
      pose proof (Hsorted b j k y ltac:(lia) Hj Hk Hy). apply Z.eqb_neq. lia.
Qed.

Lemma binary_internal_sorted (key val_out : Z) (n : nat) (ks : list Z)
    (cs : list Node) :
  n ≤ length ks → 0 < n → nondecreasingb (live n ks) = true →
  findBinary (Internal n ks cs) key val_out
  = cs !! descent_index key (live n ks) ≫= λ c, findBinary c key val_out.
Proof.
  intros Hks Hn Hasc.
  pose proof (nondecreasing_live_elim n ks Hasc) as Hsorted.
  destruct (bsearch_boundary Z.leb ks key n Hks) as (Hb & Hrun & Hleft & Hright).
  { intros j1 j2 k1 k2 Hj Hjn H1 H2 Hle. apply Z.leb_le in Hle. apply Z.leb_le.
    pose proof (Hsorted j1 j2 k1 k2 Hj Hjn H1 H2). lia. }
  assert (default n (first_hit (λ k, negb (k <=? key)%Z) ks n 0)
          = descent_index key (live n ks)) as Hd.
  { rewrite <- first_hit_descent_index by done. f_equal.
    apply first_hit_ext. intros k. by rewrite Z.gtb_ltb, Z.ltb_antisym. }
  rewrite Hd in *. set (b := descent_index key (live n ks)) in *.
  cbn [findBinary]. rewrite Hrun. cbn [mbind option_bind].
  unfold Arr.at_indexZ, Arr.rdZ.
  destruct (b =? n) eqn:Eb.
  - apply Nat.eqb_eq in Eb.
    replace (Z.of_nat b - 1)%Z with (Z.of_nat n - 1)%Z by lia.
    rewrite Z.eqb_refl.
    destruct (Z.of_nat n - 1 <? 0)%Z eqn:E; [apply Z.ltb_lt in E; lia|].
    destruct (lookup_lt_is_Some_2 ks (Z.to_nat (Z.of_nat n - 1))) as [k Hk]; [lia|].
    rewrite Hk. cbn [mbind option_bind].
    specialize (Hleft (Z.to_nat (Z.of_nat n - 1)) k ltac:(lia) Hk).
    apply Z.leb_le in Hleft.
    destruct (k >? key)%Z eqn:E2; [rewrite Z.gtb_ltb in E2; apply Z.ltb_lt in E2; lia|].
    destruct (Z.of_nat n - 1 + 1 <? 0)%Z eqn:E3; [apply Z.ltb_lt in E3; lia|].
    replace (Z.to_nat (Z.of_nat n - 1 + 1)) with b by lia.
    apply at_index_lookup.
  - apply Nat.eqb_neq in Eb.
    destruct (Z.of_nat b =? Z.of_nat b - 1)%Z eqn:E; [apply Z.eqb_eq in E; lia|].
    destruct (Z.of_nat b <? 0)%Z eqn:E1; [apply Z.ltb_lt in E1; lia|].
    rewrite Nat2Z.id. apply at_index_lookup.
Qed.

(** The binary lookup agrees with the linear one as soon as the keys of
    every node are in non-decreasing order and no internal node is
    empty. *)
Lemma findBinary_findLinear_sorted (key val_out : Z) (t : Node) :
  shapeb t = true → sortedb t = true → separator_in_each t = true →
  findBinary t key val_out = findLinear t key val_out.
Proof.
  induction t as [n ks vs|n ks cs IH] using Node_ind;
    intros Hshape Hord Hsep; simpl in Hshape, Hord, Hsep; bools.
  - by apply binary_leaf_sorted.
  - rewrite binary_internal_sorted by done.
    cbn [findLinear]. rewrite scan_geb_descent_index by done.
    cbn [mbind option_bind]. rewrite at_index_lookup.
    destruct (cs !! descent_index key (live n ks)) as [c|] eqn:Hc; [|done].
    cbn [mbind option_bind].
    apply (Forall_lookup_child _ _ _ IH Hc); by eapply forallb_lookup.
Qed.

(** X15: a run of inserts into a tree whose nodes are below capacity
    returns, and the leaves of the tree it builds store the pairs stored
    before and every inserted pair, each as often as it was inserted:
    [insert] never overwrites and never drops a pair, whether the key was
    present or not. *)
Theorem inserts_store_every_pair (M : nat) (t : Node) (h : nat)
    (kvs : list (Z * Z)) :
  2 ≤ M → (Z.of_nat M < 65536)%Z →
  roomb M t = true → depthb h t = true →
  ∃ t',
    insert_all M t kvs = Some t'
    ∧ leaf_pairs t' ≡ₚ kvs ++ leaf_pairs t
    ∧ length (leaf_pairs t') = length kvs + length (leaf_pairs t).
Proof.
  intros HM2 HM16 Hroom Hdepth.
  destruct (insert_all_pairs M HM2 HM16 kvs t h Hroom Hdepth) as (t' & Hrun & Hp).
  exists t'. split; [done|]. split; [done|]. by rewrite Hp, length_app.
Qed.

Lemma inserts_store_every_pair_witness :
  ∃ t',
    insert_all 4 empty [(42, 100); (42, 200)]%Z = Some t'
    ∧ leaf_pairs t' ≡ₚ [(42, 100); (42, 200)]%Z
    ∧ length (leaf_pairs t') = 2.
Proof.
  destruct (inserts_store_every_pair 4 empty 0 [(42, 100); (42, 200)]%Z)
    as (t' & Hrun & Hp & Hlen).
  - lia.
  - lia.
  - reflexivity.
  - reflexivity.
  - exists t'. split; [done|]. split; [|done].
    by rewrite app_nil_r in Hp.
Defined.

(** Every tree built by inserts from the empty tree, repeated keys
    included, has the shape, the weak order and the anchored separators
    that the lookups rely on. *)
Lemma inserts_grow (M : nat) (kvs : list (Z * Z)) :
  2 ≤ M → (Z.of_nat M < 65536)%Z →
  ∃ t,
    insert_all M empty kvs = Some t
    ∧ shapeb t = true ∧ sortedb t = true ∧ boundedb t = true
    ∧ anchoredb t = true
    ∧ (3 ≤ M → separator_in_each t = true)
    ∧ leaf_pairs t ≡ₚ kvs.
Proof.
  intros HM2 HM16.
  destruct (empty_room M ltac:(lia)) as [Hroom Hdepth].
  destruct (insert_all_any M HM2 HM16 kvs empty 0 Hroom Hdepth)
    as (t & h & Hrun & Hr & _ & Ho & Hs & Ha & _ & Hsie); try done.
  destruct (insert_all_pairs M HM2 HM16 kvs empty 0 Hroom Hdepth)
    as (t' & Hrun' & Hp).
  assert (t' = t) as -> by congruence.
  exists t. split; [done|].
  split; [by apply (roomb_shapeb M)|]. do 3 (split; [done|]).
  split; [by auto|]. by rewrite app_nil_r in Hp.
Qed.

(** X16: for a fan-out of at least 3, on the tree built by any run of
    inserts from the empty tree, repeated keys included, the linear, the
    binary and the AVX2 lookup all return, and return the same answer for
    every key. *)
Theorem lookups_agree_after_inserts (M : nat) (kvs : list (Z * Z)) :
  3 ≤ M → (Z.of_nat M < 65536)%Z →
  ∃ t,
    insert_all M empty kvs = Some t
    ∧ ∀ junk key val_out, ∃ r,
        findLinear t key val_out = Some r
        ∧ findBinary t key val_out = Some r
        ∧ findSIMD junk t key val_out = Some r.
Proof.
  intros HM3 HM16.
  destruct (inserts_grow M kvs ltac:(lia) HM16)
    as (t & Hrun & Hshape & Hord & _ & _ & Hsie & _).
  exists t. split; [done|]. intros junk key val_out.
  destruct (findLinear_result key val_out t Hshape) as (b & v & Hr & _).
  exists (b, v). split; [done|].
  split.
  - rewrite findBinary_findLinear_sorted; auto.
  - by rewrite findSIMD_findLinear.
Qed.

Lemma lookups_agree_after_inserts_witness :
  ∃ t,
    insert_all 3 empty [(5, 1); (5, 2); (1, 3); (5, 4); (9, 5); (5, 6)]%Z
    = Some t
    ∧ ∀ junk key val_out, ∃ r,
        findLinear t key val_out = Some r
        ∧ findBinary t key val_out = Some r
        ∧ findSIMD junk t key val_out = Some r.
Proof.
  apply (lookups_agree_after_inserts 3); lia.
Defined.

(** X17: on the tree built by any run of inserts from the empty tree, a
    lookup of a key that was inserted is a hit and returns a value that
    was inserted with this key, and a lookup of any other key is a miss
    that leaves [val_out] as it was; the linear and the AVX2 lookup
    both. *)
Theorem inserted_keys_are_found (M : nat) (kvs : list (Z * Z))
    (junk : nat → Z) (key val_out : Z) :
  2 ≤ M → (Z.of_nat M < 65536)%Z →
  ∃ t,
    insert_all M empty kvs = Some t
    ∧ findSIMD junk t key val_out = findLinear t key val_out
    ∧ (key ∈ kvs.*1 →
       ∃ v, (key, v) ∈ kvs ∧ findLinear t key val_out = Some (true, v))
    ∧ (key ∉ kvs.*1 → findLinear t key val_out = Some (false, val_out)).
Proof.
  intros HM2 HM16.
  destruct (inserts_grow M kvs HM2 HM16)
    as (t & Hrun & Hshape & Hord & Hsep & Hanc & _ & Hp).
  exists t. split; [done|].
  split; [by apply findSIMD_findLinear|].
  split.
  - intros Hin. rewrite <- Hp in Hin.
    destruct (stored_key_found key val_out t Hshape Hord Hsep Hanc Hin)
      as [v Hv].
    exists v. split; [|done]. rewrite <- Hp.
    by apply (findLinear_hit_pairs key val_out).
  - intros Hout.
    destruct (findLinear_result key val_out t Hshape) as ([|] & v & Hr & Hb).
    + exfalso. apply Hout. rewrite <- Hp.
      apply list_elem_of_fmap. exists (key, v). split; [done|].
      by apply (findLinear_hit_pairs key val_out).
    + by rewrite Hr, Hb.
Qed.

Lemma inserted_keys_are_found_witness :
  ∃ t,
    insert_all 2 empty [(5, 1); (5, 2); (1, 3); (5, 4)]%Z = Some t
    ∧ findSIMD (λ _, 5%Z) t 5 0 = findLinear t 5 0
    ∧ (5%Z ∈ [(5, 1); (5, 2); (1, 3); (5, 4)]%Z.*1 →
       ∃ v, (5%Z, v) ∈ [(5, 1); (5, 2); (1, 3); (5, 4)]%Z
            ∧ findLinear t 5 0 = Some (true, v))
    ∧ (5%Z ∉ [(5, 1); (5, 2); (1, 3); (5, 4)]%Z.*1 →
       findLinear t 5 0 = Some (false, 0%Z)).
Proof.
  apply (inserted_keys_are_found 2); lia.
Defined.

(** ** Removal after any run of inserts *)

(** A removal frees no node, and takes one pair of the key out of the
    tree when the tree stores the key. *)
Lemma removed_stored (key : Z) (t t' : Node) :
  removed key t t' →
  shapeb t = true → sortedb t = true → boundedb t = true →
  anchoredb t = true →
  node_count t' = node_count t
  ∧ (key ∈ (leaf_pairs t).*1 → ∃ v, leaf_pairs t ≡ₚ (key, v) :: leaf_pairs t').
Proof.
  induction 1 as [n ks vs Habs|n ks vs k ks' vs' Hk Hkey Hks' Hvs'
                 |n ks cs c c' Hc Hrem IH]; intros Hshape Hord Hsep Hanc.
  - split; [done|]. intros (p & -> & Hp)%list_elem_of_fmap.
    exfalso. apply Habs. by apply (pairs_keys (Leaf n ks vs)).
  - split; [done|]. intros _. cbn [shapeb] in Hshape. bools.
    destruct (lookup_lt_is_Some_2 vs k) as [v Hv]; [lia|].
    exists v. cbn [leaf_pairs]. rewrite Hks', Hvs', zip_delete.
    apply delete_Permutation. apply lookup_zip_with_Some.
    exists key, v. split; [done|]. by rewrite !lookup_live.
  - pose proof Hshape as Hshape'. cbn [shapeb] in Hshape'. bools.
    pose proof Hord as [_ Hords]%andb_prop.
    pose proof Hsep as [Hseps _]%boundedb_elim.
    pose proof Hanc as [Hancs _]%anchoredb_elim.
    destruct IH as [Hcount Hpairs]; [by eapply forallb_lookup..|].
    split.
    + cbn [node_count]. f_equal. by apply list_sum_insert_same with (x := c).
    + intros Hin.
      destruct Hpairs as [v Hv];
        [by apply (stored_key_descent key n ks cs)|].
      exists v.
      set (d := descent_index key (live n ks)) in *.
      pose proof (lookup_lt_Some _ _ _ Hc) as Hd.
      pose proof (leaf_pairs_insert_child n ks (<[d := c']> cs) d c' c []
                    (key, v)) as Hperm.
      rewrite list_insert_insert_eq, (list_insert_id cs d c Hc),
        !app_nil_r in Hperm.
      apply Hperm; [|done]. by apply list_lookup_insert_eq.
Qed.

(** X18: [remove] on the tree built by any run of inserts from the empty
    tree, repeated keys included, returns and frees no node.  When the key
    was inserted it takes exactly one pair of that key out of the tree, all
    other pairs stay, the further pairs of the key too; when the key was
    never inserted the tree is unchanged. *)
Theorem remove_after_inserts (M : nat) (kvs : list (Z * Z)) (key : Z) :
  2 ≤ M → (Z.of_nat M < 65536)%Z →
  ∃ t t',
    insert_all M empty kvs = Some t
    ∧ remove M t key = Some t'
    ∧ node_count t' = node_count t
    ∧ (key ∈ kvs.*1 → ∃ v, kvs ≡ₚ (key, v) :: leaf_pairs t')
    ∧ (key ∉ kvs.*1 → t' = t).
Proof.
  intros HM2 HM16.
  destruct (empty_room M ltac:(lia)) as [Hroom Hdepth].
  destruct (insert_all_any M HM2 HM16 kvs empty 0 Hroom Hdepth)
    as (t & h & Hrun & Hr & _ & Ho & Hs & Ha & _); try done.
  destruct (insert_all_pairs M HM2 HM16 kvs empty 0 Hroom Hdepth)
    as (t0 & Hrun' & Hp).
  assert (t0 = t) as -> by congruence. rewrite app_nil_r in Hp.
  destruct (roomb_shapeb M t HM16 Hr) as [Hshape Hcap].
  destruct (remove_recursive_spec M key t Hshape Hcap) as (t' & Hrm & Hrem).
  destruct (removed_stored key t t' Hrem Hshape Ho Hs Ha) as [Hcount Hpairs].
  exists t, t'. do 3 (split; [done|]). split.
  - intros Hin. rewrite <- Hp in Hin. destruct (Hpairs Hin) as [v Hv].
    exists v. by rewrite <- Hp.
  - intros Hout. apply (removed_absent_id key); [done..|].
    intros v Hv. apply Hout. rewrite <- Hp.
    apply list_elem_of_fmap. by exists (key, v).
Qed.

Lemma remove_after_inserts_witness :
  ∃ t t',
    insert_all 4 empty [(5, 1); (5, 2); (1, 3); (5, 4); (9, 5)]%Z = Some t
    ∧ remove 4 t 5 = Some t'
    ∧ node_count t' = node_count t
    ∧ (5%Z ∈ [(5, 1); (5, 2); (1, 3); (5, 4); (9, 5)]%Z.*1 →
       ∃ v, [(5, 1); (5, 2); (1, 3); (5, 4); (9, 5)]%Z
            ≡ₚ (5%Z, v) :: leaf_pairs t')
    ∧ (5%Z ∉ [(5, 1); (5, 2); (1, 3); (5, 4); (9, 5)]%Z.*1 → t' = t).
Proof.
  apply (remove_after_inserts 4); lia.
Defined.

(** ** An allocation that fails when the root is to grow *)




(** * The nodes a run of inserts needs *)

Section Filled.

Variable M : nat.
Hypothesis HM2 : 2 ≤ M.
Hypothesis HM16 : (Z.of_nat M < 65536)%Z.

(** A split leaves at least [M / 2] pairs in each half of a leaf, so
    [insert_recursive] keeps the leaves filled that far, and makes them so
    when it splits a leaf. *)
Lemma insert_recursive_filled (key value : Z) (t : Node) :
  ∀ h,
    roomb M t = true → depthb h t = true →
    is_leaf t = true ∨ filledb (M / 2) t = true →
    ∃ t' sp,
      insert_recursive M t key value = Some (t', sp)
      ∧ match sp with
        | Some (s, _) => filledb (M / 2) t' = true ∧ filledb (M / 2) s = true
        | None => filledb (M / 2) t = true → filledb (M / 2) t' = true
        end.
Proof.
  pose proof (half_bounds M HM2) as (Hh1 & Hh2 & Hh3).
  induction t as [n ks vs|n ks cs IH] using Node_ind;
    intros h Hroom Hdepth Hfilled.
  - apply roomb_leaf_iff in Hroom as (Hn & Hks & HksM & Hvs & HvsM).
    destruct (insert_leaf_in_eq 0 M HM2 HM16 n ks vs key value)
      as (i & ks' & vs' & _ & _ & _ & Hkl & Hvl & -> & _); [done..|].
    destruct (decide (n + 1 = M)) as [HnM|HnM].
    + destruct (split_leaf_spec M HM2 HM16 ks' vs') as (median & _ & ->);
        [lia..|].
      cbn [mbind option_bind]. eexists _, _. split; [done|].
      cbn [filledb]. split; apply Nat.leb_le; lia.
    + eexists _, _. split; [done|]. cbn [filledb].
      intros Hf%Nat.leb_le. apply Nat.leb_le. lia.
  - destruct Hfilled as [Hleaf|Hfilled]; [done|]. cbn [filledb] in Hfilled.
    apply roomb_internal_iff in Hroom as (Hn & Hks & HksM & Hcs & Hall).
    apply depthb_internal_iff in Hdepth as (h' & -> & Hdeep).
    destruct (insert_internal_eq M HM2 HM16 n ks cs key value Hn Hks HksM Hcs)
      as (i & c & _ & Hi & Hc & Hstep).
    destruct (Forall_lookup_child _ _ _ IH Hc h') as (c' & spc & Hrecc & Hf);
      [by eapply forallb_lookup..| |].
    { right. by eapply forallb_lookup. }
    specialize (Hstep c' spc Hrecc).
    assert (filledb (M / 2) c = true) as Hfc by (by eapply forallb_lookup).
    destruct spc as [[sibling median]|].
    + destruct Hstep as (ks2 & cs2 & Hkop & Hcop & Hkl & Hcl & ->).
      destruct Hf as [Hfc' Hfs].
      assert (forallb (filledb (M / 2)) cs2 = true) as Hall2.
      { rewrite (opened_eq (i + 1) (n + 1) sibling (<[i := c']> cs) cs2);
          [|lia|rewrite length_insert; lia|lia|done].
        rewrite forallb_app. cbn [forallb].
        rewrite forallb_take, Hfs, forallb_drop by (by apply forallb_insert).
        done. }
      destruct (decide (n + 1 = M)) as [HnM|HnM].
      * destruct (split_internal_spec M HM2 HM16 ks2 cs2) as (med' & _ & ->);
          [lia..|].
        cbn [mbind option_bind]. eexists _, _. split; [done|].
        cbn [filledb]. by rewrite forallb_take, forallb_drop.
      * eexists _, _. split; [done|]. by intros _.
    + rewrite Hstep. eexists _, _. split; [done|]. intros _.
      cbn [filledb]. apply forallb_insert; [done|]. by apply Hf.
Qed.

(** The same for [insert]: below a root that is not a leaf every leaf
    holds at least [M / 2] pairs. *)
Lemma insert_filled (key value : Z) (t : Node) (h : nat) :
  roomb M t = true → depthb h t = true →
  is_leaf t = true ∨ filledb (M / 2) t = true →
  ∃ t',
    insert M t key value = Some t'
    ∧ (is_leaf t' = true ∨ filledb (M / 2) t' = true).
Proof.
  intros Hroom Hdepth Hfilled.
  destruct (insert_recursive_spec M HM2 HM16 key value t h Hroom Hdepth)
    as (t0 & sp0 & Hrec0 & (_ & _ & Hleaf & _) & _).
  destruct (insert_recursive_filled key value t h Hroom Hdepth Hfilled)
    as (t' & sp & Hrec & Hf).
  rewrite Hrec0 in Hrec. injection Hrec as <- <-.
  unfold insert. rewrite Hrec0. cbn [mbind option_bind].
  destruct sp0 as [[new_child median]|].
  - destruct Hf as [Hf' Hfs]. unfold Arr.wr. cbn [length].
    destruct (M <=? 0) eqn:E0; [apply Nat.leb_le in E0; lia|].
    destruct (M + 1 <=? 0) eqn:E1; [apply Nat.leb_le in E1; lia|].
    destruct (M + 1 <=? 1) eqn:E2; [apply Nat.leb_le in E2; lia|].
    cbn [mbind option_bind]. eexists. split; [done|]. right.
    change (filledb (M / 2) t0 && (filledb (M / 2) new_child && true) = true).
    by rewrite Hf', Hfs.
  - eexists. split; [done|]. destruct Hfilled as [Hl|Hfl].
    + left. by rewrite Hleaf.
    + right. by apply Hf.
Qed.

Lemma insert_all_filled (kvs : list (Z * Z)) :
  ∀ t h,
    roomb M t = true → depthb h t = true →
    is_leaf t = true ∨ filledb (M / 2) t = true →
    ∃ t',
      insert_all M t kvs = Some t'
      ∧ (is_leaf t' = true ∨ filledb (M / 2) t' = true).
Proof.
  induction kvs as [|[k v] kvs IH]; intros t h Hroom Hdepth Hfilled.
  - by exists t.
  - destruct (insert_spec M HM2 HM16 k v t h Hroom Hdepth)
      as (t1 & h1 & Hins & Hr1 & Hd1 & _).
    destruct (insert_filled k v t h Hroom Hdepth Hfilled) as (t1' & Hins' & Hf1).
    rewrite Hins in Hins'. injection Hins' as <-.
    destruct (IH t1 h1 Hr1 Hd1 Hf1) as (t' & Hrun & Hf').
    exists t'. cbn [insert_all]. rewrite Hins. by cbn [mbind option_bind].
Qed.

End Filled.

(** A tree whose leaves hold at least [m] pairs each and whose internal
    nodes have two children or more has at most [2 * P / m - 1] nodes for
    its [P] pairs. *)
Lemma filled_children_count (m : nat) (cs : list Node) :
  Forall (λ c, (node_count c + 1) * m ≤ 2 * length (leaf_pairs c)) cs →
  (list_sum (map node_count cs) + length cs) * m
  ≤ 2 * length (concat (map leaf_pairs cs)).
Proof.
  induction 1 as [|c cs Hc _ IH]; [done|].
  cbn [map concat length list_sum]. rewrite length_app.
  change (list_sum (node_count c :: map node_count cs))
    with (node_count c + list_sum (map node_count cs)).
  replace (node_count c + list_sum (map node_count cs) + S (length cs))
    with ((node_count c + 1) + (list_sum (map node_count cs) + length cs))
    by lia.
  rewrite Nat.mul_add_distr_r. lia.
Qed.

Lemma filled_count (m : nat) (t : Node) :
  shapeb t = true → separator_in_each t = true → filledb m t = true →
  (node_count t + 1) * m ≤ 2 * length (leaf_pairs t).
Proof.
  induction t as [n ks vs|n ks cs IH] using Node_ind;
    intros Hshape Hsie Hfilled.
  - cbn [shapeb] in Hshape. bools. cbn [filledb] in Hfilled.
    apply Nat.leb_le in Hfilled. cbn [leaf_pairs node_count].
    rewrite length_zip, !length_live by lia. lia.
  - cbn [shapeb] in Hshape. cbn [separator_in_each] in Hsie. bools.
    cbn [filledb] in Hfilled.
    assert (Forall (λ c, (node_count c + 1) * m ≤ 2 * length (leaf_pairs c)) cs)
      as Hall.
    { apply Forall_lookup. intros j c Hc.
      apply (Forall_lookup_child _ _ _ IH Hc); by eapply forallb_lookup. }
    apply filled_children_count in Hall.
    rewrite node_count_internal. cbn [leaf_pairs].
    assert ((1 + list_sum (map node_count cs) + 1) * m
            ≤ (list_sum (map node_count cs) + length cs) * m) as Hle.
    { apply Nat.mul_le_mono_r. lia. }
    lia.
Qed.

(** The nodes of a tree built by inserts: one node, or fewer than two for
    every [M / 2] pairs. *)
Lemma inserts_count (M : nat) (kvs : list (Z * Z)) :
  3 ≤ M → (Z.of_nat M < 65536)%Z →
  ∃ t,
    insert_all M empty kvs = Some t
    ∧ node_count t * (M / 2) ≤ 2 * length kvs + M / 2.
Proof.
  intros HM3 HM16.
  destruct (inserts_grow M kvs ltac:(lia) HM16)
    as (t & Hrun & Hshape & _ & _ & _ & Hsie & Hp).
  destruct (empty_room M ltac:(lia)) as [Hroom Hdepth].
  destruct (insert_all_filled M ltac:(lia) HM16 kvs empty 0 Hroom Hdepth)
    as (t0 & Hrun0 & Hf); [by left|].
  assert (t0 = t) as -> by congruence.
  exists t. split; [done|]. rewrite <- Hp.
  destruct Hf as [Hleaf|Hfilled].
  - destruct t; [|done]. cbn [node_count]. lia.
  - pose proof (filled_count (M / 2) t Hshape (Hsie HM3) Hfilled). lia.
Qed.

(** ** The arena a run of inserts needs *)

(** An arena with room for the nodes that [inserts_count] allows is enough
    for the constructor and the run: no [new Node] throws. *)
Lemma inserts_fit (node_size : Z) (M : nat) (base size : Z)
    (kvs : list (Z * Z)) :
  3 ≤ M → (Z.of_nat M < 65536)%Z →
  (0 ≤ node_size)%Z → (node_size + 63 < Arena.size_max)%Z →
  (0 ≤ size)%Z → (size + round_up_64 node_size < Arena.size_max)%Z →
  (Z.of_nat (2 * length kvs + M / 2) * round_up_64 node_size
   ≤ Z.of_nat (M / 2) * size)%Z →
  ∃ a0 t a',
    BPlusTree_in node_size (Some (Arena.new base size))
    = (Returned empty, Some a0)
    ∧ insert_all_in node_size M (Some a0) empty kvs
      = Some (t, Returned (), Some a')
    ∧ insert_all M empty kvs = Some t
    ∧ node_count t * (M / 2) ≤ 2 * length kvs + M / 2
    ∧ Arena.get_used_memory a'
      = (Z.of_nat (node_count t) * round_up_64 node_size)%Z
    ∧ (Arena.get_used_memory a' ≤ Arena.get_capacity a')%Z.
Proof.
  intros HM3 HM16 Hns Hns63 Hsize Hcap Hfit.
  pose proof (round_up_64_bounds node_size) as (_ & Hlo & _).
  pose proof (half_bounds M ltac:(lia)) as (Hh1 & Hh2 & Hh3).
  set (r := round_up_64 node_size) in *.
  assert (r ≤ size)%Z as Hone by nia.
  assert (Arena.well_formed (Arena.new base size)) as Hwf.
  { unfold Arena.well_formed, Arena.new.
    cbn [Arena.offset Arena.memory Arena.capacity]. lia. }
  pose proof (allocate_with_room (Arena.new base size) node_size Hwf Hns Hns63)
    as Ha.
  cbn [Arena.new Arena.offset Arena.memory Arena.capacity] in Ha.
  fold r in Ha. specialize (Ha ltac:(lia)).
  set (a0 := Arena.mk base (0 + r) size) in *.
  assert (Arena.well_formed a0) as Hwf0.
  { unfold Arena.well_formed, a0.
    cbn [Arena.offset Arena.memory Arena.capacity]. lia. }
  destruct (empty_room M ltac:(lia)) as [Hroom Hdepth].
  destruct (insert_all_in_spec node_size M ltac:(lia) HM16 kvs empty 0 a0
              Hroom Hdepth) as (t & out & a' & k & Hrun & Hall & Hout).
  destruct (allocate_all_replicate_used node_size k Hns Hns63 a0 a' Hwf0)
    as (Ho & Hwf' & Hc'); [done..|].
  fold r in Ho. cbn [a0 Arena.offset Arena.capacity] in Ho, Hc'.
  destruct out as [[]|e].
  - destruct Hout as [Hpure Hcount].
    destruct (inserts_count M kvs HM3 HM16) as (t1 & Hrun1 & Hbound).
    assert (t1 = t) as -> by congruence.
    exists a0, t, a'. unfold BPlusTree_in, operator_new. rewrite Ha.
    do 4 (split; [done|]). unfold Arena.get_used_memory, Arena.get_capacity.
    unfold Arena.well_formed in Hwf'. split; [|lia].
    rewrite Ho, Hcount. cbn [node_count empty]. lia.
  - exfalso. destruct Hout as (_ & Hfail & kvs1 & kvs2 & t2 & -> & Hrun2 & Hmore).
    destruct (inserts_count M kvs1 HM3 HM16) as (t1 & Hrun1 & Hbound).
    assert (t1 = t2) as -> by congruence.
    apply allocate_without_room in Hfail; [|done|done|done|].
    2: { rewrite Hc'. by fold r. }
    fold r in Hfail. rewrite Ho, Hc' in Hfail.
    rewrite length_app in Hfit. cbn [node_count empty] in Hmore.
    assert (Z.of_nat (k + 2) * Z.of_nat (M / 2)
            ≤ Z.of_nat (2 * (length kvs1 + length kvs2) + M / 2))%Z as Hk
      by nia.
    assert (Z.of_nat (k + 2) * Z.of_nat (M / 2) * r
            ≤ Z.of_nat (M / 2) * size)%Z as Hk2 by nia.
    nia.
Qed.

(** * The depth of a tree built by inserts *)

Section Wide.

Variable M : nat.
Hypothesis HM2 : 2 ≤ M.
Hypothesis HM16 : (Z.of_nat M < 65536)%Z.

Lemma widthb_children (m : nat) (t : Node) :
  widthb m t = true → children_wide m t = true.
Proof.
  destruct t as [|n ks cs]; [done|]. cbn [widthb children_wide].
  by intros [_ ?]%andb_prop.
Qed.

(** A split leaves at least [M - M / 2 - 1] keys in each half of an
    internal node, so [insert_recursive] keeps the internal nodes that
    wide. *)
Lemma insert_recursive_wide (key value : Z) (t : Node) :
  ∀ h,
    roomb M t = true → depthb h t = true →
    children_wide (M - M / 2 - 1) t = true →
    ∃ t' sp,
      insert_recursive M t key value = Some (t', sp)
      ∧ match sp with
        | Some (s, _) =>
            widthb (M - M / 2 - 1) t' = true ∧ widthb (M - M / 2 - 1) s = true
        | None =>
            children_wide (M - M / 2 - 1) t' = true
            ∧ (widthb (M - M / 2 - 1) t = true
               → widthb (M - M / 2 - 1) t' = true)
        end.
Proof.
  pose proof (half_bounds M HM2) as (Hh1 & Hh2 & Hh3).
  assert (M - M / 2 - 1 ≤ M / 2) as Hh4.
  { pose proof (Nat.div_mod_eq M 2).
    pose proof (Nat.mod_upper_bound M 2 ltac:(lia)). lia. }
  induction t as [n ks vs|n ks cs IH] using Node_ind;
    intros h Hroom Hdepth Hwide.
  - destruct (insert_recursive_spec M HM2 HM16 key value _ h Hroom Hdepth)
      as (t' & sp & Hrec & (_ & _ & Hleaf & _) & Hsp).
    exists t', sp. split; [done|]. destruct t' as [n' ks' vs'|]; [|done].
    destruct sp as [[s m]|]; [|done].
    destruct Hsp as [(_ & _ & Hleafs & _) _]. by destruct s.
  - cbn [children_wide] in Hwide.
    apply roomb_internal_iff in Hroom as (Hn & Hks & HksM & Hcs & Hall).
    apply depthb_internal_iff in Hdepth as (h' & -> & Hdeep).
    destruct (insert_internal_eq M HM2 HM16 n ks cs key value Hn Hks HksM Hcs)
      as (i & c & _ & Hi & Hc & Hstep).
    assert (widthb (M - M / 2 - 1) c = true) as Hwc
      by (by eapply forallb_lookup).
    destruct (Forall_lookup_child _ _ _ IH Hc h') as (c' & spc & Hrecc & Hw);
      [by eapply forallb_lookup..|by apply widthb_children|].
    specialize (Hstep c' spc Hrecc).
    destruct spc as [[sibling median]|].
    + destruct Hstep as (ks2 & cs2 & Hkop & Hcop & Hkl & Hcl & ->).
      destruct Hw as [Hwc' Hws].
      assert (forallb (widthb (M - M / 2 - 1)) cs2 = true) as Hall2.
      { rewrite (opened_eq (i + 1) (n + 1) sibling (<[i := c']> cs) cs2);
          [|lia|rewrite length_insert; lia|lia|done].
        rewrite forallb_app. cbn [forallb].
        rewrite forallb_take, Hws, forallb_drop by (by apply forallb_insert).
        done. }
      destruct (decide (n + 1 = M)) as [HnM|HnM].
      * destruct (split_internal_spec M HM2 HM16 ks2 cs2) as (med' & _ & ->);
          [lia..|].
        cbn [mbind option_bind]. eexists _, _. split; [done|].
        cbn [widthb]. rewrite forallb_take, forallb_drop by done.
        split; apply andb_true_intro; (split; [apply Nat.leb_le; lia|done]).
      * eexists _, _. split; [done|]. split; [done|].
        cbn [widthb]. intros [Hle _]%andb_prop. apply Nat.leb_le in Hle.
        apply andb_true_intro. split; [apply Nat.leb_le; lia|done].
    + rewrite Hstep. eexists _, _. split; [done|].
      destruct Hw as [_ Hw]. specialize (Hw Hwc).
      assert (forallb (widthb (M - M / 2 - 1)) (<[i := c']> cs) = true)
        as Hall2 by (by apply forallb_insert).
      split; [done|]. cbn [widthb]. intros [Hle _]%andb_prop.
      by rewrite Hle, Hall2.
Qed.

Lemma insert_wide (key value : Z) (t : Node) (h : nat) :
  roomb M t = true → depthb h t = true →
  children_wide (M - M / 2 - 1) t = true →
  ∃ t',
    insert M t key value = Some t'
    ∧ children_wide (M - M / 2 - 1) t' = true.
Proof.
  intros Hroom Hdepth Hwide.
  destruct (insert_recursive_wide key value t h Hroom Hdepth Hwide)
    as (t' & sp & Hrec & Hw).
  unfold insert. rewrite Hrec. cbn [mbind option_bind].
  destruct sp as [[new_child median]|].
  - destruct Hw as [Hw' Hws]. unfold Arr.wr. cbn [length].
    destruct (M <=? 0) eqn:E0; [apply Nat.leb_le in E0; lia|].
    destruct (M + 1 <=? 0) eqn:E1; [apply Nat.leb_le in E1; lia|].
    destruct (M + 1 <=? 1) eqn:E2; [apply Nat.leb_le in E2; lia|].
    cbn [mbind option_bind]. eexists. split; [done|].
    change (widthb (M - M / 2 - 1) t'
            && (widthb (M - M / 2 - 1) new_child && true) = true).
    by rewrite Hw', Hws.
  - eexists. split; [done|]. by destruct Hw.
Qed.

Lemma insert_all_wide_nodes (kvs : list (Z * Z)) :
  ∀ t h,
    roomb M t = true → depthb h t = true →
    children_wide (M - M / 2 - 1) t = true →
    ∃ t',
      insert_all M t kvs = Some t'
      ∧ children_wide (M - M / 2 - 1) t' = true.
Proof.
  induction kvs as [|[k v] kvs IH]; intros t h Hroom Hdepth Hwide.
  - by exists t.
  - destruct (insert_spec M HM2 HM16 k v t h Hroom Hdepth)
      as (t1 & h1 & Hins & Hr1 & Hd1 & _).
    destruct (insert_wide k v t h Hroom Hdepth Hwide) as (t1' & Hins' & Hw1).
    rewrite Hins in Hins'. injection Hins' as <-.
    destruct (IH t1 h1 Hr1 Hd1 Hw1) as (t' & Hrun & Hw').
    exists t'. cbn [insert_all]. rewrite Hins. by cbn [mbind option_bind].
Qed.

End Wide.

(** The pairs below a node of depth [h] whose leaves hold [a] pairs or
    more and whose internal nodes hold [b] keys or more. *)
Lemma children_pairs_count (x : nat) (cs : list Node) :
  Forall (λ c, x ≤ length (leaf_pairs c)) cs →
  length cs * x ≤ length (concat (map leaf_pairs cs)).
Proof.
  induction 1 as [|c cs Hc _ IH]; [done|].
  cbn [map concat length]. rewrite length_app. lia.
Qed.

Lemma depth_count (a b : nat) (t : Node) :
  ∀ h,
    shapeb t = true → depthb h t = true →
    filledb a t = true → widthb b t = true →
    (b + 1) ^ h * a ≤ length (leaf_pairs t).
Proof.
  induction t as [n ks vs|n ks cs IH] using Node_ind;
    intros h Hshape Hdepth Hfilled Hwide.
  - apply depthb_leaf_iff in Hdepth as ->.
    cbn [shapeb] in Hshape. bools. cbn [filledb] in Hfilled.
    apply Nat.leb_le in Hfilled. cbn [leaf_pairs].
    rewrite length_zip, !length_live by lia. cbn [Nat.pow]. lia.
  - apply depthb_internal_iff in Hdepth as (h' & -> & Hdeep).
    cbn [shapeb] in Hshape. cbn [widthb] in Hwide. bools.
    cbn [filledb] in Hfilled.
    assert (Forall (λ c, (b + 1) ^ h' * a ≤ length (leaf_pairs c)) cs) as Hall.
    { apply Forall_lookup. intros j c Hc.
      apply (Forall_lookup_child _ _ _ IH Hc); by eapply forallb_lookup. }
    apply children_pairs_count in Hall. cbn [leaf_pairs].
    assert ((b + 1) * ((b + 1) ^ h' * a) ≤ length cs * ((b + 1) ^ h' * a))
      as Hle by (apply Nat.mul_le_mono_r; lia).
    rewrite Nat.pow_succ_r'. lia.
Qed.

(** The depth of a tree built by inserts is logarithmic in the number of
    pairs. *)
Lemma inserts_depth (M : nat) (kvs : list (Z * Z)) :
  3 ≤ M → (Z.of_nat M < 65536)%Z →
  ∃ t h,
    insert_all M empty kvs = Some t ∧ depthb h t = true
    ∧ children_wide (M - M / 2 - 1) t = true
    ∧ (h = 0 ∨ 2 * (M - M / 2) ^ (h - 1) * (M / 2) ≤ length kvs).
Proof.
  intros HM3 HM16.
  destruct (inserts_grow M kvs ltac:(lia) HM16)
    as (t & Hrun & Hshape & _ & _ & _ & Hsie & Hp).
  specialize (Hsie HM3).
  destruct (empty_room M ltac:(lia)) as [Hroom Hdepth].
  destruct (insert_all_spec M ltac:(lia) HM16 kvs empty 0 Hroom Hdepth)
    as (t1 & h & Hrun1 & _ & Hdepth' & _).
  assert (t1 = t) as -> by congruence.
  destruct (insert_all_filled M ltac:(lia) HM16 kvs empty 0 Hroom Hdepth)
    as (t0 & Hrun0 & Hf); [by left|].
  assert (t0 = t) as -> by congruence.
  destruct (insert_all_wide_nodes M ltac:(lia) HM16 kvs empty 0 Hroom Hdepth)
    as (t0 & Hrun0' & Hw); [done|].
  assert (t0 = t) as -> by congruence.
  exists t, h. do 3 (split; [done|]). rewrite <- Hp.
  destruct t as [n ks vs|n ks cs].
  - left. by apply depthb_leaf_iff in Hdepth'.
  - right. destruct Hf as [Hleaf|Hf]; [done|].
    apply depthb_internal_iff in Hdepth' as (h' & -> & Hdeep).
    cbn [shapeb] in Hshape. cbn [separator_in_each] in Hsie. bools.
    cbn [filledb] in Hf. cbn [children_wide] in Hw.
    assert (Forall (λ c, (M - M / 2 - 1 + 1) ^ h' * (M / 2)
                         ≤ length (leaf_pairs c)) cs) as Hall.
    { apply Forall_lookup. intros j c Hc.
      apply depth_count; by eapply forallb_lookup. }
    apply children_pairs_count in Hall. cbn [leaf_pairs].
    pose proof (half_bounds M ltac:(lia)) as (Hh1 & Hh2 & Hh3).
    replace (M - M / 2 - 1 + 1) with (M - M / 2) in Hall by lia.
    replace (S h' - 1) with h' by lia.
    assert (2 * ((M - M / 2) ^ h' * (M / 2))
            ≤ length cs * ((M - M / 2) ^ h' * (M / 2))) as Hle
      by (apply Nat.mul_le_mono_r; lia).
    lia.
Qed.

(** X20: the tree built by any run of inserts from the empty tree, for a
    fan-out of at least 3: as soon as the root is not a leaf every leaf
    holds at least [M / 2] pairs, and the tree has at most one node more
    than two for every [M / 2] inserted pairs, repeated keys included. *)
Theorem built_tree_size (M : nat) (kvs : list (Z * Z)) :
  3 ≤ M → (Z.of_nat M < 65536)%Z →
  ∃ t,
    insert_all M empty kvs = Some t
    ∧ (is_leaf t = true ∨ filledb (M / 2) t = true)
    ∧ node_count t * (M / 2) ≤ 2 * length kvs + M / 2.
Proof.
  intros HM3 HM16.
  destruct (inserts_count M kvs HM3 HM16) as (t & Hrun & Hbound).
  destruct (empty_room M ltac:(lia)) as [Hroom Hdepth].
  destruct (insert_all_filled M ltac:(lia) HM16 kvs empty 0 Hroom Hdepth)
    as (t0 & Hrun0 & Hf); [by left|].
  assert (t0 = t) as -> by congruence.
  by exists t.
Qed.

Lemma built_tree_size_witness :
  ∃ t,
    insert_all 4 empty [(5, 1); (5, 2); (1, 3); (5, 4); (9, 5); (7, 6)]%Z
    = Some t
    ∧ (is_leaf t = true ∨ filledb (4 / 2) t = true)
    ∧ node_count t * (4 / 2) ≤ 2 * 6 + 4 / 2.
Proof.
  apply (built_tree_size 4); lia.
Defined.

(** X21: the depth of the tree built by any run of inserts from the
    empty tree, for a fan-out of at least 3: every internal node below the
    root holds at least [M - M / 2 - 1] keys, all leaves are at one depth
    [h], and [2 * (M - M / 2) ^ (h - 1) * (M / 2)] is at most the number of
    inserted pairs when the root is not a leaf: the depth is logarithmic in
    the number of pairs. *)
Theorem built_tree_depth (M : nat) (kvs : list (Z * Z)) :
  3 ≤ M → (Z.of_nat M < 65536)%Z →
  ∃ t h,
    insert_all M empty kvs = Some t
    ∧ depthb h t = true
    ∧ children_wide (M - M / 2 - 1) t = true
    ∧ (h = 0 ∨ 2 * (M - M / 2) ^ (h - 1) * (M / 2) ≤ length kvs).
Proof.
  intros HM3 HM16.
  destruct (inserts_depth M kvs HM3 HM16) as (t & h & Hrun & Hd & Hw & Hb).
  by exists t, h.
Qed.

Lemma built_tree_depth_witness :
  ∃ t h,
    insert_all 4 empty [(5, 1); (5, 2); (1, 3); (5, 4); (9, 5); (7, 6)]%Z
    = Some t
    ∧ depthb h t = true
    ∧ children_wide (4 - 4 / 2 - 1) t = true
    ∧ (h = 0 ∨ 2 * (4 - 4 / 2) ^ (h - 1) * (4 / 2) ≤ 6).
Proof.
  apply (built_tree_depth 4); lia.
Defined.

(** X22: the constructor and a run of [P] inserts on a new arena throw
    nothing when the arena has room for [2 * P / (M / 2) + 1] nodes of the
    rounded size; the tree is the one the inserts build, and the bytes in
    use are its nodes times the rounded size of a node. *)
Theorem inserts_fit_the_arena (node_size : Z) (M : nat) (base size : Z)
    (kvs : list (Z * Z)) :
  3 ≤ M → (Z.of_nat M < 65536)%Z →
  (0 ≤ node_size)%Z → (node_size + 63 < Arena.size_max)%Z →
  (0 ≤ size)%Z → (size + round_up_64 node_size < Arena.size_max)%Z →
  (Z.of_nat (2 * length kvs + M / 2) * round_up_64 node_size
   ≤ Z.of_nat (M / 2) * size)%Z →
  ∃ a0 t a',
    BPlusTree_in node_size (Some (Arena.new base size))
    = (Returned empty, Some a0)
    ∧ insert_all_in node_size M (Some a0) empty kvs
      = Some (t, Returned (), Some a')
    ∧ insert_all M empty kvs = Some t
    ∧ Arena.get_used_memory a'
      = (Z.of_nat (node_count t) * round_up_64 node_size)%Z
    ∧ (Arena.get_used_memory a' ≤ Arena.get_capacity a')%Z.
Proof.
  intros HM3 HM16 Hns Hns63 Hsize Hcap Hfit.
  destruct (inserts_fit node_size M base size kvs HM3 HM16 Hns Hns63 Hsize
              Hcap Hfit) as (a0 & t & a' & Hctor & Hrun & Hpure & _ & Hused).
  by exists a0, t, a'.
Qed.

Lemma inserts_fit_the_arena_witness :
  ∃ a0 t a',
    BPlusTree_in 100 (Some (Arena.new 4096 1024)) = (Returned empty, Some a0)
    ∧ insert_all_in 100 4 (Some a0) empty [(5, 1); (5, 2); (1, 3)]%Z
      = Some (t, Returned (), Some a')
    ∧ insert_all 4 empty [(5, 1); (5, 2); (1, 3)]%Z = Some t
    ∧ Arena.get_used_memory a' = (Z.of_nat (node_count t) * round_up_64 100)%Z
    ∧ (Arena.get_used_memory a' ≤ Arena.get_capacity a')%Z.
Proof.
  apply (inserts_fit_the_arena 100 4 4096 1024); try lia; by vm_compute.
Defined.

(** X23: the insertion loop of the benchmark: a [BPlusTree<int, int>] of
    the default fan-out 256 on an arena of 1 GB, with at most 1000000
    inserts of any keys and a node of at most 65536 bytes.  The constructor
    and every [insert] return, the tree has at most 15626 nodes on at most
    three levels, and the arena has used that many rounded node sizes at
    most. *)
Theorem benchmark_inserts_fit (node_size base : Z) (kvs : list (Z * Z)) :
  (0 ≤ node_size ≤ 65536)%Z →
  (Z.of_nat (length kvs) ≤ 1000000)%Z →
  ∃ a0 t a' h,
    BPlusTree_in node_size (Some (Arena.new base (1024 * 1024 * 1024)))
    = (Returned empty, Some a0)
    ∧ insert_all_in node_size 256 (Some a0) empty kvs
      = Some (t, Returned (), Some a')
    ∧ insert_all 256 empty kvs = Some t
    ∧ (Z.of_nat (node_count t) ≤ 15626)%Z
    ∧ depthb h t = true ∧ h ≤ 2
    ∧ (Arena.get_used_memory a' ≤ 15626 * round_up_64 node_size)%Z.
Proof.
  intros Hns Hlen.
  pose proof (round_up_64_bounds node_size) as (_ & Hlo & Hhi).
  assert (256 / 2 = 128) as Hhalf by done.
  destruct (inserts_fit node_size 256 base (1024 * 1024 * 1024) kvs)
    as (a0 & t & a' & Hctor & Hrun & Hpure & Hbound & Hused & _).
  - lia.
  - lia.
  - lia.
  - unfold Arena.size_max. lia.
  - lia.
  - unfold Arena.size_max. lia.
  - rewrite Hhalf. nia.
  - destruct (inserts_depth 256 kvs ltac:(lia) ltac:(lia))
      as (t1 & h & Hrun1 & Hdepth & _ & Hh).
    assert (t1 = t) as -> by congruence.
    rewrite Hhalf in Hbound, Hh. exists a0, t, a', h.
    do 3 (split; [done|]). split; [lia|]. split; [done|]. split.
    + destruct Hh as [->|Hh]; [lia|].
      destruct h as [|[|[|h]]]; [lia..|].
      replace (S (S (S h)) - 1) with (S (S h)) in Hh by lia.
      pose proof (Nat.pow_le_mono_r (256 - 128) 2 (S (S h)) ltac:(lia)
                    ltac:(lia)) as Hpow.
      change ((256 - 128) ^ 2) with (128 * 128) in Hpow. nia.
    + rewrite Hused. nia.
Qed.

Lemma benchmark_inserts_fit_witness :
  ∃ a0 t a' h,
    BPlusTree_in 3136 (Some (Arena.new 4096 (1024 * 1024 * 1024)))
    = (Returned empty, Some a0)
    ∧ insert_all_in 3136 256 (Some a0) empty [(7, 70); (3, 30); (7, 70)]%Z
      = Some (t, Returned (), Some a')
    ∧ insert_all 256 empty [(7, 70); (3, 30); (7, 70)]%Z = Some t
    ∧ (Z.of_nat (node_count t) ≤ 15626)%Z
    ∧ depthb h t = true ∧ h ≤ 2
    ∧ (Arena.get_used_memory a' ≤ 15626 * round_up_64 3136)%Z.
Proof.
  apply (benchmark_inserts_fit 3136 4096); [lia|]. cbn [length]. lia.
Defined.

(** * The tree after an insert that threw *)

Section Thrown.

Variables (node_size : Z) (M : nat).
Hypothesis HM2 : 2 ≤ M.
Hypothesis HM16 : (Z.of_nat M < 65536)%Z.


End Thrown.


